(** * scrape-youtube: incremental ingestion controller

    A shallow embedding of [carey-nieuwhof/scrape-youtube] (utils.ts and
    index.ts) together with the parts of the JavaScript run time the
    program leans on (string primitives, [Number], [Date], [URL]) and of
    the relational store it writes to.

    Conventions.
    - A JavaScript string is a Rocq [string]; every character stands for
      one UTF-16 code unit below 256.  Algorithms that walk a string work
      on its [list ascii].
    - A JavaScript number is a [number]: not-a-number, an infinity, or an
      exact decimal [mant * 10 ^ expo].  Rounding to binary64 is not
      modelled.  Numbers the program only produces as integers (time
      values, truncated fields, counters) are in [Z].
    - A [Date] is its time value: [Some ms] or [None] for an invalid date.
    - [undefined] and [null] are [None].
    - Asynchronous code is written in state-passing style; the streaming
      run is a transition system over the events of the Node event loop. *)

From Stdlib Require Import ZArith List Ascii String Lia Bool.
From stdpp Require Import gmap strings list.

Local Open Scope Z_scope.

(** ** JavaScript strings *)

Module JS.

Definition chars (s : string) : list ascii := list_ascii_of_string s.
Definition str (l : list ascii) : string := string_of_list_ascii l.

Definition code (c : ascii) : N := N_of_ascii c.

(** WhiteSpace and LineTerminator code units below 256: TAB, LF, VT, FF,
    CR, SP and NBSP. *)
Definition isWhiteSpace (c : ascii) : bool :=
  let n := code c in
  (((9 <=? n) && (n <=? 13)) || (n =? 32) || (n =? 160))%N.

Fixpoint trimStart_l (l : list ascii) : list ascii :=
  match l with
  | c :: l' => if isWhiteSpace c then trimStart_l l' else l
  | [] => []
  end.

Definition trimEnd_l (l : list ascii) : list ascii :=
  rev (trimStart_l (rev l)).

Definition trim_l (l : list ascii) : list ascii := trimEnd_l (trimStart_l l).

(** [String.prototype.trim]. *)
Definition trim (s : string) : string := str (trim_l (chars s)).

Definition isUpper (c : ascii) : bool :=
  let n := code c in
  (((65 <=? n) && (n <=? 90)) || ((192 <=? n) && (n <=? 222) && negb (n =? 215)))%N.

Definition isLower (c : ascii) : bool :=
  let n := code c in
  (((97 <=? n) && (n <=? 122)) || ((224 <=? n) && (n <=? 254) && negb (n =? 247)))%N.

Definition lowerChar (c : ascii) : ascii :=
  if isUpper c then ascii_of_N (code c + 32) else c.

(** [String.prototype.toLowerCase] on code units below 256. *)
Definition toLowerCase (s : string) : string := str (map lowerChar (chars s)).

(** [String.prototype.toUpperCase] on code units below 256: sharp s
    becomes two letters; the two letters whose capitals lie above 255
    (micro sign, y with diaeresis) are kept, which no comparison against
    an ASCII string can tell apart. *)
Definition upperChar (c : ascii) : list ascii :=
  if isLower c then [ascii_of_N (code c - 32)]
  else if (code c =? 223)%N then ["S"%char; "S"%char]
  else [c].

Definition toUpperCase (s : string) : string :=
  str (flat_map upperChar (chars s)).

Fixpoint startsWith_l (p l : list ascii) : bool :=
  match p, l with
  | [], _ => true
  | a :: p', b :: l' => Ascii.eqb a b && startsWith_l p' l'
  | _ :: _, [] => false
  end.

(** [String.prototype.startsWith]. *)
Definition startsWith (s p : string) : bool := startsWith_l (chars p) (chars s).

(** [String.prototype.endsWith]. *)
Definition endsWith (s p : string) : bool :=
  startsWith_l (rev (chars p)) (rev (chars s)).

Fixpoint includes_l (l p : list ascii) : bool :=
  startsWith_l p l ||
  match l with
  | [] => false
  | _ :: l' => includes_l l' p
  end.

(** [String.prototype.includes]. *)
Definition includes (s p : string) : bool := includes_l (chars s) (chars p).

(** [String.prototype.slice] for [0 <= from <= to]. *)
Definition slice (s : string) (from to : nat) : string :=
  substring from (to - from) s.

Definition isEmpty (s : string) : bool :=
  match s with EmptyString => true | _ => false end.

(** ** Numbers *)

Inductive number : Type :=
| NaN
| Infinity (negative : bool)
| Fin (mant expo : Z).

Definition isNaN (x : number) : bool :=
  match x with NaN => true | _ => false end.

Definition isFinite (x : number) : bool :=
  match x with Fin _ _ => true | _ => false end.

Definition ofZ (n : Z) : number := Fin n 0.

(** [x < k] for an integer [k]; comparisons with not-a-number are false. *)
Definition ltZ (x : number) (k : Z) : bool :=
  match x with
  | NaN => false
  | Infinity neg => neg
  | Fin m e => if 0 <=? e then m * 10 ^ e <? k else m <? k * 10 ^ (- e)
  end.

(** [x > k] for an integer [k]. *)
Definition gtZ (x : number) (k : Z) : bool :=
  match x with
  | NaN => false
  | Infinity neg => negb neg
  | Fin m e => if 0 <=? e then k <? m * 10 ^ e else k * 10 ^ (- e) <? m
  end.

Definition geZ (x : number) (k : Z) : bool :=
  match x with
  | NaN => false
  | _ => negb (ltZ x k)
  end.

Definition leZ (x : number) (k : Z) : bool :=
  match x with
  | NaN => false
  | _ => negb (gtZ x k)
  end.

(** [x - k] and [x * 1000]. *)
Definition subZ (x : number) (k : Z) : number :=
  match x with
  | Fin m e => if 0 <=? e then Fin (m * 10 ^ e - k) 0 else Fin (m - k * 10 ^ (- e)) e
  | _ => x
  end.

Definition times1000 (x : number) : number :=
  match x with
  | Fin m e => Fin m (e + 3)
  | _ => x
  end.

(** ToIntegerOrInfinity on a finite number: truncation towards zero
    ([Math.trunc]). *)
Definition truncate (m e : Z) : Z :=
  if 0 <=? e then m * 10 ^ e else Z.quot m (10 ^ (- e)).

(** [Math.floor] on a finite number. *)
Definition floor (m e : Z) : Z :=
  if 0 <=? e then m * 10 ^ e else m / 10 ^ (- e).

(** *** StringToNumber *)

Definition isDigit (c : ascii) : bool :=
  let n := code c in ((48 <=? n) && (n <=? 57))%N.

Definition digitVal (c : ascii) : Z := Z.of_N (code c) - 48.

Definition hexVal (c : ascii) : option Z :=
  let n := code c in
  if ((48 <=? n) && (n <=? 57))%N then Some (Z.of_N n - 48)
  else if ((65 <=? n) && (n <=? 70))%N then Some (Z.of_N n - 55)
  else if ((97 <=? n) && (n <=? 102))%N then Some (Z.of_N n - 87)
  else None.

(** Value of a digit sequence, most significant first. *)
Definition digitsVal (l : list ascii) : Z :=
  fold_left (fun acc c => 10 * acc + digitVal c) l 0.

Fixpoint spanDigits (l : list ascii) : list ascii * list ascii :=
  match l with
  | c :: l' =>
      if isDigit c then let '(d, r) := spanDigits l' in (c :: d, r) else ([], l)
  | [] => ([], [])
  end.

(** Digits of a non-decimal literal in base [b]; every character must be
    a digit below [b] and there must be at least one. *)
Fixpoint radixVal (b : Z) (l : list ascii) (acc : Z) : option Z :=
  match l with
  | [] => Some acc
  | c :: l' =>
      match hexVal c with
      | Some v => if v <? b then radixVal b l' (b * acc + v) else None
      | None => None
      end
  end.

Definition radixLiteral (b : Z) (l : list ascii) : number :=
  match l with
  | [] => NaN
  | _ => match radixVal b l 0 with Some v => Fin v 0 | None => NaN end
  end.

(** SignedInteger of an ExponentPart. *)
Definition signedInteger (l : list ascii) : option Z :=
  let body (neg : bool) (d : list ascii) :=
    match d with
    | [] => None
    | _ => if forallb isDigit d
           then Some (if neg then - digitsVal d else digitsVal d)
           else None
    end in
  match l with
  | c :: d =>
      if Ascii.eqb c "+" then body false d
      else if Ascii.eqb c "-" then body true d
      else body false l
  | [] => body false l
  end.

Definition exponentPart (m e : Z) (l : list ascii) : number :=
  match l with
  | [] => Fin m e
  | c :: l' =>
      if (Ascii.eqb c "e" || Ascii.eqb c "E")%char
      then match signedInteger l' with
           | Some x => Fin m (e + x)
           | None => NaN
           end
      else NaN
  end.

(** StrUnsignedDecimalLiteral. *)
Definition unsignedDecimal (l : list ascii) : number :=
  if decide (l = chars "Infinity") then Infinity false
  else
    let '(ip, r1) := spanDigits l in
    let whole :=
      match ip with
      | [] => NaN
      | _ => exponentPart (digitsVal ip) 0 r1
      end in
    match r1 with
    | c :: r2 =>
        if Ascii.eqb c "." then
          let '(fp, r3) := spanDigits r2 in
          match ip, fp with
          | [], [] => NaN
          | _, _ => exponentPart (digitsVal (ip ++ fp)) (- Z.of_nat (length fp)) r3
          end
        else whole
    | [] => whole
    end.

Definition negate (x : number) : number :=
  match x with
  | NaN => NaN
  | Infinity neg => Infinity (negb neg)
  | Fin m e => Fin (- m) e
  end.

(** StrDecimalLiteral. *)
Definition signedDecimal (l : list ascii) : number :=
  match l with
  | c :: d =>
      if Ascii.eqb c "+" then unsignedDecimal d
      else if Ascii.eqb c "-" then negate (unsignedDecimal d)
      else unsignedDecimal l
  | [] => unsignedDecimal l
  end.

(** The base a NonDecimalIntegerLiteral's prefix announces. *)
Definition radixOfPrefix (c0 c1 : ascii) : option Z :=
  if negb (Ascii.eqb c0 "0") then None
  else if Ascii.eqb c1 "x" || Ascii.eqb c1 "X" then Some 16
  else if Ascii.eqb c1 "o" || Ascii.eqb c1 "O" then Some 8
  else if Ascii.eqb c1 "b" || Ascii.eqb c1 "B" then Some 2
  else None.

(** StrNumericLiteral. *)
Definition numericLiteral (l : list ascii) : number :=
  match l with
  | c0 :: c1 :: d =>
      match radixOfPrefix c0 c1 with
      | Some b => radixLiteral b d
      | None => signedDecimal l
      end
  | _ => signedDecimal l
  end.

(** [Number(s)] for a string [s]: the empty or all-blank string is zero. *)
Definition Number (s : string) : number :=
  match trim_l (chars s) with
  | [] => Fin 0 0
  | l => numericLiteral l
  end.

(** *** Decimal text of an integer ([Number::toString], radix 10) *)

Definition digitChar (n : N) : ascii := ascii_of_N (48 + n).

Fixpoint natDigits (fuel : nat) (n : N) (acc : list ascii) : list ascii :=
  match fuel with
  | O => acc
  | S fuel' =>
      let acc' := digitChar (n mod 10) :: acc in
      if (n / 10 =? 0)%N then acc' else natDigits fuel' (n / 10)%N acc'
  end.

Definition decimal_l (n : Z) : list ascii :=
  let d := natDigits (S (N.size_nat (Z.abs_N n))) (Z.abs_N n) [] in
  if n <? 0 then "-"%char :: d else d.

Definition decimal (n : Z) : string := str (decimal_l n).

(** [String.prototype.padStart(width, "0")]. *)
Definition padStart0 (width : nat) (s : string) : string :=
  str (repeat "0"%char (width - String.length s) ++ chars s).

(** ** Dates (ECMAScript time values, milliseconds since the epoch) *)

Definition msPerDay : Z := 86400000.

Definition Day (t : Z) : Z := t / msPerDay.

Definition TimeWithinDay (t : Z) : Z := t mod msPerDay.

Definition DaysInYear (y : Z) : Z :=
  if negb (y mod 4 =? 0) then 365
  else if negb (y mod 100 =? 0) then 366
  else if negb (y mod 400 =? 0) then 365
  else 366.

Definition DayFromYear (y : Z) : Z :=
  365 * (y - 1970) + (y - 1969) / 4 - (y - 1901) / 100 + (y - 1601) / 400.

(** The year of a day number.  ECMAScript specifies YearFromTime as the
    largest [y] with [TimeFromYear y <= t]; it is computed here from an
    estimate that is off by at most one year. *)
Definition yearOfDay (d : Z) : Z :=
  let y := 1970 + (400 * d) / 146097 in
  if d <? DayFromYear y then y - 1
  else if DayFromYear (y + 1) <=? d then y + 1
  else y.

Definition YearFromTime (t : Z) : Z := yearOfDay (Day t).

Definition InLeapYear (t : Z) : Z :=
  if DaysInYear (YearFromTime t) =? 366 then 1 else 0.

Definition DayWithinYear (t : Z) : Z := Day t - DayFromYear (YearFromTime t).

(** Day number within the year of the first day of month [m] (0-based). *)
Definition monthStart (leap m : Z) : Z :=
  match m with
  | 0 => 0
  | 1 => 31
  | 2 => 59 + leap
  | 3 => 90 + leap
  | 4 => 120 + leap
  | 5 => 151 + leap
  | 6 => 181 + leap
  | 7 => 212 + leap
  | 8 => 243 + leap
  | 9 => 273 + leap
  | 10 => 304 + leap
  | _ => 334 + leap
  end.

Definition MonthFromTime (t : Z) : Z :=
  let d := DayWithinYear t in
  let leap := InLeapYear t in
  if d <? 31 then 0
  else if d <? 59 + leap then 1
  else if d <? 90 + leap then 2
  else if d <? 120 + leap then 3
  else if d <? 151 + leap then 4
  else if d <? 181 + leap then 5
  else if d <? 212 + leap then 6
  else if d <? 243 + leap then 7
  else if d <? 273 + leap then 8
  else if d <? 304 + leap then 9
  else if d <? 334 + leap then 10
  else 11.

Definition DateFromTime (t : Z) : Z :=
  DayWithinYear t - monthStart (InLeapYear t) (MonthFromTime t) + 1.

(** MakeDay on integral arguments: the day number of the first of the
    month, found from year [year + month / 12] and month [month mod 12],
    plus [date - 1]. *)
Definition MakeDay (year month date : Z) : Z :=
  let ym := year + month / 12 in
  let mn := month mod 12 in
  let leap := if DaysInYear ym =? 366 then 1 else 0 in
  DayFromYear ym + monthStart leap mn + date - 1.

Definition MakeDate (day time : Z) : Z := day * msPerDay + time.

Definition maxTime : Z := 8640000000000000.

Definition TimeClip (t : Z) : option Z :=
  if Z.abs t <=? maxTime then Some t else None.

Definition MakeFullYear (y : Z) : Z :=
  if (0 <=? y) && (y <=? 99) then 1900 + y else y.

(** [Date.UTC(year, month, date)]; the clock arguments are absent. *)
Definition Date_UTC (year month date : number) : option Z :=
  match year, month, date with
  | Fin ym ye, Fin mm me, Fin dm de =>
      TimeClip
        (MakeDate
           (MakeDay (MakeFullYear (truncate ym ye)) (truncate mm me) (truncate dm de))
           0)
  | _, _, _ => None
  end.

(** A [Date] object is its time value; [None] is the invalid date. *)
Definition Date : Type := option Z.

(** [new Date(value)] for a number. *)
Definition newDate (x : number) : Date :=
  match x with
  | Fin m e =>
      if gtZ x maxTime || ltZ x (- maxTime) then None else Some (truncate m e)
  | _ => None
  end.

(** [new Date(ms)] for an integral number of milliseconds. *)
Definition newDateZ (ms : Z) : Date := TimeClip ms.

Definition getUTCFullYear (d : Date) : option Z := option_map YearFromTime d.
Definition getUTCMonth (d : Date) : option Z := option_map MonthFromTime d.
Definition getUTCDate (d : Date) : option Z := option_map DateFromTime d.

(** [d.setUTCDate(dt)]; returns the updated date. *)
Definition setUTCDate (d : Date) (dt : option Z) : Date :=
  match d, dt with
  | Some t, Some dt =>
      TimeClip (MakeDate (MakeDay (YearFromTime t) (MonthFromTime t) dt) (TimeWithinDay t))
  | _, _ => None
  end.

(** Text of a number that is an integer or not-a-number (template
    literal interpolation). *)
Definition showInt (x : option Z) : string :=
  match x with
  | Some n => decimal n
  | None => "NaN"
  end.

End JS.
Import JS.

(** ** The WHATWG [URL] class, for http and https URLs

    [parse] models [new URL(s)] on absolute http(s) URLs written as
    [scheme://host/path?query#fragment]: scheme and host are lower-cased
    and the remaining components are kept as written.  The characters
    the platform would percent-encode, dot segments, credentials, ports,
    numeric and internationalised hosts and the tolerant readings of a
    missing [//] are not modelled; [URL.plain] below delimits the
    strings on which the model and the platform agree, and the
    statements about [parse] are made on those strings only.  A string
    without a scheme is rejected ([None] stands for the TypeError the
    constructor throws). *)

Module URL.

Record t : Type := {
  scheme : list ascii;
  host : list ascii;
  path : list ascii;
  query : option (list ascii);
  fragment : option (list ascii)
}.

Definition isAlpha (c : ascii) : bool :=
  let n := code c in
  (((65 <=? n) && (n <=? 90)) || ((97 <=? n) && (n <=? 122)))%N.

Definition asciiLower (c : ascii) : ascii :=
  let n := code c in
  if ((65 <=? n) && (n <=? 90))%N then ascii_of_N (n + 32) else c.

Definition isSchemeChar (c : ascii) : bool :=
  isAlpha c || isDigit c || Ascii.eqb c "+" || Ascii.eqb c "-" || Ascii.eqb c ".".

(** Split at the first character satisfying [stop]: the prefix before it
    and the rest from it on. *)
Fixpoint breakAt (stop : ascii -> bool) (l : list ascii) : list ascii * list ascii :=
  match l with
  | c :: l' =>
      if stop c then ([], l)
      else let '(a, b) := breakAt stop l' in (c :: a, b)
  | [] => ([], [])
  end.

Definition isColon (c : ascii) : bool := Ascii.eqb c ":".
Definition isSlash (c : ascii) : bool := Ascii.eqb c "/".
Definition endsAuthority (c : ascii) : bool :=
  Ascii.eqb c "/" || Ascii.eqb c "?" || Ascii.eqb c "#".
Definition endsPath (c : ascii) : bool := Ascii.eqb c "?" || Ascii.eqb c "#".
Definition isHash (c : ascii) : bool := Ascii.eqb c "#".

Definition isHttp (sc : list ascii) : bool :=
  bool_decide (sc = chars "http") || bool_decide (sc = chars "https").

Definition parse_l (l : list ascii) : option t :=
  let '(sc, r) := breakAt isColon l in
  match sc, r with
  | c0 :: _, _ :: s1 :: s2 :: r1 =>
      if isSlash s1 && isSlash s2
         && isAlpha c0 && forallb isSchemeChar sc && isHttp (map asciiLower sc) then
        let '(h, r2) := breakAt endsAuthority r1 in
        match h with
        | [] => None
        | _ =>
            let '(p, r3) := breakAt endsPath r2 in
            let '(q, r4) :=
              match r3 with
              | c :: r3' =>
                  if Ascii.eqb c "?"
                  then let '(q, r4) := breakAt isHash r3' in (Some q, r4)
                  else (None, r3)
              | [] => (None, r3)
              end in
            let f := match r4 with _ :: r5 => Some r5 | [] => None end in
            Some {| scheme := map asciiLower sc;
                    host := map asciiLower h;
                    path := match p with [] => ["/"%char] | _ => p end;
                    query := q;
                    fragment := f |}
        end
      else None
  | _, _ => None
  end.

(** [new URL(s)]. *)
Definition parse (s : string) : option t := parse_l (chars s).

(** The [pathname] getter. *)
Definition pathname (u : t) : string := str (path u).

(** The [search] and [hash] setters, given the empty string. *)
Definition clearSearch (u : t) : t :=
  {| scheme := scheme u; host := host u; path := path u;
     query := None; fragment := fragment u |}.

Definition clearHash (u : t) : t :=
  {| scheme := scheme u; host := host u; path := path u;
     query := query u; fragment := None |}.

(** The [pathname] setter: the value is read as a path under the root. *)
Definition setPathname (u : t) (v : string) : t :=
  {| scheme := scheme u; host := host u;
     path := match chars v with
             | c :: _ => if isSlash c then chars v else "/"%char :: chars v
             | [] => ["/"%char]
             end;
     query := query u; fragment := fragment u |}.

Definition href_l (u : t) : list ascii :=
  scheme u ++ chars "://" ++ host u ++ path u
  ++ match query u with Some q => "?"%char :: q | None => [] end
  ++ match fragment u with Some f => "#"%char :: f | None => [] end.

(** [toString()] (the [href]). *)
Definition toString (u : t) : string := str (href_l u).

(** Characters of a path segment the parser keeps as they are: printable
    ASCII without the path percent-encode set and the backslash.  A
    percent sign is kept as written, whatever follows it. *)
Definition plainPathChar (c : ascii) : bool :=
  let n := code c in
  ((33 <=? n) && (n <=? 126))%N
  && negb (existsb (Ascii.eqb c) (chars "#<>?^`{}\"))
  && negb (n =? 34)%N.

Definition printable (c : ascii) : bool :=
  let n := code c in ((33 <=? n) && (n <=? 126))%N.

(** Segments of a path (the pieces between slashes). *)
Fixpoint segments (l : list ascii) (cur : list ascii) : list (list ascii) :=
  match l with
  | [] => [rev cur]
  | c :: l' =>
      if isSlash c then rev cur :: segments l' [] else segments l' (c :: cur)
  end.

(** The segments the parser takes for [.] and [..]: a dot may also be
    written [%2e], in either case. *)
Definition isDotSegment (seg : list ascii) : bool :=
  bool_decide (map asciiLower seg
               ∈ [chars "."; chars ".."; chars "%2e"; chars ".%2e"; chars "%2e.";
                  chars "%2e%2e"]).

Definition plainHostChar (c : ascii) : bool :=
  isAlpha c || isDigit c || Ascii.eqb c "." || Ascii.eqb c "-".

(** The labels of a host (the pieces between dots). *)
Definition labels (h : list ascii) : list (list ascii) :=
  segments (map (fun c => if Ascii.eqb c "." then "/"%char else c) h) [].

(** The last label of a host starts with a letter, so the host is a
    domain and not an IPv4 literal. *)
Definition lastLabelAlpha (h : list ascii) : bool :=
  match last (labels h) with
  | Some (c :: _) => isAlpha c
  | _ => false
  end.

(** A label that starts with [xn--], in either case: the platform
    decodes it as Punycode. *)
Definition isPunycode (label : list ascii) : bool :=
  match map asciiLower label with
  | c1 :: c2 :: c3 :: c4 :: _ =>
      Ascii.eqb c1 "x" && Ascii.eqb c2 "n" && Ascii.eqb c3 "-" && Ascii.eqb c4 "-"
  | _ => false
  end.

(** The URLs on which [parse] agrees with the platform: the scheme is
    http or https, in any case, and is followed by two slashes; the host
    is made of letters, digits, dots and hyphens (so it holds neither
    credentials nor a port), its last label starts with a letter and no
    label is in Punycode; the path is made of characters the parser
    keeps and has no dot segment; what follows the path is printable. *)
Definition plain_l (l : list ascii) : bool :=
  let '(sc, r) := breakAt isColon l in
  match r with
  | _ :: s1 :: s2 :: r1 =>
      let '(h, r2) := breakAt endsAuthority r1 in
      let '(p, r3) := breakAt endsPath r2 in
      isSlash s1 && isSlash s2 && isHttp (map asciiLower sc)
      && forallb plainHostChar h && lastLabelAlpha h
      && negb (existsb isPunycode (labels h))
      && forallb plainPathChar p
      && negb (existsb isDotSegment (segments p []))
      && forallb printable r3
  | _ => false
  end.

Definition plain (s : string) : bool := plain_l (chars s).

End URL.

(** ** utils.ts *)

(** A value of type [unknown] read from a parsed JSON document. *)
#[warnings="-register-all"]
Inductive json : Type :=
| JNull
| JBool (b : bool)
| JNum (n : number)
| JStr (s : string)
| JArr (l : list json)
| JObj (fields : list (string * json)).

(** [RawVideo]: a record of properties; an absent key reads as
    [undefined]. *)
Definition RawVideo : Type := list (string * json).

Fixpoint prop (v : RawVideo) (key : string) : option json :=
  match v with
  | [] => None
  | (k, x) :: v' => if String.eqb k key then Some x else prop v' key
  end.

Definition parsePositiveInt (raw : option string) : option Z :=
  match raw with
  | None => None
  | Some r =>
      if isEmpty r then None
      else match Number r with
           | Fin m e => if leZ (Fin m e) 0 then None else Some (floor m e)
           | _ => None
           end
  end.

Definition isTruthy (raw : option string) : bool :=
  match raw with
  | None => false
  | Some r =>
      if isEmpty r then false
      else bool_decide (toLowerCase r ∈ ["1"; "true"; "yes"; "on"])
  end.

Definition toNonEmptyString (value : option json) : option string :=
  match value with
  | Some (JStr s) =>
      let trimmed := trim s in
      if (0 <? String.length trimmed)%nat then Some trimmed else None
  | _ => None
  end.

Definition toOptionalString (value : option json) : option string :=
  toNonEmptyString value.

Definition toIntegerOrNull (value : option json) : option Z :=
  match value with
  | Some (JNum (Fin m e)) => if geZ (Fin m e) 0 then Some (truncate m e) else None
  | Some (JStr s) =>
      match Number s with
      | Fin m e => if geZ (Fin m e) 0 then Some (truncate m e) else None
      | _ => None
      end
  | _ => None
  end.

(** [parseUploadDate]: epoch seconds, or [None] for not-a-number.  The
    time value [Date.UTC] returns is a whole number of days
    ([Date_UTC_whole_days]), so dividing it by 1000 is exact. *)
Definition parseUploadDate (uploadDate : string) : option Z :=
  if negb (String.length uploadDate =? 8)%nat then None
  else
    let year := Number (slice uploadDate 0 4) in
    let month := Number (slice uploadDate 4 6) in
    let day := Number (slice uploadDate 6 8) in
    if isNaN year || isNaN month || isNaN day
       || ltZ month 1 || gtZ month 12 || ltZ day 1 || gtZ day 31
    then None
    else option_map (fun ms => ms / 1000) (Date_UTC year (subZ month 1) day).

Definition getUploadedAtDate (video : RawVideo) : option Date :=
  match prop video "timestamp" with
  | Some (JNum (Fin m e)) =>
      if gtZ (Fin m e) 0 then Some (newDate (times1000 (Fin m e)))
      else
        match prop video "upload_date" with
        | Some (JStr s) =>
            match parseUploadDate s with
            | Some parsed => if 0 <? parsed then Some (newDateZ (parsed * 1000)) else None
            | None => None
            end
        | _ => None
        end
  | _ =>
      match prop video "upload_date" with
      | Some (JStr s) =>
          match parseUploadDate s with
          | Some parsed => if 0 <? parsed then Some (newDateZ (parsed * 1000)) else None
          | None => None
          end
      | _ => None
      end
  end.

Definition watchUrl (fallbackId : string) : string :=
  "https://www.youtube.com/watch?v=" +:+ fallbackId.

Definition resolveVideoUrl (video : RawVideo) (fallbackId : string) : string :=
  let candidates :=
    [toNonEmptyString (prop video "webpage_url");
     toNonEmptyString (prop video "url");
     Some (watchUrl fallbackId)] in
  let truthy (c : option string) :=
    match c with Some s => negb (isEmpty s) | None => false end in
  match find truthy candidates with
  | Some (Some candidate) => candidate
  | _ => watchUrl fallbackId
  end.

Definition isLiveVideo (video : RawVideo) : bool :=
  match prop video "is_live" with
  | Some (JBool b) => b
  | _ =>
      match prop video "live_status" with
      | Some (JStr s) =>
          let normalized := toLowerCase s in
          String.eqb normalized "is_live" || String.eqb normalized "live"
      | _ => false
      end
  end.

(** The channel tabs removed by [normalizeChannelUrl]. *)
Definition channelTabs : list (list ascii) :=
  map chars ["videos"; "shorts"; "streams"; "featured"; "community"].

(** Does [seg] (no slash inside) read as one of the tabs, ignoring ASCII
    case? *)
Definition isTab (seg : list ascii) : bool :=
  bool_decide (map URL.asciiLower seg ∈ channelTabs).

(** [s.replace(/(\/(?:videos|shorts|streams|featured|community))\/?$/i, "/")]
    on the reversed string: an optional final slash, a tab name, a slash. *)
Definition stripTab_rev (r : list ascii) : option (list ascii) :=
  let body :=
    match r with
    | c :: r' => if URL.isSlash c then r' else r
    | [] => r
    end in
  let '(seg, rest) := URL.breakAt URL.isSlash body in
  match rest with
  | _ :: pre => if isTab (rev seg) then Some pre else None
  | [] => None
  end.

Definition replaceTabSuffix_l (l : list ascii) : list ascii :=
  match stripTab_rev (rev l) with
  | Some pre => rev pre ++ ["/"%char]
  | None => l
  end.

Definition replaceTabSuffix (s : string) : string := str (replaceTabSuffix_l (chars s)).

(** [s.replace(/\/{2,}/g, "/")]. *)
Fixpoint collapseSlashes_l (l : list ascii) : list ascii :=
  match l with
  | c :: l' =>
      match l' with
      | c' :: _ =>
          if URL.isSlash c && URL.isSlash c' then collapseSlashes_l l'
          else c :: collapseSlashes_l l'
      | [] => [c]
      end
  | [] => []
  end.

Definition collapseSlashes (s : string) : string := str (collapseSlashes_l (chars s)).

Definition normalizeChannelUrl (rawUrl : string) : string :=
  let trimmed := trim rawUrl in
  if isEmpty trimmed then rawUrl
  else
    match URL.parse trimmed with
    | Some parsed =>
        let parsed := URL.clearSearch parsed in
        let parsed := URL.clearHash parsed in
        let parsed := URL.setPathname parsed (replaceTabSuffix (URL.pathname parsed)) in
        let parsed := URL.setPathname parsed (collapseSlashes (URL.pathname parsed)) in
        let parsed :=
          if endsWith (URL.pathname parsed) "/" then parsed
          else URL.setPathname parsed (URL.pathname parsed +:+ "/") in
        let serialized := URL.toString parsed in
        if endsWith serialized "/" then serialized else serialized +:+ "/"
    | None => trimmed
    end.

(** [s.match(/@[^/]+/)]: the first [@] that is followed by a character
    other than a slash, with the run of such characters after it. *)
Fixpoint matchHandle_l (l : list ascii) : option (list ascii) :=
  match l with
  | [] => None
  | c :: l' =>
      if Ascii.eqb c "@" then
        match URL.breakAt URL.isSlash l' with
        | ([], _) => matchHandle_l l'
        | (run, _) => Some (c :: run)
        end
      else matchHandle_l l'
  end.

Definition matchHandle (s : string) : option string :=
  option_map str (matchHandle_l (chars s)).

Definition extractHandleFromUrl (url : string) : option string :=
  match URL.parse url with
  | Some parsed => matchHandle (URL.pathname parsed)
  | None => matchHandle url
  end.

(** ** index.ts: configuration *)

(** The module-level constants read from the environment that the
    modelled functions consult. *)
Record Settings : Type := {
  DB_MAX_RETRIES : Z;
  DB_RETRY_BASE_MS : Z;
  DB_RETRY_MAX_MS : Z;
  DISABLE_AUTO_DATEAFTER : bool;
  USER_SPECIFIED_DATEAFTER : bool
}.

Definition orElse {A : Type} (x : option A) (d : A) : A :=
  match x with Some a => a | None => d end.

(** The constants as index.ts computes them from [process.env], given
    the already split [EXTRA_ARGS]. *)
Definition loadSettings (env : string -> option string) (EXTRA_ARGS : list string) : Settings :=
  {| DB_MAX_RETRIES := orElse (parsePositiveInt (env "CAREY_DB_MAX_RETRIES")) 5;
     DB_RETRY_BASE_MS := orElse (parsePositiveInt (env "CAREY_DB_RETRY_BASE_MS")) 500;
     DB_RETRY_MAX_MS := orElse (parsePositiveInt (env "CAREY_DB_RETRY_MAX_MS")) 5000;
     DISABLE_AUTO_DATEAFTER := isTruthy (env "CAREY_DISABLE_AUTO_DATEAFTER");
     USER_SPECIFIED_DATEAFTER :=
       existsb (fun arg => startsWith arg "--dateafter") EXTRA_ARGS |}.

Definition TRANSIENT_DB_ERROR_CODES : list string :=
  ["ECONNRESET"; "ETIMEDOUT"; "ECONNREFUSED"; "EPIPE"; "57P01"].

Definition DEFAULT_ARCHIVE_EXTRACTOR_KEYS : list string := ["youtubetab"; "youtube"].

(** ** Thrown values *)

(** The [cause] property of an error object: absent (or falsy), the
    object itself, or another value.  Cycles longer than a self loop are
    not represented. *)
Inductive causeOf (A : Type) : Type :=
| NoCause
| SelfCause
| Cause (a : A).
Arguments NoCause {A}.
Arguments SelfCause {A}.
Arguments Cause {A} a.

(** A thrown value: a primitive, with what [String] makes of it, or an
    object with the properties the classifier reads.  [code] is [Some s]
    when [typeof code] is ["string"]; [isError] is
    [error instanceof Error]. *)
#[warnings="-register-all"]
Inductive errval : Type :=
| Primitive (text : string)
| ErrObj (isError : bool) (message : string) (code : option string)
         (cause : causeOf errval).

(** [new Error(message)]. *)
Definition newError (message : string) : errval :=
  ErrObj true message None NoCause.

(** [error instanceof Error ? error : new Error(String(error))]; an
    object that is not an [Error] prints as [Object.prototype.toString]
    has it. *)
Definition toError (error : errval) : errval :=
  match error with
  | Primitive text => newError text
  | ErrObj true _ _ _ => error
  | ErrObj false _ _ _ => newError "[object Object]"
  end.

(** The outcome of an awaited call: a value, or a thrown error. *)
Inductive result (A : Type) : Type :=
| Ok (a : A)
| Err (e : errval).
Arguments Ok {A} a.
Arguments Err {A} e.

Fixpoint extractErrorCode (error : errval) : option string :=
  match error with
  | Primitive _ => None
  | ErrObj _ _ code cause =>
      let fromCause :=
        match cause with
        | Cause c => extractErrorCode c
        | _ => None
        end in
      match code with
      | Some c => if isEmpty (trim c) then fromCause else Some (toUpperCase (trim c))
      | None => fromCause
      end
  end.

Definition messageIsTransient (message : string) : bool :=
  let normalized := toLowerCase message in
  includes normalized "connection reset"
  || includes normalized "server closed the connection"
  || includes normalized "terminating connection".

Fixpoint isTransientDatabaseError (error : errval) : bool :=
  match extractErrorCode error with
  | Some code => bool_decide (code ∈ TRANSIENT_DB_ERROR_CODES)
  | None => false
  end
  || match error with
     | Primitive _ => false
     | ErrObj isError message _ cause =>
         match cause with
         | Cause c => isTransientDatabaseError c
         | _ => false
         end
         || (isError && messageIsTransient message)
     end.

(** ** The retry wrapper *)

Section Retry.

Context {S T : Type}.

(** [sleep ms] as seen by the caller: time passes in the surrounding
    state. *)
Variable sleep : Z -> S -> S.

Variable cfg : Settings.

Definition maxAttempts : Z := Z.max 1 (DB_MAX_RETRIES cfg).
Definition baseDelay : Z := Z.max 50 (DB_RETRY_BASE_MS cfg).
Definition maxDelay : Z := Z.max baseDelay (DB_RETRY_MAX_MS cfg).

Definition delayMs (attempt : Z) : Z :=
  Z.min (baseDelay * 2 ^ (attempt - 1)) maxDelay.

(** The [for] loop from [attempt] on, with [n] iterations left. *)
Fixpoint retryFrom (n : nat) (attempt : Z) (operation : S -> result T * S) (s : S)
  : result T * S :=
  match n with
  | O => (Err (newError "Database operation failed after retries"), s)
  | Datatypes.S n' =>
      match operation s with
      | (Ok v, s') => (Ok v, s')
      | (Err error, s') =>
          let isLastAttempt := attempt =? maxAttempts in
          if isLastAttempt || negb (isTransientDatabaseError error)
          then (Err error, s')
          else retryFrom n' (attempt + 1) operation (sleep (delayMs attempt) s')
      end
  end.

Definition withDatabaseRetry (operation : S -> result T * S) (s : S) : result T * S :=
  retryFrom (Z.to_nat maxAttempts) 1 operation s.

End Retry.

(** ** The store (db/migrations/youtube.ts) *)

Module ChannelRow.
Record t : Type := {
  id : Z;
  canonicalUrl : string;
  externalId : option string;
  handle : option string;
  displayName : option string;
  createdAt : Z;
  updatedAt : Date
}.
End ChannelRow.

Module ChannelInsert.
Record t : Type := {
  canonicalUrl : string;
  externalId : option string;
  handle : option string;
  displayName : option string;
  updatedAt : Date
}.
End ChannelInsert.

Module VideoInsert.
Record t : Type := {
  id : string;
  channelId : Z;
  videoUrl : string;
  title : string;
  description : option string;
  durationSeconds : option Z;
  publishedTimestamp : option Z;
  uploadDate : option string;
  uploadedAt : option Date;
  scrapedAt : Date;
  isLive : bool;
  rawData : RawVideo;
  updatedAt : Date
}.
End VideoInsert.

(** The two tables of schema [cn_youtube]: [channels] with its serial
    key and unique [canonical_url], [videos] with primary key [id]. *)
Record Database : Type := {
  channels : list ChannelRow.t;
  videos : list VideoInsert.t;
  nextChannelId : Z
}.

Definition hasVideo (db : Database) (id : string) : bool :=
  existsb (fun row => String.eqb (VideoInsert.id row) id) (videos db).

(** Rows of [videos] whose primary key is [id]. *)
Definition videoRows (db : Database) (id : string) : list VideoInsert.t :=
  filter (fun row => VideoInsert.id row = id) (videos db).

(** [insert(videos).values(mapped).onConflictDoNothing().returning({id})]. *)
Definition insertVideo (mapped : VideoInsert.t) (now : Z) (db : Database)
  : list string * Database :=
  if hasVideo db (VideoInsert.id mapped) then ([], db)
  else ([VideoInsert.id mapped],
        {| channels := channels db;
           videos := videos db ++ [mapped];
           nextChannelId := nextChannelId db |}).

Definition refreshChannel (payload : ChannelInsert.t) (row : ChannelRow.t) : ChannelRow.t :=
  {| ChannelRow.id := ChannelRow.id row;
     ChannelRow.canonicalUrl := ChannelRow.canonicalUrl row;
     ChannelRow.externalId := ChannelInsert.externalId payload;
     ChannelRow.handle := ChannelInsert.handle payload;
     ChannelRow.displayName := ChannelInsert.displayName payload;
     ChannelRow.createdAt := ChannelRow.createdAt row;
     ChannelRow.updatedAt := ChannelInsert.updatedAt payload |}.

Fixpoint refreshByUrl (payload : ChannelInsert.t) (rows : list ChannelRow.t)
  : option (ChannelRow.t * list ChannelRow.t) :=
  match rows with
  | [] => None
  | row :: rows' =>
      if String.eqb (ChannelRow.canonicalUrl row) (ChannelInsert.canonicalUrl payload)
      then let row' := refreshChannel payload row in Some (row', row' :: rows')
      else match refreshByUrl payload rows' with
           | Some (hit, rows'') => Some (hit, row :: rows'')
           | None => None
           end
  end.

(** [insert(channels).values(payload).onConflictDoUpdate({target:
    canonicalUrl, set: {externalId, handle, displayName,
    updatedAt}}).returning()]. *)
Definition upsertChannel (payload : ChannelInsert.t) (now : Z) (db : Database)
  : list ChannelRow.t * Database :=
  match refreshByUrl payload (channels db) with
  | Some (row, rows) =>
      ([row], {| channels := rows; videos := videos db; nextChannelId := nextChannelId db |})
  | None =>
      let row :=
        {| ChannelRow.id := nextChannelId db;
           ChannelRow.canonicalUrl := ChannelInsert.canonicalUrl payload;
           ChannelRow.externalId := ChannelInsert.externalId payload;
           ChannelRow.handle := ChannelInsert.handle payload;
           ChannelRow.displayName := ChannelInsert.displayName payload;
           ChannelRow.createdAt := now;
           ChannelRow.updatedAt := ChannelInsert.updatedAt payload |} in
      ([row], {| channels := channels db ++ [row];
                 videos := videos db;
                 nextChannelId := nextChannelId db + 1 |})
  end.

(** What lies outside the process: the store, the clock, and the
    delays slept so far. *)
Record World : Type := {
  database : Database;
  clock : Z;
  slept : list Z
}.

Definition sleep (ms : Z) (w : World) : World :=
  {| database := database w; clock := clock w + ms; slept := slept w ++ [ms] |}.

(** One store call in flight: the errors its coming attempts will meet,
    and the world.  An attempt that fails leaves the store as it was. *)
Definition Call : Type := list errval * World.

Definition sleepCall (ms : Z) (c : Call) : Call := (fst c, sleep ms (snd c)).

Definition attempt {T : Type} (query : Z -> Database -> T * Database) (c : Call)
  : result T * Call :=
  match c with
  | (error :: faults, w) => (Err error, (faults, w))
  | ([], w) =>
      let '(rows, db) := query (clock w) (database w) in
      (Ok rows, ([], {| database := db; clock := clock w; slept := slept w |}))
  end.

(** [withDatabaseRetry(() => query)] against the world, the attempts
    meeting [faults] in turn. *)
Definition storeCall {T : Type} (cfg : Settings) (faults : list errval)
    (query : Z -> Database -> T * Database) (w : World) : result T * World :=
  let '(r, c) := withDatabaseRetry sleepCall cfg (attempt query) (faults, w) in
  (r, snd c).

(** ** index.ts: ingestion *)

Record IngestionStats : Type := {
  parsed : Z;
  inserted : Z;
  skippedExisting : Z;
  invalid : Z
}.

Record IngestionContext : Type := {
  channelUrl : string;
  scrapedAt : Date;
  stats : IngestionStats;
  knownIds : gset string;
  channel : option ChannelRow.t
}.

Definition withStats (ctx : IngestionContext) (st : IngestionStats) : IngestionContext :=
  {| channelUrl := channelUrl ctx; scrapedAt := scrapedAt ctx; stats := st;
     knownIds := knownIds ctx; channel := channel ctx |}.

Definition withKnownId (ctx : IngestionContext) (id : string) : IngestionContext :=
  {| channelUrl := channelUrl ctx; scrapedAt := scrapedAt ctx; stats := stats ctx;
     knownIds := {[id]} ∪ knownIds ctx; channel := channel ctx |}.

Definition withChannel (ctx : IngestionContext) (record : ChannelRow.t) : IngestionContext :=
  {| channelUrl := channelUrl ctx; scrapedAt := scrapedAt ctx; stats := stats ctx;
     knownIds := knownIds ctx; channel := Some record |}.

Definition countParsed (st : IngestionStats) : IngestionStats :=
  {| parsed := parsed st + 1; inserted := inserted st;
     skippedExisting := skippedExisting st; invalid := invalid st |}.

Definition countInserted (st : IngestionStats) : IngestionStats :=
  {| parsed := parsed st; inserted := inserted st + 1;
     skippedExisting := skippedExisting st; invalid := invalid st |}.

Definition countSkippedExisting (st : IngestionStats) : IngestionStats :=
  {| parsed := parsed st; inserted := inserted st;
     skippedExisting := skippedExisting st + 1; invalid := invalid st |}.

Definition countInvalid (st : IngestionStats) : IngestionStats :=
  {| parsed := parsed st; inserted := inserted st;
     skippedExisting := skippedExisting st; invalid := invalid st + 1 |}.

Definition createIngestionContext (channelUrl : string) (now : Z)
    (bootstrapChannel : option ChannelRow.t) (bootstrapKnown : gset string)
  : IngestionContext :=
  {| channelUrl := normalizeChannelUrl channelUrl;
     scrapedAt := Some now;
     stats := {| parsed := 0; inserted := 0; skippedExisting := 0; invalid := 0 |};
     knownIds := bootstrapKnown;
     channel := bootstrapChannel |}.

(** [a ?? b] on an optional value. *)
Definition coalesce {A : Type} (a b : option A) : option A :=
  match a with Some _ => a | None => b end.

Definition buildChannelInsertPayload (video : RawVideo) (fallbackChannelUrl : string)
    (scrapedAt : Date) : ChannelInsert.t :=
  let canonicalSource :=
    orElse
      (coalesce (toNonEmptyString (prop video "channel_url"))
         (coalesce (toNonEmptyString (prop video "playlist_channel_url"))
            (toNonEmptyString (prop video "uploader_url"))))
      fallbackChannelUrl in
  let canonicalUrl := normalizeChannelUrl canonicalSource in
  let externalId :=
    coalesce (toNonEmptyString (prop video "channel_id"))
      (coalesce (toNonEmptyString (prop video "playlist_channel_id"))
         (toNonEmptyString (prop video "uploader_id"))) in
  let displayName :=
    coalesce (toNonEmptyString (prop video "channel"))
      (coalesce (toNonEmptyString (prop video "playlist_channel"))
         (toNonEmptyString (prop video "uploader"))) in
  let handle :=
    coalesce (toNonEmptyString (prop video "channel_handle"))
      (extractHandleFromUrl canonicalUrl) in
  {| ChannelInsert.canonicalUrl := canonicalUrl;
     ChannelInsert.externalId := externalId;
     ChannelInsert.handle := handle;
     ChannelInsert.displayName := displayName;
     ChannelInsert.updatedAt := scrapedAt |}.

Definition mapRawVideoToInsert (video : RawVideo) (channelId : Z) (scrapedAt : Date)
    (now : Z) : option VideoInsert.t :=
  match toNonEmptyString (prop video "id") with
  | None => None
  | Some id =>
      if isEmpty id then None
      else
        Some {| VideoInsert.id := id;
                VideoInsert.channelId := channelId;
                VideoInsert.videoUrl := resolveVideoUrl video id;
                VideoInsert.title := orElse (toNonEmptyString (prop video "title")) id;
                VideoInsert.description := toOptionalString (prop video "description");
                VideoInsert.durationSeconds := toIntegerOrNull (prop video "duration");
                VideoInsert.publishedTimestamp := toIntegerOrNull (prop video "timestamp");
                VideoInsert.uploadDate := toNonEmptyString (prop video "upload_date");
                VideoInsert.uploadedAt := getUploadedAtDate video;
                VideoInsert.scrapedAt := scrapedAt;
                VideoInsert.isLive := isLiveVideo video;
                VideoInsert.rawData := video;
                VideoInsert.updatedAt := Some now |}
  end.

Definition upsertFailed (payload : ChannelInsert.t) : errval :=
  newError ("Failed to upsert channel " +:+ ChannelInsert.canonicalUrl payload
            +:+ "; database returned no record.").

(** The part of [ensureChannelRecord] after its [await]: the upsert has
    returned [rows]. *)
Definition channelUpserted (payload : ChannelInsert.t) (rows : list ChannelRow.t)
    (ctx : IngestionContext) : result ChannelRow.t * IngestionContext :=
  match rows with
  | [] => (Err (upsertFailed payload), ctx)
  | record :: _ => (Ok record, withChannel ctx record)
  end.

Definition ensureChannelRecord (cfg : Settings) (faults : list errval) (video : RawVideo)
    (ctx : IngestionContext) (w : World) : result ChannelRow.t * IngestionContext * World :=
  match channel ctx with
  | Some record => (Ok record, ctx, w)
  | None =>
      let insertPayload :=
        buildChannelInsertPayload video (channelUrl ctx) (scrapedAt ctx) in
      match storeCall cfg faults (upsertChannel insertPayload) w with
      | (Ok rows, w') =>
          let '(r, ctx') := channelUpserted insertPayload rows ctx in (r, ctx', w')
      | (Err error, w') => (Err error, ctx, w')
      end
  end.

(** What [ingestVideo] does between the channel being at hand and the
    insert being issued. *)
Inductive Triage : Type :=
| Malformed
| AlreadyKnown (id : string)
| ToInsert (mapped : VideoInsert.t).

Definition triage (video : RawVideo) (channel : ChannelRow.t) (ctx : IngestionContext)
    (now : Z) : Triage :=
  match mapRawVideoToInsert video (ChannelRow.id channel) (scrapedAt ctx) now with
  | None => Malformed
  | Some mapped =>
      if bool_decide (VideoInsert.id mapped ∈ knownIds ctx)
      then AlreadyKnown (VideoInsert.id mapped)
      else ToInsert mapped
  end.

(** The part of [ingestVideo] after the insert has returned
    [insertedRows]. *)
Definition videoInserted (mapped : VideoInsert.t) (insertedRows : list string)
    (ctx : IngestionContext) : IngestionContext :=
  match insertedRows with
  | [] => withKnownId (withStats ctx (countSkippedExisting (stats ctx))) (VideoInsert.id mapped)
  | _ => withKnownId (withStats ctx (countInserted (stats ctx))) (VideoInsert.id mapped)
  end.

(** [ingestVideo] run from start to end with nothing else scheduled in
    between; [channelFaults] and [insertFaults] are the errors the
    attempts of its two store calls meet. *)
Definition ingestVideo (cfg : Settings) (channelFaults insertFaults : list errval)
    (video : RawVideo) (ctx : IngestionContext) (w : World)
  : result unit * IngestionContext * World :=
  match ensureChannelRecord cfg channelFaults video ctx w with
  | (Err error, ctx, w) => (Err error, ctx, w)
  | (Ok channel, ctx, w) =>
      match triage video channel ctx (clock w) with
      | Malformed => (Ok tt, withStats ctx (countInvalid (stats ctx)), w)
      | AlreadyKnown _ => (Ok tt, withStats ctx (countSkippedExisting (stats ctx)), w)
      | ToInsert mapped =>
          match storeCall cfg insertFaults (insertVideo mapped) w with
          | (Ok insertedRows, w') => (Ok tt, videoInserted mapped insertedRows ctx, w')
          | (Err error, w') => (Err error, ctx, w')
          end
      end
  end.

(** ** index.ts: the strategy planner *)

Record SortKeyInfo : Type := {
  sk_uploadDate : option string;
  sk_uploadedAt : option Date
}.

Record PlaylistCoverageInfo : Type := {
  maxPlaylistIndex : option Z;
  maxPlaylistCount : option Z
}.

Record DownloadArchiveEntry : Type := {
  entryId : string;
  extractorKeys : list string
}.

Inductive MatchStrategy : Type := canonical | byHandle | raw_data | fallback.

Record ChannelBootstrapState : Type := {
  bootChannel : option ChannelRow.t;
  channelMatchStrategy : option MatchStrategy;
  knownVideoIds : gset string;
  coverage : option PlaylistCoverageInfo;
  archiveEntries : list DownloadArchiveEntry
}.

Definition shouldUseAutoDateAfter (state : ChannelBootstrapState) : bool :=
  if (size (knownVideoIds state) =? 0)%nat then true
  else
    match coverage state with
    | Some {| maxPlaylistIndex := Some index; maxPlaylistCount := Some count |} =>
        (0 <? count) && (count <=? index)
    | _ => false
    end.

Definition needsPlaylistBackfill (state : ChannelBootstrapState) : bool :=
  if (size (knownVideoIds state) =? 0)%nat then false
  else
    match coverage state with
    | Some {| maxPlaylistCount := Some count |} =>
        if count <=? 0 then false
        else Z.of_nat (size (knownVideoIds state)) <? count
    | _ => false
    end.

Definition uploadDateStringToDate (uploadDate : option string) : option Date :=
  match uploadDate with
  | None => None
  | Some text =>
      if isEmpty text then None
      else match parseUploadDate text with
           | None => None
           | Some seconds => Some (newDateZ (seconds * 1000))
           end
  end.

Definition formatDateAsYyyymmdd (date : Date) : string :=
  let year := getUTCFullYear date in
  let month := padStart0 2 (showInt (option_map (fun m => m + 1) (getUTCMonth date))) in
  let day := padStart0 2 (showInt (getUTCDate date)) in
  showInt year +:+ month +:+ day.

(** [(sortKey.uploadDate && uploadDateStringToDate(sortKey.uploadDate))
    ?? sortKey.uploadedAt ?? null]: an empty upload date is falsy but
    not nullish, so it is the baseline itself and the function gives up;
    [None] stands for every falsy baseline. *)
Definition baselineOf (sortKey : SortKeyInfo) : option Date :=
  match sk_uploadDate sortKey with
  | Some text =>
      if isEmpty text then None
      else coalesce (uploadDateStringToDate (Some text)) (sk_uploadedAt sortKey)
  | None => sk_uploadedAt sortKey
  end.

Definition computeDateAfter (sortKey : option SortKeyInfo) : option string :=
  match sortKey with
  | None => None
  | Some sortKey =>
      match baselineOf sortKey with
      | None => None
      | Some baseline =>
          let cutoff : Date := baseline in
          let cutoff := setUTCDate cutoff (option_map (fun d => d - 1) (getUTCDate cutoff)) in
          Some (formatDateAsYyyymmdd cutoff)
      end
  end.

(** *** The temporary archive file *)

(** The part of the file system the archive touches: the files written,
    the name [mkdtemp] will pick, and the errors its two calls meet. *)
Record FileSystem : Type := {
  files : list (string * string);
  directories : list string;
  tmpdir : string;
  mkdtempSuffix : string;
  mkdtempError : option errval;
  writeFileError : option errval
}.

Record DownloadArchiveHandle : Type := {
  archivePath : string;
  archiveDir : string
}.

Definition newline : string := String (ascii_of_N 10) EmptyString.

(** The inner loop of [createDownloadArchiveFile] over one entry's keys. *)
Fixpoint archiveLinesOfKeys (id : string) (keys : list string) (lines : list string)
  : list string :=
  match keys with
  | [] => lines
  | key :: keys' =>
      let normalized := toLowerCase key in
      if isEmpty normalized then archiveLinesOfKeys id keys' lines
      else
        let line := normalized +:+ " " +:+ id +:+ newline in
        if bool_decide (line ∈ lines) then archiveLinesOfKeys id keys' lines
        else archiveLinesOfKeys id keys' (lines ++ [line])
  end.

Fixpoint archiveLines (entries : list DownloadArchiveEntry) (lines : list string)
  : list string :=
  match entries with
  | [] => lines
  | entry :: entries' =>
      let keys :=
        match extractorKeys entry with
        | [] => DEFAULT_ARCHIVE_EXTRACTOR_KEYS
        | keys => keys
        end in
      archiveLines entries' (archiveLinesOfKeys (entryId entry) keys lines)
  end.

Definition joinLines (lines : list string) : string :=
  fold_right String.append EmptyString lines.

Definition createDownloadArchiveFile (entries : list DownloadArchiveEntry)
    (fs : FileSystem) : result (option DownloadArchiveHandle) * FileSystem :=
  match entries with
  | [] => (Ok None, fs)
  | _ =>
      match mkdtempError fs with
      | Some error => (Err error, fs)
      | None =>
          let tempDir := tmpdir fs +:+ "/carey-yt-archive-" +:+ mkdtempSuffix fs in
          let path := tempDir +:+ "/download-archive.txt" in
          let fs :=
            {| files := files fs;
               directories := tempDir :: directories fs;
               tmpdir := tmpdir fs;
               mkdtempSuffix := mkdtempSuffix fs;
               mkdtempError := mkdtempError fs;
               writeFileError := writeFileError fs |} in
          match archiveLines entries [] with
          | [] => (Ok None, fs)
          | lines =>
              match writeFileError fs with
              | Some error => (Err error, fs)
              | None =>
                  (Ok (Some {| archivePath := path; archiveDir := tempDir |}),
                   {| files := (path, joinLines lines) :: files fs;
                      directories := directories fs;
                      tmpdir := tmpdir fs;
                      mkdtempSuffix := mkdtempSuffix fs;
                      mkdtempError := mkdtempError fs;
                      writeFileError := writeFileError fs |})
              end
          end
      end
  end.

(** The options [main] passes to [scrapeChannel], [onVideo] apart. *)
Record ScrapeOptions : Type := {
  dateAfter : option string;
  reversePlaylist : bool;
  breakOnExisting : bool;
  downloadArchivePath : option string
}.

Definition isSome {A : Type} (x : option A) : bool :=
  match x with Some _ => true | None => false end.

(** [main] between the archive being prepared and [scrapeChannel] being
    called. *)
Definition planScrape (cfg : Settings) (bootstrapState : ChannelBootstrapState)
    (latestSortKey : option SortKeyInfo)
    (downloadArchiveHandle : option DownloadArchiveHandle) : ScrapeOptions :=
  let backfillModeEnabled := needsPlaylistBackfill bootstrapState in
  let breakOnExistingEnabled :=
    isSome downloadArchiveHandle
    && (0 <? size (knownVideoIds bootstrapState))%nat
    && negb backfillModeEnabled in
  let autoDateAfterEnabled :=
    negb (DISABLE_AUTO_DATEAFTER cfg) && negb (USER_SPECIFIED_DATEAFTER cfg) in
  let canUseAutoDateAfter := shouldUseAutoDateAfter bootstrapState in
  let dateAfter :=
    if autoDateAfterEnabled && canUseAutoDateAfter && isSome latestSortKey
    then computeDateAfter latestSortKey
    else None in
  {| dateAfter := dateAfter;
     reversePlaylist := backfillModeEnabled;
     breakOnExisting := breakOnExistingEnabled;
     downloadArchivePath := option_map archivePath downloadArchiveHandle |}.

(** [main] from the bootstrap state to the options of the scrape; an
    error from the file system ends the program before any scrape. *)
Definition prepareScrape (cfg : Settings) (bootstrapState : ChannelBootstrapState)
    (latestSortKey : option SortKeyInfo) (fs : FileSystem)
  : result ScrapeOptions * FileSystem :=
  match createDownloadArchiveFile (archiveEntries bootstrapState) fs with
  | (Ok downloadArchiveHandle, fs') =>
      (Ok (planScrape cfg bootstrapState latestSortKey downloadArchiveHandle), fs')
  | (Err error, fs') => (Err error, fs')
  end.

(** ** index.ts: the streamed run ([scrapeChannel] with [main]'s [onVideo])

    The run is a transition system.  Its events are what the Node event
    loop delivers: a chunk on either stream of the child, the end of the
    child, its ['error'] and its ['close'], and the completion of the
    store call a persistence task is suspended in.  A task moves from
    one [await] to the next in one step; tasks interleave in any
    order. *)

(** A persistence task ([onVideo(video)]), by where it is suspended. *)
Inductive Task : Type :=
| AwaitChannel (video : RawVideo) (payload : ChannelInsert.t)
| HaveChannel (video : RawVideo) (record : ChannelRow.t)
| AwaitInsert (mapped : VideoInsert.t)
| Fulfilled
| Rejected (error : errval).

Inductive Promise : Type :=
| Pending
| Resolved (parsedCount : Z)
| RejectedWith (error : errval).

(** [Exit code] is the end of the child, with an exit status or, for
    [None], by a signal.  The program has no handler for it, but reads
    [child.exitCode], which shows it.  ['close'] follows once the
    streams of the child have ended. *)
Inductive Event : Type :=
| StdoutData (chunk : string)
| StderrData (chunk : string)
| Resume (task : nat) (faults : list errval)
| ChildError (error : errval)
| Close (code : option Z)
| Exit (code : option Z).

(** The variables of [scrapeChannel]'s promise executor, with what the
    program reads of the child, [main]'s ingestion context and the
    world.  [tasks] lists every dispatched task in dispatch order;
    [inFlightIngestions] is its unsettled part.  [killed] and [exitCode]
    are [child.killed] and [child.exitCode]; [exited] says that the
    child has ended, with a status or by a signal.  [closing] is
    [Some code] from the ['close'] event on, while its handler waits in
    [Promise.allSettled].  [promise] is the promise [scrapeChannel]
    returns.  [crashed] holds the error of the uncaught exception that
    has ended the process, if one has. *)
Record Scrape : Type := {
  parsedCount : Z;
  stdoutBuffer : string;
  stderrBuffer : string;
  ingestionError : option errval;
  tasks : list Task;
  killed : bool;
  exitCode : option Z;
  exited : bool;
  closing : option (option Z);
  promise : Promise;
  crashed : option errval;
  context : IngestionContext;
  world : World
}.

Definition isSettled (t : Task) : bool :=
  match t with
  | Fulfilled | Rejected _ => true
  | _ => false
  end.

Definition inFlightIngestions (st : Scrape) : list Task :=
  filter (fun t => negb (isSettled t)) (tasks st).

Definition update (st : Scrape) (parsedCount' : Z) (stdoutBuffer' : string)
    (ingestionError' : option errval) (tasks' : list Task) (killed' : bool)
    (promise' : Promise) (context' : IngestionContext) (world' : World) : Scrape :=
  {| parsedCount := parsedCount'; stdoutBuffer := stdoutBuffer';
     stderrBuffer := stderrBuffer st; ingestionError := ingestionError';
     tasks := tasks'; killed := killed'; exitCode := exitCode st; exited := exited st;
     closing := closing st; promise := promise'; crashed := crashed st;
     context := context'; world := world' |}.

Definition setPromise (st : Scrape) (p : Promise) : Scrape :=
  update st (parsedCount st) (stdoutBuffer st) (ingestionError st) (tasks st)
    (killed st) p (context st) (world st).

(** [resolve] and [reject] settle a promise once. *)
Definition resolve (n : Z) (st : Scrape) : Scrape :=
  match promise st with
  | Pending => setPromise st (Resolved n)
  | _ => st
  end.

Definition reject (error : errval) (st : Scrape) : Scrape :=
  match promise st with
  | Pending => setPromise st (RejectedWith error)
  | _ => st
  end.

(** [child.kill()]: while the child runs, the signal is sent and
    [child.killed] is set; once the child has ended, the call does
    nothing.  [abortChild] calls it when [child.exitCode] is null and
    [child.killed] is not set. *)
Definition kill (st : Scrape) : Scrape :=
  if exited st then st
  else update st (parsedCount st) (stdoutBuffer st) (ingestionError st) (tasks st)
         true (promise st) (context st) (world st).

Definition abortChild (st : Scrape) : Scrape :=
  if bool_decide (exitCode st = None) && negb (killed st) then kill st else st.

(** [onVideo(video)] up to its first [await]: count the record, then
    enter [ingestVideo] and [ensureChannelRecord]. *)
Definition startTask (video : RawVideo) (ctx : IngestionContext) : Task * IngestionContext :=
  let ctx := withStats ctx (countParsed (stats ctx)) in
  match channel ctx with
  | Some record => (HaveChannel video record, ctx)
  | None =>
      (AwaitChannel video (buildChannelInsertPayload video (channelUrl ctx) (scrapedAt ctx)),
       ctx)
  end.

(** [enqueueVideo]: the task is dispatched and tracked, unless a failure
    is on record.  What [trackIngestionTask] adds to the task shows when
    the task is rejected; see [unhandledRejection]. *)
Definition enqueueVideo (video : RawVideo) (st : Scrape) : Scrape :=
  match ingestionError st with
  | Some _ => st
  | None =>
      let '(task, ctx) := startTask video (context st) in
      update st (parsedCount st) (stdoutBuffer st) (ingestionError st)
        (tasks st ++ [task]) (killed st) (promise st) ctx (world st)
  end.

(** The [catch] handler put on [onVideo(video)]: the first failure is
    kept, as an [Error], and the child is stopped; the handler then
    throws [ingestionError], so the task is rejected with it. *)
Definition taskFailed (st : Scrape) : Scrape :=
  abortChild st.

Definition noteFailure (error : errval) (st : Scrape) : Scrape :=
  match ingestionError st with
  | Some _ => st
  | None =>
      taskFailed
        (update st (parsedCount st) (stdoutBuffer st) (Some (toError error)) (tasks st)
           (killed st) (promise st) (context st) (world st))
  end.

(** [trackIngestionTask]: [task.finally(...)] returns a promise of its
    own, which nothing handles.  When the task is rejected, with the
    [ingestionError] that its [catch] handler throws, that promise is
    rejected with the same error.  Once the jobs of the turn have run
    the platform raises the unhandled rejection as an uncaught exception
    (the default of Node, [--unhandled-rejections=throw]; the program
    installs no listener for it), and the process ends. *)
Definition unhandledRejection (st : Scrape) : Scrape :=
  match ingestionError st with
  | Some error =>
      {| parsedCount := parsedCount st; stdoutBuffer := stdoutBuffer st;
         stderrBuffer := stderrBuffer st; ingestionError := ingestionError st;
         tasks := tasks st; killed := killed st; exitCode := exitCode st;
         exited := exited st; closing := closing st; promise := promise st;
         crashed := Some error; context := context st; world := world st |}
  | None => st
  end.

(** First line of a buffer: the text before the first line feed and the
    text after it. *)
Fixpoint breakLine (l : list ascii) : option (list ascii * list ascii) :=
  match l with
  | [] => None
  | c :: l' =>
      if (code c =? 10)%N then Some ([], l')
      else match breakLine l' with
           | Some (line, rest) => Some (c :: line, rest)
           | None => None
           end
  end.

Definition setBuffer (st : Scrape) (buffer : string) : Scrape :=
  update st (parsedCount st) buffer (ingestionError st) (tasks st)
    (killed st) (promise st) (context st) (world st).

Definition countLine (st : Scrape) : Scrape :=
  update st (parsedCount st + 1) (stdoutBuffer st) (ingestionError st) (tasks st)
    (killed st) (promise st) (context st) (world st).

Definition parseLineFailed (message : string) : errval :=
  newError ("Failed to parse yt-dlp output line: " +:+ message).

Definition parseTrailingFailed (message : string) : errval :=
  newError ("Failed to parse trailing yt-dlp output: " +:+ message).

Definition exitedWithCode (code : option Z) (stderrBuffer : string) : errval :=
  newError ("yt-dlp exited with code "
            +:+ match code with Some n => decimal n | None => "null" end
            +:+ ". stderr:" +:+ newline +:+ trim stderrBuffer).

Section Run.

(** [JSON.parse(line) as RawVideo]: the record read from a line, or the
    message of the SyntaxError.  A line whose JSON is not an object lies
    outside the declared type and is not represented. *)
Variable JSON_parse : string -> RawVideo + string.

Variable cfg : Settings.

(** The [while] loop of the stdout handler; a buffer holds at most
    [fuel] line feeds. *)
Fixpoint drainLines (fuel : nat) (st : Scrape) : Scrape :=
  match fuel with
  | O => st
  | Datatypes.S fuel' =>
      match breakLine (chars (stdoutBuffer st)) with
      | None => st
      | Some (text, rest) =>
          let line := trim (str text) in
          let st := setBuffer st (str rest) in
          if (0 <? String.length line)%nat then
            match JSON_parse line with
            | inl parsed => drainLines fuel' (enqueueVideo parsed (countLine st))
            | inr message => reject (parseLineFailed message) (kill st)
            end
          else drainLines fuel' st
      end
  end.

Definition onStdout (chunk : string) (st : Scrape) : Scrape :=
  let st := setBuffer st (stdoutBuffer st +:+ chunk) in
  drainLines (String.length (stdoutBuffer st)) st.

Definition onStderr (chunk : string) (st : Scrape) : Scrape :=
  {| parsedCount := parsedCount st; stdoutBuffer := stdoutBuffer st;
     stderrBuffer := stderrBuffer st +:+ chunk; ingestionError := ingestionError st;
     tasks := tasks st; killed := killed st; exitCode := exitCode st;
     exited := exited st; closing := closing st; promise := promise st;
     crashed := crashed st; context := context st; world := world st |}.

(** The end of the child as the platform records it: [child.exitCode]
    is the status, and stays null when a signal ended the child. *)
Definition onExit (code : option Z) (st : Scrape) : Scrape :=
  {| parsedCount := parsedCount st; stdoutBuffer := stdoutBuffer st;
     stderrBuffer := stderrBuffer st; ingestionError := ingestionError st;
     tasks := tasks st; killed := killed st; exitCode := code;
     exited := true; closing := closing st; promise := promise st;
     crashed := crashed st; context := context st; world := world st |}.

(** The ['close'] handler after [Promise.allSettled] has returned. *)
Definition afterAllSettled (code : option Z) (st : Scrape) : Scrape :=
  match ingestionError st with
  | Some error => reject error st
  | None =>
      if negb (bool_decide (code = Some 0)) && (parsedCount st =? 0)
      then reject (exitedWithCode code (stderrBuffer st)) st
      else resolve (parsedCount st) st
  end.

(** The waiting ['close'] handler goes on once every task has settled. *)
Definition tryFinish (st : Scrape) : Scrape :=
  match closing st with
  | Some code =>
      match inFlightIngestions st with
      | [] => afterAllSettled code st
      | _ => st
      end
  | None => st
  end.

(** ['close'] is emitted with [child.exitCode] as its code, after the
    child has ended. *)
Definition setClosing (st : Scrape) (code : option Z) : Scrape :=
  {| parsedCount := parsedCount st; stdoutBuffer := stdoutBuffer st;
     stderrBuffer := stderrBuffer st; ingestionError := ingestionError st;
     tasks := tasks st; killed := killed st; exitCode := code;
     exited := true; closing := Some code; promise := promise st;
     crashed := crashed st; context := context st; world := world st |}.

(** The ['close'] handler up to [Promise.allSettled]; when the trailing
    text does not parse the handler returns at once. *)
Definition onClose (code : option Z) (st : Scrape) : Scrape :=
  let remaining := trim (stdoutBuffer st) in
  if (0 <? String.length remaining)%nat then
    match JSON_parse remaining with
    | inl parsed => tryFinish (setClosing (enqueueVideo parsed (countLine st)) code)
    | inr message => reject (parseTrailingFailed message) (setClosing st code)
    end
  else tryFinish (setClosing st code).

Definition setTask (st : Scrape) (i : nat) (t : Task) (ctx : IngestionContext)
    (w : World) : Scrape :=
  update st (parsedCount st) (stdoutBuffer st) (ingestionError st)
    (<[i := t]> (tasks st)) (killed st) (promise st) ctx w.

(** [ingestVideo] from the channel being at hand to its next [await]. *)
Definition afterChannel (video : RawVideo) (record : ChannelRow.t)
    (ctx : IngestionContext) (w : World) : Task * IngestionContext :=
  match triage video record ctx (clock w) with
  | Malformed => (Fulfilled, withStats ctx (countInvalid (stats ctx)))
  | AlreadyKnown _ => (Fulfilled, withStats ctx (countSkippedExisting (stats ctx)))
  | ToInsert mapped => (AwaitInsert mapped, ctx)
  end.

(** One task runs from the [await] it is suspended in to the next. *)
Definition stepTask (faults : list errval) (t : Task) (ctx : IngestionContext)
    (w : World) : Task * IngestionContext * World :=
  match t with
  | AwaitChannel video payload =>
      match storeCall cfg faults (upsertChannel payload) w with
      | (Ok rows, w') =>
          match channelUpserted payload rows ctx with
          | (Ok record, ctx') =>
              let '(t', ctx'') := afterChannel video record ctx' w' in (t', ctx'', w')
          | (Err error, ctx') => (Rejected error, ctx', w')
          end
      | (Err error, w') => (Rejected error, ctx, w')
      end
  | HaveChannel video record =>
      let '(t', ctx') := afterChannel video record ctx w in (t', ctx', w)
  | AwaitInsert mapped =>
      match storeCall cfg faults (insertVideo mapped) w with
      | (Ok insertedRows, w') => (Fulfilled, videoInserted mapped insertedRows ctx, w')
      | (Err error, w') => (Rejected error, ctx, w')
      end
  | Fulfilled | Rejected _ => (t, ctx, w)
  end.

(** A task goes on.  When it ends, the handlers that wait for it run in
    the same turn: its [catch] handler if it has thrown, then the
    ['close'] handler if it waits for this task only; a task that has
    thrown leaves the unhandled rejection behind. *)
Definition onResume (i : nat) (faults : list errval) (st : Scrape) : Scrape :=
  match tasks st !! i with
  | Some t =>
      if isSettled t then st
      else
        let '(t', ctx, w) := stepTask faults t (context st) (world st) in
        let st := setTask st i t' ctx w in
        let st := match t' with Rejected error => noteFailure error st | _ => st end in
        let st := tryFinish st in
        match t' with Rejected _ => unhandledRejection st | _ => st end
  | None => st
  end.

(** What a handler does with an event.  Once ['close'] has been seen the
    streams have ended and the child is gone: nothing but task
    completions and a late ['error'] is delivered. *)
Definition deliver (st : Scrape) (ev : Event) : Scrape :=
  match ev with
  | Resume i faults => onResume i faults st
  | ChildError error => reject error st
  | StdoutData chunk => if isSome (closing st) then st else onStdout chunk st
  | StderrData chunk => if isSome (closing st) then st else onStderr chunk st
  | Close code => if isSome (closing st) then st else onClose code st
  | Exit code => if exited st then st else onExit code st
  end.

(** One turn of the event loop.  A process that has ended takes no
    event; what the store does with statements it has already received
    is no longer part of the run. *)
Definition step (st : Scrape) (ev : Event) : Scrape :=
  if isSome (crashed st) then st else deliver st ev.

Definition run (events : list Event) (st : Scrape) : Scrape :=
  fold_left step events st.

End Run.

(** The state in which the promise executor leaves [scrapeChannel]. *)
Definition spawned (ctx : IngestionContext) (w : World) : Scrape :=
  {| parsedCount := 0; stdoutBuffer := ""; stderrBuffer := "";
     ingestionError := None; tasks := []; killed := false; exitCode := None;
     exited := false; closing := None; promise := Pending; crashed := None;
     context := ctx; world := w |}.

(** ** A reading of [JSON.parse] for object documents

    Used to run the model on concrete lines.  It follows the JSON
    grammar; a [\u] escape must denote a code unit below 256, and the
    document must be an object. *)

Module Json.

Definition isJsonSpace (c : ascii) : bool :=
  let n := code c in ((n =? 32) || (n =? 9) || (n =? 10) || (n =? 13))%N.

Fixpoint skipSpace (l : list ascii) : list ascii :=
  match l with
  | c :: l' => if isJsonSpace c then skipSpace l' else l
  | [] => []
  end.

Definition hex4 (a b c d : ascii) : option Z :=
  match hexVal a, hexVal b, hexVal c, hexVal d with
  | Some x, Some y, Some z, Some w => Some (((x * 16 + y) * 16 + z) * 16 + w)
  | _, _, _, _ => None
  end.

(** The character an escape letter stands for. *)
Definition escapeChar (e : ascii) : option ascii :=
  if (code e =? 34)%N then Some e
  else if (code e =? 92)%N then Some e
  else if Ascii.eqb e "/" then Some e
  else if Ascii.eqb e "b" then Some (ascii_of_N 8)
  else if Ascii.eqb e "f" then Some (ascii_of_N 12)
  else if Ascii.eqb e "n" then Some (ascii_of_N 10)
  else if Ascii.eqb e "r" then Some (ascii_of_N 13)
  else if Ascii.eqb e "t" then Some (ascii_of_N 9)
  else None.

(** The characters of a string literal after its opening quote; [fuel]
    bounds the number of characters read. *)
Fixpoint stringBody (fuel : nat) (l : list ascii) (acc : list ascii)
  : option (string * list ascii) :=
  match fuel with
  | O => None
  | Datatypes.S fuel' =>
      match l with
      | [] => None
      | c :: r =>
          if (code c =? 34)%N then Some (str (rev acc), r)
          else if (code c <? 32)%N then None
          else if (code c =? 92)%N then
            match r with
            | "u"%char :: h1 :: h2 :: h3 :: h4 :: r2 =>
                match hex4 h1 h2 h3 h4 with
                | Some v =>
                    if v <? 256 then stringBody fuel' r2 (ascii_of_N (Z.to_N v) :: acc)
                    else None
                | None => None
                end
            | e :: r1 =>
                match escapeChar e with
                | Some x => stringBody fuel' r1 (x :: acc)
                | None => None
                end
            | [] => None
            end
          else stringBody fuel' r (c :: acc)
      end
  end.

(** A number literal: [-? int frac? exp?]. *)
Definition numberLiteral (l : list ascii) : option (number * list ascii) :=
  let '(neg, l1) :=
    match l with "-"%char :: r => (true, r) | _ => (false, l) end in
  let '(ip, l2) := spanDigits l1 in
  match ip with
  | [] => None
  | "0"%char :: _ :: _ => None
  | _ =>
      let '(fp, l3, okFrac) :=
        match l2 with
        | "."%char :: r =>
            let '(fp, l3) := spanDigits r in
            (fp, l3, negb (bool_decide (fp = [])))
        | _ => ([], l2, true)
        end in
      let mant := digitsVal (ip ++ fp) in
      let mant := if neg then - mant else mant in
      let expo := - Z.of_nat (length fp) in
      if okFrac then
        match l3 with
        | c :: r =>
            if (Ascii.eqb c "e" || Ascii.eqb c "E")%char then
              let '(eneg, l4) :=
                match r with
                | "-"%char :: r2 => (true, r2)
                | "+"%char :: r2 => (false, r2)
                | _ => (false, r)
                end in
              let '(ed, l5) := spanDigits l4 in
              match ed with
              | [] => None
              | _ =>
                  let x := digitsVal ed in
                  Some (Fin mant (expo + (if eneg then - x else x)), l5)
              end
            else Some (Fin mant expo, l3)
        | [] => Some (Fin mant expo, l3)
        end
      else None
  end.

(** A later member replaces an earlier one of the same name. *)
Fixpoint setField (k : string) (v : json) (fields : list (string * json))
  : list (string * json) :=
  match fields with
  | [] => [(k, v)]
  | (k0, v0) :: rest =>
      if String.eqb k0 k then (k, v) :: rest else (k0, v0) :: setField k v rest
  end.

(** A value, with the members of an array or an object; [fuel] bounds
    the number of characters read. *)
Fixpoint value (fuel : nat) (l : list ascii) : option (json * list ascii) :=
  match fuel with
  | O => None
  | Datatypes.S fuel' =>
      let elements :=
        fix elements (n : nat) (l : list ascii) (acc : list json)
          : option (json * list ascii) :=
          match n with
          | O => None
          | Datatypes.S n' =>
              match value fuel' (skipSpace l) with
              | Some (v, r) =>
                  match skipSpace r with
                  | ","%char :: r2 => elements n' r2 (v :: acc)
                  | "]"%char :: r2 => Some (JArr (rev (v :: acc)), r2)
                  | _ => None
                  end
              | None => None
              end
          end in
      let members :=
        fix members (n : nat) (l : list ascii) (acc : list (string * json))
          : option (json * list ascii) :=
          match n with
          | O => None
          | Datatypes.S n' =>
              match skipSpace l with
              | c :: r0 =>
                  if (code c =? 34)%N then
                    match stringBody fuel' r0 [] with
                    | Some (k, r1) =>
                        match skipSpace r1 with
                        | ":"%char :: r2 =>
                            match value fuel' (skipSpace r2) with
                            | Some (v, r3) =>
                                match skipSpace r3 with
                                | ","%char :: r4 => members n' r4 (setField k v acc)
                                | "}"%char :: r4 => Some (JObj (setField k v acc), r4)
                                | _ => None
                                end
                            | None => None
                            end
                        | _ => None
                        end
                    | None => None
                    end
                  else None
              | [] => None
              end
          end in
      match l with
      | "{"%char :: r =>
          match skipSpace r with
          | "}"%char :: r2 => Some (JObj [], r2)
          | _ => members fuel' r []
          end
      | "["%char :: r =>
          match skipSpace r with
          | "]"%char :: r2 => Some (JArr [], r2)
          | _ => elements fuel' r []
          end
      | "t"%char :: "r"%char :: "u"%char :: "e"%char :: r => Some (JBool true, r)
      | "f"%char :: "a"%char :: "l"%char :: "s"%char :: "e"%char :: r => Some (JBool false, r)
      | "n"%char :: "u"%char :: "l"%char :: "l"%char :: r => Some (JNull, r)
      | c :: r =>
          if (code c =? 34)%N then
            match stringBody fuel' r [] with
            | Some (s, r2) => Some (JStr s, r2)
            | None => None
            end
          else match numberLiteral l with
               | Some (x, r2) => Some (JNum x, r2)
               | None => None
               end
      | [] => None
      end
  end.

Definition parse (text : string) : RawVideo + string :=
  let l := skipSpace (chars text) in
  match value (Datatypes.S (length l)) l with
  | Some (JObj fields, r) =>
      match skipSpace r with
      | [] => inl fields
      | _ => inr "Unexpected non-whitespace character after JSON"
      end
  | Some (_, _) => inr "The document is not an object"
  | None => inr "Unexpected token or end of JSON input"
  end.

(** Text with every apostrophe read as a double quote, to write JSON
    lines down. *)
Definition quoted (text : string) : string :=
  str (map (fun c => if Ascii.eqb c "'" then ascii_of_N 34 else c) (chars text)).

End Json.

(** ** utils.ts: the command line *)

Definition dquote : ascii := ascii_of_N 34.
Definition apostrophe : ascii := "'"%char.

(** [splitArgs]: the matches, from left to right, of the pattern with
    three alternatives: a stretch between two double quotes, a stretch
    between two apostrophes, a run of characters that are not white
    space.  At a character that is not white space the first alternative
    that applies wins: a quoted stretch when the character is a quote and
    the same quote comes again, otherwise the run of characters up to
    the next white space.  Every match takes at least one character, so
    [fuel] need not exceed the length of the text. *)
Fixpoint splitArgs_l (fuel : nat) (l : list ascii) : list (list ascii) :=
  match fuel with
  | O => []
  | Datatypes.S fuel' =>
      match l with
      | [] => []
      | c :: l' =>
          if isWhiteSpace c then splitArgs_l fuel' l'
          else
            let unquoted :=
              let '(word, rest) := URL.breakAt isWhiteSpace l in
              word :: splitArgs_l fuel' rest in
            if Ascii.eqb c dquote || Ascii.eqb c apostrophe then
              match URL.breakAt (Ascii.eqb c) l' with
              | (inner, _ :: rest) => inner :: splitArgs_l fuel' rest
              | (_, []) => unquoted
              end
            else unquoted
      end
  end.

Definition splitArgs (raw : option string) : list string :=
  match raw with
  | None => []
  | Some r =>
      if isEmpty r then []
      else map str (splitArgs_l (String.length r) (chars r))
  end.

(** The characters [shellQuote] leaves unquoted: word characters and
    [@%+=:,./-]. *)
Definition isShellSafe (c : ascii) : bool :=
  URL.isAlpha c || isDigit c || existsb (Ascii.eqb c) (chars "_@%+=:,./-").

(** Every apostrophe replaced by apostrophe, backslash, apostrophe,
    apostrophe. *)
Definition escapeApostrophes (l : list ascii) : list ascii :=
  flat_map (fun c => if Ascii.eqb c apostrophe then chars "'\''" else [c]) l.

Definition shellQuote (value : string) : string :=
  if negb (isEmpty value) && forallb isShellSafe (chars value) then value
  else str (apostrophe :: escapeApostrophes (chars value) ++ [apostrophe]).

(** [Array.prototype.join]. *)
Fixpoint join (separator : string) (items : list string) : string :=
  match items with
  | [] => ""
  | [item] => item
  | item :: items' => item +:+ separator +:+ join separator items'
  end.

Definition shellJoin (executable : string) (args : list string) : string :=
  join " " (map shellQuote (executable :: args)).

(** ** index.ts: the command [scrapeChannel] runs *)

Record RateLimitPreset : Type := {
  preset : string;
  explicit : bool
}.

Definition RATE_LIMIT_PRESET_DISABLED_VALUES : list string :=
  ["0"; "false"; "off"; "none"; "no"; "disable"; "disabled"].

Definition resolveRateLimitPreset (rawValue : option string) : option RateLimitPreset :=
  match rawValue with
  | None => Some {| preset := "sleep"; explicit := false |}
  | Some rawValue =>
      let normalized := trim rawValue in
      if isEmpty normalized then None
      else if bool_decide (toLowerCase normalized ∈ RATE_LIMIT_PRESET_DISABLED_VALUES)
           then None
           else Some {| preset := normalized; explicit := true |}
  end.

Definition hasUserProvidedSleepArgs (extraArgs : list string) : bool :=
  existsb
    (fun arg =>
       let normalized := toLowerCase arg in
       if String.eqb normalized "-t" || startsWith normalized "-t" then true
       else startsWith normalized "--sleep-")
    extraArgs.

Definition determineRateLimitPreset (env : string -> option string)
    (extraArgs : list string) : option RateLimitPreset :=
  match resolveRateLimitPreset (env "CAREY_YTDLP_RATE_LIMIT_PRESET") with
  | None => None
  | Some resolved =>
      if negb (explicit resolved) && hasUserProvidedSleepArgs extraArgs then None
      else Some resolved
  end.

(** The module-level constants [scrapeChannel] builds its command
    from. *)
Record Launch : Type := {
  YTDLP_VERBOSE : bool;
  PLAYLIST_END : option Z;
  RATE_LIMIT_PRESET : option RateLimitPreset;
  EXTRA_ARGS : list string
}.

Definition loadLaunch (env : string -> option string) : Launch :=
  let extraArgs := splitArgs (env "CAREY_YTDLP_EXTRA_ARGS") in
  {| YTDLP_VERBOSE := isTruthy (env "CAREY_YTDLP_VERBOSE");
     PLAYLIST_END := parsePositiveInt (env "CAREY_MAX_VIDEOS");
     RATE_LIMIT_PRESET := determineRateLimitPreset env extraArgs;
     EXTRA_ARGS := extraArgs |}.

(** [String(n)] for the integers below 10^21, which print without an
    exponent. *)
Definition String_ (n : Z) : string := decimal n.

Definition truthy (text : option string) : option string :=
  match text with
  | Some t => if isEmpty t then None else Some t
  | None => None
  end.

(** The argument list [scrapeChannel] hands to [spawn]. *)
Definition scrapeArgs (launch : Launch) (url : string) (options : ScrapeOptions)
  : list string :=
  let args :=
    ["--ignore-errors"; "--no-warnings"; "--dump-json"; "--skip-download";
     "--yes-playlist"] in
  let args := if YTDLP_VERBOSE launch then "--verbose" :: args else args in
  let args :=
    match PLAYLIST_END launch with
    | Some n => args ++ ["--playlist-end"; String_ n]
    | None => args
    end in
  let args :=
    match RATE_LIMIT_PRESET launch with
    | Some p => args ++ ["-t"; preset p]
    | None => args
    end in
  let args := args ++ EXTRA_ARGS launch in
  let args :=
    match truthy (dateAfter options) with
    | Some d => args ++ ["--dateafter"; d]
    | None => args
    end in
  let args := if reversePlaylist options then args ++ ["--playlist-reverse"] else args in
  let args := if breakOnExisting options then args ++ ["--break-on-existing"] else args in
  let args :=
    match truthy (downloadArchivePath options) with
    | Some p => args ++ ["--download-archive"; p]
    | None => args
    end in
  args ++ [url].

(** ** index.ts: what the store already holds *)

Definition doesRawVideoMatchChannel (rawVideo : RawVideo) (normalizedChannelUrl : string)
  : bool :=
  let candidateUrls :=
    [toNonEmptyString (prop rawVideo "channel_url");
     toNonEmptyString (prop rawVideo "playlist_channel_url");
     toNonEmptyString (prop rawVideo "uploader_url")] in
  existsb
    (fun candidate =>
       match truthy candidate with
       | Some c => String.eqb (normalizeChannelUrl c) normalizedChannelUrl
       | None => false
       end)
    candidateUrls.

(** [Set.prototype.add] on a set kept in insertion order. *)
Definition addKey (keys : list string) (key : string) : list string :=
  if bool_decide (key ∈ keys) then keys else keys ++ [key].

Definition extractArchiveExtractorKeys (rawVideo : RawVideo) : list string :=
  let candidates :=
    [toNonEmptyString (prop rawVideo "extractor");
     toNonEmptyString (prop rawVideo "extractor_key");
     toNonEmptyString (prop rawVideo "ie_key")] in
  fold_left
    (fun normalized candidate =>
       match truthy candidate with
       | Some c => addKey normalized (toLowerCase c)
       | None => normalized
       end)
    candidates [].

(** What the loop over the rows of the channel has gathered. *)
Record Gathered : Type := {
  gatheredIds : gset string;
  gatheredIndex : option Z;
  gatheredCount : option Z;
  archiveKeyMap : list DownloadArchiveEntry
}.

(** [archiveKeyMap.get(id)], created when absent, with [keys] added. *)
Fixpoint addArchiveKeys (id : string) (keys : list string)
    (entries : list DownloadArchiveEntry) : list DownloadArchiveEntry :=
  match entries with
  | [] => [{| entryId := id; extractorKeys := fold_left addKey keys [] |}]
  | entry :: entries' =>
      if String.eqb (entryId entry) id
      then {| entryId := id; extractorKeys := fold_left addKey keys (extractorKeys entry) |}
           :: entries'
      else entry :: addArchiveKeys id keys entries'
  end.

(** [Math.max(current ?? value, value)] when [value] is a number. *)
Definition raiseTo (current value : option Z) : option Z :=
  match value with
  | Some v => Some (Z.max (orElse current v) v)
  | None => current
  end.

Definition gatherRow (so_far : Gathered) (row : VideoInsert.t) : Gathered :=
  let rawVideo := VideoInsert.rawData row in
  {| gatheredIds := {[VideoInsert.id row]} ∪ gatheredIds so_far;
     gatheredIndex :=
       raiseTo (gatheredIndex so_far) (toIntegerOrNull (prop rawVideo "playlist_index"));
     gatheredCount :=
       raiseTo (gatheredCount so_far) (toIntegerOrNull (prop rawVideo "playlist_count"));
     archiveKeyMap :=
       addArchiveKeys (VideoInsert.id row) (extractArchiveExtractorKeys rawVideo)
         (archiveKeyMap so_far) |}.

Definition nothingGathered : Gathered :=
  {| gatheredIds := ∅; gatheredIndex := None; gatheredCount := None; archiveKeyMap := [] |}.

(** The state [loadExistingChannelState] returns for [channel] and the
    rows read for it. *)
Definition summarizeRows (channel : ChannelRow.t) (strategy : option MatchStrategy)
    (rows : list VideoInsert.t) : ChannelBootstrapState :=
  let relevantRows :=
    filter (fun row => VideoInsert.channelId row = ChannelRow.id channel) rows in
  let gathered := fold_left gatherRow relevantRows nothingGathered in
  {| bootChannel := Some channel;
     channelMatchStrategy := strategy;
     knownVideoIds := gatheredIds gathered;
     coverage :=
       match gatheredIndex gathered, gatheredCount gathered with
       | None, None => None
       | index, count => Some {| maxPlaylistIndex := index; maxPlaylistCount := count |}
       end;
     archiveEntries := archiveKeyMap gathered |}.

Definition noChannelState : ChannelBootstrapState :=
  {| bootChannel := None; channelMatchStrategy := None; knownVideoIds := ∅;
     coverage := None; archiveEntries := [] |}.

(** The reads of [loadExistingChannelState].  [findFirst] takes the first
    row in table order. *)
Definition findFirstChannel (where_ : ChannelRow.t -> bool) (now : Z) (db : Database)
  : option ChannelRow.t * Database :=
  (find where_ (channels db), db).

Definition selectVideos (channelId : option Z) (now : Z) (db : Database)
  : list VideoInsert.t * Database :=
  (match channelId with
   | Some id => filter (fun row => VideoInsert.channelId row = id) (videos db)
   | None => videos db
   end, db).

(** The errors the attempts of each of the five store calls meet. *)
Record LoadFaults : Type := {
  canonicalFaults : list errval;
  handleFaults : list errval;
  bareHandleFaults : list errval;
  rowsFaults : list errval;
  candidateFaults : list errval
}.

(** A computation over the world that may throw. *)
Definition Store (A : Type) : Type := World -> result A * World.

Definition bindStore {A B : Type} (c : Store A) (k : A -> Store B) : Store B :=
  fun w => match c w with
           | (Ok a, w') => k a w'
           | (Err error, w') => (Err error, w')
           end.

Definition retStore {A : Type} (a : A) : Store A := fun w => (Ok a, w).

(** [handleFromUrl.slice(1)]. *)
Definition sliceFrom1 (s : string) : string :=
  match s with
  | String _ rest => rest
  | EmptyString => EmptyString
  end.

(** The lookup by handle, entered when the canonical URL found nothing. *)
Definition lookupByHandle (cfg : Settings) (faults : LoadFaults) (handleFromUrl : string)
  : Store (option ChannelRow.t) :=
  bindStore
    (storeCall cfg (handleFaults faults)
       (findFirstChannel
          (fun row => bool_decide (ChannelRow.handle row = Some handleFromUrl))))
    (fun channel =>
       match channel with
       | Some _ => retStore channel
       | None =>
           if startsWith handleFromUrl "@"
           then storeCall cfg (bareHandleFaults faults)
                  (findFirstChannel
                     (fun row =>
                        bool_decide (ChannelRow.handle row = Some (sliceFrom1 handleFromUrl))))
           else retStore None
       end).

(** The lookup through the stored videos, entered when neither the URL
    nor the handle found a channel. *)
Definition lookupByRawData (cfg : Settings) (faults : LoadFaults)
    (normalizedChannelUrl : string) (rows : list VideoInsert.t)
  : Store (option (ChannelRow.t * MatchStrategy * list VideoInsert.t)) :=
  let rowsMatchingUrl :=
    filter (fun row => doesRawVideoMatchChannel (VideoInsert.rawData row)
                         normalizedChannelUrl = true) rows in
  let candidateRows :=
    match rowsMatchingUrl with [] => rows | _ => rowsMatchingUrl end in
  match find (fun row => negb (VideoInsert.channelId row =? 0)) candidateRows with
  | None => retStore None
  | Some candidate =>
      bindStore
        (storeCall cfg (candidateFaults faults)
           (findFirstChannel
              (fun row => ChannelRow.id row =? VideoInsert.channelId candidate)))
        (fun channel =>
           match channel with
           | None => retStore None
           | Some found =>
               retStore
                 (Some (found,
                        match rowsMatchingUrl with [] => fallback | _ => raw_data end,
                        filter (fun row => VideoInsert.channelId row = ChannelRow.id found)
                          candidateRows))
           end)
  end.

Definition loadExistingChannelState (cfg : Settings) (faults : LoadFaults)
    (channelUrl : string) : Store ChannelBootstrapState :=
  let normalizedChannelUrl := normalizeChannelUrl channelUrl in
  let handleFromUrl := extractHandleFromUrl normalizedChannelUrl in
  bindStore
    (storeCall cfg (canonicalFaults faults)
       (findFirstChannel
          (fun row => String.eqb (ChannelRow.canonicalUrl row) normalizedChannelUrl)))
    (fun byUrl =>
  bindStore
    (match byUrl, truthy handleFromUrl with
     | Some found, _ => retStore (Some (found, canonical))
     | None, Some handle =>
         bindStore (lookupByHandle cfg faults handle)
           (fun found => retStore (option_map (fun c => (c, byHandle)) found))
     | None, None => retStore None
     end)
    (fun matched =>
  bindStore
    (storeCall cfg (rowsFaults faults)
       (selectVideos (option_map (fun m => ChannelRow.id (fst m)) matched)))
    (fun rows =>
  match matched with
  | Some (channel, strategy) => retStore (summarizeRows channel (Some strategy) rows)
  | None =>
      bindStore (lookupByRawData cfg faults normalizedChannelUrl rows)
        (fun found =>
           match found with
           | Some (channel, strategy, rows') =>
               retStore (summarizeRows channel (Some strategy) rows')
           | None => retStore noChannelState
           end)
  end))).

(** ** index.ts: removing the temporary archive *)

(** Is [path] the directory [dir] or something below it? *)
Definition isUnder (dir path : string) : bool :=
  String.eqb path dir || startsWith path (dir +:+ "/").

(** The handle's [cleanup]: [fsp.rm(tempDir, { recursive: true, force:
    true })]. *)
Definition cleanup (handle : DownloadArchiveHandle) (fs : FileSystem) : FileSystem :=
  {| files := List.filter (fun file => negb (isUnder (archiveDir handle) (fst file))) (files fs);
     directories := List.filter (fun dir => negb (isUnder (archiveDir handle) dir))
                      (directories fs);
     tmpdir := tmpdir fs;
     mkdtempSuffix := mkdtempSuffix fs;
     mkdtempError := mkdtempError fs;
     writeFileError := writeFileError fs |}.

(** * Properties *)

(** ** The backfill decision *)

(** The decision as the specification words it: some item is known and
    the largest stored playlist index is below the largest stored
    playlist count. *)
Definition backfillByPosition (state : ChannelBootstrapState) : bool :=
  negb (size (knownVideoIds state) =? 0)%nat
  && match coverage state with
     | Some {| maxPlaylistIndex := Some index; maxPlaylistCount := Some count |} =>
         index <? count
     | _ => false
     end.

(** Three known videos, the newest three of a playlist of ten: the
    stored position has reached the stored size. *)
Definition caughtUpState : ChannelBootstrapState :=
  {| bootChannel := None;
     channelMatchStrategy := None;
     knownVideoIds := {["v8"; "v9"; "v10"]};
     coverage := Some {| maxPlaylistIndex := Some 10; maxPlaylistCount := Some 10 |};
     archiveEntries := [] |}.

Lemma size_known_pos (state : ChannelBootstrapState) :
  (size (knownVideoIds state) =? 0)%nat = false <-> size (knownVideoIds state) <> 0%nat.
Proof. apply Nat.eqb_neq. Qed.

(** C1, as stated, fails: with position equal to size the code still
    turns backfill on, because it compares the number of known items,
    not the stored position, with the stored size. *)
Lemma needsPlaylistBackfill_ignores_position :
  maxPlaylistIndex <$> coverage caughtUpState = maxPlaylistCount <$> coverage caughtUpState
  /\ backfillByPosition caughtUpState = false
  /\ needsPlaylistBackfill caughtUpState = true.
Proof. repeat split; vm_compute; reflexivity. Qed.

(** C1, amended: [needsPlaylistBackfill] answers true exactly when some
    item is known, a playlist count is stored, and the number of known
    items is below that count; the stored playlist index plays no part,
    and the answer is false when the number of known items equals the
    count. *)
Theorem needsPlaylistBackfill_iff (state : ChannelBootstrapState) :
  (needsPlaylistBackfill state = true <->
     size (knownVideoIds state) <> 0%nat
     /\ exists count,
          coverage state ≫= maxPlaylistCount = Some count
          /\ Z.of_nat (size (knownVideoIds state)) < count)
  /\ (forall count,
        coverage state ≫= maxPlaylistCount = Some count ->
        Z.of_nat (size (knownVideoIds state)) = count ->
        needsPlaylistBackfill state = false).
Proof.
  unfold needsPlaylistBackfill.
  destruct (Nat.eqb_spec (size (knownVideoIds state)) 0) as [Hz | Hnz].
  - split.
    + split; [discriminate | intros [Hne _]; contradiction].
    + reflexivity.
  - destruct (coverage state) as [[index [count |]] |]; simpl.
    + destruct (Z.leb_spec count 0) as [Hle | Hgt].
      * split.
        -- split; [discriminate |].
           intros [_ (c & Hc & Hlt)]. injection Hc as <-. lia.
        -- reflexivity.
      * split.
        -- rewrite Z.ltb_lt. split.
           ++ intros Hlt. split; [assumption | exists count; split; [reflexivity | assumption]].
           ++ intros [_ (c & Hc & Hlt)]. injection Hc as <-. assumption.
        -- intros c Hc Heq. injection Hc as <-. apply Z.ltb_ge. lia.
    + split.
      * split; [discriminate | intros [_ (c & Hc & _)]; discriminate].
      * reflexivity.
    + split.
      * split; [discriminate | intros [_ (c & Hc & _)]; discriminate].
      * reflexivity.
Qed.

(** ** The early-stop signal *)

(** The archive file of [handle] is on disk and holds at least one
    line. *)
Definition archiveBuilt (handle : DownloadArchiveHandle) (fs : FileSystem) : Prop :=
  exists text, In (archivePath handle, text) (files fs) /\ text <> EmptyString.

Lemma archiveLinesOfKeys_grows (id : string) (keys lines : list string) :
  lines <> [] -> archiveLinesOfKeys id keys lines <> [].
Proof.
  revert lines. induction keys as [| key keys IH]; intros lines Hne; simpl.
  - assumption.
  - destruct (isEmpty (toLowerCase key)); [apply IH; assumption |].
    case_bool_decide; apply IH; [assumption |].
    destruct lines; discriminate.
Qed.

Lemma joinLines_nonempty (lines : list string) :
  lines <> [] -> Forall (fun line => line <> EmptyString) lines ->
  joinLines lines <> EmptyString.
Proof.
  destruct lines as [| line lines]; [contradiction |].
  intros _ Hall. inversion Hall as [| ? ? Hline _]; subst.
  simpl. destruct line; [contradiction | discriminate].
Qed.

Lemma append_nonempty_r (a b : string) : b <> EmptyString -> a +:+ b <> EmptyString.
Proof.
  intros Hb. destruct a; simpl; [assumption | discriminate].
Qed.

Lemma archiveLinesOfKeys_lines (id : string) (keys lines : list string) :
  Forall (fun line => line <> EmptyString) lines ->
  Forall (fun line => line <> EmptyString) (archiveLinesOfKeys id keys lines).
Proof.
  revert lines. induction keys as [| key keys IH]; intros lines Hall; simpl.
  - assumption.
  - destruct (isEmpty (toLowerCase key)); [apply IH; assumption |].
    case_bool_decide; apply IH; [assumption |].
    apply Forall_app; split; [assumption |].
    constructor; [| constructor].
    repeat apply append_nonempty_r. discriminate.
Qed.

Lemma archiveLines_lines (entries : list DownloadArchiveEntry) (lines : list string) :
  Forall (fun line => line <> EmptyString) lines ->
  Forall (fun line => line <> EmptyString) (archiveLines entries lines).
Proof.
  revert lines. induction entries as [| entry entries IH]; intros lines Hall; simpl.
  - assumption.
  - apply IH, archiveLinesOfKeys_lines, Hall.
Qed.

(** [createDownloadArchiveFile] hands out a handle only for a file it
    has written, with at least one line in it. *)
Lemma createDownloadArchiveFile_built (entries : list DownloadArchiveEntry)
    (fs fs' : FileSystem) (handle : DownloadArchiveHandle) :
  createDownloadArchiveFile entries fs = (Ok (Some handle), fs') ->
  archiveBuilt handle fs'.
Proof.
  unfold createDownloadArchiveFile.
  destruct entries as [| entry entries]; [discriminate |].
  destruct (mkdtempError fs); [discriminate |].
  cbv zeta.
  pose proof (archiveLines_lines (entry :: entries) [] (List.Forall_nil _)) as Hall.
  destruct (archiveLines (entry :: entries) []) as [| line lines] eqn:Hlines;
    [discriminate |].
  cbn [writeFileError files].
  destruct (writeFileError fs); [discriminate |].
  intros H. injection H as <- <-.
  exists (joinLines (line :: lines)). split.
  - left. reflexivity.
  - apply joinLines_nonempty; [discriminate | assumption].
Qed.

(** C9: when [main] gets as far as calling the scraper, break-on-existing
    is on exactly when the archive file was built, some item id is known
    and backfill is off. *)
Theorem breakOnExisting_iff (cfg : Settings) (bootstrapState : ChannelBootstrapState)
    (latestSortKey : option SortKeyInfo) (fs fs' : FileSystem) (options : ScrapeOptions) :
  prepareScrape cfg bootstrapState latestSortKey fs = (Ok options, fs') ->
  breakOnExisting options = true <->
    (exists handle,
        createDownloadArchiveFile (archiveEntries bootstrapState) fs = (Ok (Some handle), fs')
        /\ archiveBuilt handle fs'
        /\ downloadArchivePath options = Some (archivePath handle))
    /\ (0 < size (knownVideoIds bootstrapState))%nat
    /\ needsPlaylistBackfill bootstrapState = false.
Proof.
  unfold prepareScrape.
  destruct (createDownloadArchiveFile (archiveEntries bootstrapState) fs)
    as [[handle | error] fs1] eqn:Hcreate; [| discriminate].
  intros H. injection H as <- <-.
  unfold planScrape; cbn [breakOnExisting downloadArchivePath].
  rewrite !andb_true_iff, negb_true_iff, Nat.ltb_lt.
  split.
  - intros [[Hsome Hsize] Hback].
    destruct handle as [handle |]; [| discriminate].
    repeat split; try assumption.
    exists handle. repeat split.
    eapply createDownloadArchiveFile_built, Hcreate.
  - intros [(h & Heq & _ & _) [Hsize Hback]].
    injection Heq as ->. repeat split; assumption.
Qed.

Definition oneEntryState : ChannelBootstrapState :=
  {| bootChannel := None;
     channelMatchStrategy := None;
     knownVideoIds := {["abc123"]};
     coverage := None;
     archiveEntries := [{| entryId := "abc123"; extractorKeys := ["Youtube"] |}] |}.

Definition emptyDisk : FileSystem :=
  {| files := []; directories := []; tmpdir := "/tmp"; mkdtempSuffix := "Ab12Cd";
     mkdtempError := None; writeFileError := None |}.

Definition defaultSettings : Settings := loadSettings (fun _ => None) [].

Definition oneEntryOptions : ScrapeOptions :=
  {| dateAfter := None; reversePlaylist := false; breakOnExisting := true;
     downloadArchivePath := Some "/tmp/carey-yt-archive-Ab12Cd/download-archive.txt" |}.

Definition oneEntryDisk : FileSystem :=
  {| files := [("/tmp/carey-yt-archive-Ab12Cd/download-archive.txt",
                "youtube abc123" +:+ newline)];
     directories := ["/tmp/carey-yt-archive-Ab12Cd"];
     tmpdir := "/tmp"; mkdtempSuffix := "Ab12Cd";
     mkdtempError := None; writeFileError := None |}.

(** The theorem at one known video with a recorded extractor key. *)
Lemma breakOnExisting_iff_witness :
  prepareScrape defaultSettings oneEntryState None emptyDisk = (Ok oneEntryOptions, oneEntryDisk)
  /\ (breakOnExisting oneEntryOptions = true <->
      (exists handle,
          createDownloadArchiveFile (archiveEntries oneEntryState) emptyDisk
          = (Ok (Some handle), oneEntryDisk)
          /\ archiveBuilt handle oneEntryDisk
          /\ downloadArchivePath oneEntryOptions = Some (archivePath handle))
      /\ (0 < size (knownVideoIds oneEntryState))%nat
      /\ needsPlaylistBackfill oneEntryState = false).
Proof.
  split.
  - vm_compute. reflexivity.
  - apply (breakOnExisting_iff defaultSettings oneEntryState None emptyDisk).
    vm_compute. reflexivity.
Defined.

(** ** The retry wrapper *)

(** Induction over a thrown value and its chain of causes. *)
Fixpoint errval_chain_ind (P : errval -> Prop)
    (HPrimitive : forall text, P (Primitive text))
    (HObj : forall isError message code cause,
        match cause with Cause c => P c | _ => True end ->
        P (ErrObj isError message code cause))
    (error : errval) : P error :=
  match error with
  | Primitive text => HPrimitive text
  | ErrObj isError message code cause =>
      HObj isError message code cause
        match cause with
        | Cause c => errval_chain_ind P HPrimitive HObj c
        | NoCause => I
        | SelfCause => I
        end
  end.

(** A thrown value followed by its cause, the cause of its cause, and so
    on. *)
Fixpoint causeChain (error : errval) : list errval :=
  error :: match error with
           | ErrObj _ _ _ (Cause c) => causeChain c
           | _ => []
           end.

(** The code an error object carries itself. *)
Definition ownCode (error : errval) : option string :=
  match error with
  | ErrObj _ _ (Some c) _ => if isEmpty (trim c) then None else Some (toUpperCase (trim c))
  | _ => None
  end.

(** One link of the chain is recognised: its own code is in the fixed
    set, or it is an [Error] whose message names a lost connection. *)
Definition recognised (error : errval) : Prop :=
  (exists c, ownCode error = Some c /\ c ∈ TRANSIENT_DB_ERROR_CODES)
  \/ match error with
     | ErrObj true message _ _ => messageIsTransient message = true
     | _ => False
     end.

Lemma extractErrorCode_own (error : errval) (c : string) :
  ownCode error = Some c -> extractErrorCode error = Some c.
Proof.
  destruct error as [| isError message [code |] cause]; simpl; try discriminate.
  destruct (isEmpty (trim code)); [discriminate | trivial].
Qed.

Lemma extractErrorCode_chain (error : errval) (c : string) :
  extractErrorCode error = Some c ->
  exists link, link ∈ causeChain error /\ ownCode link = Some c.
Proof.
  induction error as [text | isError message code cause IH] using errval_chain_ind;
    [discriminate |].
  intros H.
  destruct (ownCode (ErrObj isError message code cause)) as [c' |] eqn:Hown.
  - exists (ErrObj isError message code cause). split; [apply list_elem_of_here |].
    rewrite (extractErrorCode_own _ _ Hown) in H. congruence.
  - assert (Hcause : match cause with Cause e => extractErrorCode e | _ => None end = Some c).
    { simpl in H, Hown. destruct code as [code |]; [| exact H].
      destruct (isEmpty (trim code)); [exact H | discriminate]. }
    destruct cause as [| | e]; try discriminate.
    destruct (IH Hcause) as (link & Hin & Hlink).
    exists link. split; [apply list_elem_of_further; exact Hin | exact Hlink].
Qed.

(** The classifier answers true exactly when some link of the cause
    chain is recognised. *)
Lemma isTransientDatabaseError_iff (error : errval) :
  isTransientDatabaseError error = true <-> Exists recognised (causeChain error).
Proof.
  induction error as [text | isError message code cause IH] using errval_chain_ind.
  - simpl. split; [discriminate |].
    intros H. apply Exists_cons in H as [Hrec | Hnil].
    + destruct Hrec as [(c & Hc & _) | Hfalse]; [discriminate | contradiction].
    + inversion Hnil.
  - split.
    + intros H. apply Exists_exists.
      cbn [isTransientDatabaseError] in H.
      apply orb_true_iff in H as [Hcode | H].
      * destruct (extractErrorCode (ErrObj isError message code cause)) as [c |] eqn:Hc;
          [| discriminate].
        destruct (extractErrorCode_chain _ _ Hc) as (link & Hin & Hlink).
        exists link. split; [exact Hin |]. left. exists c. split; [exact Hlink |].
        apply bool_decide_eq_true in Hcode. exact Hcode.
      * apply orb_true_iff in H as [Hcause | Hmsg].
        -- destruct cause as [| | e]; try discriminate.
           apply IH, Exists_exists in Hcause as (link & Hin & Hrec).
           exists link. split; [apply list_elem_of_further; exact Hin | exact Hrec].
        -- apply andb_true_iff in Hmsg as [-> Hmsg].
           exists (ErrObj true message code cause). split; [apply list_elem_of_here |].
           right. exact Hmsg.
    + intros H. apply Exists_exists in H as (link & Hin & Hrec).
      cbn [isTransientDatabaseError]. apply orb_true_iff.
      cbn [causeChain] in Hin. apply elem_of_cons in Hin as [-> | Hin].
      * destruct Hrec as [(c & Hown & Hc) | Hmsg].
        -- left. rewrite (extractErrorCode_own _ _ Hown).
           apply bool_decide_eq_true. exact Hc.
        -- right. apply orb_true_iff. right.
           destruct isError; [| contradiction]. exact Hmsg.
      * right. apply orb_true_iff. left.
        destruct cause as [| | e]; try (apply elem_of_nil in Hin; contradiction).
        apply IH, Exists_exists. exists link. split; assumption.
Qed.

(** The number of errors at the head of a sequence that the classifier
    calls transient. *)
Fixpoint leadingTransient (faults : list errval) : nat :=
  match faults with
  | error :: faults' =>
      if isTransientDatabaseError error then Datatypes.S (leadingTransient faults') else O
  | [] => O
  end.

(** The delays before retries [1 .. k] counted from attempt [a]. *)
Definition delaysFrom (cfg : Settings) (a : Z) (k : nat) : list Z :=
  map (fun i => delayMs cfg (a + Z.of_nat i)) (seq 0 k).

Definition sleepAll (delays : list Z) (w : World) : World :=
  fold_left (fun w ms => sleep ms w) delays w.

Lemma sleepAll_database (delays : list Z) (w : World) :
  database (sleepAll delays w) = database w.
Proof.
  revert w. induction delays as [| ms delays IH]; intros w; simpl; [reflexivity |].
  rewrite IH. reflexivity.
Qed.

Lemma sleepAll_slept (delays : list Z) (w : World) :
  slept (sleepAll delays w) = slept w ++ delays.
Proof.
  revert w. induction delays as [| ms delays IH]; intros w; simpl.
  - symmetry. apply app_nil_r.
  - rewrite IH. simpl. rewrite <- app_assoc. reflexivity.
Qed.

Lemma delaysFrom_succ (cfg : Settings) (a : Z) (k : nat) :
  delaysFrom cfg a (Datatypes.S k) = delayMs cfg a :: delaysFrom cfg (a + 1) k.
Proof.
  unfold delaysFrom. simpl. rewrite Z.add_0_r. f_equal.
  rewrite <- seq_shift, map_map. apply map_ext. intros i.
  f_equal. lia.
Qed.

(** What one store call comes to: with [k] retries, [k] delays are
    slept and attempt [k + 1] decides. *)
Definition decided {T : Type} (cfg : Settings) (a : Z) (k : nat) (faults : list errval)
    (query : Z -> Database -> T * Database) (w : World) : result T * Call :=
  let w1 := sleepAll (delaysFrom cfg a k) w in
  match faults !! k with
  | Some error => (Err error, (drop (Datatypes.S k) faults, w1))
  | None => attempt query ([], w1)
  end.

Lemma retryFrom_decided {T : Type} (cfg : Settings) (query : Z -> Database -> T * Database)
    (n : nat) (a : Z) (faults : list errval) (w : World) :
  (1 <= n)%nat -> Z.of_nat n = maxAttempts cfg - a + 1 ->
  retryFrom sleepCall cfg n a (attempt query) (faults, w)
  = decided cfg a (Nat.min (leadingTransient faults) (n - 1)) faults query w.
Proof.
  revert a faults w. induction n as [| n IH]; intros a faults w Hn Ha; [lia |].
  cbn [retryFrom]. destruct faults as [| error faults].
  - unfold decided. cbn [attempt leadingTransient]. rewrite Nat.min_0_l.
    cbn [delaysFrom seq map sleepAll fold_left lookup list_lookup attempt].
    destruct (query (clock w) (database w)). reflexivity.
  - cbn [attempt leadingTransient].
    destruct (Z.eqb_spec a (maxAttempts cfg)) as [Hlast | Hmore].
    + assert (n = O) as -> by lia. cbn [orb].
      rewrite Nat.min_0_r. reflexivity.
    + cbn [orb]. destruct (isTransientDatabaseError error) eqn:Htransient; cbn [negb].
      * assert (1 <= n)%nat by lia.
        unfold sleepCall; cbn [fst snd].
        rewrite IH by lia.
        replace (Datatypes.S n - 1)%nat with (Datatypes.S (n - 1)) by lia.
        rewrite <- Nat.succ_min_distr.
        unfold decided. rewrite delaysFrom_succ. reflexivity.
      * reflexivity.
Qed.

Lemma storeCall_decided {T : Type} (cfg : Settings) (faults : list errval)
    (query : Z -> Database -> T * Database) (w : World) :
  storeCall cfg faults query w
  = let '(r, c) :=
      decided cfg 1
        (Nat.min (leadingTransient faults) (Z.to_nat (maxAttempts cfg) - 1))
        faults query w in
    (r, snd c).
Proof.
  unfold storeCall, withDatabaseRetry.
  rewrite retryFrom_decided; [reflexivity | |]; unfold maxAttempts; lia.
Qed.

Lemma leadingTransient_lookup (faults : list errval) (i : nat) :
  (i < leadingTransient faults)%nat ->
  exists error, faults !! i = Some error /\ isTransientDatabaseError error = true.
Proof.
  revert i. induction faults as [| error faults IH]; intros i Hi; simpl in Hi; [lia |].
  destruct (isTransientDatabaseError error) eqn:Htransient; [| lia].
  destruct i as [| i].
  - exists error. split; [reflexivity | exact Htransient].
  - apply IH. lia.
Qed.

Lemma leadingTransient_stop (faults : list errval) (error : errval) :
  faults !! leadingTransient faults = Some error ->
  isTransientDatabaseError error = false.
Proof.
  induction faults as [| e faults IH]; simpl; [discriminate |].
  destruct (isTransientDatabaseError e) eqn:Htransient.
  - exact IH.
  - simpl. intros H. injection H as <-. exact Htransient.
Qed.

Lemma leadingTransient_all (faults : list errval) :
  Forall (fun error => isTransientDatabaseError error = true) faults ->
  leadingTransient faults = length faults.
Proof.
  induction 1 as [| error faults Htransient _ IH]; simpl; [reflexivity |].
  rewrite Htransient, IH. reflexivity.
Qed.

Lemma leadingTransient_app (pre post : list errval) (error : errval) :
  Forall (fun e => isTransientDatabaseError e = true) pre ->
  isTransientDatabaseError error = false ->
  leadingTransient (pre ++ error :: post) = length pre.
Proof.
  induction 1 as [| e pre Htransient _ IH]; intros Hstop; simpl.
  - rewrite Hstop. reflexivity.
  - rewrite Htransient, IH by assumption. reflexivity.
Qed.

Lemma delaysFrom_one (cfg : Settings) (k : nat) :
  delaysFrom cfg 1 k
  = map (fun i => Z.min (baseDelay cfg * 2 ^ (Z.of_nat i - 1)) (maxDelay cfg)) (seq 1 k).
Proof.
  unfold delaysFrom. rewrite <- seq_shift, map_map. apply map_ext. intros i.
  unfold delayMs. do 3 f_equal. lia.
Qed.

(** The number of retries one store call makes under [faults]. *)
Definition retries (cfg : Settings) (faults : list errval) : nat :=
  Nat.min (leadingTransient faults) (Z.to_nat (maxAttempts cfg) - 1).

(** C5: the retry wrapper around a store operation whose successive
    attempts meet the errors [faults] (and succeed once these are used
    up).  It retries only after a transient error on an attempt that is
    not the last; before retry [i] it sleeps [min (base * 2^(i-1)) max]
    milliseconds; the attempt after the last retry decides: its error,
    if it throws, is re-raised (a non-transient error at once, the last
    error once [maxAttempts] attempts are used up) and the store is left
    alone, otherwise the operation's result is returned.  An error is
    transient exactly when some link of its cause chain carries a
    recognised code or is an [Error] with a recognised message. *)
Theorem withDatabaseRetry_behaviour {T : Type} (cfg : Settings) (faults : list errval)
    (query : Z -> Database -> T * Database) (w : World) :
  let k := retries cfg faults in
  let r := fst (storeCall cfg faults query w) in
  let w' := snd (storeCall cfg faults query w) in
  (forall i, (i < k)%nat ->
     exists error, faults !! i = Some error
                   /\ isTransientDatabaseError error = true
                   /\ Z.of_nat (i + 1) < maxAttempts cfg)
  /\ slept w'
     = slept w ++ map (fun i => Z.min (baseDelay cfg * 2 ^ (Z.of_nat i - 1)) (maxDelay cfg))
                      (seq 1 k)
  /\ match faults !! k with
     | Some error =>
         r = Err error /\ database w' = database w
         /\ (isTransientDatabaseError error = false \/ Z.of_nat (k + 1) = maxAttempts cfg)
     | None =>
         r = Ok (fst (query (clock w') (database w)))
         /\ database w' = snd (query (clock w') (database w))
     end
  /\ (forall pre error post,
        faults = pre ++ error :: post ->
        Forall (fun e => isTransientDatabaseError e = true) pre ->
        isTransientDatabaseError error = false ->
        Z.of_nat (length pre) < maxAttempts cfg ->
        r = Err error /\ k = length pre)
  /\ (forall pre error post,
        faults = pre ++ error :: post ->
        Forall (fun e => isTransientDatabaseError e = true) pre ->
        Z.of_nat (length pre) + 1 = maxAttempts cfg ->
        r = Err error /\ k = length pre)
  /\ (forall error,
        isTransientDatabaseError error = true <-> Exists recognised (causeChain error)).
Proof.
  intros k r w'.
  assert (Hmax : 1 <= maxAttempts cfg) by (unfold maxAttempts; lia).
  assert (Hk : (k <= Z.to_nat (maxAttempts cfg) - 1)%nat) by (apply Nat.le_min_r).
  assert (Hrun : storeCall cfg faults query w
                 = let '(r, c) := decided cfg 1 k faults query w in (r, snd c))
    by apply storeCall_decided.
  assert (Hslept : slept w' = slept w ++ delaysFrom cfg 1 k).
  { subst w'. rewrite Hrun. unfold decided.
    destruct (faults !! k); cbn [attempt].
    - cbn [snd]. apply sleepAll_slept.
    - destruct (query _ _). cbn [snd slept]. apply sleepAll_slept. }
  assert (Hdecide :
    match faults !! k with
    | Some error => r = Err error /\ database w' = database w
    | None => r = Ok (fst (query (clock w') (database w)))
              /\ database w' = snd (query (clock w') (database w))
    end).
  { subst r w'. rewrite Hrun. unfold decided.
    destruct (faults !! k); cbn [attempt].
    - cbn [fst snd]. split; [reflexivity | apply sleepAll_database].
    - rewrite sleepAll_database.
      destruct (query (clock (sleepAll (delaysFrom cfg 1 k) w)) (database w)) eqn:Hq.
      cbn [fst snd clock database]. rewrite Hq. split; reflexivity. }
  split; [| split; [| split; [| split; [| split]]]].
  - intros i Hi.
    destruct (leadingTransient_lookup faults i) as (error & Hlookup & Htransient).
    { unfold k, retries in Hi. lia. }
    exists error. repeat split; try assumption. lia.
  - rewrite Hslept, delaysFrom_one. reflexivity.
  - destruct (faults !! k) as [error |] eqn:Hlookup; [| exact Hdecide].
    destruct Hdecide as [Hr Hdb]. repeat split; try assumption.
    unfold k, retries in *.
    destruct (Nat.min_spec (leadingTransient faults) (Z.to_nat (maxAttempts cfg) - 1))
      as [[Hlt Hmin] | [Hge Hmin]]; rewrite Hmin in *.
    + left. eapply leadingTransient_stop, Hlookup.
    + right. lia.
  - intros pre error post -> Hpre Hstop Hlen.
    assert (Hlead : k = length pre).
    { unfold k, retries. rewrite leadingTransient_app by assumption. lia. }
    rewrite Hlead in Hdecide.
    rewrite lookup_app_r, Nat.sub_diag in Hdecide by lia.
    split; [apply Hdecide | exact Hlead].
  - intros pre error post -> Hpre Hlen.
    assert (Hlead : k = length pre).
    { unfold k, retries.
      assert (length pre <= leadingTransient (pre ++ error :: post))%nat; [| lia].
      clear -Hpre. induction Hpre as [| e pre He _ IH]; simpl; [lia |].
      rewrite He. lia. }
    rewrite Hlead in Hdecide.
    rewrite lookup_app_r, Nat.sub_diag in Hdecide by lia.
    split; [apply Hdecide | exact Hlead].
  - apply isTransientDatabaseError_iff.
Qed.

(** ** Upload dates *)

(** The proleptic Gregorian calendar, counted day by day from the epoch:
    the specification's side of [parseUploadDate] and
    [computeDateAfter]. *)
Module Calendar.

Definition isLeapYear (y : Z) : bool :=
  (y mod 4 =? 0) && (negb (y mod 100 =? 0) || (y mod 400 =? 0)).

Definition daysInYear (y : Z) : Z := if isLeapYear y then 366 else 365.

(** Length of month [m] (1 to 12) of year [y]. *)
Definition daysInMonth (y m : Z) : Z :=
  if m =? 2 then (if isLeapYear y then 29 else 28)
  else if (m =? 4) || (m =? 6) || (m =? 9) || (m =? 11) then 30
  else 31.

(** Days in the [n] years [y], [y + 1], ... *)
Fixpoint daysOfYears (n : nat) (y : Z) : Z :=
  match n with
  | O => 0
  | S n' => daysInYear y + daysOfYears n' (y + 1)
  end.

(** Days from 1 January 1970 to 1 January of [y]; negative before 1970. *)
Definition daysBeforeYear (y : Z) : Z :=
  if 1970 <=? y then daysOfYears (Z.to_nat (y - 1970)) 1970
  else - daysOfYears (Z.to_nat (1970 - y)) y.

(** Days of year [y] before the first of month [m]: the lengths of
    months [1 .. m - 1]. *)
Definition daysBeforeMonth (y m : Z) : Z :=
  fold_right Z.add 0 (map (fun k => daysInMonth y (Z.of_nat k)) (seq 1 (Z.to_nat (m - 1)))).

(** Day number of the calendar date [y]-[m]-[d], day 0 being 1 January
    1970.  A day of the month past the month's end runs on into the
    following days ([epochDay_rollover]). *)
Definition epochDay (y m d : Z) : Z :=
  daysBeforeYear y + daysBeforeMonth y m + (d - 1).

(** A date of the calendar. *)
Definition validDate (y m d : Z) : Prop :=
  1 <= m <= 12 /\ 1 <= d <= daysInMonth y m.

End Calendar.

Lemma DaysInYear_calendar (y : Z) : DaysInYear y = Calendar.daysInYear y.
Proof.
  unfold DaysInYear, Calendar.daysInYear, Calendar.isLeapYear.
  destruct (y mod 4 =? 0), (y mod 100 =? 0), (y mod 400 =? 0); reflexivity.
Qed.

Lemma DayFromYear_succ (y : Z) : DayFromYear (y + 1) = DayFromYear y + Calendar.daysInYear y.
Proof.
  unfold DayFromYear, Calendar.daysInYear, Calendar.isLeapYear.
  destruct (Z.eqb_spec (y mod 4) 0), (Z.eqb_spec (y mod 100) 0),
    (Z.eqb_spec (y mod 400) 0); simpl; Z.div_mod_to_equations; lia.
Qed.

Lemma DayFromYear_daysOfYears (n : nat) (y : Z) :
  DayFromYear (y + Z.of_nat n) = DayFromYear y + Calendar.daysOfYears n y.
Proof.
  revert y. induction n as [| n IH]; intros y.
  - simpl. rewrite Z.add_0_r. lia.
  - cbn [Calendar.daysOfYears].
    replace (y + Z.of_nat (S n)) with (y + 1 + Z.of_nat n) by lia.
    rewrite IH, DayFromYear_succ. lia.
Qed.

(** ECMAScript's closed formula counts the calendar's years. *)
Lemma DayFromYear_calendar (y : Z) : DayFromYear y = Calendar.daysBeforeYear y.
Proof.
  unfold Calendar.daysBeforeYear.
  assert (H1970 : DayFromYear 1970 = 0) by reflexivity.
  destruct (Z.leb_spec 1970 y).
  - replace y with (1970 + Z.of_nat (Z.to_nat (y - 1970))) at 1 by lia.
    rewrite DayFromYear_daysOfYears. lia.
  - pose proof (DayFromYear_daysOfYears (Z.to_nat (1970 - y)) y) as Hsum.
    replace (y + Z.of_nat (Z.to_nat (1970 - y))) with 1970 in Hsum by lia.
    lia.
Qed.

Lemma monthStart_calendar (y m : Z) :
  1 <= m <= 12 ->
  monthStart (if DaysInYear y =? 366 then 1 else 0) (m - 1) = Calendar.daysBeforeMonth y m.
Proof.
  intros Hm. rewrite DaysInYear_calendar.
  unfold Calendar.daysInYear, Calendar.daysBeforeMonth, Calendar.daysInMonth.
  assert (Hcases : m = 1 \/ m = 2 \/ m = 3 \/ m = 4 \/ m = 5 \/ m = 6 \/ m = 7
                   \/ m = 8 \/ m = 9 \/ m = 10 \/ m = 11 \/ m = 12) by lia.
  destruct (Calendar.isLeapYear y);
    repeat (destruct Hcases as [-> | Hcases]; [reflexivity |]); subst; reflexivity.
Qed.

(** [MakeDay] finds the calendar's day. *)
Lemma MakeDay_calendar (y m d : Z) :
  1 <= m <= 12 -> MakeDay y (m - 1) d = Calendar.epochDay y m d.
Proof.
  intros Hm. unfold MakeDay, Calendar.epochDay. cbv zeta.
  replace ((m - 1) / 12) with 0 by (Z.div_mod_to_equations; lia).
  replace ((m - 1) mod 12) with (m - 1) by (Z.div_mod_to_equations; lia).
  rewrite Z.add_0_r, monthStart_calendar, DayFromYear_calendar by assumption.
  lia.
Qed.

(** A day of the month beyond the month's end is a day of the next
    month. *)
Lemma epochDay_rollover (y m d : Z) :
  1 <= m < 12 ->
  Calendar.epochDay y m (Calendar.daysInMonth y m + d) = Calendar.epochDay y (m + 1) d.
Proof.
  intros Hm. unfold Calendar.epochDay.
  rewrite <- (monthStart_calendar y m), <- (monthStart_calendar y (m + 1)) by lia.
  unfold Calendar.daysInMonth. rewrite DaysInYear_calendar. unfold Calendar.daysInYear.
  assert (Hcases : m = 1 \/ m = 2 \/ m = 3 \/ m = 4 \/ m = 5 \/ m = 6 \/ m = 7
                   \/ m = 8 \/ m = 9 \/ m = 10 \/ m = 11) by lia.
  destruct (Calendar.isLeapYear y);
    repeat (destruct Hcases as [-> | Hcases]; [simpl; lia |]); subst; simpl; lia.
Qed.

(** *** Digits *)

Lemma isDigit_code (c : ascii) : isDigit c = true <-> (48 <= code c <= 57)%N.
Proof.
  unfold isDigit. cbv zeta. rewrite andb_true_iff, !N.leb_le. reflexivity.
Qed.

Lemma code_eqb (c d : ascii) : Ascii.eqb c d = (code c =? code d)%N.
Proof.
  destruct (Ascii.eqb_spec c d) as [-> | Hne].
  - symmetry. apply N.eqb_refl.
  - symmetry. apply N.eqb_neq. intros Heq. apply Hne.
    unfold code in Heq.
    rewrite <- (ascii_N_embedding c), <- (ascii_N_embedding d), Heq. reflexivity.
Qed.

Lemma digit_not_char (c d : ascii) :
  isDigit c = true -> isDigit d = false -> Ascii.eqb c d = false.
Proof.
  intros Hc Hd. destruct (Ascii.eqb_spec c d) as [-> | Hne]; [congruence | reflexivity].
Qed.

Lemma digit_not_space (c : ascii) : isDigit c = true -> isWhiteSpace c = false.
Proof.
  rewrite isDigit_code. unfold isWhiteSpace. cbv zeta. intros H.
  repeat (apply orb_false_iff; split); [apply andb_false_iff; right | |];
    first [apply N.leb_gt | apply N.eqb_neq]; lia.
Qed.

Lemma digitVal_range (c : ascii) : isDigit c = true -> 0 <= digitVal c <= 9.
Proof. rewrite isDigit_code. unfold digitVal. lia. Qed.

Lemma digitsVal_snoc (l : list ascii) (c : ascii) :
  digitsVal (l ++ [c]) = 10 * digitsVal l + digitVal c.
Proof. unfold digitsVal. rewrite fold_left_app. reflexivity. Qed.

Lemma digitsVal_range (l : list ascii) :
  forallb isDigit l = true -> 0 <= digitsVal l < 10 ^ Z.of_nat (length l).
Proof.
  induction l as [| c l IH] using rev_ind; intros Hall.
  - simpl. unfold digitsVal. simpl. lia.
  - rewrite forallb_app in Hall. apply andb_true_iff in Hall as [Hl Hc].
    simpl in Hc. rewrite andb_true_r in Hc.
    rewrite digitsVal_snoc, length_app, Nat2Z.inj_add, Z.pow_add_r by lia.
    specialize (IH Hl). pose proof (digitVal_range c Hc).
    change (10 ^ Z.of_nat (length [c])) with 10. lia.
Qed.

Lemma spanDigits_all (l : list ascii) :
  forallb isDigit l = true -> spanDigits l = (l, []).
Proof.
  induction l as [| c l IH]; simpl; [reflexivity |].
  intros H. apply andb_true_iff in H as [-> Hl]. rewrite (IH Hl). reflexivity.
Qed.

Lemma trimStart_digit (c : ascii) (l : list ascii) :
  isDigit c = true -> trimStart_l (c :: l) = c :: l.
Proof. intros H. simpl. rewrite (digit_not_space c H). reflexivity. Qed.

Lemma trim_digits (l : list ascii) : forallb isDigit l = true -> trim_l l = l.
Proof.
  intros Hall. unfold trim_l, trimEnd_l.
  assert (Hstart : trimStart_l l = l).
  { destruct l as [| c l]; [reflexivity |].
    simpl in Hall. apply andb_true_iff in Hall as [Hc _]. apply trimStart_digit, Hc. }
  rewrite Hstart.
  destruct l as [| c l] using rev_ind; [reflexivity |].
  rewrite forallb_app in Hall. apply andb_true_iff in Hall as [_ Hc].
  simpl in Hc. rewrite andb_true_r in Hc.
  rewrite rev_app_distr. cbn [rev app]. rewrite trimStart_digit by assumption.
  change (c :: rev l) with (rev [c] ++ rev l).
  rewrite <- rev_app_distr, rev_involutive. reflexivity.
Qed.

(** A run of decimal digits reads as its value. *)
Lemma numericLiteral_digits (l : list ascii) :
  l <> [] -> forallb isDigit l = true -> numericLiteral l = Fin (digitsVal l) 0.
Proof.
  intros Hne Hall.
  assert (Hdecimal : unsignedDecimal l = Fin (digitsVal l) 0).
  { unfold unsignedDecimal. destruct (decide (l = chars "Infinity")) as [-> | _];
      [discriminate |].
    rewrite (spanDigits_all l Hall). destruct l; [contradiction | reflexivity]. }
  assert (Hsigned : signedDecimal l = Fin (digitsVal l) 0).
  { unfold signedDecimal. destruct l as [| c l]; [contradiction |].
    simpl in Hall. apply andb_true_iff in Hall as [Hc _].
    rewrite !(digit_not_char c) by (assumption || reflexivity). exact Hdecimal. }
  unfold numericLiteral. destruct l as [| c0 [| c1 l]]; try exact Hsigned.
  simpl in Hall. apply andb_true_iff in Hall as [_ Hall].
  apply andb_true_iff in Hall as [Hc1 _].
  unfold radixOfPrefix.
  rewrite !(digit_not_char c1) by (assumption || reflexivity).
  destruct (negb (Ascii.eqb c0 "0")); exact Hsigned.
Qed.

Lemma Number_digits (l : list ascii) :
  l <> [] -> forallb isDigit l = true -> Number (str l) = Fin (digitsVal l) 0.
Proof.
  intros Hne Hall. unfold Number, chars, str.
  rewrite list_ascii_of_string_of_list_ascii, trim_digits by assumption.
  rewrite <- numericLiteral_digits by assumption.
  destruct l; [contradiction | reflexivity].
Qed.

(** The time value [Date.UTC] returns for a date without a clock time is
    a whole number of days, so [parseUploadDate]'s division by 1000 is
    exact. *)
Lemma Date_UTC_whole_days (year month date : number) (ms : Z) :
  Date_UTC year month date = Some ms -> ms mod msPerDay = 0 /\ ms mod 1000 = 0.
Proof.
  unfold Date_UTC, TimeClip, MakeDate.
  destruct year, month, date; try discriminate.
  destruct (_ <=? _); [| discriminate].
  intros H. injection H as <-. unfold msPerDay.
  split; Z.div_mod_to_equations; lia.
Qed.

Lemma MakeDay_range (y m d : Z) :
  100 <= y <= 9999 -> 1 <= m <= 12 -> 1 <= d <= 31 ->
  -700000 <= MakeDay y (m - 1) d <= 3000000.
Proof.
  intros Hy Hm Hd. unfold MakeDay. cbv zeta.
  replace ((m - 1) / 12) with 0 by (Z.div_mod_to_equations; lia).
  replace ((m - 1) mod 12) with (m - 1) by (Z.div_mod_to_equations; lia).
  rewrite Z.add_0_r.
  assert (0 <= monthStart (if DaysInYear y =? 366 then 1 else 0) (m - 1) <= 335).
  { assert (Hcases : m = 1 \/ m = 2 \/ m = 3 \/ m = 4 \/ m = 5 \/ m = 6 \/ m = 7
                     \/ m = 8 \/ m = 9 \/ m = 10 \/ m = 11 \/ m = 12) by lia.
    destruct (DaysInYear y =? 366);
      repeat (destruct Hcases as [-> | Hcases]; [simpl; lia |]); subst; simpl; lia. }
  unfold DayFromYear. Z.div_mod_to_equations. lia.
Qed.

(** [Date.UTC] on integral arguments with a year from 100 to 9999. *)
Lemma Date_UTC_calendar (y m d : Z) :
  100 <= y <= 9999 -> 1 <= m <= 12 -> 1 <= d <= 31 ->
  Date_UTC (Fin y 0) (subZ (Fin m 0) 1) (Fin d 0)
  = Some (msPerDay * Calendar.epochDay y m d).
Proof.
  intros Hy Hm Hd. unfold Date_UTC, subZ, truncate. cbn [Z.leb Z.compare].
  rewrite !Z.pow_0_r, !Z.mul_1_r.
  unfold MakeFullYear.
  replace ((0 <=? y) && (y <=? 99)) with false
    by (symmetry; apply andb_false_iff; right; apply Z.leb_gt; lia).
  pose proof (MakeDay_range y m d Hy Hm Hd) as Hrange.
  rewrite <- MakeDay_calendar by assumption.
  unfold TimeClip, MakeDate, maxTime, msPerDay in *.
  destruct (Z.leb_spec (Z.abs (MakeDay y (m - 1) d * 86400000 + 0)) 8640000000000000);
    [f_equal; lia | lia].
Qed.

(** The three fields of an eight-digit date. *)
Definition yearField (uploadDate : string) : Z := digitsVal (chars (slice uploadDate 0 4)).
Definition monthField (uploadDate : string) : Z := digitsVal (chars (slice uploadDate 4 6)).
Definition dayField (uploadDate : string) : Z := digitsVal (chars (slice uploadDate 6 8)).

Lemma parseUploadDate_digits (uploadDate : string) :
  String.length uploadDate = 8%nat ->
  forallb isDigit (chars uploadDate) = true ->
  Number (slice uploadDate 0 4) = Fin (yearField uploadDate) 0
  /\ Number (slice uploadDate 4 6) = Fin (monthField uploadDate) 0
  /\ Number (slice uploadDate 6 8) = Fin (dayField uploadDate) 0
  /\ 0 <= yearField uploadDate <= 9999.
Proof.
  intros Hlen Hall.
  destruct uploadDate as [| c1 [| c2 [| c3 [| c4 [| c5 [| c6 [| c7 [| c8 [| c9 rest]]]]]]]]];
    try discriminate.
  unfold chars in Hall. cbn [list_ascii_of_string forallb] in Hall.
  repeat (apply andb_true_iff in Hall as [? Hall]).
  unfold yearField, monthField, dayField.
  change (slice (String c1 (String c2 (String c3 (String c4 (String c5 (String c6
            (String c7 (String c8 EmptyString)))))))) 0 4) with (str [c1; c2; c3; c4]).
  change (slice (String c1 (String c2 (String c3 (String c4 (String c5 (String c6
            (String c7 (String c8 EmptyString)))))))) 4 6) with (str [c5; c6]).
  change (slice (String c1 (String c2 (String c3 (String c4 (String c5 (String c6
            (String c7 (String c8 EmptyString)))))))) 6 8) with (str [c7; c8]).
  assert (Hyear4 : forallb isDigit [c1; c2; c3; c4] = true)
    by (cbn [forallb];
        repeat match goal with
               | Hc : isDigit ?c = true |- context [isDigit ?c] => rewrite Hc
               end; reflexivity).
  assert (Hmonth2 : forallb isDigit [c5; c6] = true)
    by (cbn [forallb];
        repeat match goal with
               | Hc : isDigit ?c = true |- context [isDigit ?c] => rewrite Hc
               end; reflexivity).
  assert (Hday2 : forallb isDigit [c7; c8] = true)
    by (cbn [forallb];
        repeat match goal with
               | Hc : isDigit ?c = true |- context [isDigit ?c] => rewrite Hc
               end; reflexivity).
  rewrite !Number_digits by (assumption || discriminate).
  repeat split; try reflexivity;
    pose proof (digitsVal_range [c1; c2; c3; c4] Hyear4) as Hr;
    change (10 ^ Z.of_nat (length [c1; c2; c3; c4])) with 10000 in Hr;
    change (chars (str [c1; c2; c3; c4])) with [c1; c2; c3; c4]; lia.
Qed.

(** Eight digits with fields in range: the epoch second of the fields'
    date. *)
Lemma parseUploadDate_fields (uploadDate : string) :
  String.length uploadDate = 8%nat ->
  forallb isDigit (chars uploadDate) = true ->
  100 <= yearField uploadDate ->
  1 <= monthField uploadDate <= 12 ->
  1 <= dayField uploadDate <= 31 ->
  parseUploadDate uploadDate
  = Some (86400 * Calendar.epochDay (yearField uploadDate) (monthField uploadDate)
                    (dayField uploadDate)).
Proof.
  intros Hlen Hall Hy Hm Hd.
  destruct (parseUploadDate_digits uploadDate Hlen Hall) as (HY & HM & HD & Hyear).
  unfold parseUploadDate. rewrite Hlen, HY, HM, HD. cbn [Nat.eqb negb isNaN orb].
  unfold ltZ, gtZ. cbn [Z.leb Z.compare]. rewrite !Z.pow_0_r, !Z.mul_1_r.
  replace (monthField uploadDate <? 1) with false by (symmetry; apply Z.ltb_ge; lia).
  replace (12 <? monthField uploadDate) with false by (symmetry; apply Z.ltb_ge; lia).
  replace (dayField uploadDate <? 1) with false by (symmetry; apply Z.ltb_ge; lia).
  replace (31 <? dayField uploadDate) with false by (symmetry; apply Z.ltb_ge; lia).
  cbn [orb]. rewrite Date_UTC_calendar by lia.
  cbn [option_map]. f_equal. unfold msPerDay. Z.div_mod_to_equations. lia.
Qed.

(** C7, as stated, fails for years below 100: [Date.UTC] reads a year
    from 0 to 99 as 1900 plus that year, so ["00240115"] comes out as
    15 January 1924 and not as 15 January of the year 24. *)
Lemma parseUploadDate_two_digit_year :
  forallb isDigit (chars "00240115") = true
  /\ yearField "00240115" = 24 /\ monthField "00240115" = 1 /\ dayField "00240115" = 15
  /\ parseUploadDate "00240115" = Some (86400 * Calendar.epochDay 1924 1 15)
  /\ parseUploadDate "00240115" <> Some (86400 * Calendar.epochDay 24 1 15).
Proof. repeat split; try (vm_compute; reflexivity). vm_compute. discriminate. Qed.

(** C7, amended: for eight decimal digits YYYYMMDD with YYYY at least
    0100, month from 1 to 12 and day from 1 to 31, [parseUploadDate] is
    the epoch second of UTC midnight of that calendar date, a day past
    the end of the month counting on into the next month; and it is
    not-a-number when the length is not 8, when [Number] cannot read a
    field, or when the month or the day is out of range. *)
Theorem parseUploadDate_calendar (uploadDate : string) :
  (String.length uploadDate = 8%nat ->
   forallb isDigit (chars uploadDate) = true ->
   100 <= yearField uploadDate ->
   1 <= monthField uploadDate <= 12 ->
   1 <= dayField uploadDate <= 31 ->
   parseUploadDate uploadDate
   = Some (86400 * Calendar.epochDay (yearField uploadDate) (monthField uploadDate)
                     (dayField uploadDate)))
  /\ (String.length uploadDate <> 8%nat -> parseUploadDate uploadDate = None)
  /\ (Number (slice uploadDate 0 4) = NaN \/ Number (slice uploadDate 4 6) = NaN
      \/ Number (slice uploadDate 6 8) = NaN ->
      parseUploadDate uploadDate = None)
  /\ (ltZ (Number (slice uploadDate 4 6)) 1 = true
      \/ gtZ (Number (slice uploadDate 4 6)) 12 = true
      \/ ltZ (Number (slice uploadDate 6 8)) 1 = true
      \/ gtZ (Number (slice uploadDate 6 8)) 31 = true ->
      parseUploadDate uploadDate = None).
Proof.
  split; [| split; [| split]].
  - apply parseUploadDate_fields.
  - intros Hlen. unfold parseUploadDate.
    apply Nat.eqb_neq in Hlen. rewrite Hlen. reflexivity.
  - intros H. unfold parseUploadDate.
    destruct (negb (String.length uploadDate =? 8)%nat); [reflexivity |].
    destruct H as [-> | [-> | ->]]; cbn [isNaN orb];
      rewrite ?orb_true_r; reflexivity.
  - intros H. unfold parseUploadDate.
    destruct (negb (String.length uploadDate =? 8)%nat); [reflexivity |].
    destruct H as [-> | [-> | [-> | ->]]]; rewrite ?orb_true_r; reflexivity.
Qed.

(** The theorem at the date of the specification's example. *)
Lemma parseUploadDate_calendar_witness :
  parseUploadDate "20240115" = Some (86400 * Calendar.epochDay 2024 1 15)
  /\ 86400 * Calendar.epochDay 2024 1 15 = 1705276800
  /\ parseUploadDate "2024011" = None
  /\ parseUploadDate "2024ab15" = None
  /\ parseUploadDate "20241315" = None.
Proof.
  pose proof (parseUploadDate_calendar "20240115") as H20240115.
  pose proof (parseUploadDate_calendar "2024011") as H2024011.
  pose proof (parseUploadDate_calendar "2024ab15") as H2024ab15.
  pose proof (parseUploadDate_calendar "20241315") as H20241315.
  split; [| split; [| split; [| split]]].
  - apply (proj1 H20240115); vm_compute;
      first [reflexivity | discriminate | split; discriminate].
  - vm_compute. reflexivity.
  - apply (proj1 (proj2 H2024011)). vm_compute. discriminate.
  - apply (proj1 (proj2 (proj2 H2024ab15))). right. left. vm_compute. reflexivity.
  - apply (proj2 (proj2 (proj2 H20241315))). right. left. vm_compute. reflexivity.
Defined.

(** 31 February 2023 is 3 March 2023. *)
Example parseUploadDate_rolls_over :
  parseUploadDate "20230231" = Some (86400 * Calendar.epochDay 2023 2 31)
  /\ Calendar.epochDay 2023 2 31 = Calendar.epochDay 2023 3 3
  /\ parseUploadDate "20230231" = parseUploadDate "20230303".
Proof.
  split; [| split].
  - apply (parseUploadDate_fields "20230231"); vm_compute;
      first [reflexivity | discriminate | split; discriminate].
  - change 31 with (Calendar.daysInMonth 2023 2 + 3).
    apply epochDay_rollover. lia.
  - vm_compute. reflexivity.
Qed.

(** ** The date cutoff *)

Lemma yearOfDay_spec (n : Z) :
  DayFromYear (yearOfDay n) <= n < DayFromYear (yearOfDay n + 1).
Proof.
  unfold yearOfDay. cbv zeta.
  destruct (Z.ltb_spec n (DayFromYear (1970 + 400 * n / 146097))).
  - unfold DayFromYear in *. Z.div_mod_to_equations. lia.
  - destruct (Z.leb_spec (DayFromYear (1970 + 400 * n / 146097 + 1)) n).
    + unfold DayFromYear in *. Z.div_mod_to_equations. lia.
    + lia.
Qed.

(** [YearFromTime] is ECMAScript's: the largest year that starts at or
    before [t]. *)
Lemma YearFromTime_largest (t y : Z) :
  DayFromYear (YearFromTime t) * msPerDay <= t
  /\ (DayFromYear y * msPerDay <= t -> y <= YearFromTime t).
Proof.
  unfold YearFromTime, Day.
  pose proof (yearOfDay_spec (t / msPerDay)) as [Hlo Hhi].
  unfold msPerDay in *. split.
  - Z.div_mod_to_equations. lia.
  - intros Hy.
    destruct (Z.le_gt_cases y (yearOfDay (t / 86400000))) as [Hle | Hgt]; [exact Hle |].
    exfalso.
    assert (Hmono : DayFromYear (yearOfDay (t / 86400000) + 1) <= DayFromYear y).
    { clear -Hgt. unfold DayFromYear. Z.div_mod_to_equations. lia. }
    Z.div_mod_to_equations. lia.
Qed.

(** The year, month and day the getters read off a time value are the
    calendar date of its day. *)
Lemma civil_of_time (t : Z) :
  Calendar.validDate (YearFromTime t) (MonthFromTime t + 1) (DateFromTime t)
  /\ 0 <= MonthFromTime t <= 11
  /\ Calendar.epochDay (YearFromTime t) (MonthFromTime t + 1) (DateFromTime t) = Day t.
Proof.
  pose proof (yearOfDay_spec (Day t)) as Hyear.
  rewrite DayFromYear_succ in Hyear.
  assert (Hmonth :
    0 <= MonthFromTime t <= 11
    /\ 1 <= DateFromTime t <= Calendar.daysInMonth (YearFromTime t) (MonthFromTime t + 1)
    /\ DayFromYear (YearFromTime t)
       + monthStart (if DaysInYear (YearFromTime t) =? 366 then 1 else 0) (MonthFromTime t)
       + (DateFromTime t - 1) = Day t).
  { unfold DateFromTime, MonthFromTime, DayWithinYear, InLeapYear, Calendar.daysInMonth.
    fold (YearFromTime t) in Hyear. cbv zeta.
    rewrite DaysInYear_calendar. unfold Calendar.daysInYear in *.
    destruct (Calendar.isLeapYear (YearFromTime t)); cbn [Z.eqb Pos.eqb];
      repeat match goal with
             | |- context [?a <? ?b] => destruct (Z.ltb_spec a b)
             end;
      repeat match goal with
             | |- context [if ?b then _ else _] =>
                 let v := eval vm_compute in b in change b with v; cbv iota
             end;
      cbn [monthStart]; lia. }
  destruct Hmonth as (Hm & Hd & Hday).
  split; [| split; [exact Hm |]].
  - split; [lia | exact Hd].
  - unfold Calendar.epochDay.
    rewrite <- DayFromYear_calendar, <- monthStart_calendar by lia.
    replace (MonthFromTime t + 1 - 1) with (MonthFromTime t) by lia.
    exact Hday.
Qed.

Lemma epochDay_injective (y m d y' m' d' : Z) :
  Calendar.validDate y m d -> Calendar.validDate y' m' d' ->
  Calendar.epochDay y m d = Calendar.epochDay y' m' d' ->
  y = y' /\ m = m' /\ d = d'.
Proof.
  intros [Hm Hd] [Hm' Hd'] Heq. unfold Calendar.epochDay in Heq.
  rewrite <- !DayFromYear_calendar, <- !monthStart_calendar in Heq by assumption.
  rewrite !DaysInYear_calendar in Heq.
  assert (Hin : forall yy mm dd, 1 <= mm <= 12 -> 1 <= dd <= Calendar.daysInMonth yy mm ->
             0 <= monthStart (if Calendar.daysInYear yy =? 366 then 1 else 0) (mm - 1) + (dd - 1)
             < Calendar.daysInYear yy).
  { intros yy mm dd Hmm Hdd. clear - Hmm Hdd.
    unfold Calendar.daysInMonth, Calendar.daysInYear in *.
    assert (Hcases : mm = 1 \/ mm = 2 \/ mm = 3 \/ mm = 4 \/ mm = 5 \/ mm = 6 \/ mm = 7
                     \/ mm = 8 \/ mm = 9 \/ mm = 10 \/ mm = 11 \/ mm = 12) by lia.
    destruct (Calendar.isLeapYear yy);
      repeat (destruct Hcases as [-> | Hcases]; [simpl in *; lia |]); subst; simpl in *; lia. }
  pose proof (Hin y m d Hm Hd) as Hy. pose proof (Hin y' m' d' Hm' Hd') as Hy'.
  assert (Hyear : y = y').
  { pose proof (DayFromYear_succ y) as Hs. pose proof (DayFromYear_succ y') as Hs'.
    destruct (Z.lt_trichotomy y y') as [Hlt | [-> | Hgt]]; [exfalso | reflexivity | exfalso].
    - assert (DayFromYear (y + 1) <= DayFromYear y')
        by (clear -Hlt; unfold DayFromYear; Z.div_mod_to_equations; lia).
      lia.
    - assert (DayFromYear (y' + 1) <= DayFromYear y)
        by (clear -Hgt; unfold DayFromYear; Z.div_mod_to_equations; lia).
      lia. }
  subst y'. split; [reflexivity |].
  assert (Hcases : m = 1 \/ m = 2 \/ m = 3 \/ m = 4 \/ m = 5 \/ m = 6 \/ m = 7
                   \/ m = 8 \/ m = 9 \/ m = 10 \/ m = 11 \/ m = 12) by lia.
  assert (Hcases' : m' = 1 \/ m' = 2 \/ m' = 3 \/ m' = 4 \/ m' = 5 \/ m' = 6 \/ m' = 7
                   \/ m' = 8 \/ m' = 9 \/ m' = 10 \/ m' = 11 \/ m' = 12) by lia.
  clear Hy Hy' Hin.
  unfold Calendar.daysInMonth, Calendar.daysInYear in *.
  destruct (Calendar.isLeapYear y);
    repeat (destruct Hcases as [-> | Hcases]);
    repeat (destruct Hcases' as [-> | Hcases']); subst; simpl in *; lia.
Qed.

(** [setUTCDate(getUTCDate() - 1)] moves a date back by one day. *)
Lemma setUTCDate_previous_day (t : Z) :
  setUTCDate (Some t) (option_map (fun d => d - 1) (getUTCDate (Some t)))
  = TimeClip (t - msPerDay).
Proof.
  unfold setUTCDate, getUTCDate. cbn [option_map]. f_equal.
  destruct (civil_of_time t) as (_ & Hm & Hday).
  replace (MonthFromTime t) with (MonthFromTime t + 1 - 1) at 1 by lia.
  rewrite MakeDay_calendar by lia.
  unfold Calendar.epochDay in *. unfold MakeDate, TimeWithinDay.
  unfold Day, msPerDay in *. Z.div_mod_to_equations. lia.
Qed.

(** The text of the calendar date [y]-[m]-[d] as the program writes it:
    the year in decimal, then month and day on two digits each. *)
Definition ymdText (y m d : Z) : string :=
  decimal y +:+ padStart0 2 (decimal m) +:+ padStart0 2 (decimal d).

Lemma formatDateAsYyyymmdd_civil (t : Z) :
  formatDateAsYyyymmdd (Some t)
  = ymdText (YearFromTime t) (MonthFromTime t + 1) (DateFromTime t).
Proof. reflexivity. Qed.

(** The cutoff computed from [sortKey] is the day before the day of the
    time value [t]. *)
Definition cutoffIsDayBefore (sortKey : SortKeyInfo) (t : Z) : Prop :=
  exists y m d,
    Calendar.validDate y m d
    /\ Calendar.epochDay y m d = Day t - 1
    /\ computeDateAfter (Some sortKey) = Some (ymdText y m d).

Lemma computeDateAfter_baseline (sortKey : SortKeyInfo) (t : Z) :
  baselineOf sortKey = Some (Some t) ->
  - maxTime + msPerDay <= t <= maxTime ->
  cutoffIsDayBefore sortKey t.
Proof.
  intros Hbase Hrange. unfold cutoffIsDayBefore, computeDateAfter.
  rewrite Hbase, setUTCDate_previous_day.
  unfold TimeClip.
  replace (Z.abs (t - msPerDay) <=? maxTime) with true
    by (symmetry; apply Z.leb_le; unfold maxTime, msPerDay in *; lia).
  rewrite formatDateAsYyyymmdd_civil.
  destruct (civil_of_time (t - msPerDay)) as (Hvalid & _ & Hday).
  exists (YearFromTime (t - msPerDay)), (MonthFromTime (t - msPerDay) + 1),
    (DateFromTime (t - msPerDay)).
  repeat split; try apply Hvalid.
  rewrite Hday. unfold Day, msPerDay. Z.div_mod_to_equations. lia.
Qed.

(** *** The text of a date reads back as that date *)

Definition fourDigits (y : Z) : bool :=
  match chars (decimal y) with
  | [a; b; c; d] => forallb isDigit [a; b; c; d] && (digitsVal [a; b; c; d] =? y)
  | _ => false
  end.

Definition twoDigits (k : Z) : bool :=
  match chars (padStart0 2 (decimal k)) with
  | [a; b] => forallb isDigit [a; b] && (digitsVal [a; b] =? k)
  | _ => false
  end.

Lemma checked_on_range (check : Z -> bool) (lo : nat) (len : nat) (k : Z) :
  forallb check (map Z.of_nat (seq lo len)) = true ->
  Z.of_nat lo <= k < Z.of_nat lo + Z.of_nat len ->
  check k = true.
Proof.
  intros Hall Hk. rewrite forallb_forall in Hall. apply Hall.
  apply in_map_iff. exists (Z.to_nat k). split; [lia |].
  apply in_seq. lia.
Qed.

Lemma fourDigits_year (y : Z) : 1000 <= y <= 9999 -> fourDigits y = true.
Proof.
  intros Hy. apply (checked_on_range fourDigits (Z.to_nat 1000) (Z.to_nat 9000)); [| lia].
  vm_compute. reflexivity.
Qed.

Lemma twoDigits_field (k : Z) : 0 <= k <= 99 -> twoDigits k = true.
Proof.
  intros Hk. apply (checked_on_range twoDigits 0 100); [| lia].
  vm_compute. reflexivity.
Qed.

Lemma str_chars (s : string) : str (chars s) = s.
Proof. apply string_of_list_ascii_of_string. Qed.

Lemma chars_str (l : list ascii) : chars (str l) = l.
Proof. apply list_ascii_of_string_of_list_ascii. Qed.

(** For a year of four digits the text is YYYYMMDD and its fields are
    the date. *)
Lemma ymdText_fields (y m d : Z) :
  1000 <= y <= 9999 -> 0 <= m <= 99 -> 0 <= d <= 99 ->
  String.length (ymdText y m d) = 8%nat
  /\ forallb isDigit (chars (ymdText y m d)) = true
  /\ yearField (ymdText y m d) = y
  /\ monthField (ymdText y m d) = m
  /\ dayField (ymdText y m d) = d.
Proof.
  intros Hy Hm Hd.
  pose proof (fourDigits_year y Hy) as HY.
  pose proof (twoDigits_field m Hm) as HM.
  pose proof (twoDigits_field d Hd) as HD.
  unfold fourDigits, twoDigits in *. unfold ymdText.
  rewrite <- (str_chars (decimal y)), <- (str_chars (padStart0 2 (decimal m))),
    <- (str_chars (padStart0 2 (decimal d))).
  destruct (chars (decimal y)) as [| y1 [| y2 [| y3 [| y4 [|]]]]]; try discriminate.
  destruct (chars (padStart0 2 (decimal m))) as [| m1 [| m2 [|]]]; try discriminate.
  destruct (chars (padStart0 2 (decimal d))) as [| d1 [| d2 [|]]]; try discriminate.
  apply andb_true_iff in HY as [HYd HYv], HM as [HMd HMv], HD as [HDd HDv].
  apply Z.eqb_eq in HYv, HMv, HDv.
  cbn [forallb] in HYd, HMd, HDd. rewrite !andb_true_r in *.
  do 3 (apply andb_true_iff in HYd as [? HYd]).
  apply andb_true_iff in HMd as [? ?]. apply andb_true_iff in HDd as [? ?].
  change (str [y1; y2; y3; y4] +:+ str [m1; m2] +:+ str [d1; d2])
    with (str [y1; y2; y3; y4; m1; m2; d1; d2]).
  unfold yearField, monthField, dayField.
  change (chars (slice (str [y1; y2; y3; y4; m1; m2; d1; d2]) 0 4)) with [y1; y2; y3; y4].
  change (chars (slice (str [y1; y2; y3; y4; m1; m2; d1; d2]) 4 6)) with [m1; m2].
  change (chars (slice (str [y1; y2; y3; y4; m1; m2; d1; d2]) 6 8)) with [d1; d2].
  change (chars (str [y1; y2; y3; y4; m1; m2; d1; d2]))
    with [y1; y2; y3; y4; m1; m2; d1; d2].
  repeat split; try assumption; try reflexivity.
  cbn [forallb].
  repeat match goal with
         | Hc : isDigit ?c = true |- context [isDigit ?c] => rewrite Hc
         end.
  reflexivity.
Qed.

Lemma daysInMonth_le (y m : Z) : 28 <= Calendar.daysInMonth y m <= 31.
Proof.
  unfold Calendar.daysInMonth.
  destruct (m =? 2), (Calendar.isLeapYear y), ((m =? 4) || (m =? 6) || (m =? 9) || (m =? 11));
    lia.
Qed.

(** The text of a date with a four-digit year parses back to that
    date's midnight. *)
Lemma parseUploadDate_ymdText (y m d : Z) :
  1000 <= y <= 9999 -> Calendar.validDate y m d ->
  parseUploadDate (ymdText y m d) = Some (86400 * Calendar.epochDay y m d).
Proof.
  intros Hy [Hm Hd]. pose proof (daysInMonth_le y m) as Hlen.
  destruct (ymdText_fields y m d) as (H8 & Hdigits & HY & HM & HD); try lia.
  pose proof (parseUploadDate_fields (ymdText y m d)) as Hparse.
  rewrite Hparse, HY, HM, HD by (rewrite ?HY, ?HM, ?HD; (assumption || lia)).
  reflexivity.
Qed.

Lemma Date_UTC_clipped (year month date : number) (ms : Z) :
  Date_UTC year month date = Some ms -> Z.abs ms <= maxTime.
Proof.
  unfold Date_UTC, TimeClip.
  destruct year, month, date; try discriminate.
  match goal with |- context [?a <=? ?b] => destruct (Z.leb_spec a b) as [Hle |] end;
    [| discriminate].
  intros H. injection H as <-. exact Hle.
Qed.

Lemma parseUploadDate_time (text : string) (seconds : Z) :
  parseUploadDate text = Some seconds ->
  Z.abs (seconds * 1000) <= maxTime /\ isEmpty text = false.
Proof.
  intros H. split.
  - unfold parseUploadDate in H.
    destruct (negb _); [discriminate |]. destruct (_ || _); [discriminate |].
    destruct (Date_UTC _ _ _) as [ms |] eqn:Hutc; [| discriminate].
    injection H as <-.
    destruct (Date_UTC_whole_days _ _ _ _ Hutc) as [_ Hexact].
    replace (ms / 1000 * 1000) with ms by (Z.div_mod_to_equations; lia).
    eapply Date_UTC_clipped, Hutc.
  - destruct text; [discriminate | reflexivity].
Qed.

(** The cutoff as the specification words it: one day before the later
    of the parsed upload date and the uploaded-at instant. *)
Definition laterBaseline (sortKey : SortKeyInfo) : option Z :=
  match uploadDateStringToDate (sk_uploadDate sortKey), sk_uploadedAt sortKey with
  | Some (Some a), Some (Some b) => Some (Z.max a b)
  | Some (Some a), _ => Some a
  | _, Some (Some b) => Some b
  | _, _ => None
  end.

Definition dateAfterByLater (sortKey : SortKeyInfo) : option string :=
  option_map (fun t => formatDateAsYyyymmdd (TimeClip (t - msPerDay)))
    (laterBaseline sortKey).

(** Newest upload date 15 January 2024, newest uploaded-at instant
    1 March 2024, 00:00 UTC. *)
Definition marchSortKey : SortKeyInfo :=
  {| sk_uploadDate := Some "20240115";
     sk_uploadedAt := Some (Some 1709251200000) |}.

(** C2, as stated, fails: the upload date wins over a later uploaded-at
    instant. *)
Lemma computeDateAfter_not_the_later :
  computeDateAfter (Some marchSortKey) = Some "20240114"
  /\ dateAfterByLater marchSortKey = Some "20240229".
Proof. split; vm_compute; reflexivity. Qed.

(** C2, amended: the cutoff is the YYYYMMDD text of the calendar day
    before the baseline, where the baseline is the date parsed from the
    newest stored upload-date string whenever that string parses, and
    the newest stored uploaded-at instant only when the string is
    absent, or is not empty and does not parse; with newest upload date
    ["20240115"] the cutoff is ["20240114"]. *)
Theorem computeDateAfter_day_before (sortKey : SortKeyInfo) :
  (forall text seconds,
      sk_uploadDate sortKey = Some text ->
      parseUploadDate text = Some seconds ->
      - maxTime + msPerDay <= seconds * 1000 ->
      cutoffIsDayBefore sortKey (seconds * 1000))
  /\ (forall t,
        sk_uploadDate sortKey = None
        \/ (exists text, sk_uploadDate sortKey = Some text
                         /\ isEmpty text = false /\ parseUploadDate text = None) ->
        sk_uploadedAt sortKey = Some (Some t) ->
        - maxTime + msPerDay <= t <= maxTime ->
        cutoffIsDayBefore sortKey t)
  /\ (forall y m d,
        1000 <= y <= 9999 -> Calendar.validDate y m d ->
        String.length (ymdText y m d) = 8%nat
        /\ parseUploadDate (ymdText y m d) = Some (86400 * Calendar.epochDay y m d))
  /\ (sk_uploadDate sortKey = Some "20240115" ->
      computeDateAfter (Some sortKey) = Some "20240114").
Proof.
  split; [| split; [| split]].
  - intros text seconds Htext Hparse Hlow.
    destruct (parseUploadDate_time text seconds Hparse) as [Hmax Hne].
    apply computeDateAfter_baseline; [| lia].
    unfold baselineOf, uploadDateStringToDate. rewrite Htext, Hne, Hparse.
    cbn [coalesce]. unfold newDateZ, TimeClip.
    apply Z.leb_le in Hmax. rewrite Hmax. reflexivity.
  - intros t Hdate Hat Hrange.
    apply computeDateAfter_baseline; [| exact Hrange].
    unfold baselineOf, uploadDateStringToDate.
    destruct Hdate as [-> | (text & -> & Hne & Hparse)]; [exact Hat |].
    rewrite Hne, Hparse. exact Hat.
  - intros y m d Hy Hvalid. split.
    + pose proof (daysInMonth_le y m). destruct Hvalid as [Hm Hd].
      apply ymdText_fields; lia.
    + apply parseUploadDate_ymdText; assumption.
  - intros Htext. unfold computeDateAfter, baselineOf. rewrite Htext.
    vm_compute. reflexivity.
Qed.

(** The theorem at the specification's example and at a snapshot with
    no upload date. *)
Lemma computeDateAfter_day_before_witness :
  cutoffIsDayBefore {| sk_uploadDate := Some "20240115"; sk_uploadedAt := None |}
    (1705276800 * 1000)
  /\ cutoffIsDayBefore {| sk_uploadDate := None; sk_uploadedAt := Some (Some 1709251200123) |}
       1709251200123
  /\ parseUploadDate (ymdText 2024 1 14) = Some (86400 * Calendar.epochDay 2024 1 14)
  /\ computeDateAfter (Some {| sk_uploadDate := Some "20240115"; sk_uploadedAt := None |})
     = Some "20240114".
Proof.
  pose proof (computeDateAfter_day_before
                {| sk_uploadDate := Some "20240115"; sk_uploadedAt := None |}) as Hdate.
  pose proof (computeDateAfter_day_before
                {| sk_uploadDate := None; sk_uploadedAt := Some (Some 1709251200123) |}) as Hat.
  split; [| split; [| split]].
  - apply (proj1 Hdate "20240115"); [reflexivity | vm_compute; reflexivity |].
    vm_compute. discriminate.
  - apply (proj1 (proj2 Hat)); [left; reflexivity | reflexivity |].
    split; vm_compute; discriminate.
  - apply (proj1 (proj2 (proj2 Hdate))).
    + lia.
    + split; [lia |]. vm_compute. split; discriminate.
  - apply (proj2 (proj2 (proj2 Hdate))). reflexivity.
Defined.

(** ** Ingestion of one record *)

(** The errors a store call will meet are all transient and fewer than
    the attempts allowed: the call gets through. *)
Definition storeAvailable (cfg : Settings) (faults : list errval) : Prop :=
  Forall (fun error => isTransientDatabaseError error = true) faults
  /\ Z.of_nat (length faults) < maxAttempts cfg.

(** A store call either throws and leaves the store alone, or applies
    its query once. *)
Lemma storeCall_cases {T : Type} (cfg : Settings) (faults : list errval)
    (query : Z -> Database -> T * Database) (w : World) :
  (exists error w', storeCall cfg faults query w = (Err error, w')
                    /\ database w' = database w)
  \/ (exists now w', storeCall cfg faults query w = (Ok (fst (query now (database w))), w')
                     /\ database w' = snd (query now (database w))).
Proof.
  rewrite storeCall_decided. unfold decided.
  destruct (faults !! _) as [error |].
  - left. eexists _, _. split; [reflexivity |]. cbn [snd]. apply sleepAll_database.
  - right. cbn [attempt]. rewrite sleepAll_database.
    match goal with |- context [query ?now (database w)] => exists now end.
    destruct (query _ (database w)) as [rows db] eqn:Hq.
    eexists. split; [reflexivity |]. reflexivity.
Qed.

Lemma storeCall_available {T : Type} (cfg : Settings) (faults : list errval)
    (query : Z -> Database -> T * Database) (w : World) :
  storeAvailable cfg faults ->
  exists now w', storeCall cfg faults query w = (Ok (fst (query now (database w))), w')
                 /\ database w' = snd (query now (database w)).
Proof.
  intros [Hall Hlen]. rewrite storeCall_decided. unfold decided.
  rewrite (leadingTransient_all faults Hall).
  replace (Nat.min (length faults) (Z.to_nat (maxAttempts cfg) - 1)) with (length faults)
    by lia.
  rewrite lookup_ge_None_2 by lia.
  cbn [attempt]. rewrite sleepAll_database.
  match goal with |- context [query ?now (database w)] => exists now end.
  destruct (query _ (database w)) as [rows db] eqn:Hq.
  eexists. split; reflexivity.
Qed.

Lemma upsertChannel_videos (payload : ChannelInsert.t) (now : Z) (db : Database) :
  videos (snd (upsertChannel payload now db)) = videos db.
Proof.
  unfold upsertChannel. destruct (refreshByUrl payload (channels db)) as [[row rows] |];
    reflexivity.
Qed.

Lemma upsertChannel_returns (payload : ChannelInsert.t) (now : Z) (db : Database) :
  exists record, fst (upsertChannel payload now db) = [record].
Proof.
  unfold upsertChannel. destruct (refreshByUrl payload (channels db)) as [[row rows] |];
    eexists; reflexivity.
Qed.

Lemma hasVideo_elem (db : Database) (id : string) :
  hasVideo db id = true <-> id ∈ map VideoInsert.id (videos db).
Proof.
  unfold hasVideo. rewrite existsb_exists, list_elem_of_In, in_map_iff.
  split; intros (row & H1 & H2).
  - exists row. apply String.eqb_eq in H2. split; assumption.
  - exists row. split; [assumption |]. apply String.eqb_eq. assumption.
Qed.

(** Under the primary key a stored id has exactly one row. *)
Lemma videoRows_one (db : Database) (id : string) :
  NoDup (map VideoInsert.id (videos db)) -> hasVideo db id = true ->
  length (videoRows db id) = 1%nat.
Proof.
  rewrite hasVideo_elem. unfold videoRows.
  induction (videos db) as [| row rows IH]; intros Hkey Hin; simpl in *.
  - apply elem_of_nil in Hin. contradiction.
  - apply NoDup_cons in Hkey as [Hfresh Hkey].
    rewrite filter_cons. destruct (decide (VideoInsert.id row = id)) as [Heq | Hne].
    + simpl. f_equal. subst id.
      assert (Hnone : filter (fun r => VideoInsert.id r = VideoInsert.id row) rows = []).
      { clear -Hfresh. induction rows as [| r rows IH]; [reflexivity |].
        rewrite filter_cons. simpl in Hfresh. apply not_elem_of_cons in Hfresh as [Hne Hfresh].
        destruct (decide (VideoInsert.id r = VideoInsert.id row)); [congruence |].
        apply IH, Hfresh. }
      rewrite Hnone. reflexivity.
    + apply IH; [exact Hkey |].
      apply elem_of_cons in Hin as [Heq | Hin]; [congruence | exact Hin].
Qed.

Lemma insertVideo_existing (mapped : VideoInsert.t) (now : Z) (db : Database) :
  hasVideo db (VideoInsert.id mapped) = true ->
  insertVideo mapped now db = ([], db).
Proof. intros H. unfold insertVideo. rewrite H. reflexivity. Qed.

Lemma toNonEmptyString_nonempty (value : option json) (text : string) :
  toNonEmptyString value = Some text -> isEmpty text = false.
Proof.
  unfold toNonEmptyString. destruct value as [[] |]; try discriminate.
  destruct (0 <? String.length (trim s))%nat eqn:Hlen; [| discriminate].
  intros H. injection H as <-. destruct (trim s); [discriminate | reflexivity].
Qed.

Lemma mapRawVideoToInsert_id (video : RawVideo) (channelId : Z) (scrapedAt : Date)
    (now : Z) (id : string) :
  toNonEmptyString (prop video "id") = Some id ->
  exists mapped, mapRawVideoToInsert video channelId scrapedAt now = Some mapped
                 /\ VideoInsert.id mapped = id.
Proof.
  intros Hid. unfold mapRawVideoToInsert.
  rewrite Hid, (toNonEmptyString_nonempty _ _ Hid).
  eexists. split; reflexivity.
Qed.

(** [ensureChannelRecord] touches neither the counters, the known ids
    nor the video table. *)
Lemma ensureChannelRecord_frame (cfg : Settings) (faults : list errval) (video : RawVideo)
    (ctx ctx' : IngestionContext) (w w' : World) (r : result ChannelRow.t) :
  ensureChannelRecord cfg faults video ctx w = (r, ctx', w') ->
  stats ctx' = stats ctx /\ knownIds ctx' = knownIds ctx
  /\ videos (database w') = videos (database w)
  /\ (channel ctx <> None -> ctx' = ctx /\ w' = w /\ exists record, r = Ok record).
Proof.
  unfold ensureChannelRecord. destruct (channel ctx) as [record |] eqn:Hchannel.
  - intros H. injection H as <- <- <-. repeat split; eauto.
  - destruct (storeCall_cases cfg faults
                (upsertChannel (buildChannelInsertPayload video (channelUrl ctx) (scrapedAt ctx)))
                w) as [(error & w1 & -> & Hdb) | (now & w1 & -> & Hdb)].
    + intros H. injection H as <- <- <-. rewrite Hdb.
      repeat split; congruence.
    + destruct (upsertChannel_returns
                  (buildChannelInsertPayload video (channelUrl ctx) (scrapedAt ctx))
                  now (database w)) as [record ->].
      cbn [channelUpserted]. intros H. injection H as <- <- <-.
      rewrite Hdb, upsertChannel_videos.
      repeat split; congruence.
Qed.

Lemma ensureChannelRecord_available (cfg : Settings) (faults : list errval)
    (video : RawVideo) (ctx : IngestionContext) (w : World) :
  channel ctx <> None \/ storeAvailable cfg faults ->
  exists record ctx' w', ensureChannelRecord cfg faults video ctx w = (Ok record, ctx', w').
Proof.
  intros Havailable. unfold ensureChannelRecord.
  destruct (channel ctx) as [record |]; [eauto |].
  destruct Havailable as [Hsome | Havailable]; [congruence |].
  destruct (storeCall_available cfg faults
              (upsertChannel (buildChannelInsertPayload video (channelUrl ctx) (scrapedAt ctx)))
              w Havailable) as (now & w1 & -> & _).
  destruct (upsertChannel_returns
              (buildChannelInsertPayload video (channelUrl ctx) (scrapedAt ctx))
              now (database w)) as [record ->].
  cbn [channelUpserted]. eauto.
Qed.

(** *** Malformed records *)

(** The [id] of a record is absent, is not a string, or is a string of
    blanks. *)
Definition idMissing (video : RawVideo) : Prop :=
  match prop video "id" with
  | None => True
  | Some (JStr text) => Forall (fun c => isWhiteSpace c = true) (chars text)
  | Some _ => True
  end.

Lemma trimStart_blank (l : list ascii) :
  Forall (fun c => isWhiteSpace c = true) l -> trimStart_l l = [].
Proof.
  induction 1 as [| c l Hc _ IH]; simpl; [reflexivity |]. rewrite Hc. exact IH.
Qed.

Lemma toNonEmptyString_missing (video : RawVideo) :
  idMissing video -> toNonEmptyString (prop video "id") = None.
Proof.
  unfold idMissing, toNonEmptyString.
  destruct (prop video "id") as [[| | | text | |] |]; try reflexivity.
  intros Hblank. unfold trim, trim_l, trimEnd_l.
  rewrite (trimStart_blank _ Hblank). reflexivity.
Qed.

(** C6: a record whose id is absent, not a string or blank never reaches
    the video table: [ingestVideo] leaves the table, the known ids and
    the counters other than the invalid one as they are.  When the
    channel row is at hand, or its upsert gets through, the call returns
    normally and the invalid counter goes up by one.  Otherwise the call
    throws: the channel upsert comes before the look at the id, its
    error leaves [ingestVideo], and the record is not counted. *)
Theorem ingestVideo_malformed (cfg : Settings) (channelFaults insertFaults : list errval)
    (video : RawVideo) (ctx : IngestionContext) (w : World) :
  idMissing video ->
  exists returned ctx' w',
    ingestVideo cfg channelFaults insertFaults video ctx w = (returned, ctx', w')
    /\ parsed (stats ctx') = parsed (stats ctx)
    /\ inserted (stats ctx') = inserted (stats ctx)
    /\ skippedExisting (stats ctx') = skippedExisting (stats ctx)
    /\ knownIds ctx' = knownIds ctx
    /\ videos (database w') = videos (database w)
    /\ match returned with
       | Ok _ => invalid (stats ctx') = invalid (stats ctx) + 1
       | Err _ => invalid (stats ctx') = invalid (stats ctx) /\ channel ctx = None
       end
    /\ (channel ctx <> None \/ storeAvailable cfg channelFaults -> returned = Ok tt).
Proof.
  intros Hmissing. unfold ingestVideo.
  destruct (ensureChannelRecord cfg channelFaults video ctx w) as [[[record | error] ctx1] w1]
    eqn:Hensure;
    destruct (ensureChannelRecord_frame _ _ _ _ _ _ _ _ Hensure)
      as (Hstats & Hknown & Hvideos & Hcached).
  - unfold triage, mapRawVideoToInsert.
    rewrite (toNonEmptyString_missing video Hmissing).
    eexists _, _, _. split; [reflexivity |].
    cbn [withStats countInvalid stats knownIds invalid parsed inserted skippedExisting].
    rewrite Hstats, Hknown, Hvideos. repeat split; reflexivity.
  - eexists _, _, _. split; [reflexivity |].
    rewrite Hstats, Hknown, Hvideos. repeat split; try reflexivity.
    + destruct (channel ctx) eqn:Hchannel; [| reflexivity].
      destruct Hcached as (_ & _ & found & Hfound); [discriminate | discriminate].
    + intros Havailable.
      destruct (ensureChannelRecord_available cfg channelFaults video ctx w Havailable)
        as (found & ctx2 & w2 & Hfound).
      rewrite Hfound in Hensure. discriminate.
Qed.

Definition freshWorld : World :=
  {| database := {| channels := []; videos := []; nextChannelId := 1 |};
     clock := 1700000000000; slept := [] |}.

Definition freshContext : IngestionContext :=
  createIngestionContext "https://www.youtube.com/@CareyNieuwhof/videos"
    1700000000000 None ∅.

Definition connectionReset : errval :=
  ErrObj true "read ECONNRESET" (Some "ECONNRESET") NoCause.

(** The theorem at a record without id on a fresh channel, the channel
    upsert meeting one connection reset: the retry gets through and the
    record is counted as invalid. *)
Lemma ingestVideo_malformed_witness :
  exists ctx' w',
    ingestVideo defaultSettings [connectionReset] [] [("title", JStr "no id")]
      freshContext freshWorld = (Ok tt, ctx', w')
    /\ invalid (stats ctx') = invalid (stats freshContext) + 1
    /\ parsed (stats ctx') = parsed (stats freshContext)
    /\ inserted (stats ctx') = inserted (stats freshContext)
    /\ skippedExisting (stats ctx') = skippedExisting (stats freshContext)
    /\ knownIds ctx' = knownIds freshContext
    /\ videos (database w') = videos (database freshWorld).
Proof.
  destruct (ingestVideo_malformed defaultSettings [connectionReset] []
              [("title", JStr "no id")] freshContext freshWorld I)
    as (returned & ctx' & w' & Hcall & Hparsed & Hinserted & Hskipped & Hknown & Hvideos
        & Hinvalid & Hreturns).
  assert (Hok : returned = Ok tt).
  { apply Hreturns. right. split.
    - constructor; [reflexivity | constructor].
    - reflexivity. }
  subst returned. exists ctx', w'. repeat split; assumption.
Defined.

(** The same record on a fresh channel whose upsert meets an error that
    is not transient: [ingestVideo] throws that error and the invalid
    counter stays at zero.  In the streamed run the task of the record
    fails, the error is recorded as the failure of the run and the
    process ends with it. *)
Lemma ingestVideo_malformed_throws :
  idMissing [("title", JStr "no id")]
  /\ (exists ctx' w',
        ingestVideo defaultSettings [Primitive "disk full"] [] [("title", JStr "no id")]
          freshContext freshWorld = (Err (Primitive "disk full"), ctx', w')
        /\ invalid (stats ctx') = invalid (stats freshContext))
  /\ (let st := run Json.parse defaultSettings
                  [StdoutData (Json.quoted "{'title':'no id'}" +:+ newline);
                   Resume 0 [Primitive "disk full"]]
                  (spawned freshContext freshWorld) in
      ingestionError st = Some (newError "disk full")
      /\ crashed st = Some (newError "disk full")
      /\ invalid (stats (context st)) = 0).
Proof.
  split; [exact I |]. split.
  - eexists _, _. split; vm_compute; reflexivity.
  - vm_compute. repeat split; reflexivity.
Qed.

(** *** Records already present *)

Lemma hasVideo_videos (db db' : Database) (id : string) :
  videos db' = videos db -> hasVideo db' id = hasVideo db id.
Proof. intros H. unfold hasVideo. rewrite H. reflexivity. Qed.

Lemma videoRows_videos (db db' : Database) (id : string) :
  videos db' = videos db -> videoRows db' id = videoRows db id.
Proof. intros H. unfold videoRows. rewrite H. reflexivity. Qed.

(** What C4 promises of a call on a record whose id is present. *)
Definition skippedAsExisting (id : string) (ctx : IngestionContext) (w : World)
    (ctx' : IngestionContext) (w' : World) : Prop :=
  length (videoRows (database w') id) = 1%nat
  /\ videos (database w') = videos (database w)
  /\ skippedExisting (stats ctx') = skippedExisting (stats ctx) + 1
  /\ inserted (stats ctx') = inserted (stats ctx)
  /\ invalid (stats ctx') = invalid (stats ctx)
  /\ parsed (stats ctx') = parsed (stats ctx)
  /\ id ∈ knownIds ctx'.

Lemma ingestVideo_existing_effects (cfg : Settings) (channelFaults insertFaults : list errval)
    (video : RawVideo) (id : string) (ctx ctx' : IngestionContext) (w w' : World) :
  toNonEmptyString (prop video "id") = Some id ->
  id ∈ knownIds ctx \/ hasVideo (database w) id = true ->
  NoDup (map VideoInsert.id (videos (database w))) ->
  (forall k, k ∈ knownIds ctx -> hasVideo (database w) k = true) ->
  ingestVideo cfg channelFaults insertFaults video ctx w = (Ok tt, ctx', w') ->
  skippedAsExisting id ctx w ctx' w'.
Proof.
  intros Hid Hpresent Hkey Hknown. unfold ingestVideo.
  destruct (ensureChannelRecord cfg channelFaults video ctx w) as [[[record | error] ctx1] w1]
    eqn:Hensure; [| discriminate].
  destruct (ensureChannelRecord_frame _ _ _ _ _ _ _ _ Hensure) as (Hstats & Hids & Hvideos & _).
  assert (Hstored : hasVideo (database w) id = true).
  { destruct Hpresent as [Hin | Hin]; [apply Hknown, Hin | exact Hin]. }
  unfold triage.
  destruct (mapRawVideoToInsert_id video (ChannelRow.id record) (scrapedAt ctx1) (clock w1)
              id Hid) as (mapped & -> & Hmapped).
  rewrite Hmapped. case_bool_decide as Hin.
  - intros H. injection H as <- <-. unfold skippedAsExisting.
    cbn [withStats countSkippedExisting stats knownIds
           skippedExisting inserted invalid parsed].
    rewrite Hstats, Hvideos, (videoRows_videos _ _ id Hvideos).
    repeat split; try reflexivity; [apply videoRows_one; assumption | exact Hin].
  - destruct (storeCall_cases cfg insertFaults (insertVideo mapped) w1)
      as [(error & w2 & -> & _) | (now & w2 & -> & Hdb)]; [discriminate |].
    rewrite insertVideo_existing in Hdb |- *
      by (rewrite Hmapped, (hasVideo_videos _ _ id Hvideos); exact Hstored).
    cbn [fst snd] in *. intros H. injection H as <- <-. unfold skippedAsExisting.
    cbn [videoInserted withKnownId withStats countSkippedExisting stats knownIds
           skippedExisting inserted invalid parsed].
    rewrite Hdb, Hstats, Hvideos, (videoRows_videos _ _ id Hvideos), Hmapped.
    repeat split; try reflexivity;
      [apply videoRows_one; assumption | apply elem_of_union_l, elem_of_singleton; reflexivity].
Qed.

Lemma ingestVideo_existing_returns (cfg : Settings) (channelFaults insertFaults : list errval)
    (video : RawVideo) (id : string) (ctx : IngestionContext) (w : World) :
  toNonEmptyString (prop video "id") = Some id ->
  channel ctx <> None \/ storeAvailable cfg channelFaults ->
  storeAvailable cfg insertFaults ->
  exists ctx' w', ingestVideo cfg channelFaults insertFaults video ctx w = (Ok tt, ctx', w').
Proof.
  intros Hid Hchannel Hinsert. unfold ingestVideo.
  destruct (ensureChannelRecord_available cfg channelFaults video ctx w Hchannel)
    as (record & ctx1 & w1 & ->).
  destruct (triage video record ctx1 (clock w1)) as [| known | mapped]; eauto.
  destruct (storeCall_available cfg insertFaults (insertVideo mapped) w1 Hinsert)
    as (now & w2 & -> & _).
  eauto.
Qed.

(** C4: ingesting a record whose id is already present, in the known-id
    set or in the video table, leaves exactly one row for that id, adds
    one to the skipped-existing counter and nothing to the inserted
    counter, and leaves the id among the known ids.  The video table
    obeys its primary key and holds every known id; the call returns
    whenever its store calls get through. *)
Theorem ingestVideo_existing (cfg : Settings) (channelFaults insertFaults : list errval)
    (video : RawVideo) (id : string) (ctx : IngestionContext) (w : World) :
  toNonEmptyString (prop video "id") = Some id ->
  id ∈ knownIds ctx \/ hasVideo (database w) id = true ->
  NoDup (map VideoInsert.id (videos (database w))) ->
  (forall k, k ∈ knownIds ctx -> hasVideo (database w) k = true) ->
  (forall ctx' w',
      ingestVideo cfg channelFaults insertFaults video ctx w = (Ok tt, ctx', w') ->
      skippedAsExisting id ctx w ctx' w')
  /\ ((channel ctx <> None \/ storeAvailable cfg channelFaults) ->
      storeAvailable cfg insertFaults ->
      exists ctx' w',
        ingestVideo cfg channelFaults insertFaults video ctx w = (Ok tt, ctx', w')
        /\ skippedAsExisting id ctx w ctx' w').
Proof.
  intros Hid Hpresent Hkey Hknown. split.
  - intros ctx' w'. apply ingestVideo_existing_effects; assumption.
  - intros Hchannel Hinsert.
    destruct (ingestVideo_existing_returns cfg channelFaults insertFaults video id ctx w
                Hid Hchannel Hinsert) as (ctx' & w' & Hrun).
    exists ctx', w'. split; [exact Hrun |].
    eapply ingestVideo_existing_effects; eassumption.
Qed.

Definition abc123 : RawVideo := [("id", JStr "abc123"); ("title", JStr "First video")].

(** The context and the world after a first run has ingested
    ["abc123"] on a fresh channel. *)
Definition afterFirstRun : IngestionContext * World :=
  let '(_, ctx, w) := ingestVideo defaultSettings [] [] abc123 freshContext freshWorld in
  (ctx, w).

(** A second run that starts without known ids against the store the
    first run left. *)
Definition secondRunContext : IngestionContext :=
  createIngestionContext "https://www.youtube.com/@CareyNieuwhof/videos"
    1700000600000 None ∅.

(** The theorem at the specification's round trip: ["abc123"] ingested
    once, then met again by a second run. *)
Lemma ingestVideo_existing_witness :
  map VideoInsert.id (videos (database (snd afterFirstRun))) = ["abc123"]
  /\ exists ctx' w',
      ingestVideo defaultSettings [] [] abc123 secondRunContext (snd afterFirstRun)
      = (Ok tt, ctx', w')
      /\ skippedAsExisting "abc123" secondRunContext (snd afterFirstRun) ctx' w'
      /\ skippedExisting (stats ctx') = 1.
Proof.
  split; [vm_compute; reflexivity |].
  destruct (ingestVideo_existing defaultSettings [] [] abc123 "abc123" secondRunContext
              (snd afterFirstRun)) as [_ Hreturns].
  - vm_compute. reflexivity.
  - right. vm_compute. reflexivity.
  - vm_compute. repeat constructor. intros H. inversion H.
  - intros k Hk. unfold secondRunContext, createIngestionContext in Hk.
    cbn [knownIds] in Hk. apply elem_of_empty in Hk. contradiction.
  - destruct Hreturns as (ctx' & w' & Hrun & Heffects).
    + right. split; [constructor | reflexivity].
    + split; [constructor | reflexivity].
    + exists ctx', w'. split; [exact Hrun |]. split; [exact Heffects |].
      destruct Heffects as (_ & _ & Hskipped & _). rewrite Hskipped. reflexivity.
Defined.

(** ** The streamed run *)

(** Exactly one of the three outcome counters went up by one between
    [before] and [after]. *)
Definition oneOutcome (before after : IngestionStats) : Prop :=
  parsed after = parsed before
  /\ ((inserted after = inserted before + 1
       /\ skippedExisting after = skippedExisting before
       /\ invalid after = invalid before)
      \/ (inserted after = inserted before
          /\ skippedExisting after = skippedExisting before + 1
          /\ invalid after = invalid before)
      \/ (inserted after = inserted before
          /\ skippedExisting after = skippedExisting before
          /\ invalid after = invalid before + 1)).

Lemma videoInserted_oneOutcome (mapped : VideoInsert.t) (rows : list string)
    (ctx : IngestionContext) :
  oneOutcome (stats ctx) (stats (videoInserted mapped rows ctx)).
Proof.
  unfold oneOutcome, videoInserted. destruct rows; cbn; split; auto 10.
Qed.

(** A call of [ingestVideo] that returns has counted one outcome. *)
Lemma ingestVideo_oneOutcome (cfg : Settings) (channelFaults insertFaults : list errval)
    (video : RawVideo) (ctx ctx' : IngestionContext) (w w' : World) :
  ingestVideo cfg channelFaults insertFaults video ctx w = (Ok tt, ctx', w') ->
  oneOutcome (stats ctx) (stats ctx').
Proof.
  unfold ingestVideo.
  destruct (ensureChannelRecord cfg channelFaults video ctx w) as [[[record | error] ctx1] w1]
    eqn:Hensure; [| discriminate].
  destruct (ensureChannelRecord_frame _ _ _ _ _ _ _ _ Hensure) as (Hstats & _).
  rewrite <- Hstats.
  destruct (triage video record ctx1 (clock w1)) as [| known | mapped].
  - intros H. injection H as <- _. unfold oneOutcome. cbn. auto 10.
  - intros H. injection H as <- _. unfold oneOutcome. cbn. auto 10.
  - destruct (storeCall cfg insertFaults (insertVideo mapped) w1) as [[rows | error] w2];
      [| discriminate].
    intros H. injection H as <- _. apply videoInserted_oneOutcome.
Qed.

(** The tasks that have not been fulfilled: in flight, or rejected. *)
Definition isFulfilled (t : Task) : bool :=
  match t with Fulfilled => true | _ => false end.

Fixpoint owed (l : list Task) : Z :=
  match l with
  | [] => 0
  | t :: l' => (if isFulfilled t then 0 else 1) + owed l'
  end.

(** Records counted as parsed and not yet accounted for by an outcome
    counter or by an unfulfilled task. *)
Definition balance (st : Scrape) : Z :=
  parsed (stats (context st))
  - inserted (stats (context st))
  - skippedExisting (stats (context st))
  - invalid (stats (context st))
  - owed (tasks st).

Lemma owed_app (l l' : list Task) : owed (l ++ l') = owed l + owed l'.
Proof. induction l as [| t l IH]; simpl; [reflexivity | rewrite IH; lia]. Qed.

Lemma owed_insert (l : list Task) (i : nat) (t t' : Task) :
  l !! i = Some t ->
  owed (<[i := t']> l)
  = owed l - (if isFulfilled t then 0 else 1) + (if isFulfilled t' then 0 else 1).
Proof.
  revert i. induction l as [| x l IH]; intros i Hi; [discriminate |].
  destruct i as [| i]; simpl in *.
  - injection Hi as ->. lia.
  - rewrite (IH i Hi). lia.
Qed.

Lemma owed_fulfilled (l : list Task) : Forall (fun t => t = Fulfilled) l -> owed l = 0.
Proof. induction 1 as [| t l -> _ IH]; simpl; [reflexivity | exact IH]. Qed.

(** The handlers that settle the promise, stop the child or move the
    buffers leave the ledger (context, tasks and world) alone. *)
Definition sameLedger (st st' : Scrape) : Prop :=
  context st' = context st /\ tasks st' = tasks st /\ world st' = world st.

Lemma sameLedger_refl (st : Scrape) : sameLedger st st.
Proof. repeat split. Qed.

Lemma sameLedger_trans (a b c : Scrape) : sameLedger a b -> sameLedger b c -> sameLedger a c.
Proof. unfold sameLedger. intros (-> & -> & ->) (-> & -> & ->). repeat split. Qed.

Lemma sameLedger_balance (st st' : Scrape) : sameLedger st st' -> balance st' = balance st.
Proof. intros (Hc & Ht & _). unfold balance. rewrite Hc, Ht. reflexivity. Qed.

Lemma reject_ledger (error : errval) (st : Scrape) : sameLedger st (reject error st).
Proof. unfold reject. destruct (promise st); repeat split. Qed.

Lemma resolve_ledger (n : Z) (st : Scrape) : sameLedger st (resolve n st).
Proof. unfold resolve. destruct (promise st); repeat split. Qed.

Lemma kill_ledger (st : Scrape) : sameLedger st (kill st).
Proof. unfold kill. destruct (exited st); repeat split. Qed.

Lemma abortChild_ledger (st : Scrape) : sameLedger st (abortChild st).
Proof. unfold abortChild. destruct (_ && _); [apply kill_ledger | apply sameLedger_refl]. Qed.

Lemma noteFailure_ledger (error : errval) (st : Scrape) : sameLedger st (noteFailure error st).
Proof.
  unfold noteFailure, taskFailed. destruct (ingestionError st); [apply sameLedger_refl |].
  eapply sameLedger_trans; [| apply abortChild_ledger]. repeat split.
Qed.

Lemma unhandledRejection_ledger (st : Scrape) : sameLedger st (unhandledRejection st).
Proof. unfold unhandledRejection. destruct (ingestionError st); repeat split. Qed.

Lemma afterAllSettled_ledger (code : option Z) (st : Scrape) :
  sameLedger st (afterAllSettled code st).
Proof.
  unfold afterAllSettled. destruct (ingestionError st); [apply reject_ledger |].
  destruct (_ && _); [apply reject_ledger | apply resolve_ledger].
Qed.

Lemma tryFinish_ledger (st : Scrape) : sameLedger st (tryFinish st).
Proof.
  unfold tryFinish. destruct (closing st); [| apply sameLedger_refl].
  destruct (inFlightIngestions st); [apply afterAllSettled_ledger | apply sameLedger_refl].
Qed.

Lemma enqueueVideo_balance (video : RawVideo) (st : Scrape) :
  balance (enqueueVideo video st) = balance st.
Proof.
  unfold enqueueVideo. destruct (ingestionError st); [reflexivity |].
  unfold startTask. cbn [channel withStats].
  destruct (channel (context st)); unfold balance; cbn; rewrite owed_app; simpl; lia.
Qed.

Section RunFacts.

Variable JSON_parse : string -> RawVideo + string.
Variable cfg : Settings.

Lemma drainLines_balance (fuel : nat) (st : Scrape) :
  balance (drainLines JSON_parse fuel st) = balance st.
Proof.
  revert st. induction fuel as [| fuel IH]; intros st; [reflexivity |].
  cbn [drainLines]. destruct (breakLine (chars (stdoutBuffer st))) as [[text rest] |];
    [| reflexivity].
  destruct (0 <? String.length (trim (str text)))%nat.
  - destruct (JSON_parse (trim (str text))) as [parsed | message].
    + rewrite IH, enqueueVideo_balance. reflexivity.
    + rewrite (sameLedger_balance _ _ (reject_ledger _ _)),
        (sameLedger_balance _ _ (kill_ledger _)). reflexivity.
  - rewrite IH. reflexivity.
Qed.

Lemma onStdout_balance (chunk : string) (st : Scrape) :
  balance (onStdout JSON_parse chunk st) = balance st.
Proof. unfold onStdout. rewrite drainLines_balance. reflexivity. Qed.

Lemma onClose_balance (code : option Z) (st : Scrape) :
  balance (onClose JSON_parse code st) = balance st.
Proof.
  unfold onClose. destruct (0 <? String.length (trim (stdoutBuffer st)))%nat.
  - destruct (JSON_parse (trim (stdoutBuffer st))) as [parsed | message].
    + rewrite (sameLedger_balance _ _ (tryFinish_ledger _)).
      change (balance (setClosing (enqueueVideo parsed (countLine st)) code))
        with (balance (enqueueVideo parsed (countLine st))).
      rewrite enqueueVideo_balance. reflexivity.
    + rewrite (sameLedger_balance _ _ (reject_ledger _ _)). reflexivity.
  - rewrite (sameLedger_balance _ _ (tryFinish_ledger _)). reflexivity.
Qed.

(** One step of a task keeps the books: a task that is fulfilled has
    counted one outcome, any other step counts nothing. *)
Lemma stepTask_stats (faults : list errval) (t t' : Task) (ctx ctx' : IngestionContext)
    (w w' : World) :
  isSettled t = false ->
  stepTask cfg faults t ctx w = (t', ctx', w') ->
  if isFulfilled t' then oneOutcome (stats ctx) (stats ctx') else stats ctx' = stats ctx.
Proof.
  assert (Hafter : forall video record c x t1 c1,
             afterChannel video record c x = (t1, c1) ->
             if isFulfilled t1 then oneOutcome (stats c) (stats c1) else stats c1 = stats c).
  { intros video record c x t1 c1. unfold afterChannel.
    destruct (triage video record c (clock x)); intros H; injection H as <- <-; cbn;
      try reflexivity; unfold oneOutcome; cbn; auto 10. }
  destruct t as [video payload | video record | mapped | |]; try discriminate; intros _;
    cbn [stepTask].
  - destruct (storeCall cfg faults (upsertChannel payload) w) as [[rows | error] w1].
    + unfold channelUpserted. destruct rows as [| record rows].
      * intros H. injection H as <- <- <-. reflexivity.
      * destruct (afterChannel video record (withChannel ctx record) w1) as [t1 c1] eqn:Ha.
        intros H. injection H as <- <- <-.
        apply (Hafter _ _ _ _ _ _ Ha).
    + intros H. injection H as <- <- <-. reflexivity.
  - destruct (afterChannel video record ctx w) as [t1 c1] eqn:Ha.
    intros H. injection H as <- <- <-. apply (Hafter _ _ _ _ _ _ Ha).
  - destruct (storeCall cfg faults (insertVideo mapped) w) as [[rows | error] w1];
      intros H; injection H as <- <- <-; [apply videoInserted_oneOutcome | reflexivity].
Qed.

Lemma onResume_balance (i : nat) (faults : list errval) (st : Scrape) :
  balance (onResume cfg i faults st) = balance st.
Proof.
  unfold onResume. destruct (tasks st !! i) as [t |] eqn:Hi; [| reflexivity].
  destruct (isSettled t) eqn:Hsettled; [reflexivity |].
  destruct (stepTask cfg faults t (context st) (world st)) as [[t' ctx'] w'] eqn:Hstep.
  pose proof (stepTask_stats faults t t' (context st) ctx' (world st) w' Hsettled Hstep)
    as Hstats.
  assert (Hset : balance (setTask st i t' ctx' w') = balance st).
  { unfold balance, setTask. cbn. rewrite (owed_insert _ _ t t' Hi).
    assert (isFulfilled t = false) as -> by (destruct t; try reflexivity; discriminate).
    destruct (isFulfilled t').
    - destruct Hstats as (Hp & [(-> & -> & ->) | [(-> & -> & ->) | (-> & -> & ->)]]);
        rewrite Hp; lia.
    - rewrite Hstats. lia. }
  destruct t';
    rewrite ?(sameLedger_balance _ _ (unhandledRejection_ledger _)),
      (sameLedger_balance _ _ (tryFinish_ledger _)),
      ?(sameLedger_balance _ _ (noteFailure_ledger _ _));
    exact Hset.
Qed.

Lemma step_balance (st : Scrape) (ev : Event) :
  balance (step JSON_parse cfg st ev) = balance st.
Proof.
  unfold step. destruct (isSome (crashed st)); [reflexivity |].
  destruct ev as [chunk | chunk | i faults | error | code | code]; cbn [deliver].
  - destruct (isSome (closing st)); [reflexivity | apply onStdout_balance].
  - destruct (isSome (closing st)); reflexivity.
  - apply onResume_balance.
  - apply sameLedger_balance, reject_ledger.
  - destruct (isSome (closing st)); [reflexivity | apply onClose_balance].
  - destruct (exited st); reflexivity.
Qed.

(** Conservation along a run: every record counted as parsed is
    accounted for by an outcome counter or by an unfulfilled task. *)
Lemma run_balance (events : list Event) (st : Scrape) :
  balance (run JSON_parse cfg events st) = balance st.
Proof.
  revert st. induction events as [| ev events IH]; intros st; [reflexivity |].
  cbn [run fold_left]. fold (run JSON_parse cfg events (step JSON_parse cfg st ev)).
  rewrite IH. apply step_balance.
Qed.

End RunFacts.

(** C10: a call of [ingestVideo] that returns has added one to exactly
    one of the counters inserted, skipped-existing and invalid, and
    nothing to the others; so after any run in which every dispatched
    task was fulfilled, parsed = inserted + skippedExisting + invalid. *)
Theorem counters_conserved (JSON_parse : string -> RawVideo + string) (cfg : Settings) :
  (forall channelFaults insertFaults video ctx w ctx' w',
      ingestVideo cfg channelFaults insertFaults video ctx w = (Ok tt, ctx', w') ->
      oneOutcome (stats ctx) (stats ctx'))
  /\ (forall channelUrl now bootstrapChannel bootstrapKnown w events,
        let st :=
          run JSON_parse cfg events
            (spawned (createIngestionContext channelUrl now bootstrapChannel bootstrapKnown) w) in
        Forall (fun t => t = Fulfilled) (tasks st) ->
        parsed (stats (context st))
        = inserted (stats (context st)) + skippedExisting (stats (context st))
          + invalid (stats (context st))).
Proof.
  split.
  - intros channelFaults insertFaults video ctx w ctx' w'. apply ingestVideo_oneOutcome.
  - intros channelUrl now bootstrapChannel bootstrapKnown w events st Hall.
    pose proof (run_balance JSON_parse cfg events
                  (spawned (createIngestionContext channelUrl now bootstrapChannel
                              bootstrapKnown) w)) as Hbalance.
    fold st in Hbalance. unfold balance in Hbalance.
    rewrite (owed_fulfilled _ Hall) in Hbalance. cbn in Hbalance. lia.
Qed.

(** Three lines for ids a, b and b, the last one without a final line
    feed; every task runs to its end. *)
Definition abbEvents : list Event :=
  [StdoutData (Json.quoted "{'id':'a'}" +:+ newline +:+ Json.quoted "{'id':'b'}"
               +:+ newline +:+ Json.quoted "{'id':'b'}");
   Resume 0 []; Resume 1 []; Close (Some 0); Resume 2 []; Resume 0 []; Resume 1 [];
   Resume 2 []].

Definition abbRun : Scrape :=
  run Json.parse defaultSettings abbEvents (spawned freshContext freshWorld).

(** The theorem at the specification's scenario: ids a, b, b on an empty
    store give parsed 3, inserted 2, skipped 1, invalid 0. *)
Lemma counters_conserved_witness :
  stats (context abbRun)
  = {| parsed := 3; inserted := 2; skippedExisting := 1; invalid := 0 |}
  /\ parsed (stats (context abbRun))
     = inserted (stats (context abbRun)) + skippedExisting (stats (context abbRun))
       + invalid (stats (context abbRun))
  /\ oneOutcome (stats freshContext)
       (stats (snd (fst (ingestVideo defaultSettings [] [] abc123 freshContext freshWorld)))).
Proof.
  split; [vm_compute; reflexivity |]. split.
  - apply (proj2 (counters_conserved Json.parse defaultSettings)
             "https://www.youtube.com/@CareyNieuwhof/videos" 1700000000000 None ∅
             freshWorld abbEvents).
    vm_compute. repeat constructor.
  - destruct (ingestVideo defaultSettings [] [] abc123 freshContext freshWorld)
      as [[r ctx'] w'] eqn:Hrun.
    assert (r = Ok tt) as -> by (vm_compute in Hrun; congruence).
    apply (proj1 (counters_conserved Json.parse defaultSettings) _ _ _ _ _ _ _ Hrun).
Defined.

(** ** How a run ends *)

Definition isRejected (t : Task) : bool :=
  match t with Rejected _ => true | _ => false end.


(** What the ['close'] handler settles the promise with once every task
    has settled. *)
Definition closeVerdict (code : option Z) (st : Scrape) : Promise :=
  match ingestionError st with
  | Some error => RejectedWith error
  | None =>
      if negb (bool_decide (code = Some 0)) && (parsedCount st =? 0)
      then RejectedWith (exitedWithCode code (stderrBuffer st))
      else Resolved (parsedCount st)
  end.

(** Unfold the handlers that do not touch the ledger and split on what
    they test. *)
Ltac light :=
  unfold tryFinish, afterAllSettled, unhandledRejection, noteFailure, taskFailed, abortChild,
    reject, resolve, kill, setPromise, setClosing, onExit, setBuffer, countLine, setTask,
    update;
  cbn;
  repeat match goal with
         | |- context [match ?x with _ => _ end] => destruct x eqn:?
         end;
  cbn; intros; try reflexivity; try assumption; try congruence;
  try (match goal with E : ingestionError _ = _ |- _ => rewrite E end;
       cbn; first [assumption | reflexivity | congruence]).

Lemma existsb_rejected_app (l : list Task) (t : Task) :
  existsb isRejected (l ++ [t]) = existsb isRejected l || isRejected t.
Proof. rewrite existsb_app. simpl. rewrite orb_false_r. reflexivity. Qed.

Lemma existsb_rejected_insert (l : list Task) (i : nat) (t t' : Task) :
  l !! i = Some t -> isRejected t = false ->
  existsb isRejected (<[i := t']> l) = existsb isRejected l || isRejected t'.
Proof.
  revert i. induction l as [| x l IH]; intros i Hi Ht; [discriminate |].
  destruct i as [| i]; simpl in *.
  - injection Hi as ->. rewrite Ht. simpl. apply orb_comm.
  - rewrite (IH i Hi Ht). rewrite orb_assoc. reflexivity.
Qed.

Lemma existsb_rejected_lookup (l : list Task) :
  existsb isRejected l = true <-> exists i error, l !! i = Some (Rejected error).
Proof.
  rewrite existsb_exists. split.
  - intros (t & Hin & Ht). destruct t; try discriminate.
    apply list_elem_of_In, list_elem_of_lookup in Hin as [i Hi]. eauto.
  - intros (i & error & Hi). exists (Rejected error). split; [| reflexivity].
    apply list_elem_of_In, list_elem_of_lookup. eauto.
Qed.

(** An error is on record exactly when some task was rejected. *)
Definition failureNoted (st : Scrape) : Prop :=
  isSome (ingestionError st) = existsb isRejected (tasks st).

Lemma enqueueVideo_failureNoted (video : RawVideo) (st : Scrape) :
  failureNoted st -> failureNoted (enqueueVideo video st).
Proof.
  unfold failureNoted, enqueueVideo. intros H.
  destruct (ingestionError st) eqn:Herr; [rewrite Herr; exact H |].
  unfold startTask. cbn [channel withStats].
  destruct (channel (context st)); cbn [update ingestionError tasks];
    rewrite existsb_rejected_app, <- H; reflexivity.
Qed.

Lemma enqueueVideo_promise (video : RawVideo) (st : Scrape) :
  promise (enqueueVideo video st) = promise st
  /\ closing (enqueueVideo video st) = closing st
  /\ parsedCount (enqueueVideo video st) = parsedCount st
  /\ stderrBuffer (enqueueVideo video st) = stderrBuffer st
  /\ ingestionError (enqueueVideo video st) = ingestionError st.
Proof.
  unfold enqueueVideo. destruct (ingestionError st) eqn:Herr; [repeat split; assumption |].
  destruct (startTask video (context st)). cbn. repeat split; assumption.
Qed.

Lemma tryFinish_failureNoted (st : Scrape) : failureNoted st -> failureNoted (tryFinish st).
Proof. unfold failureNoted. light. Qed.

Lemma reject_failureNoted (error : errval) (st : Scrape) :
  failureNoted st -> failureNoted (reject error st).
Proof. unfold failureNoted. light. Qed.

Lemma kill_failureNoted (st : Scrape) : failureNoted st -> failureNoted (kill st).
Proof. unfold failureNoted. light. Qed.

Lemma unhandledRejection_failureNoted (st : Scrape) :
  failureNoted st -> failureNoted (unhandledRejection st).
Proof. unfold failureNoted. light. Qed.

Lemma stepTask_not_rejected (cfg : Settings) (faults : list errval) (t : Task)
    (ctx : IngestionContext) (w : World) :
  isSettled t = false -> isRejected t = false.
Proof. destruct t; (discriminate || reflexivity). Qed.

Section CloseFacts.

Variable JSON_parse : string -> RawVideo + string.
Variable cfg : Settings.

Lemma drainLines_failureNoted (fuel : nat) (st : Scrape) :
  failureNoted st -> failureNoted (drainLines JSON_parse fuel st).
Proof.
  revert st. induction fuel as [| fuel IH]; intros st H; [exact H |].
  cbn [drainLines]. destruct (breakLine (chars (stdoutBuffer st))) as [[text rest] |];
    [| exact H].
  destruct (0 <? String.length (trim (str text)))%nat.
  - destruct (JSON_parse (trim (str text))) as [parsed | message].
    + apply IH, enqueueVideo_failureNoted. exact H.
    + apply reject_failureNoted, kill_failureNoted. exact H.
  - apply IH. exact H.
Qed.

Lemma onResume_failureNoted (i : nat) (faults : list errval) (st : Scrape) :
  failureNoted st -> failureNoted (onResume cfg i faults st).
Proof.
  intros H. unfold onResume. destruct (tasks st !! i) as [t |] eqn:Hi; [| exact H].
  destruct (isSettled t) eqn:Hsettled; [exact H |].
  destruct (stepTask cfg faults t (context st) (world st)) as [[t' ctx'] w'].
  assert (Hset : isSome (ingestionError (setTask st i t' ctx' w'))
                 || isRejected t'
                 = existsb isRejected (tasks (setTask st i t' ctx' w'))).
  { cbn. rewrite (existsb_rejected_insert _ _ t t' Hi)
      by (destruct t; (discriminate || reflexivity)).
    rewrite <- H. reflexivity. }
  destruct t' as [| | | | error];
    try (apply tryFinish_failureNoted; unfold failureNoted;
         rewrite <- Hset, orb_false_r; reflexivity).
  apply unhandledRejection_failureNoted, tryFinish_failureNoted. unfold failureNoted.
  assert (Htasks : forall s, tasks (noteFailure error s) = tasks s) by (intros s; light).
  assert (Hnoted : forall s, isSome (ingestionError (noteFailure error s)) = true)
    by (intros s; light).
  rewrite Htasks, Hnoted, <- Hset, orb_true_r. reflexivity.
Qed.

Lemma step_failureNoted (st : Scrape) (ev : Event) :
  failureNoted st -> failureNoted (step JSON_parse cfg st ev).
Proof.
  intros H. unfold step. destruct (isSome (crashed st)); [exact H |].
  destruct ev as [chunk | chunk | i faults | error | code | code]; cbn [deliver].
  - destruct (isSome (closing st)); [exact H |].
    unfold onStdout. apply drainLines_failureNoted. exact H.
  - destruct (isSome (closing st)); exact H.
  - apply onResume_failureNoted. exact H.
  - apply reject_failureNoted. exact H.
  - destruct (isSome (closing st)); [exact H |].
    unfold onClose. destruct (0 <? String.length (trim (stdoutBuffer st)))%nat.
    + destruct (JSON_parse (trim (stdoutBuffer st))) as [parsed | message].
      * apply tryFinish_failureNoted.
        change (failureNoted (enqueueVideo parsed (countLine st))).
        apply enqueueVideo_failureNoted. exact H.
      * apply reject_failureNoted. exact H.
    + apply tryFinish_failureNoted. exact H.
  - destruct (exited st); exact H.
Qed.


Lemma run_failureNoted (events : list Event) (st : Scrape) :
  failureNoted st -> failureNoted (run JSON_parse cfg events st).
Proof.
  revert st. induction events as [| ev events IH]; intros st H; [exact H |].
  apply IH, step_failureNoted, H.
Qed.





(** A process that has ended takes nothing more. *)
Lemma run_ended (events : list Event) (st : Scrape) :
  crashed st <> None -> run JSON_parse cfg events st = st.
Proof.
  intros Hcrashed. induction events as [| ev events IH]; [reflexivity |].
  cbn [run fold_left]. unfold step at 2.
  destruct (crashed st); [exact IH | contradiction].
Qed.

Lemma run_app (events later : list Event) (st : Scrape) :
  run JSON_parse cfg (events ++ later) st
  = run JSON_parse cfg later (run JSON_parse cfg events st).
Proof. unfold run. apply fold_left_app. Qed.





Lemma inFlight_settled_lookup (st : Scrape) (i : nat) (t : Task) :
  inFlightIngestions st = [] -> tasks st !! i = Some t -> isSettled t = true.
Proof.
  unfold inFlightIngestions. intros Hnone Hi.
  destruct (isSettled t) eqn:Ht; [reflexivity | exfalso].
  assert (Hin : t ∈ filter (fun t => negb (isSettled t)) (tasks st)).
  { apply list_elem_of_filter. split; [rewrite Ht; exact I |].
    apply list_elem_of_lookup. eauto. }
  rewrite Hnone in Hin. apply elem_of_nil in Hin. exact Hin.
Qed.




End CloseFacts.














(** The message with which the first line of a buffer that is not blank
    and does not parse fails, if there is such a line. *)
Fixpoint lineFailure (JSON_parse : string -> RawVideo + string) (fuel : nat)
    (buffer : list ascii) : option string :=
  match fuel with
  | O => None
  | Datatypes.S fuel' =>
      match breakLine buffer with
      | None => None
      | Some (text, rest) =>
          let line := trim (str text) in
          if (0 <? String.length line)%nat then
            match JSON_parse line with
            | inl _ => lineFailure JSON_parse fuel' rest
            | inr message => Some message
            end
          else lineFailure JSON_parse fuel' rest
      end
  end.

Definition someTaskFailed (st : Scrape) : Prop :=
  exists i error, tasks st !! i = Some (Rejected error).

(** The failure condition as the specification words it. *)
Definition statedFailure (code : option Z) (st : Scrape) : Prop :=
  someTaskFailed st \/ (code <> Some 0 /\ parsedCount st = 0).

(** How the run has ended, if it has: the promise has been settled, or
    the process has been ended by an uncaught error. *)
Inductive Outcome : Type :=
| Running
| Succeeded (parsedCount : Z)
| Failed (error : errval).

Definition outcome (st : Scrape) : Outcome :=
  match promise st with
  | Resolved n => Succeeded n
  | RejectedWith error => Failed error
  | Pending =>
      match crashed st with
      | Some error => Failed error
      | None => Running
      end
  end.



Lemma closeVerdict_cases (code : option Z) (st : Scrape) :
  failureNoted st ->
  (statedFailure code st -> exists error, closeVerdict code st = RejectedWith error)
  /\ (~ statedFailure code st -> closeVerdict code st = Resolved (parsedCount st)).
Proof.
  unfold failureNoted, statedFailure, someTaskFailed, closeVerdict. intros Hnoted.
  rewrite <- existsb_rejected_lookup, <- Hnoted.
  destruct (ingestionError st) as [error |]; cbn [isSome].
  - split; [eauto |]. intros Hnot. exfalso. apply Hnot. left. reflexivity.
  - destruct (bool_decide_reflect (code = Some 0)) as [Hcode | Hcode]; cbn [negb andb].
    + split; [| reflexivity]. intros [Hfalse | [Hne _]]; [discriminate | contradiction].
    + destruct (Z.eqb_spec (parsedCount st) 0) as [Hzero | Hparsed].
      * split; [eauto |]. intros Hnot. exfalso. apply Hnot. right. split; assumption.
      * split; [| reflexivity]. intros [Hfalse | [_ Hzero]]; [discriminate | contradiction].
Qed.


(** The process has ended exactly when a failure is on record, and with
    the error on record. *)
Definition crashNoted (st : Scrape) : Prop := crashed st = ingestionError st.

Lemma enqueueVideo_stdoutBuffer (video : RawVideo) (st : Scrape) :
  stdoutBuffer (enqueueVideo video st) = stdoutBuffer st
  /\ crashed (enqueueVideo video st) = crashed st.
Proof.
  unfold enqueueVideo. destruct (ingestionError st); [split; reflexivity |].
  destruct (startTask video (context st)). split; reflexivity.
Qed.

Section Verdict.

Variable JSON_parse : string -> RawVideo + string.
Variable cfg : Settings.

Lemma drainLines_crashNoted (fuel : nat) (st : Scrape) :
  crashNoted st -> crashNoted (drainLines JSON_parse fuel st).
Proof.
  revert st. induction fuel as [| fuel IH]; intros st H; [exact H |].
  cbn [drainLines]. destruct (breakLine (chars (stdoutBuffer st))) as [[text rest] |];
    [| exact H].
  destruct (0 <? String.length (trim (str text)))%nat.
  - destruct (JSON_parse (trim (str text))) as [parsed | message].
    + apply IH. unfold crashNoted in *.
      rewrite (proj2 (enqueueVideo_stdoutBuffer _ _)).
      rewrite (proj2 (proj2 (proj2 (proj2 (enqueueVideo_promise _ _))))). exact H.
    + revert H. unfold crashNoted. light.
  - apply IH. exact H.
Qed.

Lemma onResume_crashNoted (i : nat) (faults : list errval) (st : Scrape) :
  crashNoted st -> crashNoted (onResume cfg i faults st).
Proof.
  intros H. unfold onResume. destruct (tasks st !! i) as [t |]; [| exact H].
  destruct (isSettled t); [exact H |].
  destruct (stepTask cfg faults t (context st) (world st)) as [[t' ctx'] w'].
  assert (Hfinish : forall s, crashNoted s -> crashNoted (tryFinish s))
    by (intros s; unfold crashNoted; light).
  destruct t' as [| | | | error]; try (apply Hfinish; exact H).
  assert (Hkept : forall s, ingestionError (tryFinish s) = ingestionError s)
    by (intros s; light).
  assert (Hnoted : forall s, isSome (ingestionError (tryFinish (noteFailure error s))) = true)
    by (intros s; rewrite Hkept; light).
  unfold crashNoted, unhandledRejection.
  specialize (Hnoted (setTask st i (Rejected error) ctx' w')).
  destruct (ingestionError (tryFinish (noteFailure error
                                         (setTask st i (Rejected error) ctx' w'))))
    as [thrown |] eqn:Herr; [| discriminate].
  cbn [crashed ingestionError]. reflexivity.
Qed.

Lemma step_crashNoted (st : Scrape) (ev : Event) :
  crashNoted st -> crashNoted (step JSON_parse cfg st ev).
Proof.
  intros H. unfold step. destruct (isSome (crashed st)); [exact H |].
  destruct ev as [chunk | chunk | i faults | error | code | code]; cbn [deliver].
  - destruct (isSome (closing st)); [exact H |].
    unfold onStdout. apply drainLines_crashNoted. exact H.
  - destruct (isSome (closing st)); exact H.
  - apply onResume_crashNoted. exact H.
  - revert H. unfold crashNoted. light.
  - destruct (isSome (closing st)); [exact H |].
    assert (Hfinish : forall s, crashNoted s -> crashNoted (tryFinish s))
      by (intros s; unfold crashNoted; light).
    unfold onClose. destruct (0 <? String.length (trim (stdoutBuffer st)))%nat.
    + destruct (JSON_parse (trim (stdoutBuffer st))) as [parsed | message].
      * apply Hfinish. unfold crashNoted in *. cbn [setClosing crashed ingestionError].
        rewrite (proj2 (enqueueVideo_stdoutBuffer _ _)).
        rewrite (proj2 (proj2 (proj2 (proj2 (enqueueVideo_promise _ _))))). exact H.
      * revert H. unfold crashNoted. light.
    + apply Hfinish. exact H.
  - destruct (exited st); exact H.
Qed.

Lemma run_crashNoted (events : list Event) (st : Scrape) :
  crashNoted st -> crashNoted (run JSON_parse cfg events st).
Proof.
  revert st. induction events as [| ev events IH]; intros st H; [exact H |].
  apply IH, step_crashNoted, H.
Qed.

(** What the stdout handler does to the promise: it rejects it at the
    first line that fails to parse, and leaves the process alone. *)
Lemma drainLines_promise (fuel : nat) (st : Scrape) :
  promise st = Pending ->
  promise (drainLines JSON_parse fuel st)
  = match lineFailure JSON_parse fuel (chars (stdoutBuffer st)) with
    | Some message => RejectedWith (parseLineFailed message)
    | None => Pending
    end
  /\ crashed (drainLines JSON_parse fuel st) = crashed st.
Proof.
  revert st. induction fuel as [| fuel IH]; intros st Hpending; [split; [exact Hpending |] |].
  { reflexivity. }
  cbn [drainLines lineFailure].
  destruct (breakLine (chars (stdoutBuffer st))) as [[text rest] |];
    [| split; [exact Hpending | reflexivity]].
  assert (Hrest : chars (stdoutBuffer (setBuffer st (str rest))) = rest)
    by (cbn [setBuffer update stdoutBuffer]; apply chars_str).
  destruct (0 <? String.length (trim (str text)))%nat.
  - destruct (JSON_parse (trim (str text))) as [parsed | message].
    + destruct (IH (enqueueVideo parsed (countLine (setBuffer st (str rest)))))
        as [Hpromise Hcrashed].
      * rewrite (proj1 (enqueueVideo_promise _ _)). exact Hpending.
      * rewrite (proj1 (enqueueVideo_stdoutBuffer _ _)) in Hpromise.
        cbn [countLine update stdoutBuffer] in Hpromise. rewrite Hrest in Hpromise.
        rewrite (proj2 (enqueueVideo_stdoutBuffer _ _)) in Hcrashed.
        split; [exact Hpromise | exact Hcrashed].
    + assert (Hkill : promise (kill (setBuffer st (str rest))) = Pending)
        by (rewrite <- Hpending; light).
      assert (Hsame : crashed (reject (parseLineFailed message)
                                 (kill (setBuffer st (str rest)))) = crashed st) by light.
      split; [| exact Hsame]. unfold reject. rewrite Hkill. reflexivity.
  - destruct (IH (setBuffer st (str rest)) Hpending) as [Hpromise Hcrashed].
    rewrite Hrest in Hpromise. split; [exact Hpromise | exact Hcrashed].
Qed.

End Verdict.







(** ** Normalising a channel URL twice *)

Lemma str_app (a b : list ascii) : str a +:+ str b = str (a ++ b).
Proof. induction a as [| c a IH]; simpl; [reflexivity | rewrite <- IH; reflexivity]. Qed.

Lemma breakAt_split (stop : ascii -> bool) (l a b : list ascii) :
  URL.breakAt stop l = (a, b) ->
  l = a ++ b
  /\ forallb (fun c => negb (stop c)) a = true
  /\ match b with c :: _ => stop c = true | [] => True end.
Proof.
  revert a b. induction l as [| c l IH]; intros a b Hbreak; simpl in Hbreak.
  - injection Hbreak as <- <-. repeat split.
  - destruct (stop c) eqn:Hstop.
    + injection Hbreak as <- <-. repeat split. exact Hstop.
    + destruct (URL.breakAt stop l) as [a' b'] eqn:Hrest.
      injection Hbreak as <- <-.
      destruct (IH a' b' eq_refl) as (-> & Hall & Hhead).
      repeat split; [| exact Hhead]. simpl. rewrite Hstop. exact Hall.
Qed.

Lemma breakAt_joined (stop : ascii -> bool) (a b : list ascii) :
  forallb (fun c => negb (stop c)) a = true ->
  match b with c :: _ => stop c = true | [] => True end ->
  URL.breakAt stop (a ++ b) = (a, b).
Proof.
  intros Hall Hhead. induction a as [| c a IH]; simpl in *.
  - destruct b as [| c b]; [reflexivity |]. simpl. rewrite Hhead. reflexivity.
  - apply andb_true_iff in Hall as [Hc Hall]. apply negb_true_iff in Hc.
    rewrite Hc, (IH Hall). reflexivity.
Qed.

Lemma forallb_map_same (f : ascii -> bool) (g : ascii -> ascii) (l : list ascii) :
  (forall c, f (g c) = f c) -> forallb f (map g l) = forallb f l.
Proof.
  intros Hsame. induction l as [| c l IH]; [reflexivity |].
  simpl. rewrite Hsame, IH. reflexivity.
Qed.

(** Every character, by its eight bits. *)
Ltac each_ascii c :=
  destruct c as [[] [] [] [] [] [] [] []]; try reflexivity; try discriminate.

Lemma asciiLower_idempotent (c : ascii) : URL.asciiLower (URL.asciiLower c) = URL.asciiLower c.
Proof. each_ascii c. Qed.

Lemma asciiLower_endsAuthority (c : ascii) :
  URL.endsAuthority (URL.asciiLower c) = URL.endsAuthority c.
Proof. each_ascii c. Qed.

Lemma asciiLower_isAlpha (c : ascii) : URL.isAlpha (URL.asciiLower c) = URL.isAlpha c.
Proof. each_ascii c. Qed.

Lemma isSlash_eq (c : ascii) : URL.isSlash c = true -> c = "/"%char.
Proof. unfold URL.isSlash. apply Ascii.eqb_eq. Qed.

Lemma endsAuthority_path (c : ascii) :
  URL.endsAuthority c = true -> URL.endsPath c = false -> c = "/"%char.
Proof.
  unfold URL.endsAuthority, URL.endsPath. intros Hauth Hpath.
  destruct (Ascii.eqb_spec c "/"); [assumption |]. simpl in Hauth.
  rewrite Hauth in Hpath. discriminate.
Qed.

(** The path starts at the root. *)
Definition rooted (p : list ascii) : bool :=
  match p with c :: _ => URL.isSlash c | [] => false end.

Definition endsSlash (p : list ascii) : bool :=
  match rev p with c :: _ => URL.isSlash c | [] => false end.

Definition pathChars (p : list ascii) : bool :=
  forallb (fun c => negb (URL.endsPath c)) p.

Definition hostChars (h : list ascii) : bool :=
  forallb (fun c => negb (URL.endsAuthority c)) h.

(** What [URL.parse] returns: a lower-case http(s) scheme and host, and a
    rooted path. *)
Record parsedUrl (u : URL.t) : Prop := {
  parsed_scheme : URL.scheme u = chars "http" \/ URL.scheme u = chars "https";
  parsed_host : URL.host u <> [];
  parsed_hostChars : hostChars (URL.host u) = true;
  parsed_hostLower : map URL.asciiLower (URL.host u) = URL.host u;
  parsed_rooted : rooted (URL.path u) = true;
  parsed_pathChars : pathChars (URL.path u) = true
}.

Lemma isHttp_cases (sc : list ascii) :
  URL.isHttp sc = true -> sc = chars "http" \/ sc = chars "https".
Proof.
  unfold URL.isHttp. intros H. apply orb_true_iff in H as [H | H];
    apply bool_decide_eq_true in H; [left | right]; exact H.
Qed.

Lemma parse_l_parsedUrl (l : list ascii) (u : URL.t) :
  URL.parse_l l = Some u -> parsedUrl u.
Proof.
  unfold URL.parse_l. destruct (URL.breakAt URL.isColon l) as [sc r].
  destruct sc as [| c0 sc]; [discriminate |].
  destruct r as [| colon [| s1 [| s2 r1]]]; try discriminate.
  destruct (_ && _) eqn:Htests; [| discriminate].
  repeat (apply andb_true_iff in Htests as [Htests ?]).
  destruct (URL.breakAt URL.endsAuthority r1) as [h r2] eqn:Hauthority.
  destruct h as [| h0 h]; [discriminate |].
  destruct (URL.breakAt URL.endsPath r2) as [p r3] eqn:Hpath.
  destruct (breakAt_split _ _ _ _ Hauthority) as (_ & Hhost & Hr2).
  destruct (breakAt_split _ _ _ _ Hpath) as (-> & Hp & _).
  set (tail := match r3 with
               | c :: r3' => if Ascii.eqb c "?"
                             then let '(q, r4) := URL.breakAt URL.isHash r3' in (Some q, r4)
                             else (None, r3)
               | [] => (None, r3)
               end).
  destruct tail as [q r4]. intros Hu. injection Hu as <-.
  constructor; cbn [URL.scheme URL.host URL.path].
  - apply isHttp_cases. assumption.
  - discriminate.
  - change (hostChars (map URL.asciiLower (h0 :: h)) = true).
    unfold hostChars. rewrite forallb_map_same; [exact Hhost |].
    intros c. rewrite asciiLower_endsAuthority. reflexivity.
  - change (map URL.asciiLower (map URL.asciiLower (h0 :: h)) = map URL.asciiLower (h0 :: h)).
    rewrite map_map. apply map_ext. intros c. apply asciiLower_idempotent.
  - destruct p as [| c p]; [reflexivity |]. simpl in Hr2, Hp.
    apply andb_true_iff in Hp as [Hc _]. apply negb_true_iff in Hc.
    rewrite (endsAuthority_path c Hr2 Hc). reflexivity.
  - destruct p as [| c p]; [reflexivity | exact Hp].
Qed.


Lemma chars_app (a b : string) : chars (a +:+ b) = chars a ++ chars b.
Proof. induction a as [| c a IH]; simpl; [reflexivity | rewrite <- IH; reflexivity]. Qed.

Lemma endsWith_slash (l : list ascii) : endsWith (str l) "/" = endsSlash l.
Proof.
  unfold endsWith, endsSlash. rewrite chars_str. cbn [chars list_ascii_of_string rev app].
  destruct (rev l) as [| c r]; [reflexivity |]. cbn [startsWith_l].
  rewrite andb_true_r. unfold URL.isSlash. apply Ascii.eqb_sym.
Qed.

(** The [pathname] setter on the characters of its argument. *)
Definition setPath (v : list ascii) : list ascii :=
  match v with
  | c :: _ => if URL.isSlash c then v else "/"%char :: v
  | [] => ["/"%char]
  end.

(** The path [normalizeChannelUrl] leaves in place of [p]. *)
Definition canonicalPath (p : list ascii) : list ascii :=
  let p1 := setPath (replaceTabSuffix_l p) in
  let p2 := setPath (collapseSlashes_l p1) in
  if endsSlash p2 then p2 else setPath (p2 ++ ["/"%char]).

Lemma path_setPathname (u : URL.t) (v : list ascii) :
  URL.path (URL.setPathname u (str v)) = setPath v.
Proof. unfold URL.setPathname, setPath. cbn [URL.path]. rewrite chars_str. reflexivity. Qed.

Lemma normalizeChannelUrl_parsed (x : string) (u : URL.t) :
  URL.parse (trim x) = Some u ->
  normalizeChannelUrl x
  = let serialized :=
      str (URL.scheme u ++ chars "://" ++ URL.host u ++ canonicalPath (URL.path u)) in
    if endsWith serialized "/" then serialized else serialized +:+ "/".
Proof.
  intros Hparse. unfold normalizeChannelUrl.
  destruct (isEmpty (trim x)) eqn:Hempty.
  { destruct (trim x); [discriminate | discriminate]. }
  rewrite Hparse. cbv zeta.
  set (u1 := URL.setPathname (URL.clearHash (URL.clearSearch u))
               (replaceTabSuffix (URL.pathname (URL.clearHash (URL.clearSearch u))))).
  set (u2 := URL.setPathname u1 (collapseSlashes (URL.pathname u1))).
  set (u3 := if endsWith (URL.pathname u2) "/" then u2
             else URL.setPathname u2 (URL.pathname u2 +:+ "/")).
  assert (Hu1 : URL.path u1 = setPath (replaceTabSuffix_l (URL.path u))).
  { unfold u1, replaceTabSuffix. rewrite path_setPathname.
    unfold URL.pathname. rewrite chars_str. reflexivity. }
  assert (Hu2 : URL.path u2 = setPath (collapseSlashes_l (URL.path u1))).
  { unfold u2, collapseSlashes. rewrite path_setPathname.
    unfold URL.pathname. rewrite chars_str. reflexivity. }
  assert (Hu3 : URL.toString u3
                = str (URL.scheme u ++ chars "://" ++ URL.host u
                       ++ canonicalPath (URL.path u))).
  { unfold canonicalPath. cbv zeta. rewrite <- Hu1, <- Hu2.
    unfold u3, URL.pathname. rewrite endsWith_slash.
    destruct (endsSlash (URL.path u2)).
    - unfold URL.toString, URL.href_l. cbn. rewrite !app_nil_r. reflexivity.
    - replace (str (URL.path u2) +:+ "/") with (str (URL.path u2 ++ ["/"%char]))
        by (rewrite <- str_app; reflexivity).
      unfold URL.toString, URL.href_l. rewrite path_setPathname.
      cbn [URL.scheme URL.host URL.query URL.fragment URL.setPathname URL.clearHash
           URL.clearSearch u2 u1].
      rewrite !app_nil_r. reflexivity. }
  rewrite Hu3. reflexivity.
Qed.

Lemma setPath_rooted (v : list ascii) : rooted (setPath v) = true.
Proof.
  destruct v as [| c v]; [reflexivity |]. unfold setPath.
  destruct (URL.isSlash c) eqn:Hc; [exact Hc | reflexivity].
Qed.

Lemma setPath_fixed (v : list ascii) : rooted v = true -> setPath v = v.
Proof. destruct v as [| c v]; [discriminate |]. simpl. intros ->. reflexivity. Qed.

Lemma endsSlash_snoc (l : list ascii) (c : ascii) : endsSlash (l ++ [c]) = URL.isSlash c.
Proof. unfold endsSlash. rewrite rev_unit. reflexivity. Qed.

Lemma endsSlash_app (a b : list ascii) : b <> [] -> endsSlash (a ++ b) = endsSlash b.
Proof.
  intros Hb. unfold endsSlash. rewrite rev_app_distr.
  destruct (rev b) as [| c r] eqn:Hrev; [| reflexivity].
  apply (f_equal (@rev ascii)) in Hrev. rewrite rev_involutive in Hrev. contradiction.
Qed.

Lemma endsSlash_cons (c : ascii) (l : list ascii) :
  l <> [] -> endsSlash (c :: l) = endsSlash l.
Proof. apply (endsSlash_app [c]). Qed.

(** No two slashes in a row. *)
Fixpoint noDouble (l : list ascii) : bool :=
  match l with
  | c :: l' =>
      match l' with
      | c' :: _ => negb (URL.isSlash c && URL.isSlash c') && noDouble l'
      | [] => true
      end
  | [] => true
  end.

Lemma collapseSlashes_head (l : list ascii) : head (collapseSlashes_l l) = head l.
Proof.
  induction l as [| c l IH]; [reflexivity |].
  cbn [collapseSlashes_l]. destruct l as [| c' l]; [reflexivity |].
  destruct (URL.isSlash c && URL.isSlash c') eqn:Hboth; [| reflexivity].
  apply andb_true_iff in Hboth as [Hc Hc'].
  rewrite IH. cbn [head]. rewrite (isSlash_eq c Hc), (isSlash_eq c' Hc'). reflexivity.
Qed.

Lemma rooted_head (l : list ascii) : rooted l = true <-> head l = Some "/"%char.
Proof.
  destruct l as [| c l]; simpl; [split; discriminate |]. split.
  - intros Hc. rewrite (isSlash_eq c Hc). reflexivity.
  - intros Hc. injection Hc as ->. reflexivity.
Qed.

Lemma collapseSlashes_rooted (l : list ascii) :
  rooted l = true -> rooted (collapseSlashes_l l) = true.
Proof. rewrite !rooted_head, collapseSlashes_head. trivial. Qed.

Lemma collapseSlashes_noDouble (l : list ascii) : noDouble (collapseSlashes_l l) = true.
Proof.
  induction l as [| c l IH]; [reflexivity |].
  cbn [collapseSlashes_l]. destruct l as [| c' l]; [reflexivity |].
  destruct (URL.isSlash c && URL.isSlash c') eqn:Hboth; [exact IH |].
  pose proof (collapseSlashes_head (c' :: l)) as Hhead.
  destruct (collapseSlashes_l (c' :: l)) as [| d rest]; [reflexivity |].
  cbn [head] in Hhead. injection Hhead as ->.
  cbn [noDouble]. cbn [noDouble] in IH. rewrite Hboth. exact IH.
Qed.



Lemma collapseSlashes_pathChars (l : list ascii) :
  pathChars l = true -> pathChars (collapseSlashes_l l) = true.
Proof.
  unfold pathChars. induction l as [| c l IH]; [reflexivity |].
  cbn [collapseSlashes_l]. destruct l as [| c' l]; [trivial |].
  intros Hall. cbn [forallb] in Hall. apply andb_true_iff in Hall as [Hc Hall].
  destruct (URL.isSlash c && URL.isSlash c'); [exact (IH Hall) |].
  cbn [forallb]. rewrite Hc. exact (IH Hall).
Qed.

Lemma noDouble_snoc (l : list ascii) :
  noDouble l = true -> endsSlash l = false -> noDouble (l ++ ["/"%char]) = true.
Proof.
  induction l as [| c l IH]; [reflexivity |].
  destruct l as [| c' l].
  - intros _ Hends. change (endsSlash [c]) with (URL.isSlash c) in Hends.
    cbn. rewrite Hends. reflexivity.
  - intros Hno Hends. rewrite endsSlash_cons in Hends by discriminate.
    cbn [noDouble] in Hno. apply andb_true_iff in Hno as [Hboth Hno].
    change ((c :: c' :: l) ++ ["/"%char]) with (c :: (c' :: l) ++ ["/"%char]).
    cbn [noDouble app]. cbn [app] in IH. rewrite Hboth. exact (IH Hno Hends).
Qed.

Lemma setPath_pathChars (v : list ascii) : pathChars v = true -> pathChars (setPath v) = true.
Proof.
  destruct v as [| c v]; [reflexivity |]. unfold setPath.
  destruct (URL.isSlash c); [trivial |]. intros Hv.
  change (pathChars ("/"%char :: c :: v))
    with (negb (URL.endsPath "/") && pathChars (c :: v)).
  rewrite Hv. reflexivity.
Qed.

(** What the tab pattern matches at the end of a path, read backwards:
    an optional slash, the tab name, a slash. *)
Lemma stripTab_rev_split (r pre : list ascii) :
  stripTab_rev r = Some pre ->
  exists lead seg c,
    r = lead ++ seg ++ c :: pre
    /\ seg <> []
    /\ (forall d r', r = d :: r' -> URL.isSlash d = true -> lead = [d]).
Proof.
  unfold stripTab_rev.
  set (body := match r with
               | c :: r' => if URL.isSlash c then r' else r
               | [] => r
               end).
  destruct (URL.breakAt URL.isSlash body) as [seg rest] eqn:Hbreak.
  destruct rest as [| c pre']; [discriminate |].
  destruct (isTab (rev seg)) eqn:Htab; [| discriminate].
  intros Hpre. injection Hpre as ->.
  destruct (breakAt_split _ _ _ _ Hbreak) as (Hbody & _ & _).
  assert (Hseg : seg <> []) by (intros ->; vm_compute in Htab; discriminate).
  destruct r as [| d r'].
  - exists [], seg, c. repeat split; [exact Hbody | exact Hseg | discriminate].
  - destruct (URL.isSlash d) eqn:Hd.
    + exists [d], seg, c. subst body. cbv iota in Hbody. rewrite Hbody.
      repeat split; [exact Hseg |]. intros d0 r0 Heq _. injection Heq as -> _. reflexivity.
    + exists [], seg, c. subst body. cbv iota in Hbody.
      repeat split; [exact Hbody | exact Hseg |].
      intros d0 r0 Heq Hd0. injection Heq as -> _. rewrite Hd in Hd0. discriminate.
Qed.

Lemma pathChars_app (a b : list ascii) :
  pathChars (a ++ b) = pathChars a && pathChars b.
Proof. unfold pathChars. apply forallb_app. Qed.

Lemma pathChars_rev (l : list ascii) : pathChars (rev l) = pathChars l.
Proof.
  induction l as [| c l IH]; [reflexivity |].
  cbn [rev]. rewrite pathChars_app, IH. unfold pathChars. cbn [forallb].
  rewrite andb_true_r. apply andb_comm.
Qed.

Lemma replaceTabSuffix_pathChars (p : list ascii) :
  pathChars p = true -> pathChars (replaceTabSuffix_l p) = true.
Proof.
  intros Hp. unfold replaceTabSuffix_l.
  destruct (stripTab_rev (rev p)) as [pre |] eqn:Hstrip; [| exact Hp].
  destruct (stripTab_rev_split _ _ Hstrip) as (lead & seg & c & Hrev & _ & _).
  rewrite <- pathChars_rev, Hrev, !pathChars_app in Hp.
  apply andb_true_iff in Hp as [_ Hp]. apply andb_true_iff in Hp as [_ Hp].
  change (c :: pre) with ([c] ++ pre) in Hp. rewrite pathChars_app in Hp.
  apply andb_true_iff in Hp as [_ Hp].
  rewrite pathChars_app, pathChars_rev, Hp. reflexivity.
Qed.

(** The normalised path is rooted, ends in a slash, and has no slash
    twice in a row. *)
Lemma canonicalPath_shape (p : list ascii) :
  pathChars p = true ->
  rooted (canonicalPath p) = true
  /\ pathChars (canonicalPath p) = true
  /\ endsSlash (canonicalPath p) = true
  /\ noDouble (canonicalPath p) = true.
Proof.
  intros Hp. unfold canonicalPath. cbv zeta.
  set (p1 := setPath (replaceTabSuffix_l p)).
  assert (Hp1 : rooted p1 = true) by apply setPath_rooted.
  assert (Hc1 : pathChars p1 = true)
    by (apply setPath_pathChars, replaceTabSuffix_pathChars, Hp).
  rewrite (setPath_fixed (collapseSlashes_l p1)) by (apply collapseSlashes_rooted, Hp1).
  pose proof (collapseSlashes_rooted p1 Hp1) as Hp2.
  pose proof (collapseSlashes_pathChars p1 Hc1) as Hc2.
  pose proof (collapseSlashes_noDouble p1) as Hn2.
  destruct (endsSlash (collapseSlashes_l p1)) eqn:Hends.
  - repeat split; assumption.
  - assert (Hp3 : rooted (collapseSlashes_l p1 ++ ["/"%char]) = true).
    { destruct (collapseSlashes_l p1); [discriminate | exact Hp2]. }
    rewrite (setPath_fixed _ Hp3). repeat split.
    + exact Hp3.
    + rewrite pathChars_app, Hc2. reflexivity.
    + apply endsSlash_snoc.
    + apply noDouble_snoc; assumption.
Qed.



Lemma trim_l_fixed (c : ascii) (l : list ascii) :
  isWhiteSpace c = false -> endsSlash (c :: l) = true -> trim_l (c :: l) = c :: l.
Proof.
  intros Hc Hends. unfold trim_l, trimEnd_l. cbn [trimStart_l]. rewrite Hc.
  unfold endsSlash in Hends. destruct (rev (c :: l)) as [| d r] eqn:Hrev; [discriminate |].
  cbn [trimStart_l]. rewrite (isSlash_eq d Hends).
  change (isWhiteSpace "/") with false. cbv iota.
  rewrite <- (isSlash_eq d Hends), <- Hrev. apply rev_involutive.
Qed.

(** The serialised form of a parsed URL whose path ends in a slash, its
    query and fragment removed. *)
Definition hrefOf (u : URL.t) (p : list ascii) : list ascii :=
  URL.scheme u ++ chars "://" ++ URL.host u ++ p.

Lemma hrefOf_trim (u : URL.t) (p : list ascii) :
  parsedUrl u -> endsSlash p = true -> trim (str (hrefOf u p)) = str (hrefOf u p).
Proof.
  intros Hu Hends. unfold trim. rewrite chars_str. f_equal.
  assert (Hp : p <> []) by (intros ->; discriminate).
  assert (Hall : endsSlash (hrefOf u p) = true).
  { unfold hrefOf. rewrite !app_assoc, endsSlash_app by exact Hp. exact Hends. }
  unfold hrefOf in *. destruct (parsed_scheme u Hu) as [Hs | Hs]; rewrite Hs in *;
    apply trim_l_fixed; [reflexivity | exact Hall | reflexivity | exact Hall].
Qed.

Lemma hrefOf_endsWith (u : URL.t) (p : list ascii) :
  endsSlash p = true -> endsWith (str (hrefOf u p)) "/" = true.
Proof.
  intros Hends. rewrite endsWith_slash. unfold hrefOf.
  rewrite !app_assoc, endsSlash_app; [exact Hends |]. intros ->. discriminate.
Qed.


(** [normalizeChannelUrl] on a string that parses. *)
Lemma normalizeChannelUrl_href (x : string) (u : URL.t) :
  URL.parse (trim x) = Some u ->
  normalizeChannelUrl x = str (hrefOf u (canonicalPath (URL.path u))).
Proof.
  intros Hparse. rewrite (normalizeChannelUrl_parsed x u Hparse). cbv zeta.
  fold (hrefOf u (canonicalPath (URL.path u))).
  rewrite hrefOf_endsWith; [reflexivity |].
  apply canonicalPath_shape, (parse_l_parsedUrl _ _ Hparse).
Qed.

Lemma isHttp_letters (sc : list ascii) :
  URL.isHttp (map URL.asciiLower sc) = true ->
  exists c0 rest, sc = c0 :: rest /\ forallb URL.isAlpha sc = true.
Proof.
  intros Hhttp.
  assert (Hletters : forallb URL.isAlpha sc = true).
  { rewrite <- (forallb_map_same URL.isAlpha URL.asciiLower sc asciiLower_isAlpha).
    destruct (isHttp_cases _ Hhttp) as [-> | ->]; reflexivity. }
  destruct sc as [| c0 rest]; [discriminate |]. eauto.
Qed.

Lemma forallb_isSchemeChar (sc : list ascii) :
  forallb URL.isAlpha sc = true -> forallb URL.isSchemeChar sc = true.
Proof.
  induction sc as [| c sc IH]; [reflexivity |]. cbn [forallb].
  intros Hall. apply andb_true_iff in Hall as [Hc Hall].
  rewrite (IH Hall). unfold URL.isSchemeChar. rewrite Hc. reflexivity.
Qed.

(** The strings on which the parser is the platform's do parse. *)
Lemma plain_parses (s : string) : URL.plain s = true -> exists u, URL.parse s = Some u.
Proof.
  unfold URL.plain, URL.parse, URL.plain_l, URL.parse_l.
  destruct (URL.breakAt URL.isColon (chars s)) as [sc r].
  destruct r as [| colon [| s1 [| s2 r1]]]; try discriminate.
  destruct (URL.breakAt URL.endsAuthority r1) as [h r2].
  destruct (URL.breakAt URL.endsPath r2) as [p r3].
  intros Hplain. repeat (apply andb_true_iff in Hplain as [Hplain ?]).
  destruct (isHttp_letters sc) as (c0 & rest & -> & Hletters); [assumption |].
  rewrite (forallb_isSchemeChar _ Hletters).
  cbn [forallb] in Hletters. apply andb_true_iff in Hletters as [Hc0 _].
  rewrite Hc0. replace (URL.isSlash s1) with true by (symmetry; assumption).
  replace (URL.isSlash s2) with true by (symmetry; assumption).
  replace (URL.isHttp (map URL.asciiLower (c0 :: rest))) with true
    by (symmetry; assumption).
  cbn [andb]. destruct h as [| h0 h]; [discriminate |].
  destruct (match r3 with
            | c :: r3' => if Ascii.eqb c "?"
                          then let '(q, r4) := URL.breakAt URL.isHash r3' in (Some q, r4)
                          else (None, r3)
            | [] => (None, r3)
            end) as [q r4].
  eauto.
Qed.






(** * Further properties *)

(** ** Coercions of raw metadata (utils.ts) *)

Lemma trimStart_split (l : list ascii) :
  exists blank,
    l = blank ++ trimStart_l l /\ forallb isWhiteSpace blank = true.
Proof.
  induction l as [| c l (blank & Hl & Hblank)]; [exists []; split; reflexivity |].
  cbn [trimStart_l]. destruct (isWhiteSpace c) eqn:Hc.
  - exists (c :: blank). split; [cbn; congruence |]. cbn. rewrite Hc. exact Hblank.
  - exists []. split; reflexivity.
Qed.

Lemma trimStart_head (l : list ascii) (c : ascii) (rest : list ascii) :
  trimStart_l l = c :: rest -> isWhiteSpace c = false.
Proof.
  induction l as [| d l IH]; [discriminate |]. cbn [trimStart_l].
  destruct (isWhiteSpace d) eqn:Hd; [exact IH |].
  intros Heq. injection Heq as <- _. exact Hd.
Qed.

Lemma trimStart_fixed (c : ascii) (l : list ascii) :
  isWhiteSpace c = false -> trimStart_l (c :: l) = c :: l.
Proof. intros Hc. cbn [trimStart_l]. rewrite Hc. reflexivity. Qed.

Lemma trimStart_idempotent (l : list ascii) : trimStart_l (trimStart_l l) = trimStart_l l.
Proof.
  destruct (trimStart_l l) as [| c rest] eqn:Hl; [reflexivity |].
  apply trimStart_fixed, (trimStart_head l c rest Hl).
Qed.

(** A text with no white space at either end. *)
Definition trimmed (l : list ascii) : Prop :=
  match l with c :: _ => isWhiteSpace c = false | [] => True end
  /\ match rev l with c :: _ => isWhiteSpace c = false | [] => True end.

Lemma trim_l_trimmed (l : list ascii) : trimmed (trim_l l).
Proof.
  unfold trimmed, trim_l, trimEnd_l. rewrite rev_involutive.
  set (a := trimStart_l l).
  destruct (trimStart_split (rev a)) as (blank & Hrev & _).
  split.
  - apply (f_equal (@rev ascii)) in Hrev. rewrite rev_involutive, rev_app_distr in Hrev.
    destruct (rev (trimStart_l (rev a))) as [| c rest] eqn:Hkept; [exact I |].
    rewrite Hrev in *. subst a. cbn in Hrev. apply (trimStart_head l c _ Hrev).
  - destruct (trimStart_l (rev a)) as [| c rest] eqn:Hkept; [exact I |].
    apply (trimStart_head _ _ _ Hkept).
Qed.

Lemma trimmed_trim_l (l : list ascii) : trimmed l -> trim_l l = l.
Proof.
  intros [Hhead Hlast]. unfold trim_l, trimEnd_l.
  assert (Hstart : trimStart_l l = l)
    by (destruct l as [| c l]; [reflexivity | apply trimStart_fixed, Hhead]).
  rewrite Hstart.
  destruct (rev l) as [| c rest] eqn:Hrev.
  - apply (f_equal (@rev ascii)) in Hrev. rewrite rev_involutive in Hrev. subst l. reflexivity.
  - rewrite (trimStart_fixed c rest Hlast), <- Hrev. apply rev_involutive.
Qed.

Lemma trim_idempotent (s : string) : trim (trim s) = trim s.
Proof.
  unfold trim. rewrite chars_str. f_equal. apply trimmed_trim_l, trim_l_trimmed.
Qed.

Lemma length_str (l : list ascii) : String.length (str l) = length l.
Proof. unfold str. induction l as [| c l IH]; [reflexivity |]. cbn. rewrite IH. reflexivity. Qed.

(** X1: what [toNonEmptyString] returns is never empty and has no white
    space at either end, so that coercing it again changes nothing; and
    it returns nothing exactly for a value that is not a string or is a
    string of white space only. *)
Theorem toNonEmptyString_trimmed (value : option json) :
  (forall text,
      toNonEmptyString value = Some text ->
      text <> EmptyString
      /\ trimmed (chars text)
      /\ toNonEmptyString (Some (JStr text)) = Some text)
  /\ (toNonEmptyString value = None <->
      forall s, value = Some (JStr s) -> forallb isWhiteSpace (chars s) = true).
Proof.
  unfold toNonEmptyString. split.
  - intros text. destruct value as [[| | | s | |] |]; try discriminate.
    destruct (0 <? String.length (trim s))%nat eqn:Hlen; [| discriminate].
    intros Htext. injection Htext as <-. split; [| split].
    + intros Hempty. rewrite Hempty in Hlen. discriminate.
    + unfold trim. rewrite chars_str. apply trim_l_trimmed.
    + rewrite trim_idempotent, Hlen. reflexivity.
  - destruct value as [[| | | s | |] |]; try (split; [intros _ s0 Hs0; discriminate | reflexivity]).
    unfold trim. rewrite length_str. split.
    + intros Hnone s0 Hs0. injection Hs0 as <-.
      destruct (0 <? length (trim_l (chars s)))%nat eqn:Hlen; [discriminate |].
      apply Nat.ltb_ge in Hlen. unfold trim_l, trimEnd_l in Hlen. rewrite length_rev in Hlen.
      destruct (trimStart_split (chars s)) as (blank & Hs & Hblank).
      destruct (trimStart_split (rev (trimStart_l (chars s)))) as (blank' & Hs' & Hblank').
      destruct (trimStart_l (rev (trimStart_l (chars s)))); [| cbn in Hlen; lia].
      rewrite app_nil_r in Hs'. apply (f_equal (@rev ascii)) in Hs'.
      rewrite rev_involutive in Hs'. rewrite Hs' in Hs.
      rewrite Hs, forallb_app, Hblank. cbn [andb].
      rewrite forallb_forall in *. intros c Hc. apply Hblank'. apply in_rev in Hc. exact Hc.
    + intros Hblank. specialize (Hblank s eq_refl).
      assert (Hstart : trimStart_l (chars s) = []).
      { apply trimStart_blank. apply Forall_forall. intros c Hc.
        rewrite forallb_forall in Hblank. apply Hblank. apply list_elem_of_In. exact Hc. }
      unfold trim_l, trimEnd_l. rewrite Hstart. reflexivity.
Qed.

Lemma isEmpty_false (s : string) : isEmpty s = false <-> s <> EmptyString.
Proof. destruct s; cbn; split; congruence. Qed.

Lemma resolveVideoUrl_nonempty (video : RawVideo) (fallbackId : string) :
  resolveVideoUrl video fallbackId <> EmptyString.
Proof.
  assert (Hwatch : watchUrl fallbackId <> EmptyString) by discriminate.
  unfold resolveVideoUrl. cbn [find].
  destruct (toNonEmptyString (prop video "webpage_url")) as [a |].
  - destruct (isEmpty a) eqn:Hempty; cbn [negb].
    + destruct (toNonEmptyString (prop video "url")) as [b |].
      * destruct (isEmpty b) eqn:Hb; cbn [negb]; [| apply isEmpty_false, Hb].
        destruct (isEmpty (watchUrl fallbackId)); exact Hwatch.
      * destruct (isEmpty (watchUrl fallbackId)); exact Hwatch.
    + apply isEmpty_false, Hempty.
  - destruct (toNonEmptyString (prop video "url")) as [b |].
    + destruct (isEmpty b) eqn:Hb; cbn [negb]; [| apply isEmpty_false, Hb].
      destruct (isEmpty (watchUrl fallbackId)); exact Hwatch.
    + destruct (isEmpty (watchUrl fallbackId)); exact Hwatch.
Qed.

(** X2: a row mapped from a record carries what the table requires: its
    id is the record's id without surrounding white space and is not
    empty, its title and its URL are not empty, and it keeps the channel
    id it was given and the record itself. *)
Theorem mapRawVideoToInsert_required (video : RawVideo) (channelId : Z) (scrapedAt : Date)
    (now : Z) (mapped : VideoInsert.t) :
  mapRawVideoToInsert video channelId scrapedAt now = Some mapped ->
  toNonEmptyString (prop video "id") = Some (VideoInsert.id mapped)
  /\ VideoInsert.id mapped <> EmptyString
  /\ VideoInsert.title mapped <> EmptyString
  /\ VideoInsert.videoUrl mapped <> EmptyString
  /\ VideoInsert.channelId mapped = channelId
  /\ VideoInsert.rawData mapped = video.
Proof.
  unfold mapRawVideoToInsert.
  destruct (toNonEmptyString (prop video "id")) as [id |] eqn:Hid; [| discriminate].
  destruct (isEmpty id) eqn:Hempty; [discriminate |].
  intros Hmapped. injection Hmapped as <-. cbn.
  assert (Hne : id <> EmptyString) by (intros ->; discriminate).
  repeat split; try assumption.
  - destruct (toNonEmptyString (prop video "title")) as [title |] eqn:Htitle; cbn.
    + apply isEmpty_false, (toNonEmptyString_nonempty _ _ Htitle).
    + exact Hne.
  - apply resolveVideoUrl_nonempty.
Qed.

(** The theorem at a record with a padded id and no title. *)
Lemma mapRawVideoToInsert_required_witness :
  exists mapped,
    mapRawVideoToInsert [("id", JStr " abc123 ")] 7 (Some 1700000000000) 1700000000001
    = Some mapped
    /\ VideoInsert.id mapped = "abc123"
    /\ VideoInsert.title mapped <> EmptyString
    /\ VideoInsert.videoUrl mapped <> EmptyString.
Proof.
  eexists. split; [vm_compute; reflexivity |].
  split; [reflexivity |].
  pose proof (mapRawVideoToInsert_required [("id", JStr " abc123 ")] 7
                (Some 1700000000000) 1700000000001 _ eq_refl)
    as (_ & _ & Htitle & Hurl & _).
  split; [exact Htitle | exact Hurl].
Defined.

Lemma matchHandle_l_shape (l handle : list ascii) :
  matchHandle_l l = Some handle ->
  exists name,
    handle = "@"%char :: name /\ name <> []
    /\ forallb (fun c => negb (URL.isSlash c)) name = true.
Proof.
  induction l as [| c l IH]; [discriminate |]. cbn [matchHandle_l].
  destruct (Ascii.eqb_spec c "@") as [-> | Hc]; [| exact IH].
  destruct (URL.breakAt URL.isSlash l) as [name rest] eqn:Hbreak.
  destruct name as [| d name]; [exact IH |].
  intros Hhandle. injection Hhandle as <-.
  exists (d :: name). split; [reflexivity |]. split; [discriminate |].
  apply (breakAt_split _ _ _ _ Hbreak).
Qed.

(** X3: a handle read from a URL, or from a text that is no URL, is an
    [@] followed by at least one character, none of them a slash. *)
Theorem extractHandleFromUrl_shape (url handle : string) :
  extractHandleFromUrl url = Some handle ->
  exists name,
    handle = "@" +:+ name /\ name <> EmptyString
    /\ forallb (fun c => negb (URL.isSlash c)) (chars name) = true
    /\ startsWith handle "@" = true.
Proof.
  unfold extractHandleFromUrl, matchHandle. intros Hhandle.
  assert (Hmatch : exists l, matchHandle_l l = Some (chars handle)).
  { destruct (URL.parse url) as [parsed |].
    - destruct (matchHandle_l (chars (URL.pathname parsed))) as [h |] eqn:Hm; [| discriminate].
      injection Hhandle as <-. rewrite chars_str. eauto.
    - destruct (matchHandle_l (chars url)) as [h |] eqn:Hm; [| discriminate].
      injection Hhandle as <-. rewrite chars_str. eauto. }
  destruct Hmatch as (l & Hl).
  destruct (matchHandle_l_shape _ _ Hl) as (name & Hchars & Hname & Hslash).
  assert (Heq : handle = "@" +:+ str name).
  { rewrite <- (str_chars handle), Hchars. reflexivity. }
  exists (str name). rewrite chars_str. repeat split; try assumption.
  - destruct name; [contradiction | discriminate].
  - rewrite Heq. reflexivity.
Qed.

(** The theorem at the channel's URL and at a text that is no URL. *)
Lemma extractHandleFromUrl_shape_witness :
  extractHandleFromUrl "https://youtube.com/@Carey/videos" = Some "@Carey"
  /\ extractHandleFromUrl "Find us at @team/example" = Some "@team"
  /\ exists name, "@team" = "@" +:+ name /\ name <> EmptyString.
Proof.
  split; [vm_compute; reflexivity |]. split; [vm_compute; reflexivity |].
  destruct (extractHandleFromUrl_shape "Find us at @team/example" "@team" eq_refl)
    as (name & Heq & Hne & _).
  exists name. split; assumption.
Defined.

(** ** Quoting a command and splitting it again (utils.ts) *)

Definition hasApostrophe (value : string) : bool :=
  existsb (Ascii.eqb apostrophe) (chars value).

Definition noApostrophe (l : list ascii) : bool :=
  forallb (fun c => negb (Ascii.eqb apostrophe c)) l.

(** [shellQuote] on the characters of its argument. *)
Definition quote_l (v : list ascii) : list ascii :=
  match v with
  | _ :: _ =>
      if forallb isShellSafe v then v
      else apostrophe :: escapeApostrophes v ++ [apostrophe]
  | [] => apostrophe :: escapeApostrophes v ++ [apostrophe]
  end.

Fixpoint joinWords (words : list (list ascii)) : list ascii :=
  match words with
  | [] => []
  | [word] => word
  | word :: words' => word ++ " "%char :: joinWords words'
  end.

Lemma chars_shellQuote (value : string) : chars (shellQuote value) = quote_l (chars value).
Proof.
  unfold shellQuote, quote_l. destruct value as [| c value]; [reflexivity |].
  cbn [isEmpty negb andb chars list_ascii_of_string].
  change (list_ascii_of_string value) with (chars value).
  destruct (forallb isShellSafe (c :: chars value)); [reflexivity | apply chars_str].
Qed.

Lemma chars_join (items : list string) :
  chars (join " " items) = joinWords (map chars items).
Proof.
  induction items as [| item items IH]; [reflexivity |].
  destruct items as [| item' items]; [reflexivity |].
  change (join " " (item :: item' :: items))
    with (item +:+ " " +:+ join " " (item' :: items)).
  rewrite !chars_app, IH. reflexivity.
Qed.

Lemma shellSafe_plain (c : ascii) :
  isShellSafe c && (isWhiteSpace c || Ascii.eqb c dquote || Ascii.eqb c apostrophe) = false.
Proof. each_ascii c. Qed.

Lemma shellSafe_word (v : list ascii) :
  forallb isShellSafe v = true -> forallb (fun c => negb (isWhiteSpace c)) v = true.
Proof.
  induction v as [| c v IH]; [reflexivity |]. cbn [forallb].
  intros Hsafe. apply andb_true_iff in Hsafe as [Hc Hsafe]. rewrite (IH Hsafe).
  pose proof (shellSafe_plain c) as Hplain. rewrite Hc in Hplain. cbn [andb] in Hplain.
  apply orb_false_iff in Hplain as [Hplain _]. apply orb_false_iff in Hplain as [-> _].
  reflexivity.
Qed.

Lemma escapeApostrophes_none (v : list ascii) :
  noApostrophe v = true -> escapeApostrophes v = v.
Proof.
  unfold noApostrophe, escapeApostrophes. induction v as [| c v IH]; [reflexivity |].
  cbn [forallb flat_map]. intros Hv. apply andb_true_iff in Hv as [Hc Hv].
  apply negb_true_iff in Hc. rewrite Ascii.eqb_sym, Hc, (IH Hv). reflexivity.
Qed.

Lemma quote_l_nonempty (v : list ascii) : (1 <= length (quote_l v))%nat.
Proof.
  unfold quote_l. destruct v as [| c v]; [cbn; lia |].
  destruct (forallb isShellSafe (c :: v)); cbn [length]; lia.
Qed.

(** One quoted word, followed by nothing or by white space, is read back
    as the word. *)
Lemma splitArgs_l_quoted (v rest : list ascii) (fuel : nat) :
  noApostrophe v = true ->
  match rest with c :: _ => isWhiteSpace c = true | [] => True end ->
  splitArgs_l (Datatypes.S fuel) (quote_l v ++ rest) = v :: splitArgs_l fuel rest.
Proof.
  intros Hv Hrest.
  assert (Hquoted :
    splitArgs_l (Datatypes.S fuel) ((apostrophe :: v ++ [apostrophe]) ++ rest)
    = v :: splitArgs_l fuel rest).
  { cbn [app splitArgs_l]. rewrite <- app_assoc. cbn [app].
    change (isWhiteSpace apostrophe) with false. cbv iota.
    change (Ascii.eqb apostrophe dquote || Ascii.eqb apostrophe apostrophe) with true.
    cbv iota.
    rewrite (breakAt_joined (Ascii.eqb apostrophe) v (apostrophe :: rest) Hv eq_refl).
    reflexivity. }
  unfold quote_l. destruct v as [| c v]; [exact Hquoted |].
  rewrite (escapeApostrophes_none _ Hv).
  destruct (forallb isShellSafe (c :: v)) eqn:Hsafe; [| exact Hquoted].
  pose proof (shellSafe_word _ Hsafe) as Hword.
  cbn [forallb] in Hsafe. apply andb_true_iff in Hsafe as [Hc _].
  pose proof (shellSafe_plain c) as Hplain. rewrite Hc in Hplain. cbn [andb] in Hplain.
  apply orb_false_iff in Hplain as [Hplain Hapostrophe].
  apply orb_false_iff in Hplain as [Hspace Hdquote].
  change ((c :: v) ++ rest) with (c :: v ++ rest).
  cbn [splitArgs_l]. rewrite Hspace, Hdquote, Hapostrophe. cbn [orb]. cbv iota.
  change (c :: v ++ rest) with ((c :: v) ++ rest).
  rewrite (breakAt_joined isWhiteSpace (c :: v) rest Hword Hrest). reflexivity.
Qed.

Lemma splitArgs_l_joined (words : list (list ascii)) :
  forallb noApostrophe words = true ->
  forall fuel,
    (length (joinWords (map quote_l words)) <= fuel)%nat ->
    splitArgs_l fuel (joinWords (map quote_l words)) = words.
Proof.
  induction words as [| word words IH]; intros Hwords fuel Hfuel.
  - destruct fuel; reflexivity.
  - cbn [forallb] in Hwords. apply andb_true_iff in Hwords as [Hword Hwords].
    pose proof (quote_l_nonempty word) as Hlen.
    destruct words as [| word' words].
    + cbn [map joinWords] in *. destruct fuel as [| fuel]; [lia |].
      rewrite <- (app_nil_r (quote_l word)), (splitArgs_l_quoted word [] fuel Hword I).
      destruct fuel; reflexivity.
    + change (joinWords (map quote_l (word :: word' :: words)))
        with (quote_l word ++ " "%char :: joinWords (map quote_l (word' :: words))) in *.
      rewrite length_app in Hfuel. cbn [length] in Hfuel.
      destruct fuel as [| [| fuel]]; [lia | lia |].
      rewrite (splitArgs_l_quoted word
                 (" "%char :: joinWords (map quote_l (word' :: words))) _ Hword eq_refl).
      cbn [splitArgs_l]. change (isWhiteSpace " ") with true. cbv iota.
      rewrite (IH Hwords fuel); [reflexivity | lia].
Qed.

Lemma noApostrophe_chars (items : list string) :
  forallb (fun value => negb (hasApostrophe value)) items = true ->
  forallb noApostrophe (map chars items) = true.
Proof.
  induction items as [| v items IH]; [reflexivity |].
  cbn [forallb map]. intros Hplain. apply andb_true_iff in Hplain as [Hv Hplain].
  rewrite (IH Hplain), andb_true_r. unfold hasApostrophe in Hv. unfold noApostrophe.
  induction (chars v) as [| c l IHl]; [reflexivity |].
  cbn [existsb forallb] in *. apply negb_true_iff, orb_false_iff in Hv as [Hc Hv].
  rewrite Hc. cbn [negb andb]. apply IHl. rewrite Hv. reflexivity.
Qed.

(** X4: splitting a command that [shellJoin] has written gives back the
    executable and its arguments, whatever they hold (spaces, double
    quotes, nothing at all), as long as none of them holds an
    apostrophe. *)
Theorem splitArgs_shellJoin (executable : string) (args : list string) :
  forallb (fun value => negb (hasApostrophe value)) (executable :: args) = true ->
  splitArgs (Some (shellJoin executable args)) = executable :: args.
Proof.
  intros Hplain. unfold splitArgs, shellJoin.
  set (items := executable :: args) in *.
  assert (Hchars : chars (join " " (map shellQuote items))
                   = joinWords (map quote_l (map chars items))).
  { rewrite chars_join, !map_map. f_equal. apply map_ext. intros v. apply chars_shellQuote. }
  pose proof (noApostrophe_chars items Hplain) as Hwords.
  destruct (isEmpty (join " " (map shellQuote items))) eqn:Hempty.
  - exfalso. apply (f_equal (@length ascii)) in Hchars.
    destruct (join " " (map shellQuote items)); [| discriminate].
    subst items. cbn [map] in Hchars.
    pose proof (quote_l_nonempty (chars executable)) as Hlen.
    destruct (map quote_l (map chars args)); cbn [joinWords] in Hchars;
      [| rewrite length_app in Hchars]; cbn [chars list_ascii_of_string length] in Hchars; lia.
  - rewrite Hchars, splitArgs_l_joined.
    + rewrite map_map. rewrite <- (map_id items) at 2. apply map_ext. intros v. apply str_chars.
    + exact Hwords.
    + rewrite <- Hchars, <- length_str, str_chars. reflexivity.
Qed.

(** The theorem at a command with a space, a double quote and an empty
    argument. *)
Lemma splitArgs_shellJoin_witness :
  shellJoin "yt-dlp" ["--dateafter"; "2024 01"; str [dquote]; EmptyString]
  = str (chars "yt-dlp --dateafter '2024 01' '" ++ [dquote] ++ chars "' ''")
  /\ splitArgs (Some (shellJoin "yt-dlp" ["--dateafter"; "2024 01"; str [dquote]; EmptyString]))
     = ["yt-dlp"; "--dateafter"; "2024 01"; str [dquote]; EmptyString].
Proof.
  split; [vm_compute; reflexivity |].
  apply (splitArgs_shellJoin "yt-dlp" ["--dateafter"; "2024 01"; str [dquote]; EmptyString]).
  vm_compute. reflexivity.
Defined.

(** ** The command line of the child (index.ts) *)

Lemma trim_trimmed (s : string) : trimmed (chars (trim s)).
Proof. unfold trim. rewrite chars_str. apply trim_l_trimmed. Qed.

(** X5: the preset handed to [-t] is never blank, has no white space
    around it and is none of the values that switch it off.  A preset
    set in the environment is used whatever the extra arguments are; the
    default preset [sleep] is used only when the variable is unset and no
    extra argument starts with [-t] or [--sleep-].  No preset is used
    exactly when the variable is blank or names a switched-off value, or
    is unset while such an extra argument is given. *)
Theorem determineRateLimitPreset_cases (env : string -> option string)
    (extraArgs : list string) :
  (forall p,
      determineRateLimitPreset env extraArgs = Some p ->
      preset p <> EmptyString
      /\ trimmed (chars (preset p))
      /\ (toLowerCase (preset p) ∉ RATE_LIMIT_PRESET_DISABLED_VALUES)
      /\ (if explicit p
          then exists raw, env "CAREY_YTDLP_RATE_LIMIT_PRESET" = Some raw
                           /\ preset p = trim raw
          else env "CAREY_YTDLP_RATE_LIMIT_PRESET" = None
               /\ preset p = "sleep"
               /\ hasUserProvidedSleepArgs extraArgs = false))
  /\ (determineRateLimitPreset env extraArgs = None <->
      match env "CAREY_YTDLP_RATE_LIMIT_PRESET" with
      | Some raw =>
          trim raw = EmptyString
          \/ toLowerCase (trim raw) ∈ RATE_LIMIT_PRESET_DISABLED_VALUES
      | None => hasUserProvidedSleepArgs extraArgs = true
      end).
Proof.
  unfold determineRateLimitPreset, resolveRateLimitPreset.
  destruct (env "CAREY_YTDLP_RATE_LIMIT_PRESET") as [raw |].
  - destruct (isEmpty (trim raw)) eqn:Hempty.
    + split; [discriminate |]. split; [intros _ | reflexivity].
      left. destruct (trim raw); [reflexivity | discriminate].
    + apply isEmpty_false in Hempty.
      destruct (bool_decide_reflect
                  (toLowerCase (trim raw) ∈ RATE_LIMIT_PRESET_DISABLED_VALUES))
        as [Hoff | Hon].
      * split; [discriminate |]. split; [intros _; right; exact Hoff | reflexivity].
      * cbn [explicit negb andb]. split.
        -- intros p Hp. injection Hp as <-. cbn [preset explicit].
           split; [exact Hempty |]. split; [apply trim_trimmed |].
           split; [exact Hon | eauto].
        -- split; [discriminate | intros [Hblank | Hoff]; contradiction].
  - cbn [explicit negb andb]. destruct (hasUserProvidedSleepArgs extraArgs) eqn:Hargs.
    + split; [discriminate | split; reflexivity].
    + split; [| split; discriminate].
      intros p Hp. injection Hp as <-. cbn [preset explicit].
      split; [discriminate |]. split; [split; reflexivity |].
      split; [| repeat split].
      vm_compute. intros Hin. repeat (apply elem_of_cons in Hin as [Hin | Hin];
                                     [discriminate |]).
      apply elem_of_nil in Hin. exact Hin.
Qed.

(** X6: whatever the environment and the options, the command is, in
    this order: [--verbose] when asked for, the five fixed flags (so the
    child always prints JSON and never downloads), at most four
    arguments of the program's own, the user's extra arguments unchanged,
    at most six arguments derived from the options, and the channel URL
    as the last argument. *)
Theorem scrapeArgs_shape (launch : Launch) (url : string) (options : ScrapeOptions) :
  (exists verbose own derived,
      scrapeArgs launch url options
      = verbose
        ++ ["--ignore-errors"; "--no-warnings"; "--dump-json"; "--skip-download";
            "--yes-playlist"]
        ++ own ++ EXTRA_ARGS launch ++ derived ++ [url]
      /\ verbose = (if YTDLP_VERBOSE launch then ["--verbose"] else [])
      /\ (length own <= 4)%nat
      /\ (length derived <= 6)%nat)
  /\ last (scrapeArgs launch url options) = Some url
  /\ "--dump-json" ∈ scrapeArgs launch url options
  /\ "--skip-download" ∈ scrapeArgs launch url options.
Proof.
  assert (Hshape : exists verbose own derived,
      scrapeArgs launch url options
      = verbose
        ++ ["--ignore-errors"; "--no-warnings"; "--dump-json"; "--skip-download";
            "--yes-playlist"]
        ++ own ++ EXTRA_ARGS launch ++ derived ++ [url]
      /\ verbose = (if YTDLP_VERBOSE launch then ["--verbose"] else [])
      /\ (length own <= 4)%nat
      /\ (length derived <= 6)%nat).
  { exists (if YTDLP_VERBOSE launch then ["--verbose"] else []),
      (match PLAYLIST_END launch with
       | Some n => ["--playlist-end"; String_ n]
       | None => []
       end
       ++ match RATE_LIMIT_PRESET launch with
          | Some p => ["-t"; preset p]
          | None => []
          end),
      (match truthy (dateAfter options) with
       | Some d => ["--dateafter"; d]
       | None => []
       end
       ++ (if reversePlaylist options then ["--playlist-reverse"] else [])
       ++ (if breakOnExisting options then ["--break-on-existing"] else [])
       ++ match truthy (downloadArchivePath options) with
          | Some p => ["--download-archive"; p]
          | None => []
          end).
    unfold scrapeArgs.
    destruct (YTDLP_VERBOSE launch), (PLAYLIST_END launch), (RATE_LIMIT_PRESET launch),
      (truthy (dateAfter options)), (reversePlaylist options), (breakOnExisting options),
      (truthy (downloadArchivePath options));
      (split; [cbn [app]; rewrite <- ?app_assoc; reflexivity |]);
      (split; [reflexivity |]); cbn [length app]; lia. }
  split; [exact Hshape |].
  destruct Hshape as (verbose & own & derived & -> & _).
  split.
  - rewrite !app_assoc. apply last_snoc.
  - split; rewrite !elem_of_app; right; left.
    + do 2 apply list_elem_of_further. apply list_elem_of_here.
    + do 3 apply list_elem_of_further. apply list_elem_of_here.
Qed.

(** ** What the store already holds (index.ts) *)

Lemma lowerChar_idempotent (c : ascii) : lowerChar (lowerChar c) = lowerChar c.
Proof. each_ascii c. Qed.

Lemma toLowerCase_idempotent (s : string) : toLowerCase (toLowerCase s) = toLowerCase s.
Proof.
  unfold toLowerCase. rewrite chars_str, map_map. f_equal.
  apply map_ext. intros c. apply lowerChar_idempotent.
Qed.

Lemma toLowerCase_nonempty (s : string) : s <> EmptyString -> toLowerCase s <> EmptyString.
Proof. destruct s; [contradiction | discriminate]. Qed.

(** A key of the archive: lower case and not empty. *)
Definition archiveKey (key : string) : Prop :=
  key <> EmptyString /\ toLowerCase key = key.

Lemma addKey_elem (keys : list string) (key k : string) :
  k ∈ addKey keys key <-> k ∈ keys \/ k = key.
Proof.
  unfold addKey. destruct (bool_decide_reflect (key ∈ keys)) as [Hin | Hout].
  - split; [auto | intros [Hk | ->]; assumption].
  - rewrite elem_of_app, list_elem_of_singleton. reflexivity.
Qed.

Lemma addKey_NoDup (keys : list string) (key : string) :
  NoDup keys -> NoDup (addKey keys key).
Proof.
  unfold addKey. intros Hkeys.
  destruct (bool_decide_reflect (key ∈ keys)) as [Hin | Hout]; [exact Hkeys |].
  apply NoDup_app. split; [exact Hkeys |]. split; [| apply NoDup_singleton].
  intros k Hk Hk'. apply list_elem_of_singleton in Hk'. subst k. contradiction.
Qed.

Lemma addKeys_spec (added keys : list string) :
  NoDup keys ->
  NoDup (fold_left addKey added keys)
  /\ forall k, k ∈ fold_left addKey added keys <-> k ∈ keys \/ k ∈ added.
Proof.
  revert keys. induction added as [| key added IH]; intros keys Hkeys; cbn [fold_left].
  - split; [exact Hkeys |]. intros k. rewrite elem_of_nil. tauto.
  - destruct (IH (addKey keys key) (addKey_NoDup keys key Hkeys)) as [Hnodup Helem].
    split; [exact Hnodup |]. intros k. rewrite Helem, addKey_elem, elem_of_cons. tauto.
Qed.

Lemma extractArchiveExtractorKeys_keys (rawVideo : RawVideo) :
  NoDup (extractArchiveExtractorKeys rawVideo)
  /\ Forall archiveKey (extractArchiveExtractorKeys rawVideo).
Proof.
  unfold extractArchiveExtractorKeys. cbn [fold_left].
  assert (Hstep : forall keys candidate,
             NoDup keys /\ Forall archiveKey keys ->
             NoDup match truthy candidate with
                   | Some c => addKey keys (toLowerCase c)
                   | None => keys
                   end
             /\ Forall archiveKey match truthy candidate with
                                  | Some c => addKey keys (toLowerCase c)
                                  | None => keys
                                  end).
  { intros keys candidate [Hnodup Hall]. unfold truthy.
    destruct candidate as [c |]; [| split; assumption].
    destruct (isEmpty c) eqn:Hempty; [split; assumption |].
    split; [apply addKey_NoDup, Hnodup |].
    apply Forall_forall. intros k Hk. apply addKey_elem in Hk as [Hk | ->].
    - rewrite Forall_forall in Hall. apply Hall, Hk.
    - split; [apply toLowerCase_nonempty, isEmpty_false, Hempty
             | apply toLowerCase_idempotent]. }
  apply Hstep, Hstep, Hstep. split; constructor.
Qed.

Lemma addArchiveKeys_ids (id : string) (keys : list string)
    (entries : list DownloadArchiveEntry) :
  map entryId (addArchiveKeys id keys entries)
  = if bool_decide (id ∈ map entryId entries)
    then map entryId entries
    else map entryId entries ++ [id].
Proof.
  induction entries as [| entry entries IH]; [reflexivity |].
  cbn [addArchiveKeys map]. destruct (String.eqb_spec (entryId entry) id) as [Heq | Hne].
  - rewrite bool_decide_eq_true_2 by (rewrite Heq; apply list_elem_of_here).
    cbn [map entryId]. rewrite Heq. reflexivity.
  - cbn [map]. rewrite IH.
    destruct (bool_decide_reflect (id ∈ map entryId entries)) as [Hin | Hout].
    + rewrite bool_decide_eq_true_2 by (apply list_elem_of_further, Hin). reflexivity.
    + rewrite bool_decide_eq_false_2; [reflexivity |].
      intros Hin. apply elem_of_cons in Hin as [Hin | Hin]; [congruence | contradiction].
Qed.

(** The keys of every entry are distinct archive keys. *)
Definition entryKeysFine (entry : DownloadArchiveEntry) : Prop :=
  NoDup (extractorKeys entry) /\ Forall archiveKey (extractorKeys entry).

Lemma addArchiveKeys_keys (id : string) (keys : list string)
    (entries : list DownloadArchiveEntry) :
  Forall archiveKey keys -> Forall entryKeysFine entries ->
  Forall entryKeysFine (addArchiveKeys id keys entries).
Proof.
  intros Hkeys. induction 1 as [| entry entries [Hnodup Hfine] Hrest IH];
    cbn [addArchiveKeys].
  - constructor; [| constructor]. destruct (addKeys_spec keys [] (NoDup_nil_2)) as [Hn He].
    split; [exact Hn |]. apply Forall_forall. intros k Hk. apply He in Hk as [Hk | Hk].
    + apply elem_of_nil in Hk. contradiction.
    + rewrite Forall_forall in Hkeys. apply Hkeys, Hk.
  - destruct (String.eqb (entryId entry) id).
    + constructor; [| exact Hrest].
      destruct (addKeys_spec keys (extractorKeys entry) Hnodup) as [Hn He].
      split; [exact Hn |]. apply Forall_forall. intros k Hk. apply He in Hk as [Hk | Hk].
      * rewrite Forall_forall in Hfine. apply Hfine, Hk.
      * rewrite Forall_forall in Hkeys. apply Hkeys, Hk.
    + constructor; [split; assumption | exact IH].
Qed.

(** What the loop keeps true of what it has gathered. *)
Definition gatheredWell (g : Gathered) : Prop :=
  NoDup (map entryId (archiveKeyMap g))
  /\ (forall id, id ∈ map entryId (archiveKeyMap g) <-> id ∈ gatheredIds g)
  /\ Forall entryKeysFine (archiveKeyMap g).

Lemma gatherRow_well (g : Gathered) (row : VideoInsert.t) :
  gatheredWell g -> gatheredWell (gatherRow g row).
Proof.
  intros (Hnodup & Hids & Hkeys). unfold gatheredWell, gatherRow.
  cbn [archiveKeyMap gatheredIds]. rewrite addArchiveKeys_ids.
  destruct (bool_decide_reflect (VideoInsert.id row ∈ map entryId (archiveKeyMap g)))
    as [Hin | Hout].
  - split; [exact Hnodup |]. split.
    + intros id. rewrite elem_of_union, elem_of_singleton, <- Hids.
      split; [auto | intros [-> | Hid]; assumption].
    + apply addArchiveKeys_keys; [apply extractArchiveExtractorKeys_keys | exact Hkeys].
  - split; [| split].
    + apply NoDup_app. split; [exact Hnodup |]. split; [| apply NoDup_singleton].
      intros id Hid Hid'. apply list_elem_of_singleton in Hid'. subst id. contradiction.
    + intros id. rewrite elem_of_app, list_elem_of_singleton, elem_of_union,
        elem_of_singleton, <- Hids. tauto.
    + apply addArchiveKeys_keys; [apply extractArchiveExtractorKeys_keys | exact Hkeys].
Qed.

Lemma gatherRows_well (rows : list VideoInsert.t) (g : Gathered) :
  gatheredWell g -> gatheredWell (fold_left gatherRow rows g).
Proof.
  revert g. induction rows as [| row rows IH]; intros g Hg; [exact Hg |].
  apply IH, gatherRow_well, Hg.
Qed.

Lemma gatherRows_ids (rows : list VideoInsert.t) (g : Gathered) (id : string) :
  id ∈ gatheredIds (fold_left gatherRow rows g)
  <-> id ∈ gatheredIds g \/ exists row, row ∈ rows /\ VideoInsert.id row = id.
Proof.
  revert g. induction rows as [| row rows IH]; intros g; cbn [fold_left].
  - split; [auto | intros [Hid | (row & Hrow & _)]; [exact Hid |]].
    apply elem_of_nil in Hrow. contradiction.
  - rewrite IH. cbn [gatherRow gatheredIds]. rewrite elem_of_union, elem_of_singleton.
    split.
    + intros [[-> | Hid] | (r & Hr & Heq)].
      * right. exists row. split; [apply list_elem_of_here | reflexivity].
      * left. exact Hid.
      * right. exists r. split; [apply list_elem_of_further, Hr | exact Heq].
    + intros [Hid | (r & Hr & Heq)]; [left; right; exact Hid |].
      apply elem_of_cons in Hr as [-> | Hr]; [left; left; congruence |].
      right. exists r. split; assumption.
Qed.

Lemma nothingGathered_well : gatheredWell nothingGathered.
Proof.
  split; [constructor |]. split; [| constructor].
  intros id. cbn. rewrite elem_of_nil, elem_of_empty. reflexivity.
Qed.

Lemma summarizeRows_known (channel : ChannelRow.t) (strategy : option MatchStrategy)
    (rows : list VideoInsert.t) (id : string) :
  id ∈ knownVideoIds (summarizeRows channel strategy rows)
  <-> exists row, row ∈ rows /\ VideoInsert.id row = id
                  /\ VideoInsert.channelId row = ChannelRow.id channel.
Proof.
  unfold summarizeRows. cbn [knownVideoIds].
  rewrite gatherRows_ids. cbn [nothingGathered gatheredIds]. split.
  - intros [Hid | (row & Hrow & Heq)]; [apply elem_of_empty in Hid; contradiction |].
    apply list_elem_of_filter in Hrow as [Hchannel Hrow]. eauto.
  - intros (row & Hrow & Heq & Hchannel). right. exists row. split; [| exact Heq].
    apply list_elem_of_filter. split; assumption.
Qed.

Lemma summarizeRows_entries (channel : ChannelRow.t) (strategy : option MatchStrategy)
    (rows : list VideoInsert.t) :
  gatheredWell
    (fold_left gatherRow
       (filter (fun row => VideoInsert.channelId row = ChannelRow.id channel) rows)
       nothingGathered).
Proof. apply gatherRows_well, nothingGathered_well. Qed.

(** X7: the state summed up from the rows of a channel knows exactly the
    ids of the rows that belong to the channel, and lists each known id
    once in the archive entries, so there are as many entries as known
    ids; the keys of an entry are distinct, lower case and not empty. *)
Theorem summarizeRows_ids (channel : ChannelRow.t) (strategy : option MatchStrategy)
    (rows : list VideoInsert.t) :
  let state := summarizeRows channel strategy rows in
  (forall id,
      id ∈ knownVideoIds state
      <-> exists row, row ∈ rows /\ VideoInsert.id row = id
                      /\ VideoInsert.channelId row = ChannelRow.id channel)
  /\ NoDup (map entryId (archiveEntries state))
  /\ (forall id, id ∈ map entryId (archiveEntries state) <-> id ∈ knownVideoIds state)
  /\ length (archiveEntries state) = size (knownVideoIds state)
  /\ Forall entryKeysFine (archiveEntries state).
Proof.
  cbv zeta. split; [apply summarizeRows_known |].
  destruct (summarizeRows_entries channel strategy rows) as (Hnodup & Hids & Hkeys).
  unfold summarizeRows. cbn [knownVideoIds archiveEntries].
  split; [exact Hnodup | split; [exact Hids | split; [| exact Hkeys]]].
  rewrite <- (length_map entryId).
  rewrite <- (size_list_to_set (C := gset string) _ Hnodup).
  f_equal. apply set_eq. intros id. rewrite elem_of_list_to_set. apply Hids.
Qed.

(** The largest of the numbers met so far. *)
Lemma raiseAll_spec (values : list (option Z)) (current : option Z) :
  (fold_left raiseTo values current = None
   <-> current = None /\ Forall (fun v => v = None) values)
  /\ forall c,
       fold_left raiseTo values current = Some c ->
       (current = Some c \/ Some c ∈ values)
       /\ forall c', current = Some c' \/ Some c' ∈ values -> c' <= c.
Proof.
  revert current. induction values as [| v values IH]; intros current; cbn [fold_left].
  - split.
    + split; [intros ->; split; [reflexivity | constructor] | intros [-> _]; reflexivity].
    + intros c ->. split; [left; reflexivity |].
      intros c' [Hc' | Hc']; [injection Hc' as ->; lia |].
      apply elem_of_nil in Hc'. contradiction.
  - destruct (IH (raiseTo current v)) as [Hnone Hsome]. split.
    + rewrite Hnone. unfold raiseTo. destruct v as [v |].
      * split; [intros [Hfalse _]; discriminate | intros [_ Hall]].
        inversion Hall; discriminate.
      * split; [intros [-> Hall]; split; [reflexivity | constructor; [reflexivity | exact Hall]]
               | intros [-> Hall]; inversion Hall; split; [reflexivity | assumption]].
    + intros c Hc. destruct (Hsome c Hc) as [Hfrom Hmax]. unfold raiseTo in *.
      destruct v as [v |].
      * split.
        -- destruct Hfrom as [Hfrom | Hfrom]; [| right; apply list_elem_of_further, Hfrom].
           injection Hfrom as <-.
           destruct current as [a |]; cbn [orElse].
           ++ destruct (Z.max_spec a v) as [[_ ->] | [_ ->]];
                [right; apply list_elem_of_here | left; reflexivity].
           ++ rewrite Z.max_id. right. apply list_elem_of_here.
        -- intros c' [Hc' | Hc'].
           ++ subst current. cbn [orElse] in Hmax.
              specialize (Hmax (Z.max c' v) (or_introl eq_refl)). lia.
           ++ apply elem_of_cons in Hc' as [Hc' | Hc'].
              ** injection Hc' as ->.
                 specialize (Hmax (Z.max (orElse current v) v) (or_introl eq_refl)). lia.
              ** apply Hmax. right. exact Hc'.
      * split.
        -- destruct Hfrom as [Hfrom | Hfrom];
             [left; exact Hfrom | right; apply list_elem_of_further, Hfrom].
        -- intros c' [Hc' | Hc']; [apply Hmax; left; exact Hc' |].
           apply elem_of_cons in Hc' as [Hc' | Hc']; [discriminate |].
           apply Hmax. right. exact Hc'.
Qed.

Definition playlistCountOf (row : VideoInsert.t) : option Z :=
  toIntegerOrNull (prop (VideoInsert.rawData row) "playlist_count").

Definition playlistIndexOf (row : VideoInsert.t) : option Z :=
  toIntegerOrNull (prop (VideoInsert.rawData row) "playlist_index").

Lemma gatherRows_count (rows : list VideoInsert.t) (g : Gathered) :
  gatheredCount (fold_left gatherRow rows g)
  = fold_left raiseTo (map playlistCountOf rows) (gatheredCount g)
  /\ gatheredIndex (fold_left gatherRow rows g)
     = fold_left raiseTo (map playlistIndexOf rows) (gatheredIndex g).
Proof.
  revert g. induction rows as [| row rows IH]; intros g; [split; reflexivity |].
  cbn [fold_left map]. destruct (IH (gatherRow g row)) as [-> ->]. split; reflexivity.
Qed.

(** X8: the coverage of the summed-up state holds, as playlist count,
    the largest playlist count that a row of the channel carries, and as
    playlist index the largest index; each is missing when no row of the
    channel carries one, and there is no coverage at all when no row
    carries either. *)
Theorem summarizeRows_coverage (channel : ChannelRow.t) (strategy : option MatchStrategy)
    (rows : list VideoInsert.t) :
  let state := summarizeRows channel strategy rows in
  let relevant row :=
    row ∈ rows /\ VideoInsert.channelId row = ChannelRow.id channel in
  (forall c,
      coverage state ≫= maxPlaylistCount = Some c <->
      (exists row, relevant row /\ playlistCountOf row = Some c)
      /\ forall row c', relevant row -> playlistCountOf row = Some c' -> c' <= c)
  /\ (forall i,
        coverage state ≫= maxPlaylistIndex = Some i <->
        (exists row, relevant row /\ playlistIndexOf row = Some i)
        /\ forall row i', relevant row -> playlistIndexOf row = Some i' -> i' <= i)
  /\ (coverage state = None <->
      forall row, relevant row ->
                  playlistCountOf row = None /\ playlistIndexOf row = None).
Proof.
  cbv zeta. unfold summarizeRows. cbn [coverage].
  set (kept := filter (fun row => VideoInsert.channelId row = ChannelRow.id channel) rows).
  destruct (gatherRows_count kept nothingGathered) as [Hcount Hindex].
  cbn [nothingGathered gatheredCount gatheredIndex] in Hcount, Hindex.
  assert (Hkept : forall row,
             row ∈ kept
             <-> row ∈ rows /\ VideoInsert.channelId row = ChannelRow.id channel).
  { intros row. unfold kept. rewrite list_elem_of_filter. tauto. }
  assert (Hlargest : forall (f : VideoInsert.t -> option Z) c,
             fold_left raiseTo (map f kept) None = Some c <->
             (exists row, (row ∈ rows
                           /\ VideoInsert.channelId row = ChannelRow.id channel)
                          /\ f row = Some c)
             /\ forall row c',
                  row ∈ rows /\ VideoInsert.channelId row = ChannelRow.id channel ->
                  f row = Some c' -> c' <= c).
  { intros f c. split.
    - intros Hc. destruct (raiseAll_spec (map f kept) None) as [_ Hsome].
      destruct (Hsome c Hc) as [[Hfalse | Hin] Hmax]; [discriminate |].
      apply list_elem_of_fmap in Hin as (row & Hrow & Hin). split.
      + exists row. split; [apply Hkept, Hin | symmetry; exact Hrow].
      + intros row' c' Hrel Hf. apply Hmax. right.
        apply list_elem_of_fmap. exists row'. split; [symmetry; exact Hf | apply Hkept, Hrel].
    - intros [(row & Hrel & Hf) Hmax].
      destruct (fold_left raiseTo (map f kept) None) as [d |] eqn:Hd;
        destruct (raiseAll_spec (map f kept) None) as [Hnone Hsome].
      + destruct (Hsome d Hd) as [[Hfalse | Hin] Hmax']; [discriminate |].
        apply list_elem_of_fmap in Hin as (row' & Hrow' & Hin).
        assert (c <= d).
        { apply Hmax'. right. apply list_elem_of_fmap. exists row.
          split; [symmetry; exact Hf | apply Hkept, Hrel]. }
        assert (d <= c) by (apply (Hmax row'); [apply Hkept, Hin | symmetry; exact Hrow']).
        f_equal. lia.
      + apply Hnone in Hd as [_ Hall]. rewrite Forall_forall in Hall.
        specialize (Hall (f row)). rewrite Hall in Hf; [discriminate |].
        apply list_elem_of_fmap. exists row. split; [reflexivity | apply Hkept, Hrel]. }
  assert (Habsent : forall (f : VideoInsert.t -> option Z),
             fold_left raiseTo (map f kept) None = None <->
             forall row, row ∈ rows /\ VideoInsert.channelId row = ChannelRow.id channel ->
                         f row = None).
  { intros f. destruct (raiseAll_spec (map f kept) None) as [Hnone _]. rewrite Hnone.
    rewrite Forall_forall. split.
    - intros [_ Hall] row Hrel. apply Hall, list_elem_of_fmap. exists row.
      split; [reflexivity | apply Hkept, Hrel].
    - intros Hall. split; [reflexivity |]. intros v Hv.
      apply list_elem_of_fmap in Hv as (row & -> & Hrow). apply Hall, Hkept, Hrow. }
  rewrite Hcount, Hindex.
  split; [| split].
  - intros c. rewrite <- (Hlargest playlistCountOf c).
    destruct (fold_left raiseTo (map playlistIndexOf kept) None),
      (fold_left raiseTo (map playlistCountOf kept) None); cbn; split; congruence.
  - intros i. rewrite <- (Hlargest playlistIndexOf i).
    destruct (fold_left raiseTo (map playlistIndexOf kept) None),
      (fold_left raiseTo (map playlistCountOf kept) None); cbn; split; congruence.
  - destruct (fold_left raiseTo (map playlistIndexOf kept) None) as [i |] eqn:Hi,
      (fold_left raiseTo (map playlistCountOf kept) None) as [c |] eqn:Hc.
    + split; [discriminate |]. intros Hall. apply Hlargest in Hc as [(row & Hrel & Hf) _].
      destruct (Hall row Hrel) as [Hnone _]. congruence.
    + split; [discriminate |]. intros Hall. apply Hlargest in Hi as [(row & Hrel & Hf) _].
      destruct (Hall row Hrel) as [_ Hnone]. congruence.
    + split; [discriminate |]. intros Hall. apply Hlargest in Hc as [(row & Hrel & Hf) _].
      destruct (Hall row Hrel) as [Hnone _]. congruence.
    + split; [| reflexivity]. intros _ row Hrel.
      split; [apply (proj1 (Habsent playlistCountOf) Hc), Hrel
             | apply (proj1 (Habsent playlistIndexOf) Hi), Hrel].
Qed.

(** A computation that leaves the store as it found it and, when it
    returns, returns a value that [post] relates to the store. *)
Definition reads {A : Type} (c : Store A) (post : Database -> A -> Prop) : Prop :=
  forall w,
    exists w',
      database w' = database w
      /\ ((exists error, c w = (Err error, w'))
          \/ exists a, c w = (Ok a, w') /\ post (database w) a).

Lemma reads_ret {A : Type} (a : A) (post : Database -> A -> Prop) :
  (forall db, post db a) -> reads (retStore a) post.
Proof. intros Hpost w. exists w. split; [reflexivity |]. right. eauto. Qed.

Lemma reads_bind {A B : Type} (c : Store A) (k : A -> Store B)
    (mid : Database -> A -> Prop) (post : Database -> B -> Prop) :
  reads c mid ->
  (forall a, reads (k a) (fun db b => mid db a -> post db b)) ->
  reads (bindStore c k) post.
Proof.
  intros Hc Hk w. unfold bindStore.
  destruct (Hc w) as (w1 & Hdb1 & [[error Herr] | (a & Ha & Hmid)]).
  - exists w1. split; [exact Hdb1 |]. left. exists error. rewrite Herr. reflexivity.
  - rewrite Ha. destruct (Hk a w1) as (w2 & Hdb2 & [[error Herr] | (b & Hb & Hpost)]).
    + exists w2. split; [congruence |]. left. eauto.
    + exists w2. split; [congruence |]. right. exists b. split; [exact Hb |].
      rewrite <- Hdb1. apply Hpost. rewrite Hdb1. exact Hmid.
Qed.

Lemma reads_storeCall {T : Type} (cfg : Settings) (faults : list errval)
    (query : Z -> Database -> T * Database) (answer : Database -> T) :
  (forall now db, query now db = (answer db, db)) ->
  reads (storeCall cfg faults query) (fun db a => a = answer db).
Proof.
  intros Hquery w.
  destruct (storeCall_cases cfg faults query w)
    as [(error & w' & Hcall & Hdb) | (now & w' & Hcall & Hdb)].
  - exists w'. split; [exact Hdb |]. left. eauto.
  - rewrite Hquery in Hcall, Hdb. exists w'. split; [exact Hdb |]. right. eauto.
Qed.

Lemma find_elem {A : Type} (p : A -> bool) (l : list A) (x : A) :
  find p l = Some x -> x ∈ l /\ p x = true.
Proof.
  intros Hfind. apply find_some in Hfind as [Hin Hp]. split; [| exact Hp].
  apply list_elem_of_In, Hin.
Qed.

(** What a bootstrap state says about the store it was read from. *)
Definition describesStore (db : Database) (state : ChannelBootstrapState) : Prop :=
  (forall id, id ∈ knownVideoIds state -> hasVideo db id = true)
  /\ match bootChannel state with
     | None => state = noChannelState
     | Some channel =>
         channel ∈ channels db
         /\ channelMatchStrategy state <> None
         /\ (forall id,
                id ∈ knownVideoIds state ->
                exists row, row ∈ videos db /\ VideoInsert.id row = id
                            /\ VideoInsert.channelId row = ChannelRow.id channel)
         /\ (channelMatchStrategy state <> Some raw_data ->
             forall row,
               row ∈ videos db ->
               VideoInsert.channelId row = ChannelRow.id channel ->
               VideoInsert.id row ∈ knownVideoIds state)
     end.

Lemma summarizeRows_describes (db : Database) (channel : ChannelRow.t)
    (strategy : MatchStrategy) (rows : list VideoInsert.t) :
  channel ∈ channels db ->
  (forall row, row ∈ rows -> row ∈ videos db) ->
  (strategy <> raw_data ->
   forall row, row ∈ videos db ->
               VideoInsert.channelId row = ChannelRow.id channel -> row ∈ rows) ->
  describesStore db (summarizeRows channel (Some strategy) rows).
Proof.
  intros Hchannel Hsub Hall.
  assert (Hknown : forall id,
             id ∈ knownVideoIds (summarizeRows channel (Some strategy) rows) ->
             exists row, row ∈ videos db /\ VideoInsert.id row = id
                         /\ VideoInsert.channelId row = ChannelRow.id channel).
  { intros id Hid. apply summarizeRows_known in Hid as (row & Hrow & Heq & Hch).
    exists row. split; [apply Hsub, Hrow | split; assumption]. }
  split.
  - intros id Hid. destruct (Hknown id Hid) as (row & Hrow & <- & _).
    apply hasVideo_elem, list_elem_of_fmap. exists row. split; [reflexivity | exact Hrow].
  - change (bootChannel (summarizeRows channel (Some strategy) rows)) with (Some channel).
    split; [exact Hchannel |]. split; [discriminate |]. split; [exact Hknown |].
    intros Hstrategy row Hrow Hch. apply summarizeRows_known.
    exists row. split; [| split; [reflexivity | exact Hch]].
    apply Hall; [| exact Hrow | exact Hch].
    intros ->. apply Hstrategy. reflexivity.
Qed.

Lemma lookupByHandle_reads (cfg : Settings) (faults : LoadFaults) (handle : string) :
  reads (lookupByHandle cfg faults handle)
    (fun db found => forall channel, found = Some channel -> channel ∈ channels db).
Proof.
  unfold lookupByHandle.
  eapply reads_bind; [apply reads_storeCall; intros now db; reflexivity |].
  intros [channel |].
  - apply reads_ret. intros db Hfound c Hc. injection Hc as <-.
    symmetry in Hfound. apply find_elem in Hfound as [Hin _]. exact Hin.
  - destruct (startsWith handle "@").
    + intros w.
      destruct (reads_storeCall cfg (bareHandleFaults faults)
                  (findFirstChannel
                     (fun row => bool_decide (ChannelRow.handle row
                                              = Some (sliceFrom1 handle))))
                  (fun db => find (fun row => bool_decide (ChannelRow.handle row
                                                          = Some (sliceFrom1 handle)))
                               (channels db))
                  (fun now db => eq_refl) w)
        as (w' & Hdb & [Herr | (a & Ha & Hfound)]).
      * exists w'. split; [exact Hdb | left; exact Herr].
      * exists w'. split; [exact Hdb |]. right. exists a. split; [exact Ha |].
        intros _ c Hc. rewrite Hfound in Hc. apply find_elem in Hc as [Hin _]. exact Hin.
    + apply reads_ret. intros db _ c Hc. discriminate.
Qed.

Lemma lookupByRawData_reads (cfg : Settings) (faults : LoadFaults) (url : string)
    (rows : list VideoInsert.t) :
  reads (lookupByRawData cfg faults url rows)
    (fun db found =>
       forall channel strategy rows',
         found = Some (channel, strategy, rows') ->
         channel ∈ channels db
         /\ (forall row, row ∈ rows' -> row ∈ rows)
         /\ (strategy <> raw_data ->
             forall row, row ∈ rows ->
                         VideoInsert.channelId row = ChannelRow.id channel -> row ∈ rows')).
Proof.
  unfold lookupByRawData.
  set (matching := filter _ rows).
  set (candidates := match matching with [] => rows | _ => matching end).
  assert (Hsub : forall row, row ∈ candidates -> row ∈ rows).
  { intros row. unfold candidates. destruct matching eqn:Hm; [trivial |].
    rewrite <- Hm. unfold matching. rewrite list_elem_of_filter. tauto. }
  destruct (find _ candidates) as [candidate |].
  - eapply reads_bind; [apply reads_storeCall; intros now db; reflexivity |].
    intros [found |]; apply reads_ret.
    + intros db Hfound channel strategy rows' Heq. injection Heq as <- <- <-.
      symmetry in Hfound. apply find_elem in Hfound as [Hin _].
      split; [exact Hin |]. split.
      * intros row Hrow. apply list_elem_of_filter in Hrow as [_ Hrow]. apply Hsub, Hrow.
      * intros Hstrategy row Hrow Hch. apply list_elem_of_filter. split; [exact Hch |].
        unfold candidates. destruct matching; [exact Hrow | contradiction].
    + intros db _ channel strategy rows' Heq. discriminate.
  - apply reads_ret. intros db channel strategy rows' Heq. discriminate.
Qed.

Lemma loadExistingChannelState_reading (cfg : Settings) (faults : LoadFaults)
    (channelUrl : string) :
  reads (loadExistingChannelState cfg faults channelUrl) describesStore.
Proof.
  unfold loadExistingChannelState.
  set (url := normalizeChannelUrl channelUrl).
  set (byCanonicalUrl := fun row => String.eqb (ChannelRow.canonicalUrl row) url).
  eapply reads_bind; [apply reads_storeCall; intros now db; reflexivity |].
  intros byUrl.
  eapply (reads_bind _ _
            (fun db matched =>
               byUrl = find byCanonicalUrl (channels db) ->
               forall channel strategy,
                 matched = Some (channel, strategy) ->
                 channel ∈ channels db /\ strategy <> raw_data)).
  { destruct byUrl as [found |].
    - apply reads_ret. intros db Hfind channel strategy Heq. injection Heq as <- <-.
      symmetry in Hfind. apply find_elem in Hfind as [Hin _].
      split; [exact Hin | discriminate].
    - destruct (truthy (extractHandleFromUrl url)) as [handle |].
      + eapply reads_bind; [apply lookupByHandle_reads |].
        intros found. apply reads_ret. intros db Hfound _ channel strategy Heq.
        destruct found as [c |]; [| discriminate]. injection Heq as <- <-.
        split; [apply Hfound; reflexivity | discriminate].
      + apply reads_ret. intros db _ channel strategy Heq. discriminate. }
  intros matched.
  eapply reads_bind;
    [apply (reads_storeCall cfg (rowsFaults faults) _
              (fun db => match option_map (fun m => ChannelRow.id (fst m)) matched with
                         | Some id =>
                             filter (fun row => VideoInsert.channelId row = id) (videos db)
                         | None => videos db
                         end));
     intros now db; reflexivity |].
  intros rows. destruct matched as [[channel strategy] |].
  - apply reads_ret. intros db Hrows Hmatched Hfind. subst rows.
    destruct (Hmatched Hfind channel strategy eq_refl) as [Hin Hstrategy].
    cbn [option_map fst].
    apply summarizeRows_describes; [exact Hin | |].
    + intros row Hrow. apply list_elem_of_filter in Hrow as [_ Hrow]. exact Hrow.
    + intros _ row Hrow Hch. apply list_elem_of_filter. split; assumption.
  - eapply reads_bind; [apply lookupByRawData_reads |].
    intros [[[channel strategy] rows'] |]; apply reads_ret.
    + intros db Hfound Hrows _ _. subst rows. cbn [option_map] in Hfound.
      destruct (Hfound channel strategy rows' eq_refl) as (Hin & Hsub & Hall).
      apply summarizeRows_describes; assumption.
    + intros db _ _ _ _. split; [| reflexivity].
      intros id Hid. apply elem_of_empty in Hid. contradiction.
Qed.

(** X9: [loadExistingChannelState] only reads: whether it returns or
    throws, the store is as before.  When it returns, every id it reports
    as known is the id of a stored video; without a channel the state is
    the empty one; with a channel, the channel is a stored row, a match
    strategy is named, every known id belongs to a stored video of that
    channel, and, unless the channel was found through the stored
    videos' own channel URLs, every stored video of the channel is
    known. *)
Theorem loadExistingChannelState_reads (cfg : Settings) (faults : LoadFaults)
    (channelUrl : string) (w : World) :
  database (snd (loadExistingChannelState cfg faults channelUrl w)) = database w
  /\ forall state,
       fst (loadExistingChannelState cfg faults channelUrl w) = Ok state ->
       describesStore (database w) state.
Proof.
  pose proof (loadExistingChannelState_reading cfg faults channelUrl) as Hreads.
  destruct (Hreads w) as (w' & Hdb & [[error Herr] | (state & Hok & Hdescribes)]).
  - rewrite Herr. split; [exact Hdb | discriminate].
  - rewrite Hok. split; [exact Hdb |]. intros s Hs. injection Hs as <-. exact Hdescribes.
Qed.

(** ** The download archive (index.ts) *)

(** The line of the archive for extractor key [key] and video [id]. *)
Definition archiveLine (key id : string) : string :=
  toLowerCase key +:+ " " +:+ id +:+ newline.

(** The keys [createDownloadArchiveFile] writes for an entry. *)
Definition keysWritten (entry : DownloadArchiveEntry) : list string :=
  match extractorKeys entry with
  | [] => DEFAULT_ARCHIVE_EXTRACTOR_KEYS
  | keys => keys
  end.

Lemma archiveLinesOfKeys_spec (id : string) (keys lines : list string) :
  NoDup lines ->
  NoDup (archiveLinesOfKeys id keys lines)
  /\ forall line,
       line ∈ archiveLinesOfKeys id keys lines
       <-> line ∈ lines
           \/ exists key, key ∈ keys /\ toLowerCase key <> EmptyString
                          /\ line = archiveLine key id.
Proof.
  revert lines. induction keys as [| key keys IH]; intros lines Hlines;
    cbn [archiveLinesOfKeys].
  - split; [exact Hlines |]. intros line. split; [auto |].
    intros [Hin | (key & Hkey & _)]; [exact Hin |]. apply elem_of_nil in Hkey. contradiction.
  - destruct (isEmpty (toLowerCase key)) eqn:Hempty.
    + destruct (IH lines Hlines) as [Hnodup Helem]. split; [exact Hnodup |].
      intros line. rewrite Helem. split.
      * intros [Hin | (k & Hk & Hne & Heq)]; [left; exact Hin |].
        right. exists k. split; [apply list_elem_of_further, Hk | split; assumption].
      * intros [Hin | (k & Hk & Hne & Heq)]; [left; exact Hin |].
        apply elem_of_cons in Hk as [-> | Hk].
        -- apply isEmpty_false in Hne. congruence.
        -- right. exists k. split; [exact Hk | split; assumption].
    + apply isEmpty_false in Hempty.
      fold (archiveLine key id).
      destruct (bool_decide_reflect (archiveLine key id ∈ lines)) as [Hin | Hout].
      * destruct (IH lines Hlines) as [Hnodup Helem]. split; [exact Hnodup |].
        intros line. rewrite Helem. split.
        -- intros [Hl | (k & Hk & Hne & Heq)]; [left; exact Hl |].
           right. exists k. split; [apply list_elem_of_further, Hk | split; assumption].
        -- intros [Hl | (k & Hk & Hne & Heq)]; [left; exact Hl |].
           apply elem_of_cons in Hk as [-> | Hk]; [left; subst line; exact Hin |].
           right. exists k. split; [exact Hk | split; assumption].
      * assert (Hnew : NoDup (lines ++ [archiveLine key id])).
        { apply NoDup_app. split; [exact Hlines |]. split; [| apply NoDup_singleton].
          intros l Hl Hl'. apply list_elem_of_singleton in Hl'. subst l. contradiction. }
        destruct (IH _ Hnew) as [Hnodup Helem]. split; [exact Hnodup |].
        intros line. rewrite Helem, elem_of_app, list_elem_of_singleton. split.
        -- intros [[Hl | ->] | (k & Hk & Hne & Heq)].
           ++ left. exact Hl.
           ++ right. exists key. split; [apply list_elem_of_here | split; [exact Hempty |]].
              reflexivity.
           ++ right. exists k. split; [apply list_elem_of_further, Hk | split; assumption].
        -- intros [Hl | (k & Hk & Hne & Heq)]; [left; left; exact Hl |].
           apply elem_of_cons in Hk as [-> | Hk]; [left; right; exact Heq |].
           right. exists k. split; [exact Hk | split; assumption].
Qed.

Lemma archiveLines_spec (entries : list DownloadArchiveEntry) (lines : list string) :
  NoDup lines ->
  NoDup (archiveLines entries lines)
  /\ forall line,
       line ∈ archiveLines entries lines
       <-> line ∈ lines
           \/ exists entry key,
                entry ∈ entries /\ key ∈ keysWritten entry
                /\ toLowerCase key <> EmptyString
                /\ line = archiveLine key (entryId entry).
Proof.
  revert lines. induction entries as [| entry entries IH]; intros lines Hlines;
    cbn [archiveLines].
  - split; [exact Hlines |]. intros line. split; [auto |].
    intros [Hin | (entry & key & Hentry & _)]; [exact Hin |].
    apply elem_of_nil in Hentry. contradiction.
  - fold (keysWritten entry).
    destruct (archiveLinesOfKeys_spec (entryId entry) (keysWritten entry) lines Hlines)
      as [Hnodup Hkeys].
    destruct (IH _ Hnodup) as [Hnodup' Helem]. split; [exact Hnodup' |].
    intros line. rewrite Helem, Hkeys. split.
    + intros [[Hl | (key & Hkey & Hne & Heq)] | (e & key & He & Hkey & Hne & Heq)].
      * left. exact Hl.
      * right. exists entry, key. split; [apply list_elem_of_here | auto].
      * right. exists e, key. split; [apply list_elem_of_further, He | auto].
    + intros [Hl | (e & key & He & Hkey & Hne & Heq)]; [left; left; exact Hl |].
      apply elem_of_cons in He as [-> | He].
      * left. right. exists key. auto.
      * right. exists e, key. auto.
Qed.

(** X10: when [createDownloadArchiveFile] hands out a handle, the file
    at its path holds the lines one after another, no line twice, and a
    line is in the file exactly when it is [key id] for an entry and one
    of the keys written for it (the entry's own keys, or [youtubetab] and
    [youtube] when it has none), in lower case and not empty.  With no
    entries nothing is touched. *)
Theorem createDownloadArchiveFile_lines (entries : list DownloadArchiveEntry)
    (fs : FileSystem) :
  (entries = [] -> createDownloadArchiveFile entries fs = (Ok None, fs))
  /\ forall handle fs',
       createDownloadArchiveFile entries fs = (Ok (Some handle), fs') ->
       exists lines,
         files fs' = (archivePath handle, joinLines lines) :: files fs
         /\ lines <> []
         /\ NoDup lines
         /\ forall line,
              line ∈ lines
              <-> exists entry key,
                    entry ∈ entries /\ key ∈ keysWritten entry
                    /\ toLowerCase key <> EmptyString
                    /\ line = archiveLine key (entryId entry).
Proof.
  split; [intros ->; reflexivity |].
  intros handle fs'. unfold createDownloadArchiveFile.
  destruct entries as [| entry entries]; [discriminate |].
  destruct (mkdtempError fs); [discriminate |]. cbv zeta.
  destruct (archiveLines_spec (entry :: entries) [] (NoDup_nil_2)) as [Hnodup Helem].
  destruct (archiveLines (entry :: entries) []) as [| line lines] eqn:Hlines;
    [discriminate |].
  cbn [writeFileError files]. destruct (writeFileError fs); [discriminate |].
  intros Hcreate. injection Hcreate as <- <-. cbn [files archivePath].
  exists (line :: lines). split; [reflexivity |]. split; [discriminate |].
  split; [exact Hnodup |].
  intros l. rewrite Helem. split; [| auto].
  intros [Hl | Hl]; [apply elem_of_nil in Hl; contradiction | exact Hl].
Qed.

Definition twoEntries : list DownloadArchiveEntry :=
  [{| entryId := "a1"; extractorKeys := ["Youtube"; "youtube"] |};
   {| entryId := "b2"; extractorKeys := [] |}].

Definition scratchDisk : FileSystem :=
  {| files := [("/etc/hosts", "localhost")]; directories := ["/tmp"]; tmpdir := "/tmp";
     mkdtempSuffix := "Xy12"; mkdtempError := None; writeFileError := None |}.

(** The theorem at two entries, one with the same key twice up to case
    and one without keys: three lines. *)
Lemma createDownloadArchiveFile_lines_witness :
  exists handle fs' lines,
    createDownloadArchiveFile twoEntries scratchDisk = (Ok (Some handle), fs')
    /\ files fs' = (archivePath handle, joinLines lines) :: files scratchDisk
    /\ NoDup lines
    /\ joinLines lines
       = "youtube a1" +:+ newline +:+ "youtubetab b2" +:+ newline
         +:+ "youtube b2" +:+ newline.
Proof.
  destruct (createDownloadArchiveFile twoEntries scratchDisk) as [[[handle |] | error] fs']
    eqn:Hcreate; try (vm_compute in Hcreate; discriminate).
  destruct (proj2 (createDownloadArchiveFile_lines twoEntries scratchDisk) handle fs' Hcreate)
    as (lines & Hfiles & _ & Hnodup & _).
  exists handle, fs', lines. split; [reflexivity |]. split; [exact Hfiles |].
  split; [exact Hnodup |].
  vm_compute in Hcreate. injection Hcreate as <- <-. cbn [files] in Hfiles.
  injection Hfiles as Hfiles. rewrite <- Hfiles. vm_compute. reflexivity.
Defined.

Lemma archiveLines_nonempty (entries : list DownloadArchiveEntry) :
  entries <> [] -> Forall entryKeysFine entries -> archiveLines entries [] <> [].
Proof.
  intros Hentries Hfine.
  destruct entries as [| entry entries]; [contradiction |].
  destruct (archiveLines_spec (entry :: entries) [] (NoDup_nil_2)) as [_ Helem].
  assert (Hkey : exists key, key ∈ keysWritten entry /\ toLowerCase key <> EmptyString).
  { inversion Hfine as [| ? ? [_ Hkeys] _]; subst. unfold keysWritten.
    destruct (extractorKeys entry) as [| key keys].
    - exists "youtubetab". split; [apply list_elem_of_here | discriminate].
    - exists key. split; [apply list_elem_of_here |].
      inversion Hkeys as [| ? ? [Hne Hlower] _]; subst. rewrite Hlower. exact Hne. }
  destruct Hkey as (key & Hkey & Hne).
  assert (Hline : archiveLine key (entryId entry) ∈ archiveLines (entry :: entries) []).
  { apply Helem. right. exists entry, key. split; [apply list_elem_of_here | auto]. }
  intros Hnil. rewrite Hnil in Hline. apply elem_of_nil in Hline. exact Hline.
Qed.

Lemma reads_weaken {A : Type} (c : Store A) (post post' : Database -> A -> Prop) :
  reads c post -> (forall db a, post db a -> post' db a) -> reads c post'.
Proof.
  intros Hc Himp w. destruct (Hc w) as (w' & Hdb & [Herr | (a & Ha & Hpost)]).
  - exists w'. split; [exact Hdb | left; exact Herr].
  - exists w'. split; [exact Hdb |]. right. exists a. split; [exact Ha | apply Himp, Hpost].
Qed.

(** A state as [loadExistingChannelState] builds it. *)
Definition summedUp (state : ChannelBootstrapState) : Prop :=
  state = noChannelState
  \/ exists channel strategy rows, state = summarizeRows channel (Some strategy) rows.

Lemma loadExistingChannelState_summedUp (cfg : Settings) (faults : LoadFaults)
    (channelUrl : string) (w : World) (state : ChannelBootstrapState) :
  fst (loadExistingChannelState cfg faults channelUrl w) = Ok state -> summedUp state.
Proof.
  assert (Hreads : reads (loadExistingChannelState cfg faults channelUrl)
                     (fun _ state => summedUp state)).
  { unfold loadExistingChannelState.
    eapply (reads_bind _ _ (fun _ _ => True));
      [eapply reads_weaken; [apply reads_storeCall; intros now db; reflexivity | trivial] |].
    intros byUrl.
    eapply (reads_bind _ _ (fun _ _ => True)).
    { destruct byUrl as [found |]; [apply reads_ret; trivial |].
      destruct (truthy _) as [handle |]; [| apply reads_ret; trivial].
      eapply (reads_bind _ _ (fun _ _ => True));
        [eapply reads_weaken; [apply lookupByHandle_reads | trivial] |].
      intros found. apply reads_ret. trivial. }
    intros matched.
    eapply (reads_bind _ _ (fun _ _ => True));
      [eapply reads_weaken; [apply reads_storeCall; intros now db; reflexivity | trivial] |].
    intros rows. destruct matched as [[channel strategy] |].
    - apply reads_ret. intros db _ _ _. right. eauto.
    - eapply (reads_bind _ _ (fun _ _ => True));
        [eapply reads_weaken; [apply lookupByRawData_reads | trivial] |].
      intros [[[channel strategy] rows'] |]; apply reads_ret; intros db _ _ _ _.
      + right. eauto.
      + left. reflexivity. }
  destruct (Hreads w) as (w' & _ & [[error Herr] | (s & Hok & Hs)]); rewrite ?Herr, ?Hok;
    [discriminate |].
  intros Heq. injection Heq as <-. exact Hs.
Qed.

Lemma summedUp_entries (state : ChannelBootstrapState) :
  summedUp state ->
  length (archiveEntries state) = size (knownVideoIds state)
  /\ Forall entryKeysFine (archiveEntries state).
Proof.
  intros [-> | (channel & strategy & rows & ->)].
  - split; [reflexivity | constructor].
  - destruct (summarizeRows_entries channel (Some strategy) rows) as (Hnodup & Hids & Hkeys).
    unfold summarizeRows. cbn [knownVideoIds archiveEntries]. split; [| exact Hkeys].
    rewrite <- (length_map entryId).
    rewrite <- (size_list_to_set (C := gset string) _ Hnodup).
    f_equal. apply set_eq. intros id. rewrite elem_of_list_to_set. apply Hids.
Qed.

(** X11: for a state read from the store, when the temporary file can
    be written, the scrape is prepared, the archive is handed to the
    child exactly when some video is known, and break-on-existing is on
    exactly when some video is known and backfill is off; backfill
    reverses the playlist. *)
Theorem prepareScrape_from_store (cfg : Settings) (faults : LoadFaults) (channelUrl : string)
    (w : World) (state : ChannelBootstrapState) (latestSortKey : option SortKeyInfo)
    (fs : FileSystem) :
  fst (loadExistingChannelState cfg faults channelUrl w) = Ok state ->
  mkdtempError fs = None -> writeFileError fs = None ->
  exists options fs',
    prepareScrape cfg state latestSortKey fs = (Ok options, fs')
    /\ isSome (downloadArchivePath options) = (0 <? size (knownVideoIds state))%nat
    /\ breakOnExisting options
       = (0 <? size (knownVideoIds state))%nat && negb (needsPlaylistBackfill state)
    /\ reversePlaylist options = needsPlaylistBackfill state.
Proof.
  intros Hload Hmk Hwrite.
  destruct (summedUp_entries state (loadExistingChannelState_summedUp _ _ _ _ _ Hload))
    as [Hlen Hfine].
  unfold prepareScrape, createDownloadArchiveFile.
  destruct (archiveEntries state) as [| entry entries] eqn:Hentries.
  - cbn [length] in Hlen. rewrite <- Hlen.
    eexists _, _. split; [reflexivity |]. repeat split.
  - rewrite Hmk. cbv zeta.
    pose proof (archiveLines_nonempty (entry :: entries) ltac:(discriminate) Hfine) as Hlines.
    destruct (archiveLines (entry :: entries) []) as [| line lines]; [contradiction |].
    cbn [writeFileError]. rewrite Hwrite.
    eexists _, _. split; [reflexivity |].
    unfold planScrape. cbn [downloadArchivePath breakOnExisting reversePlaylist option_map
                            isSome].
    rewrite <- Hlen. cbn [length Nat.ltb Nat.leb andb]. repeat split.
Qed.

(** A store with one channel and two of its videos. *)
Definition careyChannel : ChannelRow.t :=
  {| ChannelRow.id := 1;
     ChannelRow.canonicalUrl := "https://www.youtube.com/@CareyNieuwhof/";
     ChannelRow.externalId := None;
     ChannelRow.handle := Some "@CareyNieuwhof";
     ChannelRow.displayName := None;
     ChannelRow.createdAt := 0;
     ChannelRow.updatedAt := Some 0 |}.

Definition storedVideo (id : string) (channelId : Z) (rawData : RawVideo) : VideoInsert.t :=
  {| VideoInsert.id := id; VideoInsert.channelId := channelId;
     VideoInsert.videoUrl := watchUrl id; VideoInsert.title := id;
     VideoInsert.description := None; VideoInsert.durationSeconds := None;
     VideoInsert.publishedTimestamp := None; VideoInsert.uploadDate := None;
     VideoInsert.uploadedAt := None; VideoInsert.scrapedAt := Some 0;
     VideoInsert.isLive := false; VideoInsert.rawData := rawData;
     VideoInsert.updatedAt := Some 0 |}.

Definition twoVideosWorld : World :=
  {| database :=
       {| channels := [careyChannel];
          videos :=
            [storedVideo "a1" 1
               [("playlist_index", JNum (Fin 3 0)); ("playlist_count", JStr "10");
                ("extractor", JStr "Youtube")];
             storedVideo "b2" 1 []];
          nextChannelId := 2 |};
     clock := 1700000000000;
     slept := [] |}.

Definition noFaults : LoadFaults :=
  {| canonicalFaults := []; handleFaults := []; bareHandleFaults := [];
     rowsFaults := []; candidateFaults := [] |}.

(** The theorem at that store: two known videos of a playlist of ten, so
    the archive is written, backfill reverses the playlist and
    break-on-existing stays off. *)
Lemma prepareScrape_from_store_witness :
  exists state options fs',
    fst (loadExistingChannelState defaultSettings noFaults
           "https://www.youtube.com/@CareyNieuwhof/videos" twoVideosWorld) = Ok state
    /\ prepareScrape defaultSettings state None scratchDisk = (Ok options, fs')
    /\ size (knownVideoIds state) = 2%nat
    /\ isSome (downloadArchivePath options) = true
    /\ breakOnExisting options = false
    /\ reversePlaylist options = true.
Proof.
  destruct (fst (loadExistingChannelState defaultSettings noFaults
                   "https://www.youtube.com/@CareyNieuwhof/videos" twoVideosWorld))
    as [state | error] eqn:Hload; [| vm_compute in Hload; discriminate].
  destruct (prepareScrape_from_store defaultSettings noFaults _ _ state None scratchDisk
              Hload eq_refl eq_refl) as (options & fs' & Hprepare & Hpath & Hbreak & Hreverse).
  exists state, options, fs'. split; [reflexivity |]. split; [exact Hprepare |].
  assert (Hstate : size (knownVideoIds state) = 2%nat
                   /\ needsPlaylistBackfill state = true).
  { vm_compute in Hload. injection Hload as <-. split; vm_compute; reflexivity. }
  destruct Hstate as [Hsize Hbackfill].
  rewrite Hpath, Hbreak, Hreverse, Hsize, Hbackfill. repeat split.
Defined.

Lemma startsWith_l_app (p rest : list ascii) : startsWith_l p (p ++ rest) = true.
Proof.
  induction p as [| c p IH]; [reflexivity |]. cbn [app startsWith_l].
  rewrite Ascii.eqb_refl, IH. reflexivity.
Qed.

Lemma isUnder_below (dir name : string) :
  isUnder dir (dir +:+ String "/"%char name) = true.
Proof.
  unfold isUnder, startsWith. rewrite !chars_app.
  change (chars (String "/"%char name)) with (chars "/" ++ chars name).
  rewrite app_assoc, startsWith_l_app. apply orb_true_r.
Qed.

Lemma isUnder_self (dir : string) : isUnder dir dir = true.
Proof. unfold isUnder. rewrite String.eqb_refl. reflexivity. Qed.

Lemma filter_kept {A : Type} (keep : A -> bool) (l : list A) :
  (forall x, x ∈ l -> keep x = true) -> List.filter keep l = l.
Proof.
  induction l as [| x l IH]; intros Hall; [reflexivity |]. cbn [List.filter].
  rewrite (Hall x (list_elem_of_here _ _)), IH; [reflexivity |].
  intros y Hy. apply Hall, list_elem_of_further, Hy.
Qed.

(** X12: the temporary directory is made before the lines are known.
    When a handle is handed out, its [cleanup] puts the file system back
    as it was before the call, the directory being new.  When entries
    are given but no handle comes back, because no line results or the
    file cannot be written, the directory stays behind. *)
Theorem cleanup_restores (entries : list DownloadArchiveEntry) (fs : FileSystem) :
  let tempDir := tmpdir fs +:+ "/carey-yt-archive-" +:+ mkdtempSuffix fs in
  (forall file, file ∈ files fs -> isUnder tempDir (fst file) = false) ->
  (forall dir, dir ∈ directories fs -> isUnder tempDir dir = false) ->
  (forall handle fs',
      createDownloadArchiveFile entries fs = (Ok (Some handle), fs') ->
      archiveDir handle = tempDir /\ cleanup handle fs' = fs)
  /\ (forall outcome fs',
        createDownloadArchiveFile entries fs = (outcome, fs') ->
        entries <> [] -> mkdtempError fs = None ->
        (forall handle, outcome <> Ok (Some handle)) ->
        directories fs' = tempDir :: directories fs).
Proof.
  cbv zeta. intros Hfiles Hdirs. unfold createDownloadArchiveFile. split.
  - intros handle fs'. destruct entries as [| entry entries]; [discriminate |].
    destruct (mkdtempError fs) eqn:Hmk; [discriminate |]. cbv zeta.
    destruct (archiveLines (entry :: entries) []) as [| line lines]; [discriminate |].
    cbn [writeFileError]. destruct (writeFileError fs) eqn:Hwrite; [discriminate |].
    intros Hcreate. injection Hcreate as <- <-. split; [reflexivity |].
    unfold cleanup. cbn [archiveDir files directories tmpdir mkdtempSuffix mkdtempError
                         writeFileError List.filter fst].
    rewrite isUnder_self.
    rewrite (isUnder_below (tmpdir fs +:+ "/carey-yt-archive-" +:+ mkdtempSuffix fs)
               "download-archive.txt").
    cbn [negb]. rewrite !filter_kept.
    + destruct fs. cbn in *. congruence.
    + intros dir Hdir. rewrite (Hdirs dir Hdir). reflexivity.
    + intros file Hfile. rewrite (Hfiles file Hfile). reflexivity.
  - intros outcome fs' Hcreate Hentries Hmk Hnone.
    destruct entries as [| entry entries]; [contradiction |].
    rewrite Hmk in Hcreate. cbv zeta in Hcreate.
    destruct (archiveLines (entry :: entries) []) as [| line lines].
    + injection Hcreate as <- <-. reflexivity.
    + cbn [writeFileError] in Hcreate. destruct (writeFileError fs).
      * injection Hcreate as <- <-. reflexivity.
      * injection Hcreate as <- <-. exfalso. eapply Hnone. reflexivity.
Qed.

(** The theorem at the two entries on a disk that holds another file. *)
Lemma cleanup_restores_witness :
  exists handle fs',
    createDownloadArchiveFile twoEntries scratchDisk = (Ok (Some handle), fs')
    /\ files fs' <> files scratchDisk
    /\ cleanup handle fs' = scratchDisk.
Proof.
  destruct (createDownloadArchiveFile twoEntries scratchDisk) as [[[handle |] | error] fs']
    eqn:Hcreate; try (vm_compute in Hcreate; discriminate).
  exists handle, fs'. split; [reflexivity |]. split.
  - vm_compute in Hcreate. injection Hcreate as <- <-. discriminate.
  - apply (proj1 (cleanup_restores twoEntries scratchDisk
                    ltac:(intros file Hfile; apply list_elem_of_singleton in Hfile;
                          subst file; reflexivity)
                    ltac:(intros dir Hdir; apply list_elem_of_singleton in Hdir;
                          subst dir; reflexivity))
            handle fs' Hcreate).
Defined.

(** ** How long a store call can wait (index.ts) *)

Definition sumZ (l : list Z) : Z := fold_right Z.add 0 l.

Lemma sleepAll_clock (delays : list Z) (w : World) :
  clock (sleepAll delays w) = clock w + sumZ delays.
Proof.
  unfold sleepAll, sumZ. revert w.
  induction delays as [| ms delays IH]; intros w; cbn [fold_left fold_right]; [lia |].
  rewrite IH. cbn [sleep clock]. lia.
Qed.

Lemma delayMs_bounds (cfg : Settings) (a : Z) :
  1 <= a -> baseDelay cfg <= delayMs cfg a <= maxDelay cfg.
Proof.
  intros Ha. unfold delayMs.
  assert (Hbase : 50 <= baseDelay cfg) by (unfold baseDelay; lia).
  assert (Hmax : baseDelay cfg <= maxDelay cfg) by (unfold maxDelay; lia).
  assert (Hpow : 1 <= 2 ^ (a - 1)) by (apply (Z.pow_le_mono_r 2 0 (a - 1)); lia).
  split; [| apply Z.le_min_r]. apply Z.min_glb; [nia | exact Hmax].
Qed.

Lemma delayMs_mono (cfg : Settings) (a b : Z) :
  1 <= a <= b -> delayMs cfg a <= delayMs cfg b.
Proof.
  intros Hab. unfold delayMs.
  assert (Hbase : 50 <= baseDelay cfg) by (unfold baseDelay; lia).
  assert (Hpow : 2 ^ (a - 1) <= 2 ^ (b - 1)) by (apply Z.pow_le_mono_r; lia).
  apply Z.min_le_compat_r. nia.
Qed.

Lemma delaysFrom_bounds (cfg : Settings) (k : nat) (a : Z) :
  1 <= a ->
  Forall (fun d => baseDelay cfg <= d <= maxDelay cfg) (delaysFrom cfg a k)
  /\ sumZ (delaysFrom cfg a k) <= Z.of_nat k * maxDelay cfg
  /\ forall i j d d',
       (i <= j)%nat -> delaysFrom cfg a k !! i = Some d ->
       delaysFrom cfg a k !! j = Some d' -> d <= d'.
Proof.
  intros Ha. split; [| split].
  - revert a Ha. induction k as [| k IH]; intros a Ha; [constructor |].
    rewrite delaysFrom_succ. constructor; [apply delayMs_bounds, Ha | apply IH; lia].
  - revert a Ha. induction k as [| k IH]; intros a Ha; [cbn; lia |].
    rewrite delaysFrom_succ. cbn [sumZ fold_right].
    pose proof (delayMs_bounds cfg a Ha). specialize (IH (a + 1) ltac:(lia)).
    fold (sumZ (delaysFrom cfg (a + 1) k)). lia.
  - intros i j d d' Hij Hi Hj. unfold delaysFrom in Hi, Hj.
    rewrite list_lookup_fmap in Hi, Hj.
    destruct (seq 0 k !! i) as [x |] eqn:Hx; [| discriminate].
    destruct (seq 0 k !! j) as [y |] eqn:Hy; [| discriminate].
    apply lookup_seq in Hx as [-> _]. apply lookup_seq in Hy as [-> _].
    cbn in Hi, Hj. injection Hi as <-. injection Hj as <-.
    apply delayMs_mono. lia.
Qed.

(** X13: a store call sleeps at most [maxAttempts - 1] times and no more
    often than it met errors; every delay lies between the base delay
    (at least 50 ms) and the maximum delay, and no delay is shorter than
    the one before; the clock moves on by the sum of the delays, at most
    [(maxAttempts - 1) * maxDelay]; and an error the call throws is one
    of the errors its attempts met, never the wrapper's own. *)
Theorem storeCall_waits {T : Type} (cfg : Settings) (faults : list errval)
    (query : Z -> Database -> T * Database) (w : World) :
  let w' := snd (storeCall cfg faults query w) in
  (exists delays,
      slept w' = slept w ++ delays
      /\ clock w' = clock w + sumZ delays
      /\ Z.of_nat (length delays) <= maxAttempts cfg - 1
      /\ (length delays <= length faults)%nat
      /\ Forall (fun d => 50 <= baseDelay cfg <= d /\ d <= maxDelay cfg) delays
      /\ (forall i j d d',
             (i <= j)%nat -> delays !! i = Some d -> delays !! j = Some d' -> d <= d')
      /\ sumZ delays <= (maxAttempts cfg - 1) * maxDelay cfg)
  /\ forall error, fst (storeCall cfg faults query w) = Err error -> error ∈ faults.
Proof.
  cbv zeta. rewrite storeCall_decided. unfold decided.
  set (k := Nat.min (leadingTransient faults) (Z.to_nat (maxAttempts cfg) - 1)).
  assert (Hmax : 1 <= maxAttempts cfg) by (unfold maxAttempts; lia).
  assert (Hdelay : 0 <= maxDelay cfg) by (unfold maxDelay, baseDelay; lia).
  assert (Hk : Z.of_nat k <= maxAttempts cfg - 1) by (unfold k; lia).
  assert (Hleading : (leadingTransient faults <= length faults)%nat).
  { clear. induction faults as [| e faults IH]; cbn; [lia |].
    destruct (isTransientDatabaseError e); lia. }
  destruct (delaysFrom_bounds cfg k 1 ltac:(lia)) as (Hall & Hsum & Hsorted).
  assert (Hlen : length (delaysFrom cfg 1 k) = k)
    by (unfold delaysFrom; rewrite length_map, length_seq; reflexivity).
  assert (Hdelays :
    slept (sleepAll (delaysFrom cfg 1 k) w) = slept w ++ delaysFrom cfg 1 k
    /\ clock (sleepAll (delaysFrom cfg 1 k) w) = clock w + sumZ (delaysFrom cfg 1 k)
    /\ Z.of_nat (length (delaysFrom cfg 1 k)) <= maxAttempts cfg - 1
    /\ (length (delaysFrom cfg 1 k) <= length faults)%nat
    /\ Forall (fun d => 50 <= baseDelay cfg <= d /\ d <= maxDelay cfg) (delaysFrom cfg 1 k)
    /\ (forall i j d d',
           (i <= j)%nat -> delaysFrom cfg 1 k !! i = Some d ->
           delaysFrom cfg 1 k !! j = Some d' -> d <= d')
    /\ sumZ (delaysFrom cfg 1 k) <= (maxAttempts cfg - 1) * maxDelay cfg).
  { split; [apply sleepAll_slept |]. split; [apply sleepAll_clock |].
    rewrite Hlen. split; [exact Hk |]. split; [unfold k; lia |].
    split; [| split; [exact Hsorted | nia]].
    eapply Forall_impl; [exact Hall |]. intros d Hd. cbn beta in *.
    unfold baseDelay in *. lia. }
  destruct (faults !! k) as [error |] eqn:Hlookup.
  - cbn [fst snd]. split; [exists (delaysFrom cfg 1 k); exact Hdelays |].
    intros e He. injection He as <-. eapply list_elem_of_lookup_2, Hlookup.
  - cbn [attempt]. destruct (query _ _) as [rows db]. cbn [fst snd slept clock].
    split; [exists (delaysFrom cfg 1 k); exact Hdelays | discriminate].
Qed.

(** ** More on the streamed run (index.ts) *)

(** The tasks dispatched so far against the two counts of parsed
    records: the one [scrapeChannel] keeps and the one in the ingestion
    statistics. *)
Definition counted (parsed0 : Z) (st : Scrape) : Prop :=
  parsed (stats (context st)) = parsed0 + Z.of_nat (length (tasks st))
  /\ Z.of_nat (length (tasks st)) <= parsedCount st
  /\ (ingestionError st = None -> parsedCount st = Z.of_nat (length (tasks st))).

(** A recorded failure is an [Error], and the child has been told to
    stop unless it had ended. *)
Definition failureHandled (st : Scrape) : Prop :=
  forall error,
    ingestionError st = Some error ->
    (exists message code cause, error = ErrObj true message code cause)
    /\ (killed st = true \/ exited st = true).

(** A run that has resolved did so with its count of parsed records,
    after ['close'], with no failure and no task in flight. *)
Definition resolvedRight (st : Scrape) : Prop :=
  forall n,
    promise st = Resolved n ->
    n = parsedCount st /\ ingestionError st = None
    /\ inFlightIngestions st = [] /\ closing st <> None.

(** An exit status is on record only for a child that has ended. *)
Definition exitNoted (st : Scrape) : Prop :=
  exitCode st <> None -> exited st = true.

Definition runInvariant (parsed0 : Z) (st : Scrape) : Prop :=
  counted parsed0 st /\ failureHandled st /\ resolvedRight st /\ exitNoted st.

Lemma toError_isError (error : errval) :
  exists message code cause, toError error = ErrObj true message code cause.
Proof.
  destruct error as [text | [] message code cause]; cbn; unfold newError; eauto.
Qed.

Lemma reject_invariant (parsed0 : Z) (error : errval) (st : Scrape) :
  runInvariant parsed0 st -> runInvariant parsed0 (reject error st).
Proof.
  intros (Hcount & Hfail & Hres & Hexit). unfold reject.
  destruct (promise st) eqn:Hpromise; [| exact (conj Hcount (conj Hfail (conj Hres Hexit))) ..].
  split; [exact Hcount |]. split; [exact Hfail |]. split; [| exact Hexit].
  intros n Hn. discriminate.
Qed.

Lemma kill_invariant (parsed0 : Z) (st : Scrape) :
  runInvariant parsed0 st -> runInvariant parsed0 (kill st).
Proof.
  intros (Hcount & Hfail & Hres & Hexit). unfold kill.
  destruct (exited st) eqn:Hexited; [exact (conj Hcount (conj Hfail (conj Hres Hexit))) |].
  split; [exact Hcount |]. split; [| split; [exact Hres | exact Hexit]].
  intros error Herr. destruct (Hfail error Herr) as [Hshape _].
  split; [exact Hshape | left; reflexivity].
Qed.

Lemma unhandledRejection_invariant (parsed0 : Z) (st : Scrape) :
  runInvariant parsed0 st -> runInvariant parsed0 (unhandledRejection st).
Proof.
  unfold unhandledRejection. destruct (ingestionError st) eqn:Herr; intros H; [| exact H].
  unfold runInvariant, counted, failureHandled, resolvedRight, exitNoted,
    inFlightIngestions in *.
  cbn. rewrite Herr in H. exact H.
Qed.

Lemma enqueueVideo_invariant (parsed0 : Z) (video : RawVideo) (st : Scrape) :
  closing st = None ->
  runInvariant parsed0 st -> runInvariant parsed0 (enqueueVideo video (countLine st)).
Proof.
  intros Hopen ((Hparsed & Hle & Heq) & Hfail & Hres & Hexit). unfold enqueueVideo.
  cbn [countLine update ingestionError].
  destruct (ingestionError st) as [error |] eqn:Herr.
  - split; [| split; [| split]].
    + split; [exact Hparsed |]. cbn. split; [lia | intros Hnone; congruence].
    + intros e He. cbn in He. apply Hfail. congruence.
    + intros n Hn. cbn in Hn. destruct (Hres n Hn) as (_ & _ & _ & Hclosing). contradiction.
    + exact Hexit.
  - specialize (Heq eq_refl).
    destruct (startTask video (context (countLine st))) as [task ctx] eqn:Hstart.
    assert (Hctx : parsed (stats ctx) = parsed (stats (context st)) + 1).
    { unfold startTask in Hstart. cbn in Hstart.
      destruct (channel (context st)); injection Hstart as <- <-; reflexivity. }
    split; [| split; [| split]].
    + unfold counted. cbn. rewrite length_app. cbn [length].
      split; [lia |]. split; [lia | intros _; lia].
    + intros e He. cbn in He. congruence.
    + intros n Hn. cbn in Hn. destruct (Hres n Hn) as (_ & _ & _ & Hclosing). contradiction.
    + exact Hexit.
Qed.

Lemma setBuffer_invariant (parsed0 : Z) (st : Scrape) (buffer : string) :
  runInvariant parsed0 st -> runInvariant parsed0 (setBuffer st buffer).
Proof. intros H. exact H. Qed.

Section RunInvariant.

Variable JSON_parse : string -> RawVideo + string.
Variable cfg : Settings.

Lemma drainLines_invariant (parsed0 : Z) (fuel : nat) (st : Scrape) :
  closing st = None ->
  runInvariant parsed0 st -> runInvariant parsed0 (drainLines JSON_parse fuel st).
Proof.
  revert st. induction fuel as [| fuel IH]; intros st Hopen Hinv; [exact Hinv |].
  cbn [drainLines]. destruct (breakLine (chars (stdoutBuffer st))) as [[text rest] |];
    [| exact Hinv].
  destruct (0 <? String.length (trim (str text)))%nat.
  - destruct (JSON_parse (trim (str text))) as [parsed | message].
    + apply IH.
      * unfold enqueueVideo. cbn. destruct (ingestionError st); [exact Hopen |].
        destruct (startTask _ _). exact Hopen.
      * apply (enqueueVideo_invariant parsed0 parsed (setBuffer st (str rest)) Hopen).
        apply setBuffer_invariant, Hinv.
    + apply reject_invariant, kill_invariant, setBuffer_invariant, Hinv.
  - apply IH; [exact Hopen | apply setBuffer_invariant, Hinv].
Qed.

Lemma tryFinish_invariant (parsed0 : Z) (st : Scrape) :
  runInvariant parsed0 st -> runInvariant parsed0 (tryFinish st).
Proof.
  intros Hinv. unfold tryFinish. destruct (closing st) as [code |] eqn:Hclosing;
    [| exact Hinv].
  destruct (inFlightIngestions st) eqn:Hflight; [| exact Hinv].
  unfold afterAllSettled. destruct (ingestionError st) eqn:Herr;
    [apply reject_invariant, Hinv |].
  destruct (_ && _); [apply reject_invariant, Hinv |].
  destruct Hinv as (Hcount & Hfail & Hres & Hexit). unfold resolve.
  destruct (promise st) eqn:Hpromise; [| exact (conj Hcount (conj Hfail (conj Hres Hexit))) ..].
  split; [exact Hcount |]. split; [exact Hfail |]. split; [| exact Hexit].
  intros n Hn. cbn in Hn. injection Hn as <-. cbn.
  unfold inFlightIngestions in *. cbn. rewrite Hclosing. repeat split; try assumption.
  discriminate.
Qed.

Lemma stepTask_parsed (faults : list errval) (t t' : Task) (ctx ctx' : IngestionContext)
    (w w' : World) :
  isSettled t = false ->
  stepTask cfg faults t ctx w = (t', ctx', w') ->
  parsed (stats ctx') = parsed (stats ctx).
Proof.
  intros Hsettled Hstep.
  pose proof (stepTask_stats cfg faults t t' ctx ctx' w w' Hsettled Hstep) as Hstats.
  destruct (isFulfilled t'); [apply Hstats | rewrite Hstats; reflexivity].
Qed.

(** The [catch] handler of a task leaves the child stopped: killed, or
    ended before. *)
Lemma noteFailure_invariant (parsed0 : Z) (error : errval) (st : Scrape) :
  (forall n, promise st <> Resolved n) ->
  runInvariant parsed0 st -> runInvariant parsed0 (noteFailure error st).
Proof.
  intros Hpending Hinv. unfold noteFailure.
  destruct (ingestionError st) eqn:Herr; [exact Hinv |].
  destruct Hinv as ((Hparsed & Hle & Heq) & Hfail & Hres & Hexit).
  unfold taskFailed, abortChild. cbn [update exitCode killed].
  assert (Hcounted : forall k,
             counted parsed0
               (update st (parsedCount st) (stdoutBuffer st) (Some (toError error))
                  (tasks st) k (promise st) (context st) (world st))).
  { intros k. split; [exact Hparsed |]. split; [exact Hle | discriminate]. }
  assert (Hresolved : forall k,
             resolvedRight
               (update st (parsedCount st) (stdoutBuffer st) (Some (toError error))
                  (tasks st) k (promise st) (context st) (world st))).
  { intros k n Hn. cbn in Hn. destruct (Hpending n Hn). }
  destruct (bool_decide (exitCode st = None) && negb (killed st)) eqn:Hgo.
  - unfold kill. cbn [update exited]. destruct (exited st) eqn:Hexited.
    + split; [apply Hcounted |]. split; [| split; [apply Hresolved | exact Hexit]].
      intros e He. cbn in He. injection He as <-. split; [apply toError_isError |].
      right. exact Hexited.
    + split; [apply (Hcounted true) |]. split; [| split; [apply (Hresolved true) | exact Hexit]].
      intros e He. cbn in He. injection He as <-. split; [apply toError_isError |].
      left. reflexivity.
  - split; [apply Hcounted |]. split; [| split; [apply Hresolved | exact Hexit]].
    intros e He. cbn in He. injection He as <-. split; [apply toError_isError |].
    cbn [update killed exited].
    apply andb_false_iff in Hgo as [Hcode | Hkilled].
    + right. apply Hexit. intros Hnone. rewrite bool_decide_eq_true_2 in Hcode by exact Hnone.
      discriminate.
    + left. destruct (killed st); [reflexivity | discriminate].
Qed.

Lemma onResume_invariant (parsed0 : Z) (i : nat) (faults : list errval) (st : Scrape) :
  runInvariant parsed0 st -> runInvariant parsed0 (onResume cfg i faults st).
Proof.
  intros Hinv. unfold onResume. destruct (tasks st !! i) as [t |] eqn:Hi; [| exact Hinv].
  destruct (isSettled t) eqn:Hsettled; [exact Hinv |].
  destruct (stepTask cfg faults t (context st) (world st)) as [[t' ctx'] w'] eqn:Hstep.
  destruct Hinv as ((Hparsed & Hle & Heq) & Hfail & Hres & Hexit).
  assert (Hpending : forall n, promise st <> Resolved n).
  { intros n Hn. destruct (Hres n Hn) as (_ & _ & Hflight & _).
    rewrite (inFlight_settled_lookup st i t Hflight Hi) in Hsettled. discriminate. }
  assert (Hset : runInvariant parsed0 (setTask st i t' ctx' w')).
  { split; [| split; [| split]].
    - unfold counted, setTask. cbn. rewrite length_insert.
      rewrite (stepTask_parsed faults t t' _ _ _ _ Hsettled Hstep).
      repeat split; assumption.
    - exact Hfail.
    - intros n Hn. cbn in Hn. destruct (Hpending n Hn).
    - exact Hexit. }
  destruct t' as [| | | | error]; try (apply tryFinish_invariant; exact Hset).
  apply unhandledRejection_invariant, tryFinish_invariant, noteFailure_invariant;
    [exact Hpending | exact Hset].
Qed.

Lemma step_invariant (parsed0 : Z) (st : Scrape) (ev : Event) :
  runInvariant parsed0 st -> runInvariant parsed0 (step JSON_parse cfg st ev).
Proof.
  intros Hinv. unfold step. destruct (isSome (crashed st)); [exact Hinv |].
  destruct ev as [chunk | chunk | i faults | error | code | code]; cbn [deliver].
  - destruct (closing st) eqn:Hclosing; [exact Hinv |]. cbn [isSome].
    unfold onStdout. apply drainLines_invariant; [exact Hclosing |].
    apply setBuffer_invariant, Hinv.
  - destruct (isSome (closing st)); exact Hinv.
  - apply onResume_invariant, Hinv.
  - apply reject_invariant, Hinv.
  - destruct (closing st) eqn:Hclosing; [exact Hinv |]. cbn [isSome].
    assert (Hclose : forall s, runInvariant parsed0 s -> closing s = None ->
                               runInvariant parsed0 (setClosing s code)).
    { intros s (Hcount & Hfail & Hres & Hexit) Hopen. split; [exact Hcount |].
      split; [| split].
      - intros e He. destruct (Hfail e He) as [Hshape _].
        split; [exact Hshape | right; reflexivity].
      - intros n Hn. destruct (Hres n Hn) as (_ & _ & _ & Hclosed). contradiction.
      - intros _. reflexivity. }
    unfold onClose. destruct (0 <? String.length (trim (stdoutBuffer st)))%nat.
    + destruct (JSON_parse (trim (stdoutBuffer st))) as [parsed | message].
      * apply tryFinish_invariant, Hclose.
        -- apply enqueueVideo_invariant; assumption.
        -- unfold enqueueVideo. cbn. destruct (ingestionError st); [exact Hclosing |].
           destruct (startTask _ _). exact Hclosing.
      * apply reject_invariant, Hclose; assumption.
    + apply tryFinish_invariant, Hclose; assumption.
  - destruct (exited st); [exact Hinv |].
    destruct Hinv as (Hcount & Hfail & Hres & Hexit). split; [exact Hcount |].
    split; [| split; [exact Hres | intros _; reflexivity]].
    intros e He. destruct (Hfail e He) as [Hshape _].
    split; [exact Hshape | right; reflexivity].
Qed.

Lemma run_invariant (parsed0 : Z) (events : list Event) (st : Scrape) :
  runInvariant parsed0 st -> runInvariant parsed0 (run JSON_parse cfg events st).
Proof.
  revert st. induction events as [| ev events IH]; intros st Hinv; [exact Hinv |].
  apply IH, step_invariant, Hinv.
Qed.

Lemma spawned_invariant (ctx : IngestionContext) (w : World) :
  runInvariant (parsed (stats ctx)) (spawned ctx w).
Proof.
  split; [| split; [| split]].
  - unfold counted. cbn. repeat split; lia.
  - intros error Herr. discriminate.
  - intros n Hn. discriminate.
  - intros Hcode. contradiction Hcode. reflexivity.
Qed.

End RunInvariant.

Lemma settled_fulfilled (l : list Task) :
  filter (fun t => negb (isSettled t)) l = [] -> existsb isRejected l = false ->
  Forall (fun t => t = Fulfilled) l.
Proof.
  induction l as [| t l IH]; [constructor |]. rewrite filter_cons. cbn [existsb].
  intros Hflight Hnone. apply orb_false_iff in Hnone as [Ht Hnone].
  destruct t; cbn in Hflight, Ht; try discriminate.
  constructor; [reflexivity |]. apply IH; [exact Hflight | exact Hnone].
Qed.

(** X14: a failure of a persistence task is final.  The error recorded
    is an [Error]; the child has been killed unless it had ended before;
    the unhandled rejection the failed task leaves behind ends the
    process with that error.  Whatever is delivered afterwards, the run
    stays as it is: the recorded error is the same, no further task is
    dispatched, the counters stand still, and the promise is never
    resolved. *)
Theorem failure_is_final (JSON_parse : string -> RawVideo + string) (cfg : Settings)
    (ctx : IngestionContext) (w : World) (events later : list Event) (error : errval) :
  ingestionError (run JSON_parse cfg events (spawned ctx w)) = Some error ->
  (exists message code cause, error = ErrObj true message code cause)
  /\ (killed (run JSON_parse cfg events (spawned ctx w)) = true
      \/ exited (run JSON_parse cfg events (spawned ctx w)) = true)
  /\ crashed (run JSON_parse cfg events (spawned ctx w)) = Some error
  /\ run JSON_parse cfg (events ++ later) (spawned ctx w)
     = run JSON_parse cfg events (spawned ctx w)
  /\ forall n, promise (run JSON_parse cfg (events ++ later) (spawned ctx w)) <> Resolved n.
Proof.
  intros Herr.
  destruct (run_invariant JSON_parse cfg _ events _ (spawned_invariant ctx w))
    as (_ & Hfail & Hres & _).
  destruct (Hfail error Herr) as [Hshape Hstopped].
  assert (Hcrashed : crashed (run JSON_parse cfg events (spawned ctx w)) = Some error).
  { rewrite <- Herr. apply run_crashNoted. reflexivity. }
  assert (Hrun : run JSON_parse cfg (events ++ later) (spawned ctx w)
                 = run JSON_parse cfg events (spawned ctx w)).
  { rewrite run_app. apply run_ended. rewrite Hcrashed. discriminate. }
  split; [exact Hshape |]. split; [exact Hstopped |]. split; [exact Hcrashed |].
  split; [exact Hrun |].
  intros n Hn. rewrite Hrun in Hn. destruct (Hres n Hn) as (_ & Hnone & _). congruence.
Qed.

(** One record; its insert meets an error that is not transient. *)
Definition brokenInsert : list Event :=
  [StdoutData (Json.quoted "{'id':'a'}" +:+ newline); Resume 0 [];
   Resume 0 [Primitive "disk full"]].

Definition afterBrokenInsert : list Event :=
  [StdoutData (Json.quoted "{'id':'b'}" +:+ newline); Exit None; Close None].

(** The theorem at that run: the thrown text is kept as an [Error], the
    child is killed, and the process ends before the second record
    arrives: it is not parsed, and the promise stays pending. *)
Lemma failure_is_final_witness :
  ingestionError (run Json.parse defaultSettings brokenInsert (spawned freshContext freshWorld))
  = Some (newError "disk full")
  /\ killed (run Json.parse defaultSettings brokenInsert (spawned freshContext freshWorld))
     = true
  /\ parsedCount (run Json.parse defaultSettings (brokenInsert ++ afterBrokenInsert)
                    (spawned freshContext freshWorld)) = 1
  /\ promise (run Json.parse defaultSettings (brokenInsert ++ afterBrokenInsert)
                (spawned freshContext freshWorld))
     = Pending.
Proof.
  assert (Herr : ingestionError (run Json.parse defaultSettings brokenInsert
                                   (spawned freshContext freshWorld))
                 = Some (newError "disk full")) by (vm_compute; reflexivity).
  destruct (failure_is_final Json.parse defaultSettings freshContext freshWorld brokenInsert
              afterBrokenInsert _ Herr) as (_ & _ & _ & Hrun & _).
  split; [exact Herr |]. split; [vm_compute; reflexivity |].
  rewrite Hrun. split; vm_compute; reflexivity.
Defined.

(** X15: when the run resolves, the number it resolves with is the
    number of tasks dispatched, every one of them fulfilled; it is what
    was added to the parsed counter of the statistics, and it is also
    what was added to the three outcome counters together. *)
Theorem resolved_count (JSON_parse : string -> RawVideo + string) (cfg : Settings)
    (ctx : IngestionContext) (w : World) (events : list Event) (n : Z) :
  promise (run JSON_parse cfg events (spawned ctx w)) = Resolved n ->
  let st := run JSON_parse cfg events (spawned ctx w) in
  n = Z.of_nat (length (tasks st))
  /\ Forall (fun t => t = Fulfilled) (tasks st)
  /\ parsed (stats (context st)) = parsed (stats ctx) + n
  /\ inserted (stats (context st)) + skippedExisting (stats (context st))
     + invalid (stats (context st))
     = inserted (stats ctx) + skippedExisting (stats ctx) + invalid (stats ctx) + n.
Proof.
  intros Hresolved st. fold st in Hresolved.
  destruct (run_invariant JSON_parse cfg _ events _ (spawned_invariant ctx w))
    as ((Hparsed & _ & Heq) & _ & Hres & _).
  fold st in Hparsed, Heq, Hres.
  destruct (Hres n Hresolved) as (Hn & Hnone & Hflight & _).
  pose proof (run_failureNoted JSON_parse cfg events (spawned ctx w) eq_refl) as Hnoted.
  fold st in Hnoted. unfold failureNoted in Hnoted. rewrite Hnone in Hnoted.
  assert (Hall : Forall (fun t => t = Fulfilled) (tasks st))
    by (apply settled_fulfilled; [exact Hflight | symmetry; exact Hnoted]).
  pose proof (run_balance JSON_parse cfg events (spawned ctx w)) as Hbalance.
  fold st in Hbalance. unfold balance in Hbalance.
  rewrite (owed_fulfilled _ Hall) in Hbalance. cbn in Hbalance.
  specialize (Heq Hnone). repeat split; try assumption; lia.
Qed.

Definition twoRecords : list Event :=
  [StdoutData (Json.quoted "{'id':'a'}" +:+ newline +:+ Json.quoted "{'title':'no id'}");
   Resume 0 []; Close (Some 0); Resume 1 []; Resume 0 []].

(** The theorem at a run of two records, one of them without an id. *)
Lemma resolved_count_witness :
  promise (run Json.parse defaultSettings twoRecords (spawned freshContext freshWorld))
  = Resolved 2
  /\ stats (context (run Json.parse defaultSettings twoRecords
                       (spawned freshContext freshWorld)))
     = {| parsed := 2; inserted := 1; skippedExisting := 0; invalid := 1 |}
  /\ length (tasks (run Json.parse defaultSettings twoRecords
                      (spawned freshContext freshWorld))) = 2%nat.
Proof.
  assert (Hresolved : promise (run Json.parse defaultSettings twoRecords
                                 (spawned freshContext freshWorld)) = Resolved 2)
    by (vm_compute; reflexivity).
  destruct (resolved_count Json.parse defaultSettings freshContext freshWorld twoRecords 2
              Hresolved) as (Hlen & _).
  split; [exact Hresolved |]. split; [vm_compute; reflexivity | lia].
Defined.

(** ** How the output is cut into chunks (index.ts) *)

Lemma breakLine_split (l text rest : list ascii) :
  breakLine l = Some (text, rest) ->
  length l = (length text + 1 + length rest)%nat.
Proof.
  revert text rest. induction l as [| c l IH]; intros text rest; [discriminate |].
  cbn [breakLine]. destruct (code c =? 10)%N.
  - intros H. injection H as <- <-. cbn. lia.
  - destruct (breakLine l) as [[line r] |]; [| discriminate].
    intros H. injection H as <- <-. cbn. rewrite (IH line r eq_refl). lia.
Qed.

Lemma breakLine_app (l extra : list ascii) :
  breakLine (l ++ extra)
  = match breakLine l with
    | Some (text, rest) => Some (text, rest ++ extra)
    | None => match breakLine extra with
              | Some (text, rest) => Some (l ++ text, rest)
              | None => None
              end
    end.
Proof.
  induction l as [| c l IH]; cbn [app breakLine].
  - destruct (breakLine extra) as [[text rest] |]; reflexivity.
  - destruct (code c =? 10)%N; [reflexivity |]. rewrite IH.
    destruct (breakLine l) as [[text rest] |]; [reflexivity |].
    destruct (breakLine extra) as [[text rest] |]; reflexivity.
Qed.

Lemma length_chars (s : string) : length (chars s) = String.length s.
Proof. rewrite <- (str_chars s) at 2. symmetry. apply length_str. Qed.

Lemma enqueueVideo_buffer (video : RawVideo) (st : Scrape) (buffer : string) :
  setBuffer (enqueueVideo video (countLine st)) buffer
  = enqueueVideo video (countLine (setBuffer st buffer))
  /\ stdoutBuffer (enqueueVideo video (countLine st)) = stdoutBuffer st
  /\ promise (enqueueVideo video (countLine st)) = promise st.
Proof.
  unfold enqueueVideo. cbn. destruct (ingestionError st); [repeat split |].
  unfold startTask. cbn. destruct (channel (context st)); repeat split.
Qed.

Section Chunks.

Variable JSON_parse : string -> RawVideo + string.

(** With fuel for every character of the buffer, more fuel changes
    nothing. *)
Lemma drainLines_fuel (n m : nat) (st : Scrape) :
  (String.length (stdoutBuffer st) <= n)%nat ->
  (String.length (stdoutBuffer st) <= m)%nat ->
  drainLines JSON_parse n st = drainLines JSON_parse m st.
Proof.
  revert m st. induction n as [| n IH]; intros m st Hn Hm.
  - assert (Hnil : chars (stdoutBuffer st) = [])
      by (apply length_zero_iff_nil; rewrite length_chars; lia).
    destruct m; cbn [drainLines]; [reflexivity |]. rewrite Hnil. reflexivity.
  - destruct m as [| m].
    + assert (Hnil : chars (stdoutBuffer st) = [])
        by (apply length_zero_iff_nil; rewrite length_chars; lia).
      cbn [drainLines]. rewrite Hnil. reflexivity.
    + cbn [drainLines].
      destruct (breakLine (chars (stdoutBuffer st))) as [[text rest] |] eqn:Hbreak;
        [| reflexivity].
      apply breakLine_split in Hbreak. rewrite length_chars in Hbreak.
      destruct (0 <? String.length (trim (str text)))%nat.
      * destruct (JSON_parse (trim (str text))) as [parsed | message]; [| reflexivity].
        apply IH;
          rewrite (proj1 (proj2 (enqueueVideo_buffer _ _ (str rest))));
          cbn [setBuffer update stdoutBuffer]; rewrite length_str; lia.
      * apply IH; cbn [setBuffer update stdoutBuffer]; rewrite length_str; lia.
Qed.

(** Draining a buffer, then appending text and draining again, is
    draining the buffer with the text appended, as long as no line fails
    to parse. *)
Lemma drainLines_append (n : nat) (st : Scrape) (extra : string) :
  (String.length (stdoutBuffer st) <= n)%nat ->
  promise st = Pending ->
  promise (drainLines JSON_parse (String.length (stdoutBuffer st +:+ extra))
             (setBuffer st (stdoutBuffer st +:+ extra))) = Pending ->
  drainLines JSON_parse
    (String.length (stdoutBuffer (drainLines JSON_parse n st) +:+ extra))
    (setBuffer (drainLines JSON_parse n st)
       (stdoutBuffer (drainLines JSON_parse n st) +:+ extra))
  = drainLines JSON_parse (String.length (stdoutBuffer st +:+ extra))
      (setBuffer st (stdoutBuffer st +:+ extra)).
Proof.
  revert st. induction n as [| n IH]; intros st Hn Hpending Hfine; [reflexivity |].
  cbn [drainLines].
  destruct (breakLine (chars (stdoutBuffer st))) as [[text rest] |] eqn:Hbreak;
    [| reflexivity].
  pose proof (breakLine_split _ _ _ Hbreak) as Hlen. rewrite length_chars in Hlen.
  assert (Hwhole : breakLine (chars (stdoutBuffer st +:+ extra))
                   = Some (text, rest ++ chars extra))
    by (rewrite chars_app, breakLine_app, Hbreak; reflexivity).
  assert (Hfuel : exists k, String.length (stdoutBuffer st +:+ extra) = Datatypes.S k
                            /\ (length rest + String.length extra <= k)%nat).
  { rewrite <- length_chars, chars_app, length_app, !length_chars.
    exists (length text + length rest + String.length extra)%nat. lia. }
  destruct Hfuel as (k & Hk & Hrest).
  rewrite Hk in Hfine |- *. cbn [drainLines] in Hfine |- *.
  cbn [setBuffer update stdoutBuffer] in Hfine |- *.
  rewrite Hwhole in Hfine |- *.
  assert (Hjoin : str (rest ++ chars extra) = str rest +:+ extra)
    by (rewrite <- str_app, str_chars; reflexivity).
  destruct (0 <? String.length (trim (str text)))%nat.
  - destruct (JSON_parse (trim (str text))) as [parsed | message].
    + set (st1 := enqueueVideo parsed (countLine (setBuffer st (str rest)))).
      destruct (enqueueVideo_buffer parsed (setBuffer st (str rest))
                  (str (rest ++ chars extra))) as (Hset & Hbuffer & Hpromise).
      fold st1 in Hset, Hbuffer, Hpromise.
      cbn [setBuffer update stdoutBuffer] in Hbuffer.
      assert (Hsame : enqueueVideo parsed
                        (countLine (setBuffer (setBuffer st (stdoutBuffer st +:+ extra))
                                      (str (rest ++ chars extra))))
                      = setBuffer st1 (stdoutBuffer st1 +:+ extra)).
      { rewrite Hbuffer, <- Hjoin. unfold st1, enqueueVideo. cbn.
        destruct (ingestionError st); [reflexivity |].
        unfold startTask. cbn. destruct (channel (context st)); reflexivity. }
      rewrite Hsame in Hfine |- *.
      assert (Hk1 : (String.length (stdoutBuffer (setBuffer st1 (stdoutBuffer st1 +:+ extra)))
                     <= k)%nat).
      { cbn [setBuffer update stdoutBuffer]. rewrite Hbuffer.
        rewrite <- length_chars, chars_app, length_app, chars_str, length_chars. lia. }
      rewrite (drainLines_fuel k
                 (String.length (stdoutBuffer st1 +:+ extra)) _ Hk1) in Hfine |- *
        by (cbn [setBuffer update stdoutBuffer]; lia).
      apply IH.
      * rewrite Hbuffer, length_str. lia.
      * rewrite Hpromise. exact Hpending.
      * exact Hfine.
    + exfalso. unfold reject, kill in Hfine. cbn in Hfine.
      destruct (exited st); cbn in Hfine; rewrite Hpending in Hfine; discriminate.
  - assert (Hsame : setBuffer (setBuffer st (stdoutBuffer st +:+ extra))
                      (str (rest ++ chars extra))
                    = setBuffer (setBuffer st (str rest))
                        (stdoutBuffer (setBuffer st (str rest)) +:+ extra)).
    { cbn [setBuffer update stdoutBuffer]. rewrite Hjoin. reflexivity. }
    rewrite Hsame in Hfine |- *.
    assert (Hk1 : (String.length
                     (stdoutBuffer (setBuffer (setBuffer st (str rest))
                                      (stdoutBuffer (setBuffer st (str rest)) +:+ extra)))
                   <= k)%nat).
    { cbn [setBuffer update stdoutBuffer].
      rewrite <- length_chars, chars_app, length_app, chars_str, length_chars. lia. }
    rewrite (drainLines_fuel k
               (String.length (stdoutBuffer (setBuffer st (str rest)) +:+ extra)) _ Hk1)
      in Hfine |- *
      by (cbn [setBuffer update stdoutBuffer]; lia).
    apply IH.
    + cbn [setBuffer update stdoutBuffer]. rewrite length_str. lia.
    + exact Hpending.
    + exact Hfine.
Qed.

End Chunks.

Lemma drainLines_closing (JSON_parse : string -> RawVideo + string) (fuel : nat)
    (st : Scrape) :
  closing (drainLines JSON_parse fuel st) = closing st.
Proof.
  revert st. induction fuel as [| fuel IH]; intros st; [reflexivity |].
  cbn [drainLines]. destruct (breakLine (chars (stdoutBuffer st))) as [[text rest] |];
    [| reflexivity].
  destruct (0 <? String.length (trim (str text)))%nat;
    [| exact (IH (setBuffer st (str rest)))].
  destruct (JSON_parse (trim (str text))) as [parsed | message].
  - rewrite IH. unfold enqueueVideo. cbn. destruct (ingestionError st); [reflexivity |].
    destruct (startTask _ _). reflexivity.
  - unfold reject, kill. cbn. destruct (exited st); cbn; destruct (promise st); reflexivity.
Qed.

Lemma append_assoc (a b c : string) : (a +:+ b) +:+ c = a +:+ (b +:+ c).
Proof.
  induction a as [| x a IH]; [reflexivity |].
  change (String x ((a +:+ b) +:+ c) = String x (a +:+ (b +:+ c))). rewrite IH. reflexivity.
Qed.

(** X16: how the child's output happens to be cut into chunks does not
    matter.  As long as the run has not been settled and no line of the
    output fails to parse, two chunks delivered one after the other
    leave the run in the very state in which the two delivered as one
    chunk leave it: same records dispatched in the same order, same
    counters, same text left in the buffer. *)
Theorem stdout_chunks (JSON_parse : string -> RawVideo + string) (cfg : Settings)
    (st : Scrape) (a b : string) :
  promise st = Pending ->
  promise (step JSON_parse cfg st (StdoutData (a +:+ b))) = Pending ->
  run JSON_parse cfg [StdoutData a; StdoutData b] st
  = run JSON_parse cfg [StdoutData (a +:+ b)] st.
Proof.
  intros Hpending Hfine. cbn [run fold_left] in *. unfold step in *.
  destruct (isSome (crashed st)) eqn:Hcrashed; [rewrite Hcrashed; reflexivity |].
  cbn [deliver] in *.
  destruct (closing st) as [code |] eqn:Hclosing; cbn [isSome] in *.
  - rewrite Hcrashed. cbn [deliver]. rewrite Hclosing. reflexivity.
  - unfold onStdout in *.
    rewrite (proj2 (drainLines_promise JSON_parse _ (setBuffer st (stdoutBuffer st +:+ a))
                      Hpending)).
    cbn [setBuffer update crashed]. rewrite Hcrashed. cbn [deliver].
    rewrite drainLines_closing. cbn [setBuffer update closing].
    rewrite Hclosing. cbn [isSome].
    set (st0 := setBuffer st (stdoutBuffer st +:+ a)).
    change (stdoutBuffer (setBuffer st (stdoutBuffer st +:+ a)))
      with (stdoutBuffer st +:+ a).
    change (stdoutBuffer (setBuffer st (stdoutBuffer st +:+ (a +:+ b))))
      with (stdoutBuffer st +:+ (a +:+ b)) in *.
    rewrite <- append_assoc in Hfine |- *.
    apply (drainLines_append JSON_parse (String.length (stdoutBuffer st +:+ a)) st0 b).
    + reflexivity.
    + exact Hpending.
    + exact Hfine.
Qed.

(** The theorem at a line that arrives in two pieces, followed by the
    start of the next line. *)
Lemma stdout_chunks_witness :
  run Json.parse defaultSettings
    [StdoutData (Json.quoted "{'id':"); StdoutData (Json.quoted "'a'}" +:+ newline +:+ "{")]
    (spawned freshContext freshWorld)
  = run Json.parse defaultSettings
      [StdoutData (Json.quoted "{'id':" +:+ (Json.quoted "'a'}" +:+ newline +:+ "{"))]
      (spawned freshContext freshWorld)
  /\ parsedCount
       (run Json.parse defaultSettings
          [StdoutData (Json.quoted "{'id':");
           StdoutData (Json.quoted "'a'}" +:+ newline +:+ "{")]
          (spawned freshContext freshWorld)) = 1.
Proof.
  split; [| vm_compute; reflexivity].
  apply (stdout_chunks Json.parse defaultSettings (spawned freshContext freshWorld)).
  - reflexivity.
  - vm_compute. reflexivity.
Defined.

(** ** The video table along a run *)

(** The video table [db] and the context [ctx] of a run that began with
    the table [db0] and the context [ctx0]: ids are unique in the table,
    every known id is stored, no known id was forgotten, and the table
    is the one the run began with followed by the rows the run added,
    one per unit of the [inserted] counter, each with a known id. *)
Definition kept (ctx0 : IngestionContext) (db0 : Database) (ctx : IngestionContext)
    (db : Database) : Prop :=
  NoDup (map VideoInsert.id (videos db))
  /\ (forall id, id ∈ knownIds ctx -> hasVideo db id = true)
  /\ knownIds ctx0 ⊆ knownIds ctx
  /\ exists added,
       videos db = videos db0 ++ added
       /\ Z.of_nat (length added) = inserted (stats ctx) - inserted (stats ctx0)
       /\ forall row, row ∈ added -> VideoInsert.id row ∈ knownIds ctx.

Definition storeKept (ctx0 : IngestionContext) (db0 : Database) (st : Scrape) : Prop :=
  kept ctx0 db0 (context st) (database (world st)).

Lemma kept_same (ctx0 : IngestionContext) (db0 : Database) (ctx ctx' : IngestionContext)
    (db db' : Database) :
  knownIds ctx' = knownIds ctx -> inserted (stats ctx') = inserted (stats ctx) ->
  videos db' = videos db ->
  kept ctx0 db0 ctx db -> kept ctx0 db0 ctx' db'.
Proof.
  intros Hknown Hinserted Hvideos (Hkey & Hstored & Hgrown & added & Hadded & Hlen & Hids).
  unfold kept. rewrite Hknown, Hinserted, Hvideos.
  split; [exact Hkey |]. split.
  - intros id Hid. rewrite (hasVideo_videos _ _ id Hvideos). apply Hstored, Hid.
  - split; [exact Hgrown |]. exists added. auto.
Qed.

Lemma sameLedger_storeKept (ctx0 : IngestionContext) (db0 : Database) (st st' : Scrape) :
  sameLedger st st' -> storeKept ctx0 db0 st -> storeKept ctx0 db0 st'.
Proof. intros (Hctx & _ & Hworld). unfold storeKept. rewrite Hctx, Hworld. auto. Qed.

Lemma enqueueVideo_storeKept (ctx0 : IngestionContext) (db0 : Database) (video : RawVideo)
    (st : Scrape) :
  storeKept ctx0 db0 st -> storeKept ctx0 db0 (enqueueVideo video st).
Proof.
  unfold enqueueVideo, startTask. destruct (ingestionError st); [auto |].
  cbn [withStats channel]. destruct (channel (context st)); intros H; exact H.
Qed.

Lemma afterChannel_frame (video : RawVideo) (record : ChannelRow.t) (ctx ctx' : IngestionContext)
    (w : World) (t : Task) :
  afterChannel video record ctx w = (t, ctx') ->
  knownIds ctx' = knownIds ctx /\ inserted (stats ctx') = inserted (stats ctx).
Proof.
  unfold afterChannel. destruct (triage video record ctx (clock w));
    intros H; injection H as <- <-; split; reflexivity.
Qed.

(** An insert that is applied keeps the table keyed: a row whose id is
    stored is dropped and the id becomes known, any other row is put
    last and counted. *)
Lemma videoInserted_kept (ctx0 : IngestionContext) (db0 : Database) (mapped : VideoInsert.t)
    (now : Z) (ctx : IngestionContext) (db : Database) :
  kept ctx0 db0 ctx db ->
  kept ctx0 db0 (videoInserted mapped (fst (insertVideo mapped now db)) ctx)
    (snd (insertVideo mapped now db)).
Proof.
  intros (Hkey & Hstored & Hgrown & added & Hadded & Hlen & Hids).
  unfold insertVideo. destruct (hasVideo db (VideoInsert.id mapped)) eqn:Hhas;
    cbn [fst snd videoInserted withKnownId withStats knownIds stats countInserted
           countSkippedExisting inserted videos].
  - split; [exact Hkey |]. split.
    + intros id Hid. apply elem_of_union in Hid as [Hid | Hid]; [| apply Hstored, Hid].
      apply elem_of_singleton in Hid. subst id. exact Hhas.
    + split; [intros id Hid; apply elem_of_union; right; apply Hgrown, Hid |].
      exists added. split; [exact Hadded |]. split; [exact Hlen |].
      intros row Hrow. apply elem_of_union. right. apply Hids, Hrow.
  - assert (Hfresh : VideoInsert.id mapped ∉ map VideoInsert.id (videos db)).
    { intros Hin. apply hasVideo_elem in Hin. congruence. }
    split.
    + cbn [videos]. rewrite map_app. apply NoDup_app. split; [exact Hkey |]. split.
      * intros id Hid Hlast. cbn [map] in Hlast. apply list_elem_of_singleton in Hlast.
        subst id. contradiction.
      * cbn [map]. apply NoDup_singleton.
    + split.
      * intros id Hid. apply hasVideo_elem. cbn [videos]. rewrite map_app.
        apply elem_of_app. apply elem_of_union in Hid as [Hid | Hid].
        -- right. apply elem_of_singleton in Hid. subst id. cbn [map].
           apply list_elem_of_here.
        -- left. apply hasVideo_elem, Hstored, Hid.
      * split; [intros id Hid; apply elem_of_union; right; apply Hgrown, Hid |].
        exists (added ++ [mapped]). rewrite Hadded, <- app_assoc.
        split; [reflexivity |]. split.
        -- rewrite length_app, Nat2Z.inj_add.
           unfold withKnownId, withStats, countInserted. cbn [length inserted stats]. lia.
        -- intros row Hrow. apply elem_of_union. apply elem_of_app in Hrow as [Hrow | Hrow].
           ++ right. apply Hids, Hrow.
           ++ left. apply list_elem_of_singleton in Hrow. subst row.
              apply elem_of_singleton. reflexivity.
Qed.

Section StoreKept.

Variable JSON_parse : string -> RawVideo + string.
Variable cfg : Settings.
Variable ctx0 : IngestionContext.
Variable db0 : Database.

Lemma stepTask_kept (faults : list errval) (t t' : Task) (ctx ctx' : IngestionContext)
    (w w' : World) :
  stepTask cfg faults t ctx w = (t', ctx', w') ->
  kept ctx0 db0 ctx (database w) -> kept ctx0 db0 ctx' (database w').
Proof.
  destruct t as [video payload | video record | mapped | | error]; cbn [stepTask].
  - destruct (storeCall_cases cfg faults (upsertChannel payload) w)
      as [(error & w1 & -> & Hdb) | (now & w1 & -> & Hdb)].
    + intros H. injection H as <- <- <-. rewrite Hdb. auto.
    + assert (Hvideos : videos (database w1) = videos (database w))
        by (rewrite Hdb; apply upsertChannel_videos).
      unfold channelUpserted.
      destruct (fst (upsertChannel payload now (database w))) as [| record rows].
      * intros H. injection H as <- <- <-.
        apply kept_same; [reflexivity | reflexivity | exact Hvideos].
      * destruct (afterChannel video record (withChannel ctx record) w1) as [t1 c1] eqn:Ha.
        intros H. injection H as <- <- <-.
        destruct (afterChannel_frame _ _ _ _ _ _ Ha) as [Hknown Hinserted].
        apply kept_same; assumption.
  - destruct (afterChannel video record ctx w) as [t1 c1] eqn:Ha.
    intros H. injection H as <- <- <-.
    destruct (afterChannel_frame _ _ _ _ _ _ Ha) as [Hknown Hinserted].
    apply kept_same; [assumption | assumption | reflexivity].
  - destruct (storeCall_cases cfg faults (insertVideo mapped) w)
      as [(error & w1 & -> & Hdb) | (now & w1 & -> & Hdb)].
    + intros H. injection H as <- <- <-. rewrite Hdb. auto.
    + intros H. injection H as <- <- <-. rewrite Hdb. apply videoInserted_kept.
  - intros H. injection H as <- <- <-. auto.
  - intros H. injection H as <- <- <-. auto.
Qed.

Lemma drainLines_storeKept (fuel : nat) (st : Scrape) :
  storeKept ctx0 db0 st -> storeKept ctx0 db0 (drainLines JSON_parse fuel st).
Proof.
  revert st. induction fuel as [| fuel IH]; intros st Hst; [exact Hst |].
  cbn [drainLines]. destruct (breakLine (chars (stdoutBuffer st))) as [[text rest] |];
    [| exact Hst].
  assert (Hs : storeKept ctx0 db0 (setBuffer st (str rest))) by exact Hst.
  destruct (0 <? String.length (trim (str text)))%nat.
  - destruct (JSON_parse (trim (str text))) as [parsed | message].
    + apply IH, enqueueVideo_storeKept. exact Hs.
    + apply (sameLedger_storeKept _ _ _ _ (reject_ledger _ _)).
      apply (sameLedger_storeKept _ _ _ _ (kill_ledger _)). exact Hs.
  - apply IH. exact Hs.
Qed.

Lemma onClose_storeKept (code : option Z) (st : Scrape) :
  storeKept ctx0 db0 st -> storeKept ctx0 db0 (onClose JSON_parse code st).
Proof.
  intros Hst. unfold onClose.
  destruct (0 <? String.length (trim (stdoutBuffer st)))%nat.
  - destruct (JSON_parse (trim (stdoutBuffer st))) as [parsed | message].
    + apply (sameLedger_storeKept _ _ _ _ (tryFinish_ledger _)).
      apply (enqueueVideo_storeKept _ _ parsed (countLine st)). exact Hst.
    + apply (sameLedger_storeKept _ _ _ _ (reject_ledger _ _)). exact Hst.
  - apply (sameLedger_storeKept _ _ _ _ (tryFinish_ledger _)). exact Hst.
Qed.

Lemma onResume_storeKept (i : nat) (faults : list errval) (st : Scrape) :
  storeKept ctx0 db0 st -> storeKept ctx0 db0 (onResume cfg i faults st).
Proof.
  intros Hst. unfold onResume. destruct (tasks st !! i) as [t |]; [| exact Hst].
  destruct (isSettled t); [exact Hst |].
  destruct (stepTask cfg faults t (context st) (world st)) as [[t' ctx'] w'] eqn:Hstep.
  assert (Hset : storeKept ctx0 db0 (setTask st i t' ctx' w'))
    by exact (stepTask_kept faults t t' _ _ _ _ Hstep Hst).
  destruct t';
    try (apply (sameLedger_storeKept _ _ _ _ (tryFinish_ledger _)); exact Hset).
  apply (sameLedger_storeKept _ _ _ _ (unhandledRejection_ledger _)).
  apply (sameLedger_storeKept _ _ _ _ (tryFinish_ledger _)).
  apply (sameLedger_storeKept _ _ _ _ (noteFailure_ledger _ _)). exact Hset.
Qed.

Lemma step_storeKept (st : Scrape) (ev : Event) :
  storeKept ctx0 db0 st -> storeKept ctx0 db0 (step JSON_parse cfg st ev).
Proof.
  intros Hst. unfold step. destruct (isSome (crashed st)); [exact Hst |].
  destruct ev as [chunk | chunk | i faults | error | code | code]; cbn [deliver].
  - destruct (isSome (closing st)); [exact Hst |].
    unfold onStdout. apply drainLines_storeKept. exact Hst.
  - destruct (isSome (closing st)); exact Hst.
  - apply onResume_storeKept, Hst.
  - apply (sameLedger_storeKept _ _ _ _ (reject_ledger _ _)). exact Hst.
  - destruct (isSome (closing st)); [exact Hst | apply onClose_storeKept, Hst].
  - destruct (exited st); exact Hst.
Qed.

Lemma run_storeKept (events : list Event) (st : Scrape) :
  storeKept ctx0 db0 st -> storeKept ctx0 db0 (run JSON_parse cfg events st).
Proof.
  revert st. induction events as [| ev events IH]; intros st Hst; [exact Hst |].
  cbn [run fold_left]. fold (run JSON_parse cfg events (step JSON_parse cfg st ev)).
  apply IH, step_storeKept, Hst.
Qed.

End StoreKept.

Lemma kept_start (ctx : IngestionContext) (db : Database) :
  NoDup (map VideoInsert.id (videos db)) ->
  (forall id, id ∈ knownIds ctx -> hasVideo db id = true) ->
  kept ctx db ctx db.
Proof.
  intros Hkey Hstored. split; [exact Hkey |]. split; [exact Hstored |].
  split; [intros id Hid; exact Hid |].
  exists []. rewrite app_nil_r. split; [reflexivity |]. split; [cbn; lia |].
  intros row Hrow. apply elem_of_nil in Hrow. contradiction.
Qed.

(** X17: a run that starts on a video table with unique ids, all known
    ids being stored, keeps both at every point, whatever events and
    store errors come and however the tasks interleave.  The table only
    grows at its end: it is the table the run started on followed by the
    rows added, whose number is the growth of the [inserted] counter and
    whose ids are all known; no known id is forgotten. *)
Theorem run_keeps_store (JSON_parse : string -> RawVideo + string) (cfg : Settings)
    (ctx : IngestionContext) (w : World) (events : list Event) :
  NoDup (map VideoInsert.id (videos (database w))) ->
  (forall id, id ∈ knownIds ctx -> hasVideo (database w) id = true) ->
  let st := run JSON_parse cfg events (spawned ctx w) in
  NoDup (map VideoInsert.id (videos (database (world st))))
  /\ (forall id, id ∈ knownIds (context st) -> hasVideo (database (world st)) id = true)
  /\ knownIds ctx ⊆ knownIds (context st)
  /\ exists added,
       videos (database (world st)) = videos (database w) ++ added
       /\ Z.of_nat (length added) = inserted (stats (context st)) - inserted (stats ctx)
       /\ forall row, row ∈ added -> VideoInsert.id row ∈ knownIds (context st).
Proof.
  intros Hkey Hstored st.
  exact (run_storeKept JSON_parse cfg ctx (database w) events (spawned ctx w)
           (kept_start ctx (database w) Hkey Hstored)).
Qed.

(** Two records with the same id, their tasks interleaved so that both
    triage before either inserts. *)
Definition sameIdTwice : list Event :=
  [StdoutData (Json.quoted "{'id':'a'}" +:+ newline +:+ Json.quoted "{'id':'a'}" +:+ newline);
   Resume 0 []; Resume 1 []; Resume 0 []; Resume 1 []; Close (Some 0)].

(** The theorem at that run: one row is added, the second insert is
    dropped by the table and counted as skipped. *)
Lemma run_keeps_store_witness :
  stats (context (run Json.parse defaultSettings sameIdTwice
                    (spawned freshContext freshWorld)))
  = {| parsed := 2; inserted := 1; skippedExisting := 1; invalid := 0 |}
  /\ map VideoInsert.id
       (videos (database (world (run Json.parse defaultSettings sameIdTwice
                                   (spawned freshContext freshWorld))))) = ["a"]
  /\ NoDup (map VideoInsert.id
              (videos (database (world (run Json.parse defaultSettings sameIdTwice
                                          (spawned freshContext freshWorld)))))).
Proof.
  assert (Hkey : NoDup (map VideoInsert.id (videos (database freshWorld))))
    by (vm_compute; apply NoDup_nil_2).
  assert (Hstored : forall id, id ∈ knownIds freshContext ->
                               hasVideo (database freshWorld) id = true).
  { intros id Hid. apply elem_of_empty in Hid. contradiction. }
  destruct (run_keeps_store Json.parse defaultSettings freshContext freshWorld sameIdTwice
              Hkey Hstored) as (Hunique & _).
  split; [vm_compute; reflexivity |]. split; [vm_compute; reflexivity | exact Hunique].
Defined.

(** X18: [main] from bootstrap to the end of the run.  On a video table
    with unique ids, when [loadExistingChannelState] returns and the run
    starts from the context [createIngestionContext] makes of its
    result, the [inserted] counter at any point of the run is the number
    of rows the run has added to the table, the ids stay unique, and
    every row that was stored before for the matched channel is still
    known unless the channel was matched through raw data. *)
Theorem main_inserted_rows (JSON_parse : string -> RawVideo + string) (cfg : Settings)
    (faults : LoadFaults) (CHANNEL_URL : string) (w w' : World)
    (bootstrapState : ChannelBootstrapState) (now : Z) (events : list Event) :
  NoDup (map VideoInsert.id (videos (database w))) ->
  loadExistingChannelState cfg faults CHANNEL_URL w = (Ok bootstrapState, w') ->
  let ingestionContext :=
    createIngestionContext CHANNEL_URL now (bootChannel bootstrapState)
      (knownVideoIds bootstrapState) in
  let st := run JSON_parse cfg events (spawned ingestionContext w') in
  NoDup (map VideoInsert.id (videos (database (world st))))
  /\ (exists added,
        videos (database (world st)) = videos (database w) ++ added
        /\ inserted (stats (context st)) = Z.of_nat (length added))
  /\ (forall id, id ∈ knownIds (context st) -> hasVideo (database (world st)) id = true)
  /\ forall channel row,
       bootChannel bootstrapState = Some channel ->
       channelMatchStrategy bootstrapState <> Some raw_data ->
       row ∈ videos (database w) ->
       VideoInsert.channelId row = ChannelRow.id channel ->
       VideoInsert.id row ∈ knownIds (context st).
Proof.
  intros Hkey Hload ingestionContext st.
  destruct (loadExistingChannelState_reading cfg faults CHANNEL_URL w)
    as (w1 & Hdb & [[error Herr] | (state & Hok & Hstored & Hchannel)]);
    [congruence |].
  rewrite Hload in Hok. injection Hok as <- <-.
  assert (Hstart : kept ingestionContext (database w') ingestionContext (database w')).
  { apply kept_start; rewrite Hdb; [exact Hkey | exact Hstored]. }
  destruct (run_storeKept JSON_parse cfg _ _ events (spawned ingestionContext w') Hstart)
    as (Hunique & Hknown & Hgrown & added & Hadded & Hlen & _).
  fold st in Hunique, Hknown, Hgrown, Hadded, Hlen.
  split; [exact Hunique |]. split.
  - exists added. rewrite <- Hdb. split; [exact Hadded |].
    rewrite Hlen. cbn. lia.
  - split; [exact Hknown |].
    intros channel row Hboot Hstrategy Hrow Hof. apply Hgrown.
    rewrite Hboot in Hchannel. destruct Hchannel as (_ & _ & _ & Hall).
    exact (Hall Hstrategy row Hrow Hof).
Qed.

(** The theorem at a store that holds the channel and two of its
    videos, one of which the run sees again beside a new one. *)
Definition seenAndNew : list Event :=
  [StdoutData (Json.quoted "{'id':'a1'}" +:+ newline +:+ Json.quoted "{'id':'v9'}" +:+ newline);
   Resume 0 []; Resume 1 []; Resume 1 []; Close (Some 0)].

Lemma main_inserted_rows_witness :
  exists state,
    fst (loadExistingChannelState defaultSettings noFaults
           "https://www.youtube.com/@CareyNieuwhof/videos" twoVideosWorld) = Ok state
    /\ inserted
         (stats
            (context
               (run Json.parse defaultSettings seenAndNew
                  (spawned
                     (createIngestionContext "https://www.youtube.com/@CareyNieuwhof/videos"
                        1000 (bootChannel state) (knownVideoIds state))
                     (snd (loadExistingChannelState defaultSettings noFaults
                             "https://www.youtube.com/@CareyNieuwhof/videos"
                             twoVideosWorld)))))) = 1.
Proof.
  assert (Hkey : NoDup (map VideoInsert.id (videos (database twoVideosWorld)))).
  { apply (bool_decide_eq_true_1 _). vm_compute. reflexivity. }
  destruct (loadExistingChannelState defaultSettings noFaults
              "https://www.youtube.com/@CareyNieuwhof/videos" twoVideosWorld)
    as [[state | error] w'] eqn:Hload; [| vm_compute in Hload; discriminate].
  exists state. split; [reflexivity |]. cbn [snd].
  destruct (main_inserted_rows Json.parse defaultSettings noFaults
              "https://www.youtube.com/@CareyNieuwhof/videos" twoVideosWorld w'
              state 1000 seenAndNew Hkey Hload) as (_ & (added & Hadded & Hlen) & _).
  rewrite Hlen.
  assert (Hrows : length (videos (database twoVideosWorld) ++ added) = 3%nat).
  { rewrite <- Hadded. pose proof Hload as Hvalue. vm_compute in Hvalue.
    injection Hvalue as <- <-. vm_compute. reflexivity. }
  rewrite length_app in Hrows. cbn in Hrows. lia.
Defined.

(** ** The channel row *)

Lemma truthy_toNonEmptyString (value : option json) (text : string) :
  toNonEmptyString value = Some text -> truthy (Some text) = Some text.
Proof. intros H. unfold truthy. rewrite (toNonEmptyString_nonempty _ _ H). reflexivity. Qed.

(** X19: the canonical URL of the payload built from a record is the
    normal form of the first channel URL the record names, and then the
    record matches that URL in the lookup through raw data; a record
    that names no channel URL takes the normal form of the fallback URL
    and matches no URL at all. *)
Theorem buildChannelInsertPayload_matches (video : RawVideo) (fallbackChannelUrl : string)
    (scrapedAt : Date) :
  let payload := buildChannelInsertPayload video fallbackChannelUrl scrapedAt in
  match coalesce (toNonEmptyString (prop video "channel_url"))
          (coalesce (toNonEmptyString (prop video "playlist_channel_url"))
             (toNonEmptyString (prop video "uploader_url"))) with
  | Some source =>
      ChannelInsert.canonicalUrl payload = normalizeChannelUrl source
      /\ doesRawVideoMatchChannel video (ChannelInsert.canonicalUrl payload) = true
  | None =>
      ChannelInsert.canonicalUrl payload = normalizeChannelUrl fallbackChannelUrl
      /\ forall url, doesRawVideoMatchChannel video url = false
  end.
Proof.
  cbv zeta. unfold buildChannelInsertPayload, doesRawVideoMatchChannel.
  cbn [ChannelInsert.canonicalUrl existsb].
  destruct (toNonEmptyString (prop video "channel_url")) as [a |] eqn:Ha;
    [| destruct (toNonEmptyString (prop video "playlist_channel_url")) as [b |] eqn:Hb;
       [| destruct (toNonEmptyString (prop video "uploader_url")) as [c |] eqn:Hc]];
    cbn [coalesce orElse].
  - split; [reflexivity |].
    rewrite (truthy_toNonEmptyString _ _ Ha), String.eqb_refl. reflexivity.
  - split; [reflexivity |].
    rewrite (truthy_toNonEmptyString _ _ Hb), String.eqb_refl. cbn [truthy orb].
    reflexivity.
  - split; [reflexivity |].
    rewrite (truthy_toNonEmptyString _ _ Hc), String.eqb_refl. cbn [truthy orb].
    reflexivity.
  - split; [reflexivity |]. intros url. reflexivity.
Qed.

Lemma refreshByUrl_found (payload : ChannelInsert.t) (rows rows' : list ChannelRow.t)
    (hit : ChannelRow.t) :
  refreshByUrl payload rows = Some (hit, rows') ->
  find (fun row => String.eqb (ChannelRow.canonicalUrl row) (ChannelInsert.canonicalUrl payload))
    rows' = Some hit.
Proof.
  revert rows' hit. induction rows as [| row rows IH]; intros rows' hit; [discriminate |].
  cbn [refreshByUrl].
  destruct (String.eqb (ChannelRow.canonicalUrl row) (ChannelInsert.canonicalUrl payload))
    eqn:Hurl.
  - intros H. injection H as <- <-. cbn [find refreshChannel ChannelRow.canonicalUrl].
    rewrite Hurl. reflexivity.
  - destruct (refreshByUrl payload rows) as [[hit' rows''] |]; [| discriminate].
    intros H. injection H as <- <-. cbn [find]. rewrite Hurl. apply IH. reflexivity.
Qed.

Lemma refreshByUrl_none (payload : ChannelInsert.t) (rows : list ChannelRow.t) :
  refreshByUrl payload rows = None ->
  find (fun row => String.eqb (ChannelRow.canonicalUrl row) (ChannelInsert.canonicalUrl payload))
    rows = None.
Proof.
  induction rows as [| row rows IH]; [reflexivity |]. cbn [refreshByUrl find].
  destruct (String.eqb (ChannelRow.canonicalUrl row) (ChannelInsert.canonicalUrl payload));
    [discriminate |].
  destruct (refreshByUrl payload rows) as [[hit rows'] |]; [discriminate |].
  intros _. apply IH. reflexivity.
Qed.

Lemma find_app_none {A : Type} (p : A -> bool) (l l' : list A) :
  find p l = None -> find p (l ++ l') = find p l'.
Proof.
  induction l as [| x l IH]; [reflexivity |]. cbn [find app].
  destruct (p x); [discriminate | exact IH].
Qed.

(** The row an upsert returns is the row a lookup by the canonical URL
    of the payload finds afterwards. *)
Lemma upsertChannel_found (payload : ChannelInsert.t) (now : Z) (db : Database) :
  exists record,
    fst (upsertChannel payload now db) = [record]
    /\ find (fun row => String.eqb (ChannelRow.canonicalUrl row)
                          (ChannelInsert.canonicalUrl payload))
         (channels (snd (upsertChannel payload now db))) = Some record.
Proof.
  unfold upsertChannel.
  destruct (refreshByUrl payload (channels db)) as [[row rows] |] eqn:Hrefresh.
  - exists row. split; [reflexivity |]. cbn [snd channels].
    apply (refreshByUrl_found _ _ _ _ Hrefresh).
  - eexists. split; [reflexivity |]. cbn [snd channels].
    rewrite (find_app_none _ _ _ (refreshByUrl_none _ _ Hrefresh)).
    cbn [find ChannelRow.canonicalUrl]. rewrite String.eqb_refl. reflexivity.
Qed.

Lemma storeCall_thrown {T : Type} (cfg : Settings) (faults : list errval)
    (query : Z -> Database -> T * Database) (w w' : World) (error : errval) :
  storeCall cfg faults query w = (Err error, w') ->
  error ∈ faults /\ database w' = database w.
Proof.
  rewrite storeCall_decided. unfold decided.
  destruct (faults !! _) as [e |] eqn:Hlookup.
  - intros H. injection H as <- <-. split; [eapply list_elem_of_lookup_2, Hlookup |].
    cbn [snd]. apply sleepAll_database.
  - cbn [attempt]. destruct (query _ _) as [rows db]. discriminate.
Qed.

(** X20: [ensureChannelRecord] asks the store at most once with success:
    the record it returns is kept in the context, and from then on every
    call returns that record without a store call, whatever the record
    at hand.  The record of a call that did ask the store is the row a
    lookup by the payload's canonical URL finds afterwards.  A call that
    throws throws an error one of its attempts met, and leaves the
    context and the store as they were. *)
Theorem ensureChannelRecord_once (cfg : Settings) (faults : list errval) (video : RawVideo)
    (ctx ctx' : IngestionContext) (w w' : World) (r : result ChannelRow.t) :
  ensureChannelRecord cfg faults video ctx w = (r, ctx', w') ->
  match r with
  | Ok record =>
      channel ctx' = Some record
      /\ (forall faults' video' w2,
             ensureChannelRecord cfg faults' video' ctx' w2 = (Ok record, ctx', w2))
      /\ (channel ctx = None ->
          find (fun row =>
                  String.eqb (ChannelRow.canonicalUrl row)
                    (ChannelInsert.canonicalUrl
                       (buildChannelInsertPayload video (channelUrl ctx) (scrapedAt ctx))))
            (channels (database w')) = Some record)
  | Err error =>
      channel ctx = None /\ ctx' = ctx /\ database w' = database w /\ error ∈ faults
  end.
Proof.
  unfold ensureChannelRecord. destruct (channel ctx) as [known |] eqn:Hchannel.
  - intros H. injection H as <- <- <-. split; [exact Hchannel |]. split.
    + intros faults' video' w2. rewrite Hchannel. reflexivity.
    + discriminate.
  - set (payload := buildChannelInsertPayload video (channelUrl ctx) (scrapedAt ctx)).
    destruct (storeCall cfg faults (upsertChannel payload) w) as [[rows | error] w1] eqn:Hcall.
    + destruct (storeCall_cases cfg faults (upsertChannel payload) w)
        as [(error & w2 & Hcase & _) | (now & w2 & Hcase & Hdb)];
        [rewrite Hcall in Hcase; discriminate |].
      rewrite Hcall in Hcase. injection Hcase as -> <-.
      destruct (upsertChannel_found payload now (database w)) as (record & -> & Hfind).
      cbn [channelUpserted]. intros H. injection H as <- <- <-.
      split; [reflexivity |]. split.
      * intros faults' video' w2. reflexivity.
      * intros _. rewrite Hdb. exact Hfind.
    + intros H. injection H as <- <- <-.
      destruct (storeCall_thrown _ _ _ _ _ _ Hcall) as [Hin Hdb].
      split; [reflexivity |]. split; [reflexivity |]. split; assumption.
Qed.

(** The theorem at the first record of a run on an empty store. *)
Lemma ensureChannelRecord_once_witness :
  exists record ctx' w',
    ensureChannelRecord defaultSettings [connectionReset] abc123 freshContext freshWorld
    = (Ok record, ctx', w')
    /\ channel ctx' = Some record
    /\ ensureChannelRecord defaultSettings [] [] ctx' freshWorld = (Ok record, ctx', freshWorld).
Proof.
  destruct (ensureChannelRecord defaultSettings [connectionReset] abc123 freshContext
              freshWorld) as [[[record | error] ctx'] w'] eqn:Hcall;
    [| vm_compute in Hcall; discriminate].
  exists record, ctx', w'. split; [reflexivity |].
  destruct (ensureChannelRecord_once _ _ _ _ _ _ _ _ Hcall) as (Hkept & Hagain & _).
  split; [exact Hkept | apply Hagain].
Defined.

(** ** Which channel the bootstrap picks *)

(** How a bootstrap state came by its channel, for the store [db] and
    the normal form [url] of the channel URL. *)
Definition matchedBy (url : string) (db : Database) (state : ChannelBootstrapState) : Prop :=
  match find (fun row => String.eqb (ChannelRow.canonicalUrl row) url) (channels db) with
  | Some row => bootChannel state = Some row /\ channelMatchStrategy state = Some canonical
  | None =>
      match bootChannel state, channelMatchStrategy state with
      | None, None => True
      | Some found, Some byHandle =>
          exists handle,
            extractHandleFromUrl url = Some handle
            /\ (ChannelRow.handle found = Some handle
                \/ ChannelRow.handle found = Some (sliceFrom1 handle))
      | Some found, Some raw_data =>
          exists row,
            row ∈ videos db
            /\ doesRawVideoMatchChannel (VideoInsert.rawData row) url = true
            /\ VideoInsert.channelId row = ChannelRow.id found
      | Some found, Some fallback =>
          (forall row, row ∈ videos db ->
                       doesRawVideoMatchChannel (VideoInsert.rawData row) url = false)
          /\ exists row, row ∈ videos db /\ VideoInsert.channelId row = ChannelRow.id found
      | _, _ => False
      end
  end.

Lemma truthy_some (text : option string) (t : string) : truthy text = Some t -> text = Some t.
Proof.
  unfold truthy. destruct text as [s |]; [| discriminate].
  destruct (isEmpty s); [discriminate | trivial].
Qed.

Lemma lookupByHandle_handle (cfg : Settings) (faults : LoadFaults) (handle : string) :
  reads (lookupByHandle cfg faults handle)
    (fun db found =>
       forall channel,
         found = Some channel ->
         ChannelRow.handle channel = Some handle
         \/ ChannelRow.handle channel = Some (sliceFrom1 handle)).
Proof.
  unfold lookupByHandle.
  eapply reads_bind; [apply reads_storeCall; intros now db; reflexivity |].
  intros [channel |].
  - apply reads_ret. intros db Hfound c Hc. injection Hc as <-.
    symmetry in Hfound. apply find_elem in Hfound as [_ Hp].
    left. apply bool_decide_eq_true_1 in Hp. exact Hp.
  - destruct (startsWith handle "@").
    + eapply reads_weaken; [apply reads_storeCall; intros now db; reflexivity |].
      cbn beta. intros db found Hfound _ c Hc. rewrite Hfound in Hc.
      apply find_elem in Hc as [_ Hp]. right. apply bool_decide_eq_true_1 in Hp. exact Hp.
    + apply reads_ret. intros db _ c Hc. discriminate.
Qed.

Lemma filter_nil_none {A : Type} (P : A -> Prop) `{forall x, Decision (P x)} (l : list A) :
  filter P l = [] -> forall x, x ∈ l -> ~ P x.
Proof.
  intros Hnil x Hin HP.
  assert (Hx : x ∈ filter P l) by (apply list_elem_of_filter; split; assumption).
  rewrite Hnil in Hx. apply elem_of_nil in Hx. exact Hx.
Qed.

Lemma lookupByRawData_strategy (cfg : Settings) (faults : LoadFaults) (url : string)
    (rows : list VideoInsert.t) :
  reads (lookupByRawData cfg faults url rows)
    (fun db found =>
       forall channel strategy rows',
         found = Some (channel, strategy, rows') ->
         (strategy = raw_data
          /\ exists row, row ∈ rows
                         /\ doesRawVideoMatchChannel (VideoInsert.rawData row) url = true
                         /\ VideoInsert.channelId row = ChannelRow.id channel)
         \/ (strategy = fallback
             /\ (forall row, row ∈ rows ->
                             doesRawVideoMatchChannel (VideoInsert.rawData row) url = false)
             /\ exists row, row ∈ rows
                            /\ VideoInsert.channelId row = ChannelRow.id channel)).
Proof.
  unfold lookupByRawData.
  set (matching := filter _ rows).
  set (candidates := match matching with [] => rows | _ => matching end).
  destruct (find _ candidates) as [candidate |] eqn:Hcandidate.
  - apply find_elem in Hcandidate as [Hin _].
    eapply reads_bind; [apply reads_storeCall; intros now db; reflexivity |].
    intros [found |]; apply reads_ret.
    + intros db Hfound channel strategy rows' Heq. injection Heq as <- <- <-.
      symmetry in Hfound. apply find_elem in Hfound as [_ Hid].
      apply Z.eqb_eq in Hid.
      destruct matching as [| m ms] eqn:Hmatching.
      * right. split; [reflexivity |]. split.
        -- intros row Hrow.
           pose proof (filter_nil_none _ rows Hmatching row Hrow) as Hno.
           cbn beta in Hno. destruct (doesRawVideoMatchChannel _ url); [| reflexivity].
           exfalso. apply Hno. reflexivity.
        -- exists candidate. split; [exact Hin | symmetry; exact Hid].
      * left. split; [reflexivity |]. exists candidate.
        unfold candidates in Hin. rewrite <- Hmatching in Hin. unfold matching in Hin.
        apply list_elem_of_filter in Hin as [Hmatch Hrow].
        split; [exact Hrow |]. split; [exact Hmatch | symmetry; exact Hid].
    + intros db _ channel strategy rows' Heq. discriminate.
  - apply reads_ret. intros db channel strategy rows' Heq. discriminate.
Qed.

Lemma loadExistingChannelState_matchedBy (cfg : Settings) (faults : LoadFaults)
    (channelUrl : string) :
  reads (loadExistingChannelState cfg faults channelUrl)
    (matchedBy (normalizeChannelUrl channelUrl)).
Proof.
  unfold loadExistingChannelState.
  set (url := normalizeChannelUrl channelUrl).
  set (byCanonicalUrl := fun row => String.eqb (ChannelRow.canonicalUrl row) url).
  eapply reads_bind; [apply reads_storeCall; intros now db; reflexivity |].
  intros byUrl.
  eapply (reads_bind _ _
            (fun db matched =>
               byUrl = find byCanonicalUrl (channels db) ->
               match byUrl with
               | Some row => matched = Some (row, canonical)
               | None =>
                   forall channel strategy,
                     matched = Some (channel, strategy) ->
                     strategy = byHandle
                     /\ exists handle,
                          extractHandleFromUrl url = Some handle
                          /\ (ChannelRow.handle channel = Some handle
                              \/ ChannelRow.handle channel = Some (sliceFrom1 handle))
               end)).
  { destruct byUrl as [found |].
    - apply reads_ret. intros db _. reflexivity.
    - destruct (truthy (extractHandleFromUrl url)) as [handle |] eqn:Hhandle.
      + apply truthy_some in Hhandle.
        eapply reads_bind; [apply lookupByHandle_handle |].
        intros found. apply reads_ret. intros db Hfound _ channel strategy Heq.
        destruct found as [c |]; [| discriminate]. injection Heq as <- <-.
        split; [reflexivity |]. exists handle. split; [exact Hhandle |].
        apply Hfound. reflexivity.
      + apply reads_ret. intros db _ channel strategy Heq. discriminate. }
  intros matched.
  eapply reads_bind;
    [apply (reads_storeCall cfg (rowsFaults faults) _
              (fun db => match option_map (fun m => ChannelRow.id (fst m)) matched with
                         | Some id =>
                             filter (fun row => VideoInsert.channelId row = id) (videos db)
                         | None => videos db
                         end));
     intros now db; reflexivity |].
  intros rows. destruct matched as [[channel strategy] |].
  - apply reads_ret. intros db _ Hmatched Hfind. specialize (Hmatched Hfind).
    unfold matchedBy. fold byCanonicalUrl. rewrite <- Hfind.
    destruct byUrl as [row |].
    + injection Hmatched as <- <-. split; reflexivity.
    + destruct (Hmatched channel strategy eq_refl) as (-> & handle & Hhandle & Hof).
      cbn [summarizeRows bootChannel channelMatchStrategy]. exists handle. split; assumption.
  - eapply reads_bind; [apply lookupByRawData_strategy |].
    intros [[[channel strategy] rows'] |]; apply reads_ret.
    + intros db Hfound Hrows Hmatched Hfind. specialize (Hmatched Hfind).
      unfold matchedBy. fold byCanonicalUrl. rewrite <- Hfind.
      destruct byUrl as [row |]; [discriminate |].
      subst rows. cbn [option_map] in Hfound.
      cbn [summarizeRows bootChannel channelMatchStrategy].
      destruct (Hfound channel strategy rows' eq_refl)
        as [(-> & row & Hrow & Hmatch & Hid) | (-> & Hnone & row & Hrow & Hid)].
      * exists row. split; [exact Hrow |]. split; assumption.
      * split; [exact Hnone |]. exists row. split; assumption.
    + intros db _ _ Hmatched Hfind. specialize (Hmatched Hfind).
      unfold matchedBy. fold byCanonicalUrl. rewrite <- Hfind.
      destruct byUrl as [row |]; [discriminate |]. exact I.
Qed.

(** X21: the order in which [loadExistingChannelState] looks for the
    channel.  When a row has the normal form of the channel URL as its
    canonical URL, the first such row is the channel and the strategy is
    canonical.  Otherwise the strategy is never canonical: by handle,
    the URL has a handle and the channel's handle is that handle, with
    or without its first character; by raw data, a stored video of the
    channel names the URL; by fallback, no stored video names the URL
    and the channel is merely that of some stored video. *)
Theorem loadExistingChannelState_strategy (cfg : Settings) (faults : LoadFaults)
    (channelUrl : string) (w : World) (state : ChannelBootstrapState) :
  fst (loadExistingChannelState cfg faults channelUrl w) = Ok state ->
  matchedBy (normalizeChannelUrl channelUrl) (database w) state.
Proof.
  intros Hload.
  destruct (loadExistingChannelState_matchedBy cfg faults channelUrl w)
    as (w' & _ & [[error Herr] | (a & Ha & Hpost)]).
  - rewrite Herr in Hload. discriminate.
  - rewrite Ha in Hload. injection Hload as <-. exact Hpost.
Qed.

(** A store whose only channel has another URL and no handle, and whose
    only video names no channel. *)
Definition otherChannelWorld : World :=
  {| database :=
       {| channels :=
            [{| ChannelRow.id := 1;
                ChannelRow.canonicalUrl := "https://www.youtube.com/channel/UC123/";
                ChannelRow.externalId := None;
                ChannelRow.handle := None;
                ChannelRow.displayName := None;
                ChannelRow.createdAt := 0;
                ChannelRow.updatedAt := Some 0 |}];
          videos := [storedVideo "a1" 1 []];
          nextChannelId := 2 |};
     clock := 1700000000000;
     slept := [] |}.

(** The theorem at that store: the URL of a channel the store has never
    seen is matched to the stored channel by fallback. *)
Lemma loadExistingChannelState_strategy_witness :
  exists state,
    fst (loadExistingChannelState defaultSettings noFaults
           "https://www.youtube.com/@CareyNieuwhof/videos" otherChannelWorld) = Ok state
    /\ channelMatchStrategy state = Some fallback
    /\ matchedBy (normalizeChannelUrl "https://www.youtube.com/@CareyNieuwhof/videos")
         (database otherChannelWorld) state.
Proof.
  destruct (fst (loadExistingChannelState defaultSettings noFaults
                   "https://www.youtube.com/@CareyNieuwhof/videos" otherChannelWorld))
    as [state | error] eqn:Hload; [| vm_compute in Hload; discriminate].
  exists state. split; [reflexivity |]. split.
  - pose proof Hload as Hvalue. vm_compute in Hvalue. injection Hvalue as <-. reflexivity.
  - apply (loadExistingChannelState_strategy defaultSettings noFaults _ _ _ Hload).
Defined.

(** ** Dates written and read back *)

Lemma Day_midnight (t : Z) : Day (Day t * msPerDay) = Day t.
Proof. unfold Day. apply Z.div_mul. discriminate. Qed.

(** X22: the text [formatDateAsYyyymmdd] writes for an instant of a year
    from 1000 to 9999 is read back by [uploadDateStringToDate] as the
    UTC midnight of the instant's day, and writing that midnight gives
    the same text again. *)
Theorem formatDateAsYyyymmdd_read_back (t : Z) :
  1000 <= YearFromTime t <= 9999 ->
  uploadDateStringToDate (Some (formatDateAsYyyymmdd (Some t)))
  = Some (Some (Day t * msPerDay))
  /\ formatDateAsYyyymmdd (Some (Day t * msPerDay)) = formatDateAsYyyymmdd (Some t).
Proof.
  intros Hyear. split.
  - rewrite formatDateAsYyyymmdd_civil.
    destruct (civil_of_time t) as (Hvalid & _ & Hday).
    pose proof (parseUploadDate_ymdText _ _ _ Hyear Hvalid) as Hparse.
    destruct (parseUploadDate_time _ _ Hparse) as [Hmax Hne].
    unfold uploadDateStringToDate. rewrite Hne, Hparse. unfold newDateZ, TimeClip.
    apply Z.leb_le in Hmax. rewrite Hmax, Hday. do 2 f_equal. unfold msPerDay. lia.
  - rewrite !formatDateAsYyyymmdd_civil.
    unfold DateFromTime, MonthFromTime, DayWithinYear, InLeapYear, YearFromTime.
    rewrite Day_midnight. reflexivity.
Qed.

(** The theorem at 15 January 2024, ten o'clock. *)
Lemma formatDateAsYyyymmdd_read_back_witness :
  formatDateAsYyyymmdd (Some 1705312800000) = "20240115"
  /\ uploadDateStringToDate (Some (formatDateAsYyyymmdd (Some 1705312800000)))
     = Some (Some 1705276800000).
Proof.
  split; [vm_compute; reflexivity |].
  assert (Hyear : 1000 <= YearFromTime 1705312800000 <= 9999)
    by (vm_compute; split; discriminate).
  rewrite (proj1 (formatDateAsYyyymmdd_read_back 1705312800000 Hyear)).
  vm_compute. reflexivity.
Defined.

(** ** The normal form of a channel URL *)

(** X23: let [x], with the white space around it removed, be an http(s)
    URL in the plain form of [URL.plain]: scheme, two slashes, a host of
    letters, digits, dots and hyphens with neither credentials nor port,
    a path the parser keeps as written, then any query and fragment.
    Its normal form is the scheme and the host the parser read, in lower
    case, followed by a path that begins and ends with a slash, has no
    slash twice in a row and holds neither a question mark nor a hash:
    the query and the fragment are gone.  It has no white space around
    it. *)
Theorem normalizeChannelUrl_canonical (x : string) :
  URL.plain (trim x) = true ->
  exists u p,
    URL.parse (trim x) = Some u
    /\ normalizeChannelUrl x = str (URL.scheme u ++ chars "://" ++ URL.host u ++ p)
    /\ (URL.scheme u = chars "http" \/ URL.scheme u = chars "https")
    /\ map URL.asciiLower (URL.host u) = URL.host u
    /\ rooted p = true /\ endsSlash p = true /\ noDouble p = true
    /\ forallb (fun c => negb (Ascii.eqb c "?" || Ascii.eqb c "#")) p = true
    /\ trim (normalizeChannelUrl x) = normalizeChannelUrl x.
Proof.
  intros Hplain. destruct (plain_parses _ Hplain) as [u Hparse].
  pose proof (parse_l_parsedUrl _ _ Hparse) as Hu.
  destruct (canonicalPath_shape (URL.path u) (parsed_pathChars u Hu))
    as (Hrooted & Hchars & Hends & Hno).
  exists u, (canonicalPath (URL.path u)). split; [exact Hparse |].
  rewrite (normalizeChannelUrl_href x u Hparse).
  split; [reflexivity |]. split; [apply Hu |]. split; [apply Hu |].
  split; [exact Hrooted |]. split; [exact Hends |]. split; [exact Hno |].
  split; [exact Hchars | apply (hrefOf_trim u _ Hu Hends)].
Qed.

(** The theorem at the channel's videos tab, written carelessly. *)
Lemma normalizeChannelUrl_canonical_witness :
  normalizeChannelUrl " https://www.YouTube.com/@CareyNieuwhof//videos?view=0#top "
  = "https://www.youtube.com/@CareyNieuwhof/"
  /\ trim (normalizeChannelUrl " https://www.YouTube.com/@CareyNieuwhof//videos?view=0#top ")
     = normalizeChannelUrl " https://www.YouTube.com/@CareyNieuwhof//videos?view=0#top ".
Proof.
  assert (Hplain : URL.plain
                     (trim " https://www.YouTube.com/@CareyNieuwhof//videos?view=0#top ")
                   = true) by (vm_compute; reflexivity).
  destruct (normalizeChannelUrl_canonical _ Hplain) as (u & p & _ & _ & _ & _ & _ & _ & _ & _ & Htrim).
  split; [vm_compute; reflexivity | exact Htrim].
Defined.

